(** * Topology repair of polygon layers: a model of [repair_gdf_jc_v1_2.py]

    The Python module rebuilds a polygon layer from the pieces of the
    arrangement of its boundaries.  The geometry kernel (shapely, the
    STRtree index) is an external library: it is taken as a record of
    operations, [Shapely].  The data frames of the program live in a store
    and are reached through references, since the program copies frames and
    updates them in place.  Exceptions, printed lines and warnings are part
    of the result of a run. *)

From Stdlib Require Import QArith Qround Lqa.
From stdpp Require Import gmap strings list sorting.

Open Scope string_scope.
Open Scope list_scope.

(** ** Geometry kernel *)

(** [geom.geom_type] as far as the program tests it. *)
Inductive gtype :=
| Polygon | MultiPolygon | Point | MultiPoint
| LineString | MultiLineString | GeometryCollection | LinearRing.

#[global] Instance gtype_eq_dec : EqDecision gtype.
Proof. solve_decision. Defined.

Definition pt : Type := (Q * Q)%type.

(** The operations of shapely and of its STRtree that the module calls.
    Lengths, areas and distances are rationals.  The operations are reached
    as [shp.area], [shp.intersection], ... *)
Module shp.

Record Shapely := {
  geom : Type;
  is_empty : geom -> bool;
  geom_type : geom -> gtype;
  (** [list(g)]: the members of a multi-part geometry; [len(g)] is the
      length of this list and [g[k]] its k-th element *)
  parts : geom -> list geom;
  area : geom -> Q;
  length : geom -> Q;
  distance : geom -> geom -> Q;
  boundary : geom -> geom;
  intersection : geom -> geom -> geom;
  unary_union : list geom -> geom;
  polygonize : geom -> list geom;
  representative_point : geom -> geom;
  (** [LineString(list(g.exterior.coords))] *)
  exterior_line : geom -> geom;
  (** [Polygon()] *)
  empty_polygon : geom;
  (** [MultiPolygon(l)], [MultiLineString(l)], [MultiPoint(l)] *)
  mk_multipolygon : list geom -> geom;
  mk_multilinestring : list geom -> geom;
  mk_multipoint : list pt -> geom;
  (** [Point(x, y)], [LineString(l)], [Polygon(l)] *)
  mk_point : pt -> geom;
  mk_linestring : list pt -> geom;
  mk_polygon : list pt -> geom;
  coords : geom -> list pt;
  linemerge : geom -> geom;
  centroid : geom -> geom;
  buffer : geom -> Q -> geom;
  (** [shp.ops.nearest_points(a, b)] *)
  nearest_points : geom -> geom -> pt * pt;
  (** [shp.ops.split(g, line)] as the list of its members *)
  split : geom -> geom -> list geom;
  contains : geom -> geom -> bool;
  disjoint : geom -> geom -> bool;
  intersects : geom -> geom -> bool;
  (** [wkb.loads(wkb.dumps(g, output_dimension=2))] *)
  to_2d : geom -> geom;
  (** [STRtree(l).query(g)], as positions in [l] *)
  strtree_query : list geom -> geom -> list nat;
}.

End shp.

Existing Class shp.Shapely.

(** ** Values, rows and frames *)

(** A cell of a column other than the geometry column. *)
Inductive value :=
| VInt (n : nat)
| VNum (q : Q)
| VSet (s : gset nat)
| VStr (s : string)
| VNone.

Record CRS := { crs_name : string; is_geographic : bool }.

#[global] Instance CRS_eq_dec : EqDecision CRS.
Proof. solve_decision. Defined.

(** Python exceptions that the module can raise. *)
Inductive exn :=
| TypeError
| ValueError
| KeyError
| IndexError
| NameError (name : string)
| UnboundLocalError (name : string)
| ReferenceError.

(** What a run leaves on the terminal: [print] with one argument, [print]
    of a text, an index and a text, and [warnings.warn]. *)
Inductive msg :=
| Print (s : string)
| PrintIndex (before : string) (ind : nat) (after : string)
| Warn (s : string).

Inductive res (A : Type) :=
| Ok (a : A)
| Raise (e : exn)
| Timeout.
Arguments Ok {A} a.
Arguments Raise {A} e.
Arguments Timeout {A}.

(** ** Numbers and sorting *)

Definition Qltb (a b : Q) : bool := negb (Qle_bool b a).
Definition Qeqb (a b : Q) : bool := Qeq_bool a b.

(** [sorted(l, key=...)]: a stable sort, as Python's is. *)
Fixpoint insert_by {A} (key : A -> Q) (x : A) (l : list A) : list A :=
  match l with
  | [] => [x]
  | y :: l' => if Qltb (key x) (key y) then x :: l else y :: insert_by key x l'
  end.

Definition sorted {A} (key : A -> Q) (l : list A) : list A :=
  foldl (fun acc x => insert_by key x acc) [] l.

(** [range(n)] *)
Definition range (n : nat) : list nat := seq 0 n.

(** ** A kernel of grid-aligned shapes

    Shapes made of the unit squares of the integer grid, with their unit
    edges and corners.  The kernel is exact on them; it is the kernel of the
    concrete runs below. *)
Module grid.

(** The square with lower left corner [(x, y)]; the edge from [(x, y)] to
    [(x+1, y)] ([true]) or to [(x, y+1)] ([false]); the corner [(x, y)];
    the centre of a square. *)
Definition face : Type := (nat * nat)%type.
Definition edge : Type := (bool * (nat * nat))%type.
Definition vertex : Type := (nat * nat)%type.

Record shape := {
  faces : gset face;
  edges : gset edge;
  verts : gset vertex;
  centres : gset face;
}.

Definition empty : shape :=
  {| faces := ∅; edges := ∅; verts := ∅; centres := ∅ |}.

Definition face_edges (f : face) : gset edge :=
  {[ (true, f); (true, (f.1, S f.2)); (false, f); (false, (S f.1, f.2)) ]}.

Definition edge_verts (e : edge) : gset vertex :=
  if e.1 then {[ e.2; (S e.2.1, e.2.2) ]} else {[ e.2; (e.2.1, S e.2.2) ]}.

Definition big_union {A B} `{Countable B} (h : A -> gset B) (l : list A) : gset B :=
  foldr (fun x acc => h x ∪ acc) ∅ l.

(** The closed region covered by a set of squares. *)
Definition region (fs : gset face) : shape :=
  let es := big_union face_edges (elements fs) in
  {| faces := fs; edges := es;
     verts := big_union edge_verts (elements es); centres := fs |}.

(** The closed curve made of a set of edges. *)
Definition curve (es : gset edge) : shape :=
  {| faces := ∅; edges := es;
     verts := big_union edge_verts (elements es); centres := ∅ |}.

Definition union2 (a b : shape) : shape :=
  {| faces := faces a ∪ faces b; edges := edges a ∪ edges b;
     verts := verts a ∪ verts b; centres := centres a ∪ centres b |}.

Definition inter2 (a b : shape) : shape :=
  {| faces := faces a ∩ faces b; edges := edges a ∩ edges b;
     verts := verts a ∩ verts b; centres := centres a ∩ centres b |}.

Definition is_empty (g : shape) : bool :=
  bool_decide (faces g = ∅ /\ edges g = ∅ /\ verts g = ∅ /\ centres g = ∅).

(** The two squares on the sides of an edge; the square below a bottom
    edge or left of a leftmost edge does not exist. *)
Definition edge_faces (e : edge) : list face :=
  if e.1 then
    match e.2.2 with O => [e.2] | S y => [e.2; (e.2.1, y)] end
  else
    match e.2.1 with O => [e.2] | S x => [e.2; (x, e.2.2)] end.

Definition sides_in (fs : gset face) (e : edge) : nat :=
  List.length (List.filter (fun f => bool_decide (f ∈ fs)) (edge_faces e)).

Definition boundary_edges (fs : gset face) : gset edge :=
  filter (fun e => sides_in fs e = 1) (big_union face_edges (elements fs)).

Definition boundary (g : shape) : shape := curve (boundary_edges (faces g)).

Definition qnat (n : nat) : Q := inject_Z (Z.of_nat n).

Definition area (g : shape) : Q := qnat (size (faces g)).

Definition length (g : shape) : Q :=
  qnat (size (filter (fun e => sides_in (faces g) e <> 2) (edges g))).

Definition meet (a b : shape) : bool :=
  negb (is_empty (inter2 a b))
  || negb (bool_decide (centres a ∩ faces b = ∅))
  || negb (bool_decide (faces a ∩ centres b = ∅)).

Definition distance (a b : shape) : Q := if meet a b then 0 else 1.

(** *** Connected components *)

Fixpoint grow {A} (adj : A -> A -> bool) (fuel : nat) (comp rest : list A)
  : list A * list A :=
  match fuel with
  | O => (comp, rest)
  | S fuel' =>
      let near := List.filter (fun x => existsb (adj x) comp) rest in
      let far := List.filter (fun x => negb (existsb (adj x) comp)) rest in
      match near with
      | [] => (comp, rest)
      | _ => grow adj fuel' (comp ++ near) far
      end
  end.

Fixpoint components {A} (adj : A -> A -> bool) (fuel : nat) (l : list A)
  : list (list A) :=
  match fuel, l with
  | S fuel', x :: r =>
      let cr := grow adj (List.length r) [x] r in
      cr.1 :: components adj fuel' cr.2
  | _, _ => []
  end.

Definition face_adj (a b : face) : bool :=
  bool_decide (a.1 = b.1 /\ (a.2 = S b.2 \/ b.2 = S a.2))
  || bool_decide (a.2 = b.2 /\ (a.1 = S b.1 \/ b.1 = S a.1)).

Definition edge_adj (a b : edge) : bool :=
  negb (bool_decide (edge_verts a ∩ edge_verts b = ∅)).

Definition sort_faces (l : list face) : list face :=
  merge_sort (fun a b => a.2 < b.2 \/ (a.2 = b.2 /\ a.1 <= b.1)) l.

Definition face_components (fs : gset face) : list (gset face) :=
  let l := sort_faces (elements fs) in
  map list_to_set (components face_adj (List.length l) l).

Definition edge_components (es : gset edge) : list (gset edge) :=
  let l := elements es in
  map list_to_set (components edge_adj (List.length l) l).

Definition parts (g : shape) : list shape :=
  if negb (bool_decide (faces g = ∅)) then map region (face_components (faces g))
  else if negb (bool_decide (edges g = ∅)) then map curve (edge_components (edges g))
  else map (fun v => {| faces := ∅; edges := ∅; verts := {[v]}; centres := ∅ |})
           (elements (verts g))
       ++ map (fun c => {| faces := ∅; edges := ∅; verts := ∅; centres := {[c]} |})
              (elements (centres g)).

Definition geom_type (g : shape) : gtype :=
  if negb (bool_decide (faces g = ∅)) then
    match face_components (faces g) with [_] => Polygon | _ => MultiPolygon end
  else if negb (bool_decide (edges g = ∅)) then
    match edge_components (edges g) with [_] => LineString | _ => MultiLineString end
  else match size (verts g) + size (centres g) with
       | 0 => Polygon
       | 1 => Point
       | _ => MultiPoint
       end.

(** *** Polygonization *)

(** Two neighbouring squares are in the same cell of the arrangement when
    the edge between them is not one of the lines. *)
Definition open_adj (lines : gset edge) (a b : face) : bool :=
  bool_decide (a.2 = b.2 /\ a.1 = S b.1 /\ (false, a) ∉ lines)
  || bool_decide (a.2 = b.2 /\ b.1 = S a.1 /\ (false, b) ∉ lines)
  || bool_decide (a.1 = b.1 /\ a.2 = S b.2 /\ (true, a) ∉ lines)
  || bool_decide (a.1 = b.1 /\ b.2 = S a.2 /\ (true, b) ∉ lines).

(** The squares of the box [0..w] x [0..h]; the lines must stay clear of
    its outer ring, which is the unbounded cell. *)
Definition box (w h : nat) : list face :=
  flat_map (fun y => map (fun x => (x, y)) (seq 0 (S w))) (seq 0 (S h)).

Definition extent (lines : gset edge) : nat * nat :=
  (S (max_list (map (fun e : edge => e.2.1) (elements lines))),
   S (max_list (map (fun e : edge => e.2.2) (elements lines)))).

Definition on_ring (w h : nat) (f : face) : bool :=
  bool_decide (f.1 = 0 \/ f.2 = 0 \/ f.1 = w \/ f.2 = h).

Definition polygonize (lines : shape) : list shape :=
  let wh := extent (edges lines) in
  let l := box wh.1 wh.2 in
  let cs := components (open_adj (edges lines)) (List.length l) l in
  map (fun c => region (list_to_set c))
      (List.filter (fun c => negb (existsb (on_ring wh.1 wh.2) c)) cs).

Definition representative_point (g : shape) : shape :=
  match sort_faces (elements (faces g)) with
  | c :: _ => {| faces := ∅; edges := ∅; verts := ∅; centres := {[c]} |}
  | [] => empty
  end.

Definition subshape (a b : shape) : bool :=
  bool_decide (faces a ⊆ faces b /\ edges a ⊆ edges b /\ verts a ⊆ verts b
               /\ centres a ⊆ centres b).

Definition vertex_pt (v : vertex) : pt := (qnat v.1, qnat v.2).

Definition pt_vertex (p : pt) : vertex :=
  (Z.to_nat (Qfloor p.1), Z.to_nat (Qfloor p.2)).

Definition of_verts (l : list vertex) : shape :=
  {| faces := ∅; edges := ∅; verts := list_to_set l; centres := ∅ |}.

(** The kernel.  Buffers, centroids, splits and free-form lines and
    polygons leave the grid; the kernel answers them with the empty shape
    or with the shape itself, and the runs below do not reach them. *)
Definition kernel : shp.Shapely := {|
  shp.geom := shape;
  shp.is_empty := is_empty;
  shp.geom_type := geom_type;
  shp.parts := parts;
  shp.area := area;
  shp.length := length;
  shp.distance := distance;
  shp.boundary := boundary;
  shp.intersection := inter2;
  shp.unary_union := foldr union2 empty;
  shp.polygonize := polygonize;
  shp.representative_point := representative_point;
  shp.exterior_line := boundary;
  shp.empty_polygon := empty;
  shp.mk_multipolygon := foldr union2 empty;
  shp.mk_multilinestring := foldr union2 empty;
  shp.mk_multipoint := fun l => of_verts (map pt_vertex l);
  shp.mk_point := fun p => of_verts [pt_vertex p];
  shp.mk_linestring := fun _ => empty;
  shp.mk_polygon := fun _ => empty;
  shp.coords := fun g => map vertex_pt (elements (verts g));
  shp.linemerge := fun g => g;
  shp.centroid := fun _ => empty;
  shp.buffer := fun _ _ => empty;
  shp.nearest_points := fun _ _ => ((0%Q, 0%Q), (0%Q, 0%Q));
  shp.split := fun g _ => [g];
  shp.contains := fun a b => subshape b a;
  shp.disjoint := fun a b => negb (meet a b);
  shp.intersects := meet;
  shp.to_2d := fun g => g;
  shp.strtree_query := fun l _ =>
    List.filter (fun k => match l !! k with
                          | Some g => negb (is_empty g)
                          | None => false
                          end)
                (seq 0 (List.length l));
|}.

End grid.

(** ** The store and the monad of runs *)

Section Model.

Context `{G : shp.Shapely}.

Abbreviation geom := (shp.geom G).

Record Row := {
  label : nat;
  geometry : geom;
  cols : gmap string value;
}.

Record Frame := {
  rows : list Row;
  crs : option CRS;
}.

(** The store holds every frame ever built in the run; a reference is a
    position in it.  [out] is the terminal, oldest line first. *)
Record St := {
  heap : list Frame;
  out : list msg;
}.

Definition M (A : Type) : Type := St -> res A * St.

Definition ret {A} (a : A) : M A := fun s => (Ok a, s).

Definition bind {A B} (m : M A) (k : A -> M B) : M B :=
  fun s =>
    match m s with
    | (Ok a, s') => k a s'
    | (Raise e, s') => (Raise e, s')
    | (Timeout, s') => (Timeout, s')
    end.

Definition raise {A} (e : exn) : M A := fun s => (Raise e, s).
Definition timeout {A} : M A := fun s => (Timeout, s).

Definition emit (m : msg) : M unit :=
  fun s => (Ok tt, {| heap := heap s; out := out s ++ [m] |}).

Local Notation "x <- m ;; k" := (bind m (fun x => k))
  (at level 100, m at next level, right associativity).
Local Notation "m ;;; k" := (bind m (fun _ => k))
  (at level 100, right associativity).

(** [for x in l: ...] with the local variables of the loop threaded
    through as [a]. *)
Fixpoint foldM {A X} (body : A -> X -> M A) (a : A) (l : list X) : M A :=
  match l with
  | [] => ret a
  | x :: l' => a' <- body a x ;; foldM body a' l'
  end.

Definition forM_ {X} (l : list X) (body : X -> M unit) : M unit :=
  foldM (fun _ x => body x) tt l.

Definition of_option {A} (e : exn) (o : option A) : M A :=
  match o with Some a => ret a | None => raise e end.

(** *** Frames in the store *)

Definition df_alloc (f : Frame) : M nat :=
  fun s => (Ok (List.length (heap s)),
            {| heap := heap s ++ [f]; out := out s |}).

Definition df_read (r : nat) : M Frame :=
  fun s => match heap s !! r with
           | Some f => (Ok f, s)
           | None => (Raise ReferenceError, s)
           end.

Definition df_write (r : nat) (f : Frame) : M unit :=
  fun s => (Ok tt, {| heap := <[r := f]> (heap s); out := out s |}).

(** *** Frame operations of pandas, on frame values *)

Definition frame_index (f : Frame) : list nat := map label (rows f).

Definition find_row (i : nat) (f : Frame) : option Row :=
  List.find (fun r => Nat.eqb (label r) i) (rows f).

Definition set_geometry (g : geom) (r : Row) : Row :=
  {| label := label r; geometry := g; cols := cols r |}.

Definition set_label (i : nat) (r : Row) : Row :=
  {| label := i; geometry := geometry r; cols := cols r |}.

Definition set_cols (c : gmap string value) (r : Row) : Row :=
  {| label := label r; geometry := geometry r; cols := c |}.

Definition map_rows (h : Row -> Row) (f : Frame) : Frame :=
  {| rows := map h (rows f); crs := crs f |}.

(** [df["geometry"][i] = g]: a label that is not in the index leaves the
    frame as it is. *)
Definition frame_set_geom (i : nat) (g : geom) (f : Frame) : Frame :=
  map_rows (fun r => if Nat.eqb (label r) i then set_geometry g r else r) f.

(** [df["geometry"] = g] *)
Definition frame_set_geom_all (g : geom) (f : Frame) : Frame :=
  map_rows (set_geometry g) f.

(** [df[c][i] = v] *)
Definition frame_set_col (c : string) (i : nat) (v : value) (f : Frame) : Frame :=
  map_rows (fun r => if Nat.eqb (label r) i
                     then set_cols (<[c := v]> (cols r)) r else r) f.

(** [df[c] = v] *)
Definition frame_set_col_all (c : string) (v : value) (f : Frame) : Frame :=
  map_rows (fun r => set_cols (<[c := v]> (cols r)) r) f.

(** [del df[c]] *)
Definition frame_del_col (c : string) (f : Frame) : Frame :=
  map_rows (fun r => set_cols (delete c (cols r)) r) f.

(** [df[mask]] *)
Definition frame_filter (p : Row -> bool) (f : Frame) : Frame :=
  {| rows := List.filter p (rows f); crs := crs f |}.

Fixpoint relabel (n : nat) (l : list Row) : list Row :=
  match l with
  | [] => []
  | r :: l' => set_label n r :: relabel (S n) l'
  end.

(** [df.reset_index(drop=True)] *)
Definition frame_reset_index (f : Frame) : Frame :=
  {| rows := relabel 0 (rows f); crs := crs f |}.

Definition is_multi (t : gtype) : bool :=
  match t with
  | MultiPolygon | MultiPoint | MultiLineString | GeometryCollection => true
  | _ => false
  end.

Definition explode_geom (g : geom) : list geom :=
  if is_multi (shp.geom_type G g) then shp.parts G g else [g].

(** [df.explode()]: one row for each member of a multi-part geometry. *)
Definition frame_explode (f : Frame) : Frame :=
  {| rows := flat_map (fun r => map (fun g => set_geometry g r)
                                    (explode_geom (geometry r))) (rows f);
     crs := crs f |}.

(** [df.append(row, ignore_index=True)] *)
Definition frame_append (r : Row) (f : Frame) : Frame :=
  {| rows := relabel 0 (rows f ++ [r]); crs := crs f |}.

(** *** The same operations on references *)

(** [df.copy()] *)
Definition df_copy (r : nat) : M nat :=
  f <- df_read r ;; df_alloc f.

(** A pandas operation that returns a new frame. *)
Definition df_derive (h : Frame -> Frame) (r : nat) : M nat :=
  f <- df_read r ;; df_alloc (h f).

(** A pandas operation that changes a frame in place. *)
Definition df_update (h : Frame -> Frame) (r : nat) : M unit :=
  f <- df_read r ;; df_write r (h f).

Definition df_index (r : nat) : M (list nat) :=
  f <- df_read r ;; ret (frame_index f).

Definition frame_get_geom (i : nat) (f : Frame) : option geom :=
  geometry <$> find_row i f.

Definition frame_get_col (c : string) (i : nat) (f : Frame) : option value :=
  match find_row i f with
  | Some r => cols r !! c
  | None => None
  end.

(** [df["geometry"][i]] *)
Definition df_get_geom (r i : nat) : M geom :=
  f <- df_read r ;; of_option KeyError (frame_get_geom i f).

(** [df[c][i]] *)
Definition df_get_col (r : nat) (c : string) (i : nat) : M value :=
  f <- df_read r ;; of_option KeyError (frame_get_col c i f).

Definition df_set_geom (r i : nat) (g : geom) : M unit :=
  df_update (frame_set_geom i g) r.

Definition df_set_col (r : nat) (c : string) (i : nat) (v : value) : M unit :=
  df_update (frame_set_col c i v) r.

(** [df.drop(i)] *)
Definition df_drop (r i : nat) : M nat :=
  f <- df_read r ;;
  match find_row i f with
  | Some _ => df_alloc (frame_filter (fun x => negb (Nat.eqb (label x) i)) f)
  | None => raise KeyError
  end.

Definition as_set (v : value) : M (gset nat) :=
  match v with VSet s => ret s | _ => raise TypeError end.

Definition as_int (v : value) : M nat :=
  match v with VInt n => ret n | _ => raise TypeError end.

(** The elements of a Python set of small integers, in the order in which
    CPython enumerates them: ascending. *)
Definition py_list (s : gset nat) : list nat := merge_sort Nat.le (elements s).

(** ** The short functions of the module *)

(** Number of connected components of a shapely object; [None] for the
    geometry types that fall through the [if]. *)
Definition num_components_jc (g : geom) : option nat :=
  if shp.is_empty G g then Some 0
  else match shp.geom_type G g with
       | Polygon | Point | LineString => Some 1
       | MultiPolygon | MultiLineString | GeometryCollection =>
           Some (List.length (shp.parts G g))
       | _ => None
       end.

(** [[index_by_id[id(g)] for g in STRtree(df.geometry).query(q)]]: the
    labels of the rows of [f] that the tree built from [f] returns. *)
Definition query_labels (f : Frame) (q : geom) : list nat :=
  omap (fun p => label <$> rows f !! p)
       (shp.strtree_query G (map geometry (rows f)) q).

Definition mk_row (i : nat) (g : geom) (c : list (string * value)) : Row :=
  {| label := i; geometry := g; cols := list_to_map c |}.

(** The rows of a frame built from parallel lists; the index is
    [0, 1, ...]. *)
Definition new_frame (l : list (geom * list (string * value))) (c : option CRS)
  : Frame :=
  {| rows := imap (fun k x => mk_row k (fst x) (snd x)) l; crs := c |}.

Definition adjacency_rows (rook : bool) (f : Frame)
  : list (geom * list (string * value)) :=
  flat_map (fun ri =>
    flat_map (fun j =>
      match frame_get_geom j f with
      | Some gj =>
          let inter := shp.intersection G gj (geometry ri) in
          if negb (shp.is_empty G inter)
             && (negb rook || Qltb 0 (shp.length G inter))
          then [(inter, [("parent indices", VSet {[label ri; j]})])]
          else []
      | None => []
      end)
      (List.filter (fun j => Nat.ltb (label ri) j) (query_labels f (geometry ri))))
    (rows f).

(** [adjacencies_jc(geometries_df, adjacency_type)] *)
Definition adjacencies_jc (r : nat) (adjacency_type : string) : M nat :=
  if negb (String.eqb adjacency_type "rook" || String.eqb adjacency_type "queen")
  then raise ValueError
  else
    f <- df_read r ;;
    df_alloc (new_frame (adjacency_rows (String.eqb adjacency_type "rook") f)
                        (crs f)).

Definition intersection_rows (fs ft : Frame)
  : list (geom * list (string * value)) :=
  flat_map (fun ri =>
    flat_map (fun j =>
      match frame_get_geom j ft with
      | Some gj =>
          let inter := shp.intersection G (geometry ri) gj in
          if negb (shp.is_empty G inter)
          then [(inter, [("source", VInt (label ri)); ("target", VInt j)])]
          else []
      | None => []
      end)
      (merge_sort Nat.le (query_labels ft (geometry ri))))
    (rows fs).

(** [intersections_jc(sources, targets)]; the decorator [require_same_crs]
    raises [TypeError] when the two frames differ in their CRS. *)
Definition intersections_jc (sources targets : nat) : M nat :=
  fs <- df_read sources ;;
  ft <- df_read targets ;;
  if bool_decide (crs fs = crs ft)
  then df_alloc (new_frame (intersection_rows fs ft) (crs fs))
  else raise TypeError.

Fixpoint mapM {X Y} (h : X -> M Y) (l : list X) : M (list Y) :=
  match l with
  | [] => ret []
  | x :: l' => y <- h x ;; ys <- mapM h l' ;; ret (y :: ys)
  end.

(** ** Arrangement Builder and Overlap Classifier: [building_blocks_jc] *)

(** The original polygons that contain the representative point of a
    piece, among those the spatial index proposes. *)
Definition owners_of (f : Frame) (piece : geom) : gset nat :=
  foldl (fun acc j =>
           match frame_get_geom j f with
           | Some gj =>
               if Qeqb (shp.distance G (shp.representative_point G piece) gj) 0
               then acc ∪ {[j]} else acc
           | None => acc
           end)
        ∅ (query_labels f piece).

Definition overlap_degree (r : Row) : option nat :=
  match cols r !! "overlap degree" with
  | Some (VInt n) => Some n
  | _ => None
  end.

Definition has_degree (n : nat) (r : Row) : bool :=
  bool_decide (overlap_degree r = Some n).

(** [pieces_df["overlap degree"] = [len(x) for x in pieces_df["polygon indices"]]] *)
Definition set_overlap_degree (r : Row) : Row :=
  match cols r !! "polygon indices" with
  | Some (VSet s) => set_cols (<["overlap degree" := VInt (size s)]> (cols r)) r
  | _ => r
  end.

Definition building_blocks_jc (geometries0_df : nat) : M (list nat * nat) :=
  geometries_df <- df_copy geometries0_df ;;
  geometries_exploded_df <-
    df_derive (fun f => frame_reset_index (frame_explode f)) geometries_df ;;
  fe <- df_read geometries_exploded_df ;;
  let boundaries := map (fun r => shp.exterior_line G (geometry r)) (rows fe) in
  let boundaries_union := shp.unary_union G boundaries in
  fg <- df_read geometries_df ;;
  pieces_df <-
    df_alloc (new_frame (map (fun p => (p, [])) (shp.polygonize G boundaries_union))
                        (crs fg)) ;;
  ix <- df_index pieces_df ;;
  forM_ ix (fun i => df_set_col pieces_df "polygon indices" i (VSet ∅)) ;;;
  emit (Print "Identifying overlaps...") ;;;
  forM_ ix (fun i =>
    p <- df_get_geom pieces_df i ;;
    df_set_col pieces_df "polygon indices" i (VSet (owners_of fg p))) ;;;
  df_update (map_rows set_overlap_degree) pieces_df ;;;
  holes_df <-
    df_derive (fun f => frame_reset_index (frame_filter (has_degree 0) f))
              pieces_df ;;
  fp <- df_read pieces_df ;;
  match omap overlap_degree (rows fp) with
  | [] => raise ValueError
  | d :: ds =>
      overlap_tower0 <-
        mapM (fun i => df_derive (frame_filter (has_degree (i + 1))) pieces_df)
             (range (max_list (d :: ds))) ;;
      overlap_tower <-
        mapM (fun t =>
                df_update (frame_del_col "overlap degree") t ;;;
                df_derive frame_reset_index t)
             overlap_tower0 ;;
      ret (overlap_tower, holes_df)
  end.

(** ** Reconstructor: [reconstruct_from_overlap_tower_jc] *)

Definition nc_value (o : option nat) : value :=
  match o with Some n => VInt n | None => VNone end.

(** [num_components_jc(g) == df["num components orig"][i]] *)
Definition nc_equals (o : option nat) (v : value) : bool :=
  match o, v with
  | Some n, VInt m => Nat.eqb n m
  | _, _ => false
  end.

(** The mask [df["num components refined"] > df["num components orig"]]. *)
Definition more_components (r : Row) : bool :=
  match cols r !! "num components refined", cols r !! "num components orig" with
  | Some (VInt a), Some (VInt b) => Nat.ltb b a
  | _, _ => false
  end.

(** [l.remove(x)] *)
Fixpoint list_remove (x : nat) (l : list nat) : option (list nat) :=
  match l with
  | [] => None
  | y :: l' => if Nat.eqb y x then Some l'
               else cons y <$> list_remove x l'
  end.

Definition mem (x : nat) (l : list nat) : bool := bool_decide (x ∈ l).

(** [list(set(a) & set(b))] *)
Definition py_inter (a b : list nat) : list nat :=
  List.filter (fun x => mem x b) (py_list (list_to_set a)).

(** One turn of the loop in which a disconnected polygon grabs the
    overlaps that touch it along a line; the local variables are the
    unused overlaps and [geom_finished]. *)
Definition grab_step (geometries_df disc overlaps_df g_ind : nat)
    (st : list nat * bool) (o_ind : nat) : M (list nat * bool) :=
  if snd st then ret st
  else
    v <- df_get_col overlaps_df "polygon indices" o_ind ;;
    owners <- as_set v ;;
    if negb (bool_decide (g_ind ∈ owners)) then ret st
    else
      g <- df_get_geom disc g_ind ;;
      o <- df_get_geom overlaps_df o_ind ;;
      let inter := shp.intersection G g o in
      if shp.is_empty G inter then ret st
      else if Qltb 0 (shp.length G inter) then
        let g' := shp.unary_union G [g; o] in
        df_set_geom disc g_ind g' ;;;
        unused <- of_option ValueError (list_remove o_ind (fst st)) ;;
        orig <- df_get_col geometries_df "num components orig" g_ind ;;
        ret (unused, nc_equals (num_components_jc g') orig)
      else ret st.

(** The body of [for g_ind in geometries_disconnected_df.index]. *)
Definition first_dibs (geometries_df overlaps_df : nat) (fo : Frame)
    (st : nat * list nat) (g_ind : nat) : M (nat * list nat) :=
  let disc := fst st in
  g <- df_get_geom disc g_ind ;;
  let possible_overlap_indices := py_inter (query_labels fo g) (snd st) in
  st' <- foldM (grab_step geometries_df disc overlaps_df g_ind)
               (snd st, false) possible_overlap_indices ;;
  g' <- df_get_geom disc g_ind ;;
  df_set_geom geometries_df g_ind g' ;;;
  if snd st'
  then disc' <- df_drop disc g_ind ;; ret (disc', fst st')
  else ret (disc, fst st').

(** [shared_perimeters] of an overlap: the owners proposed by the index
    whose boundary meets the boundary of the overlap, each with the length
    of the common part. *)
Definition shared_perimeters (fg fsnap : Frame) (owners : gset nat)
    (this_overlap : geom) : list (nat * Q) :=
  flat_map (fun g_ind =>
    if bool_decide (g_ind ∈ owners) then
      match frame_get_geom g_ind fg with
      | Some g =>
          let inter := shp.intersection G (shp.boundary G this_overlap)
                                          (shp.boundary G g) in
          if negb (shp.is_empty G inter) then [(g_ind, shp.length G inter)]
          else []
      | None => []
      end
    else [])
    (query_labels fsnap this_overlap).

(** [sorted(l, key=lambda tup: tup[1])[-1]] *)
Definition max_shared_perim {A} (l : list (A * Q)) : option (A * Q) :=
  last (sorted snd l).

(** The body of [for o_ind in overlaps_df_unused_indices].  In the branch
    that has no candidate, the argument [multi_index] of [print] is not
    defined anywhere. *)
Definition assign_by_perimeter (geometries_df overlaps_df : nat) (fsnap : Frame)
    (o_ind : nat) : M unit :=
  this_overlap <- df_get_geom overlaps_df o_ind ;;
  v <- df_get_col overlaps_df "polygon indices" o_ind ;;
  owners <- as_set v ;;
  fg <- df_read geometries_df ;;
  match max_shared_perim (shared_perimeters fg fsnap owners this_overlap) with
  | Some (poly_to_add_to, _) =>
      g <- df_get_geom geometries_df poly_to_add_to ;;
      df_set_geom geometries_df poly_to_add_to
                  (shp.unary_union G [g; this_overlap])
  | None => raise (NameError "multi_index")
  end.

(** The body of [for i in range(1, max_overlap_level)]; the local variable
    is [geometries_disconnected_df]. *)
Definition assign_level (geometries_df : nat) (overlap_tower : list nat)
    (disc : nat) (i : nat) : M nat :=
  overlaps_df <- of_option IndexError (overlap_tower !! i) ;;
  overlaps_df_unused_indices <- df_index overlaps_df ;;
  fo <- df_read overlaps_df ;;
  ixd <- df_index disc ;;
  st <- foldM (first_dibs geometries_df overlaps_df fo)
              (disc, overlaps_df_unused_indices) ixd ;;
  fsnap <- df_read geometries_df ;;
  emit (PrintIndex "Assigning order" (i + 1) "pieces...") ;;;
  forM_ (snd st) (assign_by_perimeter geometries_df overlaps_df fsnap) ;;;
  ret (fst st).

(** The body of [for ind in overlap_tower[0].index]. *)
Definition assign_order1 (geometries_df t0 : nat) (ind : nat) : M unit :=
  v <- df_get_col t0 "polygon indices" ind ;;
  s <- as_set v ;;
  this_poly_ind <- of_option IndexError (head (py_list s)) ;;
  this_piece <- df_get_geom t0 ind ;;
  g <- df_get_geom geometries_df this_poly_ind ;;
  df_set_geom geometries_df this_poly_ind (shp.unary_union G [g; this_piece]).

Definition reconstruct_from_overlap_tower_jc (geometries0_df : nat)
    (overlap_tower0 : list nat) : M nat :=
  geometries_df <- df_copy geometries0_df ;;
  overlap_tower <- mapM df_copy overlap_tower0 ;;
  df_update (frame_set_geom_all (shp.empty_polygon G)) geometries_df ;;;
  let max_overlap_level := List.length overlap_tower in
  t0 <- of_option IndexError (overlap_tower !! 0) ;;
  ix0 <- df_index t0 ;;
  forM_ ix0 (assign_order1 geometries_df t0) ;;;
  df_update (frame_set_col_all "num components orig" (VInt 0)) geometries_df ;;;
  df_update (frame_set_col_all "num components refined" (VInt 0)) geometries_df ;;;
  ix <- df_index geometries_df ;;
  forM_ ix (fun ind =>
    g0 <- df_get_geom geometries0_df ind ;;
    df_set_col geometries_df "num components orig" ind
               (nc_value (num_components_jc g0)) ;;;
    g <- df_get_geom geometries_df ind ;;
    df_set_col geometries_df "num components refined" ind
               (nc_value (num_components_jc g))) ;;;
  geometries_disconnected_df <- df_derive (frame_filter more_components)
                                          geometries_df ;;
  _ <- foldM (assign_level geometries_df overlap_tower)
             geometries_disconnected_df (seq 1 (max_overlap_level - 1)) ;;
  reconstructed_df <- df_copy geometries_df ;;
  df_update (frame_del_col "num components orig") reconstructed_df ;;;
  df_update (frame_del_col "num components refined") reconstructed_df ;;;
  ret reconstructed_df.

(** ** Gap Closer: [partial_fill_data_jc] and [close_gaps_jc] *)

Definition col_int (c : string) (r : Row) : option nat :=
  match cols r !! c with
  | Some (VInt n) => Some n
  | _ => None
  end.

(** Distances between the boundary components of a hole, for the pairs
    that do not touch. *)
Definition poly_distances (f : Frame) : list (nat * nat * Q) :=
  flat_map (fun ri =>
    flat_map (fun rj =>
      if Nat.ltb (label ri) (label rj) then
        let this_distance := shp.distance G (geometry ri) (geometry rj) in
        if Qeqb this_distance 0 then []
        else [(label ri, label rj, this_distance)]
      else [])
      (rows f))
    (rows f).

Definition end_vertices (g : geom) : option (pt * pt) :=
  match head (shp.coords G g), last (shp.coords G g) with
  | Some a, Some b => Some (a, b)
  | _, _ => None
  end.

(** The four segments from an end vertex of one component to the nearest
    vertex of the other, shortest first. *)
Definition candidate_segments (ga gb : geom) : option (list geom) :=
  match end_vertices ga, end_vertices gb with
  | Some (a0, a1), Some (b0, b1) =>
      let mpa := shp.mk_multipoint G (shp.coords G ga) in
      let mpb := shp.mk_multipoint G (shp.coords G gb) in
      let near (v : pt) (m : geom) := shp.nearest_points G (shp.mk_point G v) m in
      let dist (n : pt * pt) :=
        shp.distance G (shp.mk_point G (fst n)) (shp.mk_point G (snd n)) in
      Some (map (fun n => shp.mk_linestring G [fst n; snd n])
                (sorted dist [near a0 mpb; near a1 mpb; near b0 mpa; near b1 mpa]))
  | _, _ => None
  end.

(** The first pair [i < j] of disjoint segments, in the order of the two
    nested loops. *)
Definition find_line_pair (segs : list geom) : option (geom * geom) :=
  head (flat_map (fun j =>
          flat_map (fun i =>
            match segs !! i, segs !! j with
            | Some si, Some sj => if shp.disjoint G si sj then [(si, sj)] else []
            | _, _ => []
            end)
            (range j))
          (seq 1 (List.length segs - 1))).

(** The loop over [first_split]: the member that meets the second line is
    split again, the others are new holes. *)
Definition first_cut (hole l1 l2 : geom) (second_split : option (list geom))
  : option (list geom) * list geom :=
  foldl (fun acc p =>
           if shp.intersects G p l2 then (Some (shp.split G p l2), snd acc)
           else (fst acc, snd acc ++ [p]))
        (second_split, []) (shp.split G hole l1).

(** The loop over [second_split]: the member that meets the first line is
    the piece to connect, the others are new holes. *)
Definition second_cut (second_split : list geom) (l1 : geom)
    (new_holes : list geom) : option geom * list geom :=
  foldl (fun acc p =>
           if shp.intersects G p l1 then (Some p, snd acc)
           else (fst acc, snd acc ++ [p]))
        (None, new_holes) second_split.

(** The [while] loop over the pairs of components, closest first.  The
    variable [second_split] keeps its value from one turn to the next, and
    has none before a first split was made. *)
Fixpoint connect_pair (f : Frame) (hole : geom)
    (second_split : option (list geom)) (l : list (nat * nat * Q))
  : M (option (nat * nat * geom * list geom)) :=
  match l with
  | [] => ret None
  | (a, b, _) :: l' =>
      ga <- of_option KeyError (frame_get_geom a f) ;;
      gb <- of_option KeyError (frame_get_geom b f) ;;
      sorted_line_segments_0 <- of_option IndexError (candidate_segments ga gb) ;;
      let sorted_line_segments :=
        List.filter (fun sg => shp.contains G hole sg
                               || shp.contains G (shp.boundary G hole) sg)
                    sorted_line_segments_0 in
      match find_line_pair sorted_line_segments with
      | Some (l1, l2) =>
          let c1 := first_cut hole l1 l2 second_split in
          match fst c1 with
          | None => raise (UnboundLocalError "second_split")
          | Some ss =>
              match second_cut ss l1 (snd c1) with
              | (Some piece_to_connect, new_holes) =>
                  ret (Some (a, b, piece_to_connect, new_holes))
              | (None, _) => connect_pair f hole (fst c1) l'
              end
          end
      | None => connect_pair f hole second_split l'
      end
  end.

Definition target_at (f : Frame) (b_ind : nat) : option nat :=
  match find_row b_ind f with
  | Some r => col_int "target" r
  | None => None
  end.

Definition partial_fill_data_jc (hole0 : geom) (hole_boundaries_df0 : nat)
  : M (nat * geom * list geom) :=
  hole_boundaries_df <- df_copy hole_boundaries_df0 ;;
  f <- df_read hole_boundaries_df ;;
  let distance_data_sorted := sorted snd (poly_distances f) in
  found <- connect_pair f hole0 None distance_data_sorted ;;
  match found with
  | Some (a, b, piece_to_connect, new_holes) =>
      ga <- of_option KeyError (frame_get_geom a f) ;;
      gb <- of_option KeyError (frame_get_geom b f) ;;
      let la := shp.length G (shp.intersection G piece_to_connect ga) in
      let lb := shp.length G (shp.intersection G piece_to_connect gb) in
      if Qltb lb la then
        t <- of_option KeyError (target_at f a) ;;
        ret (t, piece_to_connect, new_holes)
      else if Qltb la lb then
        t <- of_option KeyError (target_at f b) ;;
        ret (t, piece_to_connect, new_holes)
      else raise (UnboundLocalError "poly_to_add_to")
  | None =>
      let shared := map (fun r => (label r, shp.length G (geometry r))) (rows f) in
      m <- of_option IndexError (max_shared_perim shared) ;;
      t <- of_option KeyError (target_at f (fst m)) ;;
      ret (t, hole0, [])
  end.

(** [shared_perimeters] of a hole that is filled whole: one entry for each
    row of its boundary frame. *)
Definition hole_shared_perimeters (fg fb : Frame) (this_hole : geom)
  : M (list (nat * Q)) :=
  mapM (fun rb =>
          g_ind <- of_option KeyError (col_int "target" rb) ;;
          g <- of_option KeyError (frame_get_geom g_ind fg) ;;
          ret (label rb,
               shp.length G (shp.intersection G (shp.boundary G this_hole)
                                                (shp.boundary G g))))
       (rows fb).

(** The body of [for h_ind in holes_df.index]; the local variables are
    [holes_df], [activity_this_round] and [new_holes]. *)
Definition fill_hole (geometries_df hole_boundaries_df : nat)
    (st : nat * bool * list geom) (h_ind : nat) : M (nat * bool * list geom) :=
  let holes_df := fst (fst st) in
  this_hole <- df_get_geom holes_df h_ind ;;
  this_hole_boundaries_df <-
    df_derive (frame_filter (fun r => bool_decide (col_int "source" r = Some h_ind)))
              hole_boundaries_df ;;
  fb <- df_read this_hole_boundaries_df ;;
  let targets : gset nat := list_to_set (omap (col_int "target") (rows fb)) in
  if Nat.leb (size targets) 3 then
    fg <- df_read geometries_df ;;
    shared <- hole_shared_perimeters fg fb this_hole ;;
    m <- of_option IndexError (max_shared_perim shared) ;;
    poly_to_add_to <- of_option KeyError (target_at fb (fst m)) ;;
    g <- df_get_geom geometries_df poly_to_add_to ;;
    df_set_geom geometries_df poly_to_add_to (shp.unary_union G [g; this_hole]) ;;;
    holes_df' <- df_drop holes_df h_ind ;;
    ret (holes_df', true, snd st)
  else
    pf <- partial_fill_data_jc this_hole this_hole_boundaries_df ;;
    let poly_to_add_to := fst (fst pf) in
    g <- df_get_geom geometries_df poly_to_add_to ;;
    df_set_geom geometries_df poly_to_add_to
                (shp.unary_union G [g; snd (fst pf)]) ;;;
    holes_df' <- df_drop holes_df h_ind ;;
    ret (holes_df',
         snd (fst st) || negb (Nat.eqb (List.length (snd pf)) 0),
         snd st ++ snd pf).

Definition hole_row (g : geom) : Row :=
  mk_row 0 g [("polygon indices", VSet ∅)].

(** One turn of [while fill_complete == False]; [None] when the turn found
    nothing to do, else the frame of holes for the next turn. *)
Definition close_gaps_round (geometries_df holes_df : nat) : M (option nat) :=
  hole_boundaries_df <- intersections_jc holes_df geometries_df ;;
  ixb <- df_index hole_boundaries_df ;;
  forM_ ixb (fun ind =>
    g <- df_get_geom hole_boundaries_df ind ;;
    if bool_decide (shp.geom_type G g = MultiLineString)
    then df_set_geom hole_boundaries_df ind (shp.linemerge G g)
    else ret tt) ;;;
  hole_boundaries_df <-
    df_derive (fun f => frame_reset_index (frame_explode f)) hole_boundaries_df ;;
  ixh <- df_index holes_df ;;
  st <- foldM (fill_hole geometries_df hole_boundaries_df)
              (holes_df, false, []) ixh ;;
  if snd (fst st) then
    holes_df' <- foldM (fun h g => df_derive (frame_append (hole_row g)) h)
                       (fst (fst st)) (snd st) ;;
    ret (Some holes_df')
  else ret None.

Fixpoint close_gaps_loop (fuel : nat) (geometries_df holes_df : nat) : M unit :=
  match fuel with
  | O => timeout
  | S fuel' =>
      o <- close_gaps_round geometries_df holes_df ;;
      match o with
      | Some holes_df' => close_gaps_loop fuel' geometries_df holes_df'
      | None => ret tt
      end
  end.

Definition close_gaps_jc (fuel : nat) (geometries0_df holes0_df : nat) : M nat :=
  geometries_df <- df_copy geometries0_df ;;
  holes_df <- df_copy holes0_df ;;
  close_gaps_loop fuel geometries_df holes_df ;;;
  ret geometries_df.

(** ** Rook-to-Queen Converter: [small_rook_to_queen_jc] *)

Definition owners_at (r : nat) (c : string) (i : nat) : M (gset nat) :=
  v <- df_get_col r c i ;; as_set v.

(** [df.loc[l]] *)
Definition frame_loc (l : list nat) (f : Frame) : option Frame :=
  let rs := omap (fun i => find_row i f) l in
  if Nat.eqb (List.length rs) (List.length l)
  then Some {| rows := rs; crs := crs f |}
  else None.

(** The part of the loop body that runs when the adjacency is still
    there and still short. *)
Definition rook_to_queen_at (geometries_df : nat) (adj_geom : geom) : M unit :=
  fsnap <- df_read geometries_df ;;
  let adj_diam := shp.length G adj_geom in
  let fat_point_radius := ((6 # 10) * adj_diam)%Q in
  ends <- of_option IndexError (end_vertices adj_geom) ;;
  let midpoint := shp.centroid G (shp.mk_linestring G [fst ends; snd ends]) in
  midpoint_coords <- of_option IndexError (head (shp.coords G midpoint)) ;;
  let disk_to_remove := shp.buffer G midpoint fat_point_radius in
  let possible_geom_indices :=
    query_labels fsnap (shp.buffer G adj_geom (2 * fat_point_radius)%Q) in
  boundaries <- mapM (fun i => g <- df_get_geom geometries_df i ;;
                               ret (shp.boundary G g)) possible_geom_indices ;;
  let boundaries_union :=
    shp.unary_union G (boundaries ++ [shp.exterior_line G disk_to_remove]) in
  pieces_df <-
    df_alloc (new_frame (map (fun p => (p, [])) (shp.polygonize G boundaries_union))
                        (crs fsnap)) ;;
  ix <- df_index pieces_df ;;
  forM_ ix (fun i => df_set_col pieces_df "polygon indices" i (VSet ∅)) ;;;
  forM_ ix (fun i =>
    p <- df_get_geom pieces_df i ;;
    df_set_col pieces_df "polygon indices" i (VSet (owners_of fsnap p))) ;;;
  st <- foldM (fun (st : geom * nat) p_ind =>
                 p <- df_get_geom (snd st) p_ind ;;
                 if Qltb (shp.distance G (shp.representative_point G p) midpoint)
                         fat_point_radius
                 then pieces' <- df_drop (snd st) p_ind ;;
                      ret (shp.unary_union G [fst st; p], pieces')
                 else ret st)
              (shp.empty_polygon G, pieces_df) ix ;;
  let disk_to_remove := fst st in
  let pieces_df := snd st in
  forM_ possible_geom_indices (fun g_ind =>
    df_set_geom geometries_df g_ind (shp.empty_polygon G)) ;;;
  ix' <- df_index pieces_df ;;
  forM_ ix' (fun p_ind =>
    owners <- owners_at pieces_df "polygon indices" p_ind ;;
    if Nat.eqb (size owners) 1 then
      this_poly_ind <- of_option IndexError (head (py_list owners)) ;;
      this_piece <- df_get_geom pieces_df p_ind ;;
      if mem this_poly_ind possible_geom_indices then
        g <- df_get_geom geometries_df this_poly_ind ;;
        df_set_geom geometries_df this_poly_ind (shp.unary_union G [g; this_piece])
      else ret tt
    else ret tt) ;;;
  fg <- df_read geometries_df ;;
  possible_geoms <- of_option KeyError (frame_loc possible_geom_indices fg) ;;
  possible_geoms <- df_alloc possible_geoms ;;
  disk_df <- df_alloc (new_frame [(disk_to_remove, [])] (crs fg)) ;;
  circle_boundaries_df <- intersections_jc disk_df possible_geoms ;;
  ixc <- df_index circle_boundaries_df ;;
  forM_ ixc (fun b_ind =>
    g <- df_get_geom circle_boundaries_df b_ind ;;
    if bool_decide (shp.geom_type G g = MultiLineString)
    then df_set_geom circle_boundaries_df b_ind (shp.linemerge G g)
    else ret tt) ;;;
  circle_boundaries_df <-
    df_derive (fun f => frame_reset_index (frame_explode f)) circle_boundaries_df ;;
  ixc' <- df_index circle_boundaries_df ;;
  forM_ ixc' (fun b_ind =>
    arc <- df_get_geom circle_boundaries_df b_ind ;;
    let boundary_wedge_coords := shp.coords G arc ++ [midpoint_coords] in
    v <- df_get_col circle_boundaries_df "target" b_ind ;;
    g_ind <- as_int v ;;
    g <- df_get_geom geometries_df g_ind ;;
    df_set_geom geometries_df g_ind
                (shp.unary_union G [g; shp.mk_polygon G boundary_wedge_coords])).

Definition boundary_length (r : Row) : option Q :=
  match cols r !! "boundary length" with
  | Some (VNum q) => Some q
  | _ => None
  end.

Definition small_rook_to_queen_jc (geometries0_df : nat) (min_rook_length : Q)
  : M nat :=
  geometries_df <- df_copy geometries0_df ;;
  adj_df <- adjacencies_jc geometries_df "rook" ;;
  ix <- df_index adj_df ;;
  forM_ ix (fun ind =>
    g <- df_get_geom adj_df ind ;;
    (if bool_decide (shp.geom_type G g = GeometryCollection) then
       let adj_list_no_point :=
         List.filter (fun x => negb (bool_decide (shp.geom_type G x = Point)))
                     (shp.parts G g) in
       df_set_geom adj_df ind (shp.mk_multilinestring G adj_list_no_point)
     else ret tt) ;;;
    g <- df_get_geom adj_df ind ;;
    if bool_decide (shp.geom_type G g = MultiLineString)
    then df_set_geom adj_df ind (shp.linemerge G g)
    else ret tt) ;;;
  adj_df <- df_derive (fun f => frame_reset_index (frame_explode f)) adj_df ;;
  ix <- df_index adj_df ;;
  adj_df <- foldM (fun adj ind =>
                     g <- df_get_geom adj ind ;;
                     if bool_decide (shp.geom_type G g = Point)
                     then df_drop adj ind else ret adj)
                  adj_df ix ;;
  df_update (map_rows (fun r =>
               set_cols (<["boundary length" := VNum (shp.length G (geometry r))]>
                           (cols r)) r)) adj_df ;;;
  small_adj_df <-
    df_derive (frame_filter (fun r =>
                 match boundary_length r with
                 | Some q => Qltb q min_rook_length
                 | None => false
                 end)) adj_df ;;
  ix <- df_index small_adj_df ;;
  forM_ ix (fun a_ind =>
    parents <- owners_at small_adj_df "parent indices" a_ind ;;
    p0 <- of_option IndexError (py_list parents !! 0) ;;
    p1 <- of_option IndexError (py_list parents !! 1) ;;
    g0 <- df_get_geom geometries_df p0 ;;
    g1 <- df_get_geom geometries_df p1 ;;
    let adj_len := shp.length G (shp.intersection G g0 g1) in
    if Qltb 0 adj_len && Qltb adj_len min_rook_length then
      adj_geom <- df_get_geom small_adj_df a_ind ;;
      rook_to_queen_at geometries_df adj_geom
    else ret tt) ;;;
  ret geometries_df.

(** ** Main function: [repair_gdf_jc] *)

(** [a > b] on results of [num_components_jc]: comparing [None] with a
    number raises. *)
Definition nc_gt (a b : option nat) : M bool :=
  match a, b with
  | Some x, Some y => ret (Nat.ltb y x)
  | _, _ => raise TypeError
  end.

(** [len(g)], which only multi-part geometries have. *)
Definition py_len (g : geom) : M nat :=
  if is_multi (shp.geom_type G g) then ret (List.length (shp.parts G g))
  else raise TypeError.

Definition not_polygon (r : Row) : bool :=
  negb (bool_decide (shp.geom_type G (geometry r) = Polygon)).

(** [shared_perimeters] of a fragment that is peeled off polygon
    [g_ind]. *)
Definition fragment_shared_perimeters (fr fsnap : Frame) (g_ind : nat)
    (this_fragment : geom) : list (nat * Q) :=
  flat_map (fun g_ind2 =>
    match frame_get_geom g_ind2 fr with
    | Some g2 =>
        let inter := shp.intersection G (shp.boundary G this_fragment)
                                        (shp.boundary G g2) in
        if negb (Nat.eqb g_ind2 g_ind) && negb (shp.is_empty G inter)
        then [(g_ind2, shp.length G inter)] else []
    | None => []
    end)
    (query_labels fsnap this_fragment).

(** The body of [for i in range(excess)]; the local variable is
    [component_num_list]. *)
Definition peel_fragment (reconstructed_df : nat) (fsnap : Frame) (g_ind : nat)
    (g : geom) (component_areas_sorted : list (nat * Q)) (big_area : Q)
    (component_num_list : list nat) (i : nat) : M (list nat) :=
  ca <- of_option IndexError (component_areas_sorted !! i) ;;
  let c_ind := fst ca in
  this_fragment <- of_option IndexError (shp.parts G g !! c_ind) ;;
  if Qltb (snd ca) ((1 # 10000) * big_area)%Q then
    l <- of_option ValueError (list_remove c_ind component_num_list) ;;
    fr <- df_read reconstructed_df ;;
    m <- of_option IndexError
           (max_shared_perim
              (fragment_shared_perimeters fr fsnap g_ind this_fragment)) ;;
    let poly_to_add_to := fst m in
    g2 <- df_get_geom reconstructed_df poly_to_add_to ;;
    df_set_geom reconstructed_df poly_to_add_to
                (shp.unary_union G [g2; this_fragment]) ;;;
    ret l
  else ret component_num_list.

Definition Qmax (a b : Q) : Q := if Qltb a b then b else a.

(** The body of [for g_ind in disconnected_poly_indices]. *)
Definition repair_disconnected (geometries0_df reconstructed_df : nat)
    (fsnap : Frame) (g_ind : nat) : M unit :=
  g <- df_get_geom reconstructed_df g_ind ;;
  g0 <- df_get_geom geometries0_df g_ind ;;
  n <- of_option TypeError (num_components_jc g) ;;
  n0 <- of_option TypeError (num_components_jc g0) ;;
  let excess := n - n0 in
  len <- py_len g ;;
  let component_areas :=
    imap (fun c_ind c => (c_ind, shp.area G c)) (shp.parts G g) in
  let component_areas_sorted := sorted snd component_areas in
  let big_area := Qmax (shp.area G g) (shp.area G g0) in
  component_num_list <-
    foldM (peel_fragment reconstructed_df fsnap g_ind g component_areas_sorted
                         big_area)
          (range len) (range excess) ;;
  match component_num_list with
  | [c] =>
      p <- of_option IndexError (shp.parts G g !! c) ;;
      df_set_geom reconstructed_df g_ind p
  | _ :: _ :: _ =>
      ps <- mapM (fun c => of_option IndexError (shp.parts G g !! c))
                 component_num_list ;;
      df_set_geom reconstructed_df g_ind (shp.mk_multipolygon G ps)
  | [] =>
      emit (PrintIndex "WARNING: A component of the geometry at index " g_ind
              " was badly disconnected and redistributed to other polygons!")
  end.

(** The indices of [disconnected_df] whose geometry has more components
    than the input had. *)
Definition got_worse (geometries0_df reconstructed_df : nat) (l : list nat)
  : M (list nat) :=
  foldM (fun acc ind =>
           g <- df_get_geom reconstructed_df ind ;;
           g0 <- df_get_geom geometries0_df ind ;;
           b <- nc_gt (num_components_jc g) (num_components_jc g0) ;;
           ret (if b then acc ++ [ind] else acc))
        [] l.

(** Lines 255-306: reattach the negligible extra components. *)
Definition disconnection_repair (geometries0_df reconstructed_df : nat) : M unit :=
  disconnected_df <- df_derive (frame_filter not_polygon) reconstructed_df ;;
  ixd <- df_index disconnected_df ;;
  if Nat.ltb 0 (List.length ixd) then
    disconnected_poly_indices <- got_worse geometries0_df reconstructed_df ixd ;;
    if Nat.ltb 0 (List.length disconnected_poly_indices) then
      fsnap <- df_read reconstructed_df ;;
      forM_ disconnected_poly_indices
            (repair_disconnected geometries0_df reconstructed_df fsnap)
    else ret tt
  else ret tt.

(** Lines 308-315: the second check. *)
Definition residual_check (geometries0_df reconstructed_df : nat) : M unit :=
  disconnected_df_2 <- df_derive (frame_filter not_polygon) reconstructed_df ;;
  ixd <- df_index disconnected_df_2 ;;
  forM_ ixd (fun ind =>
    g <- df_get_geom reconstructed_df ind ;;
    g0 <- df_get_geom geometries0_df ind ;;
    b <- nc_gt (num_components_jc g) (num_components_jc g0) ;;
    if b then
      emit (PrintIndex "WARNING: A component of the geometry at index " ind
              " may have been disconnected!")
    else ret tt).

Definition geographic_crs_warning : string :=
  "Geometry is in a geographic CRS. Results from 'length' are likely incorrect. Use 'GeoSeries.to_crs()' to re-project geometries to a projected CRS before this operation.".

(** [fuel] bounds the number of turns of the loop of the Gap Closer. *)
Definition repair_gdf_jc (fuel : nat) (geometries0_df : nat) (close_gaps : bool)
    (min_rook_length : option Q) : M nat :=
  geometries_df <- df_copy geometries0_df ;;
  ix <- df_index geometries_df ;;
  forM_ ix (fun i =>
    g <- df_get_geom geometries_df i ;;
    df_set_geom geometries_df i (shp.to_2d G g)) ;;;
  f <- df_read geometries_df ;;
  (match crs f with
   | Some c => if is_geographic c then emit (Warn geographic_crs_warning)
               else ret tt
   | None => ret tt
   end) ;;;
  bb <- building_blocks_jc geometries_df ;;
  let overlap_tower := fst bb in
  let holes_df := snd bb in
  emit (Print "Resolving overlaps...") ;;;
  reconstructed_df <- reconstruct_from_overlap_tower_jc geometries_df overlap_tower ;;
  reconstructed_df <-
    (if close_gaps then
       emit (Print "Closing gaps...") ;;;
       close_gaps_jc fuel reconstructed_df holes_df
     else ret reconstructed_df) ;;
  disconnection_repair geometries0_df reconstructed_df ;;;
  residual_check geometries0_df reconstructed_df ;;;
  match min_rook_length with
  | Some m =>
      emit (Print "Converting small rook adjacencies to queen...") ;;;
      small_rook_to_queen_jc reconstructed_df m
  | None => ret reconstructed_df
  end.

End Model.

Notation "x <- m ;; k" := (bind m (fun x => k))
  (at level 100, m at next level, right associativity).
Notation "m ;;; k" := (bind m (fun _ => k))
  (at level 100, right associativity).

(** ** Concrete datasets on the grid *)

Module runs.

Definition squares (l : list (nat * nat)) : grid.shape :=
  grid.region (list_to_set l).

(** A dataset with index [0, 1, ...], one attribute column and no CRS. *)
Definition dataset (c : string) (l : list grid.shape) : Frame (G := grid.kernel) :=
  {| rows := imap (fun k (g : grid.shape) =>
                     Build_Row (G := grid.kernel) k g {[ c := VStr "precinct" ]}) l;
     crs := None |}.

Definition start (f : Frame (G := grid.kernel)) : St (G := grid.kernel) :=
  {| heap := [f]; out := [] |}.

(** A horizontal bar and a vertical bar that cross in one square. *)
Definition cross : Frame (G := grid.kernel) :=
  dataset "NAME" [squares [(1, 2); (2, 2); (3, 2)];
                  squares [(2, 1); (2, 2); (2, 3)]].

(** Two bars of two squares that overlap in one square. *)
Definition two_bars : Frame (G := grid.kernel) :=
  dataset "NAME" [squares [(1, 1); (2, 1)]; squares [(2, 1); (3, 1)]].

(** The same square twice. *)
Definition duplicates : Frame (G := grid.kernel) :=
  dataset "NAME" [squares [(1, 1)]; squares [(1, 1)]].

(** A C-shaped polygon and a bar that enclose a gap of one square. *)
Definition c_and_bar : Frame (G := grid.kernel) :=
  dataset "NAME" [squares [(1, 1); (1, 2); (1, 3); (2, 1); (2, 3)];
                  squares [(3, 1); (3, 2); (3, 3)]].

(** The crossing bars with an attribute column that has the name of a
    working column of the Reconstructor. *)
Definition cross_clash : Frame (G := grid.kernel) :=
  dataset "num components orig"
          [squares [(1, 2); (2, 2); (3, 2)]; squares [(2, 1); (2, 2); (2, 3)]].

(** The crossing bars after reconstruction: the vertical bar has lost its
    middle square. *)
Definition cross_rebuilt : Frame (G := grid.kernel) :=
  dataset "NAME" [squares [(1, 2); (2, 2); (3, 2)]; squares [(2, 1); (2, 3)]].

Definition start2 (f0 f : Frame (G := grid.kernel)) : St (G := grid.kernel) :=
  {| heap := [f0; f]; out := [] |}.

End runs.

(** * Effects of a run on the store and on the terminal *)

Section Effects.

Context `{G : shp.Shapely}.

(** [eff W P m Φ]: [W] are the references that [m] may write to, and
    every reference beyond the store is one of them.  Then [m] leaves the
    other frames as they are, never shrinks the store, prints only
    messages in [P], and returns only values in [Φ]. *)
Definition eff {A} (W : nat -> Prop) (P : msg -> Prop) (m : M A)
    (Φ : A -> Prop) : Prop :=
  forall s, (forall x, List.length (heap s) <= x -> W x) ->
    (forall x, ~ W x -> heap (m s).2 !! x = heap s !! x) /\
    List.length (heap s) <= List.length (heap (m s).2) /\
    (exists l, out (m s).2 = out s ++ l /\ Forall P l) /\
    (forall a, (m s).1 = Ok a -> Φ a).

Lemma eff_ret {A} W P (a : A) : eff W P (ret a) (fun x => x = a).
Proof.
  intros s Hn. simpl. repeat split; auto.
  - exists []. rewrite app_nil_r. auto.
  - intros a' [= ->]. reflexivity.
Qed.

Lemma eff_raise {A} W P e (Φ : A -> Prop) : eff W P (raise e) Φ.
Proof.
  intros s Hn. simpl. repeat split; auto.
  - exists []. rewrite app_nil_r. auto.
  - intros a' [=].
Qed.

Lemma eff_timeout {A} W P (Φ : A -> Prop) : eff W P timeout Φ.
Proof.
  intros s Hn. simpl. repeat split; auto.
  - exists []. rewrite app_nil_r. auto.
  - intros a' [=].
Qed.

Lemma eff_mono {A} W P (m : M A) (Φ Ψ : A -> Prop) :
  eff W P m Φ -> (forall a, Φ a -> Ψ a) -> eff W P m Ψ.
Proof.
  intros H HΦ s Hn. destruct (H s Hn) as (H1 & H2 & H3 & H4).
  repeat split; auto.
Qed.

Lemma eff_bind {A B} W P (m : M A) (k : A -> M B) Φ Ψ :
  eff W P m Φ -> (forall a, Φ a -> eff W P (k a) Ψ) -> eff W P (bind m k) Ψ.
Proof.
  intros Hm Hk s Hn. destruct (Hm s Hn) as (H1 & H2 & (l1 & H3 & H3') & H4).
  unfold bind. destruct (m s) as [[a|e|] s1] eqn:E; simpl in *.
  - assert (Hn1 : forall x, List.length (heap s1) <= x -> W x).
    { intros x Hx. apply Hn. lia. }
    destruct (Hk a (H4 a eq_refl) s1 Hn1) as (K1 & K2 & (l2 & K3 & K3') & K4).
    repeat split.
    + intros x Hx. rewrite K1, H1 by exact Hx. reflexivity.
    + lia.
    + exists (l1 ++ l2). rewrite K3, H3, app_assoc. split; auto.
      apply Forall_app; auto.
    + auto.
  - repeat split; auto. { exists l1; auto. } intros a [=].
  - repeat split; auto. { exists l1; auto. } intros a [=].
Qed.

Lemma eff_emit W (P : msg -> Prop) x : P x -> eff W P (emit x) (fun _ => True).
Proof.
  intros HP s Hn. simpl. repeat split; auto.
  exists [x]. auto.
Qed.

Lemma eff_alloc W P (f : Frame) : eff W P (df_alloc f) W.
Proof.
  intros s Hn. simpl. repeat split.
  - intros x Hx. apply lookup_app_l. destruct (decide (x < List.length (heap s))); auto.
    exfalso. apply Hx, Hn. lia.
  - rewrite length_app. lia.
  - exists []. rewrite app_nil_r. auto.
  - intros a [= <-]. apply Hn. lia.
Qed.

Lemma eff_read W P r : eff W P (df_read r) (fun _ => True).
Proof.
  intros s Hn. unfold df_read. destruct (heap s !! r); simpl; repeat split; auto.
  all: exists []; rewrite app_nil_r; auto.
Qed.

Lemma eff_write W P r (f : Frame) : W r -> eff W P (df_write r f) (fun _ => True).
Proof.
  intros Hr s Hn. simpl. repeat split; auto.
  - intros x Hx. apply list_lookup_insert_ne. intros ->. auto.
  - rewrite length_insert. lia.
  - exists []. rewrite app_nil_r. auto.
Qed.

Lemma eff_of_option {A} W P e (o : option A) :
  eff W P (of_option e o) (fun a => o = Some a).
Proof.
  destruct o; simpl.
  - eapply eff_mono; [apply eff_ret|]. intros ? ->. reflexivity.
  - apply eff_raise.
Qed.

Lemma eff_foldM {A X} W P (body : A -> X -> M A) (Φ : A -> Prop) l a :
  (forall a x, Φ a -> eff W P (body a x) Φ) -> Φ a -> eff W P (foldM body a l) Φ.
Proof.
  intros Hb. revert a. induction l as [|x l IH]; intros a Ha; simpl.
  - eapply eff_mono; [apply eff_ret|]. intros ? ->. exact Ha.
  - eapply eff_bind; [apply Hb, Ha|]. intros a' Ha'. apply IH, Ha'.
Qed.

Lemma eff_forM {X} W P (body : X -> M unit) l :
  (forall x, eff W P (body x) (fun _ => True)) ->
  eff W P (forM_ l body) (fun _ => True).
Proof.
  intros Hb. unfold forM_. apply eff_foldM; auto.
Qed.

Lemma eff_mapM {X Y} W P (h : X -> M Y) (Φ : Y -> Prop) l :
  (forall x, eff W P (h x) Φ) -> eff W P (mapM h l) (Forall Φ).
Proof.
  intros Hh. induction l as [|x l IH]; simpl.
  - eapply eff_mono; [apply eff_ret|]. intros ? ->. constructor.
  - eapply eff_bind; [apply Hh|]. intros y Hy.
    eapply eff_bind; [apply IH|]. intros ys Hys.
    eapply eff_mono; [apply eff_ret|]. intros ? ->. constructor; auto.
Qed.

Lemma eff_true {A} W P (m : M A) Φ : eff W P m Φ -> eff W P m (fun _ => True).
Proof. intros H. eapply eff_mono; [exact H|]. auto. Qed.

Lemma eff_raise_none {A} W P e : eff W P (raise (A:=A) e) (fun _ => False).
Proof. apply eff_raise. Qed.

Lemma eff_timeout_none {A} W P : eff W P (timeout (A:=A)) (fun _ => False).
Proof. apply eff_timeout. Qed.

Create HintDb effdb.

#[local] Hint Resolve eff_ret eff_raise_none eff_timeout_none eff_alloc eff_read
  eff_write eff_of_option : effdb.

(** One step of a proof of [eff]: a leaf is closed by its own lemma, a
    sequence is cut at its first action. *)
Ltac eff_leaf := solve [eauto 3 with effdb lia].

Ltac eff_close :=
  first [ eff_leaf
        | eapply eff_mono; [eff_leaf | simpl; intros; simplify_eq/=;
                                       intuition (eauto; try lia)] ].

Ltac eff_split :=
  match goal with
  | |- eff _ _ (if ?b then _ else _) _ => destruct b eqn:?
  | |- eff _ _ (match ?o with _ => _ end) _ => destruct o eqn:?
  end.

Ltac eff_step :=
  lazymatch goal with
  | |- eff _ _ (bind (if ?b then _ else _) _) _ => destruct b eqn:?
  | |- eff _ _ (bind (match ?o with _ => _ end) _) _ => destruct o eqn:?
  | |- eff _ _ (bind _ _) _ =>
      eapply eff_bind; [eff_leaf | simpl; intros ? ?; try contradiction]
  | |- eff _ _ (if _ then _ else _) _ => eff_split
  | |- eff _ _ (match _ with _ => _ end) _ => eff_split
  | |- eff _ _ _ _ => eff_close
  end.

Ltac eff_auto := repeat eff_step.

Lemma eff_copy W P r : eff W P (df_copy r) W.
Proof. unfold df_copy. eff_auto. Qed.

Lemma eff_derive W P h r : eff W P (df_derive h r) W.
Proof. unfold df_derive. eff_auto. Qed.

Lemma eff_update W P h r : W r -> eff W P (df_update h r) (fun _ => True).
Proof.
  intros Hr. unfold df_update. eapply eff_bind; [eff_leaf|]. intros f _.
  apply eff_write, Hr.
Qed.

Lemma eff_index W P r : eff W P (df_index r) (fun _ => True).
Proof. unfold df_index. eff_auto. Qed.

Lemma eff_get_geom W P r i : eff W P (df_get_geom r i) (fun _ => True).
Proof. unfold df_get_geom. eff_auto. Qed.

Lemma eff_get_col W P r c i : eff W P (df_get_col r c i) (fun _ => True).
Proof. unfold df_get_col. eff_auto. Qed.

Lemma eff_set_geom W P r i g : W r -> eff W P (df_set_geom r i g) (fun _ => True).
Proof. intros. apply eff_update; auto. Qed.

Lemma eff_set_col W P r c i v :
  W r -> eff W P (df_set_col r c i v) (fun _ => True).
Proof. intros. apply eff_update; auto. Qed.

Lemma eff_drop W P r i : eff W P (df_drop r i) W.
Proof. unfold df_drop. eff_auto. Qed.

Lemma eff_as_set W P v : eff W P (as_set v) (fun _ => True).
Proof. destruct v; simpl; eff_auto. Qed.

Lemma eff_as_int W P v : eff W P (as_int v) (fun _ => True).
Proof. destruct v; simpl; eff_auto. Qed.

#[local] Hint Resolve eff_copy eff_derive eff_update eff_index eff_get_geom
  eff_get_col eff_set_geom eff_set_col eff_drop eff_as_set eff_as_int
  eff_emit : effdb.

Lemma eff_owners_at W P r c i : eff W P (owners_at r c i) (fun _ => True).
Proof. unfold owners_at. eff_auto. Qed.

Lemma eff_adjacencies W P r t : eff W P (adjacencies_jc r t) W.
Proof. unfold adjacencies_jc. eff_auto. Qed.

Lemma eff_intersections W P a b :
  eff W P (intersections_jc a b) W.
Proof. unfold intersections_jc. eff_auto. Qed.

#[local] Hint Resolve eff_owners_at eff_adjacencies eff_intersections : effdb.

Lemma eff_foldM_in {A X} W P (body : A -> X -> M A) (Φ : A -> Prop)
    (Ψ : X -> Prop) l a :
  Forall Ψ l ->
  (forall a x, Ψ x -> Φ a -> eff W P (body a x) Φ) -> Φ a ->
  eff W P (foldM body a l) Φ.
Proof.
  intros Hl Hb. revert a. induction Hl as [|x l Hx Hl IH]; intros a Ha; simpl.
  - eapply eff_mono; [apply eff_ret|]. intros ? ->. exact Ha.
  - eapply eff_bind; [apply Hb; auto|]. intros a' Ha'. apply IH, Ha'.
Qed.

Lemma eff_mapM_in {X Y} W P (h : X -> M Y) (Φ : Y -> Prop) (Ψ : X -> Prop) l :
  Forall Ψ l ->
  (forall x, Ψ x -> eff W P (h x) Φ) -> eff W P (mapM h l) (Forall Φ).
Proof.
  intros Hl Hh. induction Hl as [|x l Hx Hl IH]; simpl.
  - eapply eff_mono; [apply eff_ret|]. intros ? ->. constructor.
  - eapply eff_bind; [apply Hh, Hx|]. intros y Hy.
    eapply eff_bind; [apply IH|]. intros ys Hys.
    eapply eff_mono; [apply eff_ret|]. intros ? ->. constructor; auto.
Qed.

(** A loop as the first action of a sequence. *)
Ltac eff_loop :=
  eapply eff_bind;
  [ first [ apply eff_forM; intros; solve [eff_auto]
          | apply eff_mapM; intros; solve [eff_auto] ]
  | simpl; intros ? ? ].

Lemma eff_building_blocks W P r :
  P (Print "Identifying overlaps...") ->
  eff W P (building_blocks_jc r) (fun bb => Forall W bb.1 /\ W bb.2).
Proof.
  intros HP. unfold building_blocks_jc.
  do 6 eff_step. eff_loop. eff_step. eff_loop. do 4 eff_step.
  - eff_auto.
  - eapply eff_bind.
    { apply (eff_mapM _ _ _ W). intros. eff_auto. }
    intros t0 Ht0. eapply eff_bind.
    { apply (eff_mapM_in _ _ _ W W); [exact Ht0|]. intros x Hx.
      eff_auto. }
    intros t Ht. eff_auto.
Qed.

#[local] Hint Resolve eff_building_blocks : effdb.

Lemma eff_grab_step W P gdf disc ov g_ind st o_ind :
  W disc -> eff W P (grab_step gdf disc ov g_ind st o_ind) (fun _ => True).
Proof. intros Hd. unfold grab_step. eff_auto. Qed.

Lemma eff_first_dibs W P gdf ov fo st g_ind :
  W gdf -> W st.1 ->
  eff W P (first_dibs gdf ov fo st g_ind) (fun st' => W st'.1).
Proof.
  intros Hg Hd. unfold first_dibs. eff_step.
  eapply eff_bind.
  { apply (eff_foldM _ _ _ (fun _ => True)); auto.
    intros. apply eff_grab_step, Hd. }
  intros st' _. eff_auto.
Qed.

Lemma eff_assign_by_perimeter W P gdf ov fsnap o_ind :
  W gdf -> eff W P (assign_by_perimeter gdf ov fsnap o_ind) (fun _ => True).
Proof. intros Hg. unfold assign_by_perimeter. eff_auto. Qed.

Definition is_assigning (m : msg) : Prop :=
  exists k, m = PrintIndex "Assigning order" k "pieces...".

Lemma eff_assign_level W P gdf tower disc i :
  (forall k, P (PrintIndex "Assigning order" k "pieces...")) ->
  W gdf -> W disc ->
  eff W P (assign_level gdf tower disc i) (fun disc' => W disc').
Proof.
  intros HP Hg Hd. unfold assign_level. do 4 eff_step.
  eapply eff_bind.
  { apply (eff_foldM _ _ _ (fun st => W st.1)); auto.
    intros. apply eff_first_dibs; auto. }
  intros st Hst. do 2 eff_step.
  eapply eff_bind.
  { apply eff_forM. intros. apply eff_assign_by_perimeter, Hg. }
  intros _ _. eff_auto.
Qed.

Lemma eff_assign_order1 W P gdf t0 ind :
  W gdf -> eff W P (assign_order1 gdf t0 ind) (fun _ => True).
Proof. intros Hg. unfold assign_order1. eff_auto. Qed.

Lemma eff_reconstruct W P r tower :
  (forall k, P (PrintIndex "Assigning order" k "pieces...")) ->
  eff W P (reconstruct_from_overlap_tower_jc r tower) W.
Proof.
  intros HP. unfold reconstruct_from_overlap_tower_jc. eff_step.
  eapply eff_bind. { apply (eff_mapM _ _ _ W). intros. eff_auto. }
  intros tw Htw. do 3 eff_step.
  eapply eff_bind. { apply eff_forM. intros. apply eff_assign_order1; auto. }
  intros _ _. do 3 eff_step. eff_loop. eff_step.
  eapply eff_bind.
  { apply (eff_foldM _ _ _ W); auto.
    intros. apply eff_assign_level; auto. }
  intros _ _. eff_auto.
Qed.

#[local] Hint Resolve eff_reconstruct : effdb.

Lemma eff_connect_pair W P f hole ss l :
  eff W P (connect_pair f hole ss l) (fun _ => True).
Proof.
  revert ss. induction l as [|[[x y] d] l IH]; intros ss; simpl.
  - eff_auto.
  - do 3 eff_step. destruct (find_line_pair _) as [[l1 l2]|]; [|apply IH].
    destruct (first_cut _ _ _ _).1; [|eff_auto].
    destruct (second_cut _ _ _) as [[piece|] nh]; [eff_auto|apply IH].
Qed.

Lemma eff_partial_fill W P hole r :
  eff W P (partial_fill_data_jc hole r) (fun _ => True).
Proof.
  unfold partial_fill_data_jc. do 2 eff_step.
  eapply eff_bind; [apply eff_connect_pair|]. intros found _.
  destruct found as [[[[x y] piece] nh]|]; eff_auto.
Qed.

Lemma eff_hole_shared_perimeters W P fg fb h :
  eff W P (hole_shared_perimeters fg fb h) (fun _ => True).
Proof.
  unfold hole_shared_perimeters. eapply eff_true.
  apply (eff_mapM _ _ _ (fun _ => True)). intros rb. eff_auto.
Qed.

#[local] Hint Resolve eff_partial_fill eff_hole_shared_perimeters : effdb.

Lemma eff_fill_hole W P gdf hb st h_ind :
  W gdf ->
  eff W P (fill_hole gdf hb st h_ind) (fun st' => W st'.1.1).
Proof. intros Hg. unfold fill_hole. eff_auto. Qed.

Lemma eff_close_gaps_round W P gdf holes :
  W gdf -> W holes ->
  eff W P (close_gaps_round gdf holes)
      (fun o => forall h, o = Some h -> W h).
Proof.
  intros Hg Hh. unfold close_gaps_round. do 2 eff_step. eff_loop. do 2 eff_step.
  eapply eff_bind.
  { apply (eff_foldM _ _ _ (fun st => W st.1.1)); auto.
    intros. apply eff_fill_hole, Hg. }
  intros st Hst. eff_split; [|eff_auto].
  eapply eff_bind.
  { apply (eff_foldM _ _ _ W); auto. intros. eff_auto. }
  intros h' Hh'. eff_auto.
Qed.

Lemma eff_close_gaps_loop W P fuel gdf holes :
  W gdf -> W holes ->
  eff W P (close_gaps_loop fuel gdf holes) (fun _ => True).
Proof.
  intros Hg. revert holes. induction fuel as [|fuel IH]; intros holes Hh; simpl.
  - eff_auto.
  - eapply eff_bind; [apply eff_close_gaps_round; auto|]. intros [h|] Ho.
    + apply IH. auto.
    + eff_auto.
Qed.

Lemma eff_close_gaps W P fuel r holes :
  eff W P (close_gaps_jc fuel r holes) W.
Proof.
  unfold close_gaps_jc. do 2 eff_step.
  eapply eff_bind; [apply eff_close_gaps_loop; auto|]. intros _ _. eff_auto.
Qed.

#[local] Hint Resolve eff_close_gaps : effdb.

Lemma eff_rook_to_queen_at W P gdf adj_geom :
  W gdf -> eff W P (rook_to_queen_at gdf adj_geom) (fun _ => True).
Proof.
  intros Hg. unfold rook_to_queen_at. do 3 eff_step.
  eapply eff_bind.
  { apply (eff_mapM _ _ _ (fun _ => True)). intros. eff_auto. }
  intros bs _. do 2 eff_step. eff_loop. eff_loop.
  eapply eff_bind.
  { apply (eff_foldM _ _ _ (fun st => W st.2)); auto. intros. eff_auto. }
  intros st Hst. eff_loop. eff_step. eff_loop. do 6 eff_step. eff_loop.
  do 2 eff_step. apply eff_forM. intros. eff_auto.
Qed.

Lemma eff_small_rook_to_queen W P r m :
  eff W P (small_rook_to_queen_jc r m) W.
Proof.
  unfold small_rook_to_queen_jc. do 3 eff_step.
  eapply eff_bind.
  { apply eff_forM. intros x.
    eapply eff_bind; [eff_leaf|]. intros g _.
    eapply eff_bind with (Φ := fun _ => True); [eff_auto|].
    intros _ _. eff_auto. }
  intros _ _. do 2 eff_step.
  eapply eff_bind.
  { apply (eff_foldM _ _ _ W); auto. intros. eff_auto. }
  intros adj Hadj. do 3 eff_step.
  eapply eff_bind.
  { apply eff_forM. intros x. do 5 eff_step. eff_split; [|eff_auto].
    eapply eff_bind; [eff_leaf|]. intros. apply eff_rook_to_queen_at, H. }
  intros _ _. eff_auto.
Qed.

Definition is_dr_warning (m : msg) : Prop :=
  exists ind tail,
    m = PrintIndex "WARNING: A component of the geometry at index " ind tail.

Lemma eff_peel_fragment W P rdf fsnap g_ind g cas big l i :
  W rdf ->
  eff W P (peel_fragment rdf fsnap g_ind g cas big l i) (fun _ => True).
Proof. intros Hr. unfold peel_fragment. eff_auto. Qed.

Lemma eff_repair_disconnected W P r0 rdf fsnap g_ind :
  (forall m, is_dr_warning m -> P m) ->
  W rdf -> eff W P (repair_disconnected r0 rdf fsnap g_ind) (fun _ => True).
Proof.
  intros HP Hr. unfold repair_disconnected. do 4 eff_step.
  eapply eff_bind with (Φ := fun _ => True).
  { unfold py_len. eff_auto. }
  intros len _.
  eapply eff_bind.
  { apply (eff_foldM _ _ _ (fun _ => True)); auto.
    intros. apply eff_peel_fragment, Hr. }
  intros cl _. destruct cl as [|c [|c' cl]].
  - apply eff_emit, HP. eexists _, _. reflexivity.
  - eff_auto.
  - eapply eff_bind.
    { apply (eff_mapM _ _ _ (fun _ => True)). intros. eff_auto. }
    intros. eff_auto.
Qed.

Lemma eff_disconnection_repair W P r0 rdf :
  (forall m, is_dr_warning m -> P m) ->
  W rdf -> eff W P (disconnection_repair r0 rdf) (fun _ => True).
Proof.
  intros HP Hr. unfold disconnection_repair. do 2 eff_step. eff_split; [|eff_auto].
  eapply eff_bind.
  { unfold got_worse. apply (eff_foldM _ _ _ (fun _ => True)); auto.
    intros. do 2 eff_step. unfold nc_gt. eff_auto. }
  intros l _. eff_split; [|eff_auto]. eff_step.
  apply eff_forM. intros. apply eff_repair_disconnected; auto.
Qed.

Lemma eff_residual_check W P r0 rdf :
  (forall m, is_dr_warning m -> P m) ->
  eff W P (residual_check r0 rdf) (fun _ => True).
Proof.
  intros HP. unfold residual_check. do 2 eff_step.
  apply eff_forM. intros. do 2 eff_step. unfold nc_gt.
  destruct (num_components_jc a1), (num_components_jc a2); try solve [eff_auto].
  eapply eff_bind; [eff_leaf|]. intros [] _; [|eff_auto].
  apply eff_emit, HP. eexists _, _. reflexivity.
Qed.

#[local] Hint Resolve eff_small_rook_to_queen : effdb.

Lemma eff_repair W fuel r0 cg mrl :
  eff W (fun _ => True) (repair_gdf_jc fuel r0 cg mrl) W.
Proof.
  unfold repair_gdf_jc. do 2 eff_step. eff_loop. eff_step.
  eapply eff_bind with (Φ := fun _ => True). { eff_auto. }
  intros _ _. do 3 eff_step.
  eapply eff_bind with (Φ := W). { eff_auto. }
  intros rdf Hrdf.
  eapply eff_bind; [apply eff_disconnection_repair; auto|]. intros _ _.
  eapply eff_bind; [apply eff_residual_check; auto|]. intros _ _.
  eff_auto.
Qed.

(** C10. [repair_gdf_jc] never changes a frame that was in the store when
    it was called: the frame of the caller, its geometries (3-D ones too)
    and its attributes, is the same after the call as before, whatever the
    outcome of the run. *)
Theorem repair_keeps_input fuel r0 cg mrl (s : St) (f0 : Frame) :
  heap s !! r0 = Some f0 ->
  heap (repair_gdf_jc fuel r0 cg mrl s).2 !! r0 = Some f0.
Proof.
  intros H0.
  destruct (eff_repair (le (List.length (heap s))) fuel r0 cg mrl s)
    as (Hkeep & _); [auto|].
  rewrite Hkeep; [exact H0|].
  apply lookup_lt_Some in H0. lia.
Qed.

End Effects.

(** * The order of the stages on the terminal *)

Section Order.

Context `{G : shp.Shapely}.

(** [logs m L]: the lines that a returning run of [m] prints are in [L]. *)
Definition logs {A} (m : M A) (L : list msg -> Prop) : Prop :=
  forall s a s', m s = (Ok a, s') -> exists l, out s' = out s ++ l /\ L l.

Definition anyref (x : nat) : Prop := True.
Definition nomsg (m : msg) : Prop := False.

Lemma logs_of_eff {A} P (m : M A) Φ : eff anyref P m Φ -> logs m (Forall P).
Proof.
  intros H s a s' Hm. destruct (H s) as (_ & _ & Hl & _); [intros; exact I|].
  rewrite Hm in Hl. exact Hl.
Qed.

Lemma logs_silent {A} (m : M A) Φ : eff anyref nomsg m Φ -> logs m (fun l => l = []).
Proof.
  intros H s a s' Hm. destruct (logs_of_eff _ _ _ H s a s' Hm) as (l & Hl & HF).
  exists l. split; [exact Hl|]. destruct l as [|x l]; [reflexivity|].
  inversion HF as [|? ? Hx]. destruct Hx.
Qed.

Lemma logs_mono {A} (m : M A) (L L' : list msg -> Prop) :
  logs m L -> (forall l, L l -> L' l) -> logs m L'.
Proof.
  intros H HL s a s' Hm. destruct (H s a s' Hm) as (l & Hl & HLl). eauto.
Qed.

Lemma logs_bind {A B} (m : M A) (k : A -> M B) L1 L2 :
  logs m L1 -> (forall a, logs (k a) L2) ->
  logs (bind m k) (fun l => exists l1 l2, l = l1 ++ l2 /\ L1 l1 /\ L2 l2).
Proof.
  intros Hm Hk s b s' Hrun. unfold bind in Hrun.
  destruct (m s) as [[a|e|] s1] eqn:E; try discriminate.
  destruct (Hm s a s1 E) as (l1 & Hl1 & HL1).
  destruct (Hk a s1 b s' Hrun) as (l2 & Hl2 & HL2).
  exists (l1 ++ l2). split.
  - rewrite Hl2, Hl1, app_assoc. reflexivity.
  - exists l1, l2. auto.
Qed.

Lemma logs_bind_silent {A B} (m : M A) (k : A -> M B) Φ L :
  eff anyref nomsg m Φ -> (forall a, logs (k a) L) -> logs (bind m k) L.
Proof.
  intros Hm Hk. eapply logs_mono.
  - apply logs_bind; [eapply logs_silent, Hm|exact Hk].
  - intros l (l1 & l2 & -> & -> & HL). exact HL.
Qed.

Lemma logs_emit x : logs (emit x) (fun l => l = [x]).
Proof. intros s [] s' [= <-]. exists [x]. auto. Qed.

Lemma logs_building_blocks r :
  logs (building_blocks_jc r) (fun l => l = [Print "Identifying overlaps..."]).
Proof.
  unfold building_blocks_jc.
  eapply logs_bind_silent; [apply eff_copy|]. intros gdf.
  eapply logs_bind_silent; [apply eff_derive|]. intros ge.
  eapply logs_bind_silent; [apply eff_read|]. intros fe.
  eapply logs_bind_silent; [apply eff_read|]. intros fg.
  eapply logs_bind_silent; [apply eff_alloc|]. intros pieces.
  eapply logs_bind_silent; [apply eff_index|]. intros ix.
  eapply logs_bind_silent.
  { apply eff_forM. intros. apply eff_set_col. exact I. }
  intros _. eapply logs_mono.
  { apply logs_bind; [apply logs_emit|]. intros _.
    eapply (logs_silent _ (fun _ => True)).
    eapply eff_bind.
    { apply eff_forM. intros.
      eapply eff_bind; [apply eff_get_geom|]. intros. apply eff_set_col. exact I. }
    intros _ _. eapply eff_bind; [apply eff_update; exact I|]. intros _ _.
    eapply eff_bind; [apply eff_derive|]. intros holes _.
    eapply eff_bind; [apply eff_read|]. intros fp _.
    destruct (omap overlap_degree (rows fp)).
    - apply eff_raise.
    - eapply eff_bind.
      { apply (eff_mapM _ _ _ (fun _ => True)). intros.
        eapply eff_true, eff_derive. }
      intros t0 _. eapply eff_bind.
      { apply (eff_mapM _ _ _ (fun _ => True)). intros x.
        eapply eff_bind; [apply eff_update; exact I|]. intros.
        eapply eff_true, eff_derive. }
      intros. eapply eff_true, eff_ret. }
  intros l (l1 & l2 & -> & -> & ->). reflexivity.
Qed.

Definition gap_closer_lines (close_gaps : bool) : list msg :=
  if close_gaps then [Print "Closing gaps..."] else [].

Definition rook_lines (min_rook_length : option Q) : list msg :=
  match min_rook_length with
  | Some _ => [Print "Converting small rook adjacencies to queen..."]
  | None => []
  end.

(** The terminal of a run of [repair_gdf_jc], stage by stage. *)
Definition stage_order (close_gaps : bool) (min_rook_length : option Q)
    (l : list msg) : Prop :=
  exists w la lw,
    l = w ++ [Print "Identifying overlaps..."; Print "Resolving overlaps..."]
          ++ la ++ gap_closer_lines close_gaps ++ lw
          ++ rook_lines min_rook_length /\
    Forall (eq (Warn geographic_crs_warning)) w /\
    Forall is_assigning la /\
    Forall is_dr_warning lw.

(** The order that puts the Disconnection Repair before the Gap Closer. *)
Definition stage_order_claimed (close_gaps : bool) (min_rook_length : option Q)
    (l : list msg) : Prop :=
  exists w la lw,
    l = w ++ [Print "Identifying overlaps..."; Print "Resolving overlaps..."]
          ++ la ++ lw ++ gap_closer_lines close_gaps
          ++ rook_lines min_rook_length /\
    Forall (eq (Warn geographic_crs_warning)) w /\
    Forall is_assigning la /\
    Forall is_dr_warning lw.

(** *** The stages as steps of a run *)

(** Lines 224-234: the working copy of the input, flattened to two
    dimensions. *)
Definition working_copy (geometries0_df : nat) : M nat :=
  geometries_df <- df_copy geometries0_df ;;
  ix <- df_index geometries_df ;;
  forM_ ix (fun i =>
    g <- df_get_geom geometries_df i ;;
    df_set_geom geometries_df i (shp.to_2d G g)) ;;;
  f <- df_read geometries_df ;;
  (match crs f with
   | Some c => if is_geographic c then emit (Warn geographic_crs_warning)
               else ret tt
   | None => ret tt
   end) ;;;
  ret geometries_df.

(** Lines 240-241: the Reconstructor and its line on the terminal. *)
Definition resolve_overlaps (geometries_df : nat) (overlap_tower : list nat)
  : M nat :=
  emit (Print "Resolving overlaps...") ;;;
  reconstruct_from_overlap_tower_jc geometries_df overlap_tower.

(** Lines 244-246: the Gap Closer, when it is enabled. *)
Definition gap_closer (close_gaps : bool) (fuel : nat)
    (reconstructed_df holes_df : nat) : M nat :=
  if close_gaps then
    emit (Print "Closing gaps...") ;;;
    close_gaps_jc fuel reconstructed_df holes_df
  else ret reconstructed_df.

(** Lines 317-321: the Rook-to-Queen Converter, when it is enabled. *)
Definition rook_converter (min_rook_length : option Q) (reconstructed_df : nat)
  : M nat :=
  match min_rook_length with
  | Some m =>
      emit (Print "Converting small rook adjacencies to queen...") ;;;
      small_rook_to_queen_jc reconstructed_df m
  | None => ret reconstructed_df
  end.

(** A run in stages: each stage starts in the store that the stage before
    it has left, and works on the frame that the stage before it has
    returned.  The Disconnection Repair (with its second check) takes the
    frame of the Gap Closer. *)
Definition staged (fuel r0 : nat) (close_gaps : bool) (min_rook_length : option Q)
    (s : St) (r : nat) (s' : St) : Prop :=
  exists gdf s1 bb s2 r1 s3 r2 s4 s5 s6,
    working_copy r0 s = (Ok gdf, s1) /\
    building_blocks_jc gdf s1 = (Ok bb, s2) /\
    resolve_overlaps gdf bb.1 s2 = (Ok r1, s3) /\
    gap_closer close_gaps fuel r1 bb.2 s3 = (Ok r2, s4) /\
    disconnection_repair r0 r2 s4 = (Ok tt, s5) /\
    residual_check r0 r2 s5 = (Ok tt, s6) /\
    rook_converter min_rook_length r2 s6 = (Ok r, s').

(** The run in the order that puts the Disconnection Repair before the
    Gap Closer: the repair takes the frame of the Reconstructor, and the Gap
    Closer the store that the repair has left. *)
Definition staged_claimed (fuel r0 : nat) (close_gaps : bool)
    (min_rook_length : option Q) (s : St) (r : nat) (s' : St) : Prop :=
  exists gdf s1 bb s2 r1 s3 s4 s5 r2 s6,
    working_copy r0 s = (Ok gdf, s1) /\
    building_blocks_jc gdf s1 = (Ok bb, s2) /\
    resolve_overlaps gdf bb.1 s2 = (Ok r1, s3) /\
    disconnection_repair r0 r1 s3 = (Ok tt, s4) /\
    residual_check r0 r1 s4 = (Ok tt, s5) /\
    gap_closer close_gaps fuel r1 bb.2 s5 = (Ok r2, s6) /\
    rook_converter min_rook_length r2 s6 = (Ok r, s').

Lemma bind_Ok {A B} (m : M A) (k : A -> M B) (s : St) b s' :
  bind m k s = (Ok b, s') ->
  exists a s1, m s = (Ok a, s1) /\ k a s1 = (Ok b, s').
Proof.
  unfold bind. destruct (m s) as [[a|e|] s1]; try discriminate. eauto.
Qed.

Lemma bind_run {A B} (m : M A) (k : A -> M B) (s : St) a s1 :
  m s = (Ok a, s1) -> bind m k s = k a s1.
Proof. unfold bind. intros ->. reflexivity. Qed.

(** The run of [repair_gdf_jc], cut at the end of each stage. *)
Lemma repair_staged fuel r0 cg mrl (s s' : St) r :
  repair_gdf_jc fuel r0 cg mrl s = (Ok r, s') -> staged fuel r0 cg mrl s r s'.
Proof.
  unfold repair_gdf_jc. intros H.
  apply bind_Ok in H as (gdf & sa & Ha & H).
  apply bind_Ok in H as (ix & sb & Hb & H).
  apply bind_Ok in H as ([] & sc & Hc & H).
  apply bind_Ok in H as (f & sd & Hd & H).
  apply bind_Ok in H as ([] & s1 & He & H).
  apply bind_Ok in H as (bb & s2 & Hbb & H).
  apply bind_Ok in H as ([] & s2' & Hem & H).
  apply bind_Ok in H as (r1 & s3 & Hr1 & H).
  apply bind_Ok in H as (r2 & s4 & Hr2 & H).
  apply bind_Ok in H as ([] & s5 & Hdr & H).
  apply bind_Ok in H as ([] & s6 & Hrc & H).
  exists gdf, s1, bb, s2, r1, s3, r2, s4, s5, s6. repeat split; auto.
  - unfold working_copy.
    rewrite (bind_run _ _ _ _ _ Ha), (bind_run _ _ _ _ _ Hb),
      (bind_run _ _ _ _ _ Hc), (bind_run _ _ _ _ _ Hd), (bind_run _ _ _ _ _ He).
    reflexivity.
  - unfold resolve_overlaps. rewrite (bind_run _ _ _ _ _ Hem). exact Hr1.
Qed.

Lemma logs_working_copy r0 :
  logs (working_copy r0) (Forall (eq (Warn geographic_crs_warning))).
Proof.
  apply (logs_of_eff _ _ (fun _ => True)). unfold working_copy.
  eapply eff_bind; [apply eff_copy|]. intros gdf _.
  eapply eff_bind; [apply eff_index|]. intros ix _.
  eapply eff_bind.
  { apply eff_forM. intros.
    eapply eff_bind; [apply eff_get_geom|]. intros. apply eff_set_geom. exact I. }
  intros _ _. eapply eff_bind; [apply eff_read|]. intros f _.
  eapply eff_bind with (Φ := fun _ => True).
  { destruct (crs f) as [c|]; [destruct (is_geographic c)|].
    - apply eff_emit. reflexivity.
    - eapply eff_true, eff_ret.
    - eapply eff_true, eff_ret. }
  intros _ _. eapply eff_true, eff_ret.
Qed.

Lemma logs_resolve_overlaps gdf tower :
  logs (resolve_overlaps gdf tower)
       (fun l => exists la, l = Print "Resolving overlaps..." :: la /\
                            Forall is_assigning la).
Proof.
  unfold resolve_overlaps. eapply logs_mono.
  - apply logs_bind; [apply logs_emit|]. intros _.
    eapply (logs_of_eff is_assigning). apply eff_reconstruct.
    intros k. exists k. reflexivity.
  - intros l (l1 & l2 & -> & -> & Hl2). exists l2. auto.
Qed.

Lemma logs_gap_closer cg fuel r h :
  logs (gap_closer cg fuel r h) (fun l => l = gap_closer_lines cg).
Proof.
  unfold gap_closer. destruct cg; simpl.
  - eapply logs_mono.
    + apply logs_bind; [apply logs_emit|]. intros _.
      eapply logs_silent, eff_close_gaps.
    + intros l (l1 & l2 & -> & -> & ->). reflexivity.
  - eapply logs_silent, eff_ret.
Qed.

Lemma logs_rook_converter mrl r :
  logs (rook_converter mrl r) (fun l => l = rook_lines mrl).
Proof.
  unfold rook_converter. destruct mrl as [m|]; simpl.
  - eapply logs_mono.
    + apply logs_bind; [apply logs_emit|]. intros _.
      eapply logs_silent, eff_small_rook_to_queen.
    + intros l (l1 & l2 & -> & -> & ->). reflexivity.
  - eapply logs_silent, eff_ret.
Qed.

Lemma logs_disconnection_repair r0 r :
  logs (disconnection_repair r0 r) (Forall is_dr_warning).
Proof.
  eapply (logs_of_eff is_dr_warning).
  apply eff_disconnection_repair; [auto|exact I].
Qed.

Lemma logs_residual_check r0 r :
  logs (residual_check r0 r) (Forall is_dr_warning).
Proof. eapply (logs_of_eff is_dr_warning). apply eff_residual_check. auto. Qed.

(** A run in the order that puts the Disconnection Repair first prints
    its lines in that order. *)
Lemma staged_claimed_logs fuel r0 cg mrl (s s' : St) r :
  staged_claimed fuel r0 cg mrl s r s' ->
  exists l, out s' = out s ++ l /\ stage_order_claimed cg mrl l.
Proof.
  intros (gdf & s1 & bb & s2 & r1 & s3 & s4 & s5 & r2 & s6 &
          H1 & H2 & H3 & H4 & H5 & H6 & H7).
  apply logs_working_copy in H1 as (w & E1 & Hw).
  apply logs_building_blocks in H2 as (lb & E2 & ->).
  apply logs_resolve_overlaps in H3 as (lr & E3 & la & -> & Hla).
  apply logs_disconnection_repair in H4 as (ld & E4 & Hld).
  apply logs_residual_check in H5 as (lc & E5 & Hlc).
  apply logs_gap_closer in H6 as (lg & E6 & ->).
  apply logs_rook_converter in H7 as (lq & E7 & ->).
  exists (w ++ [Print "Identifying overlaps..."; Print "Resolving overlaps..."]
            ++ la ++ (ld ++ lc) ++ gap_closer_lines cg ++ rook_lines mrl).
  split.
  - rewrite E7, E6, E5, E4, E3, E2, E1. simpl. rewrite <- !app_assoc. reflexivity.
  - exists w, la, (ld ++ lc). repeat split; auto. apply Forall_app. auto.
Qed.

Lemma logs_repair fuel r0 cg mrl :
  logs (repair_gdf_jc fuel r0 cg mrl) (stage_order cg mrl).
Proof.
  unfold repair_gdf_jc.
  eapply logs_bind_silent; [apply eff_copy|]. intros gdf.
  eapply logs_bind_silent; [apply eff_index|]. intros ix.
  eapply logs_bind_silent.
  { apply eff_forM. intros.
    eapply eff_bind; [apply eff_get_geom|]. intros. apply eff_set_geom. exact I. }
  intros _.
  eapply logs_bind_silent; [apply eff_read|]. intros f.
  eapply logs_mono.
  { apply logs_bind.
    { apply (logs_of_eff (eq (Warn geographic_crs_warning)) _ (fun _ => True)).
      destruct (crs f) as [c|]; [destruct (is_geographic c)|].
      - apply eff_emit. reflexivity.
      - eapply eff_true, eff_ret.
      - eapply eff_true, eff_ret. }
    intros _. apply logs_bind; [apply logs_building_blocks|]. intros bb.
    apply logs_bind; [apply logs_emit|]. intros _.
    apply logs_bind.
    { eapply (logs_of_eff is_assigning). apply eff_reconstruct.
      intros k. exists k. reflexivity. }
    intros rdf. apply logs_bind.
    { instantiate (1 := fun l => l = gap_closer_lines cg). destruct cg; simpl.
      - eapply logs_mono.
        + apply logs_bind; [apply logs_emit|]. intros _.
          eapply logs_silent, eff_close_gaps.
        + intros l (l1 & l2 & -> & -> & ->). reflexivity.
      - eapply logs_silent, eff_ret. }
    intros rdf'. apply logs_bind.
    { eapply (logs_of_eff is_dr_warning).
      apply eff_disconnection_repair; [auto|exact I]. }
    intros _. apply logs_bind.
    { eapply (logs_of_eff is_dr_warning). apply eff_residual_check. auto. }
    intros _. instantiate (1 := fun l => l = rook_lines mrl).
    destruct mrl as [m|]; simpl.
    - eapply logs_mono.
      + apply logs_bind; [apply logs_emit|]. intros _.
        eapply logs_silent, eff_small_rook_to_queen.
      + intros l (l1 & l2 & -> & -> & ->). reflexivity.
    - eapply logs_silent, eff_ret. }
  intros l (w & l1 & -> & Hw & lbb & l2 & -> & -> & lr & l3 & -> & -> &
            la & l4 & -> & Hla & lc & l5 & -> & -> & ld & l6 & -> & Hld &
            le & l7 & -> & Hle & ->).
  exists w, la, (ld ++ le). repeat split; auto.
  - simpl. rewrite <- !app_assoc. reflexivity.
  - apply Forall_app. auto.
Qed.

(** C3, as the code has it.  Every run of [repair_gdf_jc] that returns is
    a run in stages, in this order: the working copy, the Arrangement
    Builder and Overlap Classifier, the Reconstructor, then, when enabled,
    the Gap Closer, then the Disconnection Repair and its second check on
    the frame that the Gap Closer has returned and in the store that it has
    left, then, when enabled, the Rook-to-Queen Converter.  The lines on the
    terminal come in the same order: "Identifying overlaps...",
    "Resolving overlaps..." and the "Assigning order k pieces...", then
    "Closing gaps...", then the warnings of the Disconnection Repair, then
    the line of the Rook-to-Queen Converter.  The Gap Closer comes before
    the Disconnection Repair. *)
Theorem repair_stage_order fuel r0 cg mrl (s s' : St) r :
  repair_gdf_jc fuel r0 cg mrl s = (Ok r, s') ->
  staged fuel r0 cg mrl s r s' /\
  exists l, out s' = out s ++ l /\ stage_order cg mrl l.
Proof.
  intros H. split; [apply repair_staged, H|]. eapply logs_repair, H.
Qed.

End Order.

(** * Weakest preconditions *)

Section Logic.

Context `{G : shp.Shapely}.

Abbreviation geom := (shp.geom G).

(** [wpx E m Q s]: the run of [m] from [s] returns a value and a state in
    [Q], or it raises or times out and [E] holds.  With [E := True] this is
    partial correctness, with [E := False] the run returns. *)
Definition wpx {A} (E : Prop) (m : M A) (Q : A -> St -> Prop) (s : St) : Prop :=
  match m s with
  | (Ok a, s') => Q a s'
  | _ => E
  end.

Definition upd (r : nat) (f : Frame) (s : St) : St :=
  {| heap := <[r := f]> (heap s); out := out s |}.

Definition push (f : Frame) (s : St) : St :=
  {| heap := heap s ++ [f]; out := out s |}.

Definition say (x : msg) (s : St) : St :=
  {| heap := heap s; out := out s ++ [x] |}.

Lemma wpx_ret {A} E (a : A) Q s : Q a s -> wpx E (ret a) Q s.
Proof. auto. Qed.

Lemma wpx_bind {A B} E (m : M A) (k : A -> M B) Q s :
  wpx E m (fun a s' => wpx E (k a) Q s') s -> wpx E (bind m k) Q s.
Proof. unfold wpx, bind. destruct (m s) as [[a|e|] s']; auto. Qed.

Lemma wpx_mono {A} E (m : M A) (Q Q' : A -> St -> Prop) s :
  (forall a s', Q a s' -> Q' a s') -> wpx E m Q s -> wpx E m Q' s.
Proof. unfold wpx. destruct (m s) as [[a|e|] s']; auto. Qed.

Lemma wpx_use {A} E (m : M A) Q s a s' :
  wpx E m Q s -> m s = (Ok a, s') -> Q a s'.
Proof. unfold wpx. intros H Hm. rewrite Hm in H. exact H. Qed.

Lemma wpx_ok {A} (m : M A) Q s :
  wpx False m Q s -> exists a s', m s = (Ok a, s') /\ Q a s'.
Proof. unfold wpx. destruct (m s) as [[a|e|] s']; [eauto|tauto..]. Qed.

Lemma wpx_raise {A} (E : Prop) e (Q : A -> St -> Prop) s : E -> wpx E (raise e) Q s.
Proof. auto. Qed.

Lemma wpx_emit E x Q s : Q tt (say x s) -> wpx E (emit x) Q s.
Proof. auto. Qed.

Lemma wpx_alloc E f Q s :
  Q (List.length (heap s)) (push f s) -> wpx E (df_alloc f) Q s.
Proof. auto. Qed.

Lemma wpx_read E r f Q s :
  heap s !! r = Some f -> Q f s -> wpx E (df_read r) Q s.
Proof. unfold wpx, df_read. intros ->. auto. Qed.

Lemma wpx_write E r f Q s : Q tt (upd r f s) -> wpx E (df_write r f) Q s.
Proof. auto. Qed.

Lemma wpx_of_option {A} (E : Prop) e (o : option A) Q s :
  match o with Some a => Q a s | None => E end -> wpx E (of_option e o) Q s.
Proof. destruct o; auto. Qed.

(** The rule of [for] loops: [I] holds of what is left of the list. *)
Lemma wpx_foldM {A X} E (body : A -> X -> M A) (I : list X -> A -> St -> Prop)
    l a s :
  (forall x rest a s, I (x :: rest) a s ->
     wpx E (body a x) (fun a' s' => I rest a' s') s) ->
  I l a s -> wpx E (foldM body a l) (fun a' s' => I [] a' s') s.
Proof.
  intros Hb. revert a s. induction l as [|x l IH]; intros a s HI; simpl.
  - exact HI.
  - apply wpx_bind. eapply wpx_mono; [|apply Hb, HI].
    intros a' s' HI'. apply IH. exact HI'.
Qed.

(** *** Frames in the store: rules that name the new state *)

Lemma wpx_alloc' E f (Q : nat -> St -> Prop) s :
  (forall s', heap s' = heap s ++ [f] -> out s' = out s ->
              Q (List.length (heap s)) s') ->
  wpx E (df_alloc f) Q s.
Proof. intros H. apply wpx_alloc, H; reflexivity. Qed.

Lemma wpx_write' E r f (Q : unit -> St -> Prop) s :
  (forall s', heap s' = <[r := f]> (heap s) -> out s' = out s -> Q tt s') ->
  wpx E (df_write r f) Q s.
Proof. intros H. apply wpx_write, H; reflexivity. Qed.

Lemma wpx_emit' E x (Q : unit -> St -> Prop) s :
  (forall s', heap s' = heap s -> out s' = out s ++ [x] -> Q tt s') ->
  wpx E (emit x) Q s.
Proof. intros H. apply wpx_emit, H; reflexivity. Qed.

Lemma wpx_copy E r f (Q : nat -> St -> Prop) s :
  heap s !! r = Some f ->
  (forall s', heap s' = heap s ++ [f] -> out s' = out s ->
              Q (List.length (heap s)) s') ->
  wpx E (df_copy r) Q s.
Proof.
  intros Hr H. unfold df_copy. apply wpx_bind. eapply wpx_read; [exact Hr|].
  apply wpx_alloc', H.
Qed.

Lemma wpx_derive E h r f (Q : nat -> St -> Prop) s :
  heap s !! r = Some f ->
  (forall s', heap s' = heap s ++ [h f] -> out s' = out s ->
              Q (List.length (heap s)) s') ->
  wpx E (df_derive h r) Q s.
Proof.
  intros Hr H. unfold df_derive. apply wpx_bind. eapply wpx_read; [exact Hr|].
  apply wpx_alloc', H.
Qed.

Lemma wpx_update E h r f (Q : unit -> St -> Prop) s :
  heap s !! r = Some f ->
  (forall s', heap s' = <[r := h f]> (heap s) -> out s' = out s -> Q tt s') ->
  wpx E (df_update h r) Q s.
Proof.
  intros Hr H. unfold df_update. apply wpx_bind. eapply wpx_read; [exact Hr|].
  apply wpx_write', H.
Qed.

Lemma wpx_index E r f (Q : list nat -> St -> Prop) s :
  heap s !! r = Some f -> Q (frame_index f) s -> wpx E (df_index r) Q s.
Proof.
  intros Hr H. unfold df_index. apply wpx_bind. eapply wpx_read; [exact Hr|].
  apply wpx_ret, H.
Qed.

Lemma wpx_get_geom (E : Prop) r i f (Q : geom -> St -> Prop) s :
  heap s !! r = Some f ->
  match frame_get_geom i f with Some g => Q g s | None => E end ->
  wpx E (df_get_geom r i) Q s.
Proof.
  intros Hr H. unfold df_get_geom. apply wpx_bind. eapply wpx_read; [exact Hr|].
  apply wpx_of_option, H.
Qed.

Lemma wpx_get_col (E : Prop) r c i f (Q : value -> St -> Prop) s :
  heap s !! r = Some f ->
  match frame_get_col c i f with Some v => Q v s | None => E end ->
  wpx E (df_get_col r c i) Q s.
Proof.
  intros Hr H. unfold df_get_col. apply wpx_bind. eapply wpx_read; [exact Hr|].
  apply wpx_of_option, H.
Qed.

Lemma wpx_set_geom E r i g f (Q : unit -> St -> Prop) s :
  heap s !! r = Some f ->
  (forall s', heap s' = <[r := frame_set_geom i g f]> (heap s) ->
              out s' = out s -> Q tt s') ->
  wpx E (df_set_geom r i g) Q s.
Proof. apply wpx_update. Qed.

Lemma wpx_set_col E r c i v f (Q : unit -> St -> Prop) s :
  heap s !! r = Some f ->
  (forall s', heap s' = <[r := frame_set_col c i v f]> (heap s) ->
              out s' = out s -> Q tt s') ->
  wpx E (df_set_col r c i v) Q s.
Proof. apply wpx_update. Qed.

Lemma wpx_drop (E : Prop) r i f (Q : nat -> St -> Prop) s :
  heap s !! r = Some f ->
  match find_row i f with
  | Some _ =>
      forall s',
        heap s' = heap s ++ [frame_filter (fun x => negb (Nat.eqb (label x) i)) f] ->
        out s' = out s -> Q (List.length (heap s)) s'
  | None => E
  end ->
  wpx E (df_drop r i) Q s.
Proof.
  intros Hr H. unfold df_drop. apply wpx_bind. eapply wpx_read; [exact Hr|].
  destruct (find_row i f); [apply wpx_alloc', H|exact H].
Qed.

Lemma wpx_as_set (E : Prop) v (Q : gset nat -> St -> Prop) s :
  match v with VSet x => Q x s | _ => E end -> wpx E (as_set v) Q s.
Proof. destruct v; auto. Qed.

Lemma wpx_as_int (E : Prop) v (Q : nat -> St -> Prop) s :
  match v with VInt x => Q x s | _ => E end -> wpx E (as_int v) Q s.
Proof. destruct v; auto. Qed.

(** Lookups in a store that is known by equations. *)
Lemma lookup_snoc_old (h : list Frame) f r x :
  h !! r = Some x -> (h ++ [f]) !! r = Some x.
Proof. apply lookup_app_l_Some. Qed.

Lemma lookup_snoc_new (h : list Frame) f : (h ++ [f]) !! List.length h = Some f.
Proof. apply list_lookup_middle. reflexivity. Qed.

Lemma lookup_upd_eq (h : list Frame) f r x :
  h !! r = Some x -> <[r := f]> h !! r = Some f.
Proof. intros H. apply list_lookup_insert_eq. eapply lookup_lt_Some, H. Qed.

Lemma lookup_upd_ne (h : list Frame) f r r' x :
  r <> r' -> h !! r' = Some x -> <[r := f]> h !! r' = Some x.
Proof. intros Hne H. rewrite list_lookup_insert_ne; auto. Qed.

Lemma lookup_fresh_ne (h : list Frame) r x : h !! r = Some x -> r <> List.length h.
Proof. intros H%lookup_lt_Some. lia. Qed.

(** ** The second check of the Disconnection Repair *)

Definition dr_warning (ind : nat) : msg :=
  PrintIndex "WARNING: A component of the geometry at index " ind
             " may have been disconnected!".

(** Polygon [ind] has at most as many components as it had in the input,
    or the terminal holds the warning for [ind]. *)
Definition reported (f0 fr : Frame) (log : list msg) (ind : nat) : Prop :=
  forall g g0,
    frame_get_geom ind fr = Some g -> frame_get_geom ind f0 = Some g0 ->
    (exists n n0, num_components_jc g = Some n /\
                  num_components_jc g0 = Some n0 /\ n <= n0)
    \/ In (dr_warning ind) log.

Lemma find_row_Some i (f : Frame) r :
  find_row i f = Some r -> In r (rows f) /\ label r = i.
Proof.
  unfold find_row. intros H. apply find_some in H as [H1 H2].
  split; [exact H1|]. apply Nat.eqb_eq, H2.
Qed.

Lemma residual_check_spec r0 rdf (f0 fr : Frame) s :
  heap s !! r0 = Some f0 -> heap s !! rdf = Some fr ->
  wpx True (residual_check r0 rdf)
      (fun _ s' =>
         heap s' !! rdf = Some fr /\
         forall ind g, frame_get_geom ind fr = Some g ->
                       shp.geom_type G g <> Polygon ->
                       reported f0 fr (out s') ind) s.
Proof.
  intros H0 Hr. unfold residual_check.
  apply wpx_bind. eapply wpx_derive; [exact Hr|]. intros s1 Hs1 Ho1.
  apply wpx_bind. eapply wpx_index.
  { rewrite Hs1. apply lookup_snoc_new. }
  unfold forM_.
  set (ixd := frame_index (frame_filter not_polygon fr)).
  eapply wpx_mono; cycle 1.
  - apply (wpx_foldM True _
             (fun rest _ s' =>
                heap s' = heap s1 /\
                forall ind, In ind ixd -> ~ In ind rest ->
                            reported f0 fr (out s') ind)).
    + intros x rest [] s2 [Hh HI].
      assert (Hr2 : heap s2 !! rdf = Some fr).
      { rewrite Hh, Hs1. apply lookup_snoc_old, Hr. }
      assert (H02 : heap s2 !! r0 = Some f0).
      { rewrite Hh, Hs1. apply lookup_snoc_old, H0. }
      apply wpx_bind. eapply wpx_get_geom; [exact Hr2|].
      destruct (frame_get_geom x fr) as [g|] eqn:Eg; [|exact I].
      apply wpx_bind. eapply wpx_get_geom; [exact H02|].
      destruct (frame_get_geom x f0) as [g0|] eqn:Eg0; [|exact I].
      apply wpx_bind. unfold nc_gt.
      destruct (num_components_jc g) as [n|] eqn:En; [|exact I].
      destruct (num_components_jc g0) as [n0|] eqn:En0; [|exact I].
      apply wpx_ret. destruct (Nat.ltb n0 n) eqn:Elt.
      * apply wpx_emit'. intros s3 Hh3 Ho3. split; [congruence|].
        rewrite Ho3.
        intros ind Hin Hnot g' g0' Hg' Hg0'.
        destruct (decide (ind = x)) as [->|Hne].
        -- right. apply in_or_app. right. left. reflexivity.
        -- assert (Hn : ~ In ind (x :: rest))
             by (intros [?|?]; [congruence|auto]).
           destruct (HI ind Hin Hn g' g0' Hg' Hg0') as [Hle|Hw]; [left; exact Hle|].
           right. apply in_or_app. left. exact Hw.
      * apply wpx_ret. split; [exact Hh|].
        intros ind Hin Hnot g' g0' Hg' Hg0'.
        destruct (decide (ind = x)) as [->|Hne].
        -- left. exists n, n0. apply Nat.ltb_ge in Elt.
           rewrite Eg in Hg'. rewrite Eg0 in Hg0'.
           injection Hg' as <-. injection Hg0' as <-. auto.
        -- apply (HI ind Hin); auto. intros [?|?]; [congruence|auto].
    + split; [reflexivity|]. intros ind Hin Hnot. contradiction.
  - simpl. intros [] s' [Hh HI]. split.
    { rewrite Hh, Hs1. apply lookup_snoc_old, Hr. }
    intros ind g Hg Hty. apply HI; [|auto].
    unfold ixd, frame_index, frame_filter. simpl.
    unfold frame_get_geom in Hg.
    destruct (find_row ind fr) as [r|] eqn:Er; [|discriminate].
    apply find_row_Some in Er as [Hin Hl]. injection Hg as <-.
    apply in_map_iff. exists r. split; [exact Hl|].
    apply filter_In. split; [exact Hin|].
    unfold not_polygon. apply negb_true_iff, bool_decide_eq_false. exact Hty.
Qed.

(** C9. After the pass of the Disconnection Repair (the repair loop and
    the second check), every polygon of the frame has at most as many
    connected components as it had in the input, or the terminal holds the
    warning that names its index.  The input polygons are taken to be
    non-empty. *)
Theorem disconnection_pass_reports (s s' : St) r0 rdf (f0 : Frame) :
  r0 <> rdf ->
  heap s !! r0 = Some f0 ->
  (forall ind g0, frame_get_geom ind f0 = Some g0 ->
     exists n0, num_components_jc g0 = Some n0 /\ 1 <= n0) ->
  (disconnection_repair r0 rdf ;;; residual_check r0 rdf) s = (Ok tt, s') ->
  exists fr, heap s' !! rdf = Some fr /\
             forall ind, reported f0 fr (out s') ind.
Proof.
  intros Hne H0 Hin Hrun. unfold bind in Hrun.
  destruct (disconnection_repair r0 rdf s) as [[[]|e|] s1] eqn:E1;
    try discriminate.
  assert (H01 : heap s1 !! r0 = Some f0).
  { destruct (eff_disconnection_repair
                (fun x => x = rdf \/ List.length (heap s) <= x)
                (fun _ => True) r0 rdf (fun _ _ => Logic.I) (or_introl eq_refl) s)
      as (Hkeep & _); [auto|].
    rewrite E1 in Hkeep. simpl in Hkeep. rewrite Hkeep; [exact H0|].
    apply lookup_lt_Some in H0. intros [?|?]; [congruence|lia]. }
  destruct (heap s1 !! rdf) as [fr|] eqn:Er.
  - pose proof (residual_check_spec r0 rdf f0 fr s1 H01 Er) as Hwp.
    eapply wpx_use in Hwp; [|exact Hrun]. destruct Hwp as [Hr' Hrep].
    exists fr. split; [exact Hr'|]. intros ind g g0 Hg Hg0.
    destruct (decide (shp.geom_type G g = Polygon)) as [Hty|Hty].
    + left. destruct (Hin ind g0 Hg0) as (n0 & Hn0 & Hge).
      unfold num_components_jc at 1. rewrite Hty.
      destruct (shp.is_empty G g); eexists _, n0; (split; [reflexivity|]);
        (split; [exact Hn0|lia]).
    + apply (Hrep ind g Hg Hty g g0 Hg Hg0).
  - exfalso. unfold residual_check, df_derive, bind, df_read in Hrun.
    rewrite Er in Hrun. discriminate.
Qed.

End Logic.

(** * Concrete runs *)

Section Runs.

Import runs.

Lemma run_result {A} (p : res A * St (G := grid.kernel)) (a : res A) :
  p.1 = a -> p = (a, p.2).
Proof. intros <-. destruct p. reflexivity. Qed.

Lemma cross_run :
  repair_gdf_jc 10 0 true None (start cross) =
  (Ok 16, (repair_gdf_jc 10 0 true None (start cross)).2).
Proof. apply run_result. vm_compute. reflexivity. Qed.

Lemma cross_run_log :
  out (repair_gdf_jc 10 0 true None (start cross)).2 =
  [Print "Identifying overlaps..."; Print "Resolving overlaps...";
   PrintIndex "Assigning order" 2 "pieces..."; Print "Closing gaps...";
   dr_warning 1].
Proof. vm_compute. reflexivity. Qed.

Lemma cross_log_not_claimed :
  ~ stage_order_claimed true None
      (out (repair_gdf_jc 10 0 true None (start cross)).2).
Proof.
  rewrite cross_run_log. intros (w & la & lw & Hl & _ & _ & _).
  unfold gap_closer_lines, rook_lines in Hl.
  rewrite app_nil_r, !app_assoc in Hl.
  apply (f_equal (@last msg)) in Hl. rewrite last_snoc in Hl. discriminate.
Qed.

(** C3, counterexample.  The run on the crossing bars returns, and it is
    not a run in the order that puts the Disconnection Repair before the
    Gap Closer: no choice of stores between the stages makes it one.  On
    its terminal the warning of the Disconnection Repair comes after
    "Closing gaps...". *)
Lemma stage_order_claimed_fails :
  repair_gdf_jc 10 0 true None (start cross) =
    (Ok 16, (repair_gdf_jc 10 0 true None (start cross)).2) /\
  ~ staged_claimed 10 0 true None (start cross) 16
      (repair_gdf_jc 10 0 true None (start cross)).2 /\
  ~ stage_order_claimed true None
      (out (repair_gdf_jc 10 0 true None (start cross)).2).
Proof.
  split; [exact cross_run|]. split; [|exact cross_log_not_claimed].
  intros H. apply staged_claimed_logs in H as (l & Hl & Hc).
  apply cross_log_not_claimed. rewrite Hl. exact Hc.
Qed.

Lemma repair_stage_order_witness :
  staged 10 0 true None (start cross) 16
    (repair_gdf_jc 10 0 true None (start cross)).2 /\
  exists l, out (repair_gdf_jc 10 0 true None (start cross)).2
            = out (start cross) ++ l /\ stage_order true None l.
Proof. exact (repair_stage_order 10 0 true None _ _ 16 cross_run). Defined.

Lemma dataset_nonempty c (a b : grid.shape) :
  num_components_jc (G := grid.kernel) a = Some 1 ->
  num_components_jc (G := grid.kernel) b = Some 1 ->
  forall ind g0, frame_get_geom ind (dataset c [a; b]) = Some g0 ->
    exists n0, num_components_jc g0 = Some n0 /\ 1 <= n0.
Proof.
  intros Ha Hb [|[|ind]] g0 H; cbn in H.
  - injection H as <-. eauto.
  - injection H as <-. eauto.
  - discriminate.
Qed.

Lemma disconnection_pass_reports_witness :
  exists fr,
    heap ((disconnection_repair 0 1 ;;; residual_check 0 1)
            (start2 cross cross_rebuilt)).2 !! 1 = Some fr /\
    forall ind,
      reported cross fr
        (out ((disconnection_repair 0 1 ;;; residual_check 0 1)
                (start2 cross cross_rebuilt)).2) ind.
Proof.
  apply (disconnection_pass_reports (start2 cross cross_rebuilt) _ 0 1 cross).
  - discriminate.
  - reflexivity.
  - apply dataset_nonempty; vm_compute; reflexivity.
  - apply run_result. vm_compute. reflexivity.
Defined.

Lemma repair_keeps_input_witness :
  heap (repair_gdf_jc 10 0 true None (start cross)).2 !! 0 = Some cross.
Proof. apply repair_keeps_input. reflexivity. Defined.

(** C4, the failing input.  A dataset that holds the same square twice has
    one contested piece and no uncontested one; when the piece is to be
    assigned no owner has a boundary yet, and the branch that should report
    it raises [NameError] on the undefined name [multi_index]: the run stops
    and reports nothing. *)
Theorem unglued_piece_raises :
  repair_gdf_jc 10 0 true None (start duplicates) =
  (Raise (NameError "multi_index"),
   (repair_gdf_jc 10 0 true None (start duplicates)).2)
  /\ out (repair_gdf_jc 10 0 true None (start duplicates)).2 =
     [Print "Identifying overlaps..."; Print "Resolving overlaps...";
      PrintIndex "Assigning order" 2 "pieces..."].
Proof. split; [apply run_result|]; vm_compute; reflexivity. Qed.

End Runs.

(** * Further properties of the stages *)

Ltac splits := repeat match goal with |- _ /\ _ => split end.

(** * The ideal plane *)

(** An interpretation of the geometries of a kernel as finite sets of atoms
    of area, with the laws of exact geometry that the program relies on:
    what a union covers, and that the members of a multi-part geometry and
    the cells of a polygonization do not overlap. *)
Class Ideal (G : shp.Shapely) := {
  atom : Type;
  atom_eq_dec :: EqDecision atom;
  atom_countable :: Countable atom;
  cells : shp.geom G -> gset atom;
  cells_empty : cells (shp.empty_polygon G) = ∅;
  cells_union : forall a b, cells (shp.unary_union G [a; b]) = cells a ∪ cells b;
  cells_parts : forall g x,
    is_multi (shp.geom_type G g) = true ->
    x ∈ cells g <-> exists p, p ∈ shp.parts G g /\ x ∈ cells p;
  parts_disjoint : forall g i j p q,
    is_multi (shp.geom_type G g) = true -> i <> j ->
    shp.parts G g !! i = Some p -> shp.parts G g !! j = Some q ->
    cells p ## cells q;
  cells_multipolygon : forall l x,
    x ∈ cells (shp.mk_multipolygon G l) <-> exists p, p ∈ l /\ x ∈ cells p;
  polygonize_disjoint : forall lines i j p q,
    i <> j ->
    shp.polygonize G lines !! i = Some p -> shp.polygonize G lines !! j = Some q ->
    cells p ## cells q;
}.

Section Frames.

Context `{G : shp.Shapely} `{!Ideal G}.

Abbreviation geom := (shp.geom G).

(** The atoms of the polygon with label [i]. *)
Definition gc (f : Frame) (i : nat) : gset atom :=
  match frame_get_geom i f with
  | Some g => cells g
  | None => ∅
  end.

Lemma find_row_map_rows (h : Row -> Row) i (f : Frame) :
  (forall r, label (h r) = label r) ->
  find_row i (map_rows h f) = h <$> find_row i f.
Proof.
  intros Hl. unfold find_row, map_rows. simpl.
  induction (rows f) as [|r l IH]; simpl; [reflexivity|].
  rewrite Hl. destruct (Nat.eqb (label r) i); [reflexivity|exact IH].
Qed.

Lemma frame_get_geom_set i j g (f : Frame) :
  frame_get_geom j (frame_set_geom i g f) =
  if decide (j = i) then (fun _ => g) <$> frame_get_geom i f
  else frame_get_geom j f.
Proof.
  unfold frame_get_geom, frame_set_geom.
  rewrite find_row_map_rows by (intros r; destruct (Nat.eqb (label r) i); reflexivity).
  destruct (decide (j = i)) as [->|Hne].
  - destruct (find_row i f) as [r|] eqn:E; simpl; [|reflexivity].
    apply find_row_Some in E as [_ E]. rewrite <- E, Nat.eqb_refl. reflexivity.
  - destruct (find_row j f) as [r|] eqn:E; simpl; [|reflexivity].
    apply find_row_Some in E as [_ E]. rewrite <- E in Hne.
    rewrite (proj2 (Nat.eqb_neq _ _) Hne). reflexivity.
Qed.

Lemma frame_index_map_rows (h : Row -> Row) (f : Frame) :
  (forall r, label (h r) = label r) ->
  frame_index (map_rows h f) = frame_index f.
Proof.
  intros Hl. unfold frame_index, map_rows. simpl. rewrite map_map.
  apply map_ext. exact Hl.
Qed.

Lemma frame_index_set_geom i g (f : Frame) :
  frame_index (frame_set_geom i g f) = frame_index f.
Proof.
  apply frame_index_map_rows. intros r. destruct (Nat.eqb (label r) i); reflexivity.
Qed.

Lemma gc_set i j g (f : Frame) :
  gc (frame_set_geom i g f) j =
  if decide (j = i)
  then match frame_get_geom i f with Some _ => cells g | None => ∅ end
  else gc f j.
Proof.
  unfold gc. rewrite frame_get_geom_set. destruct (decide (j = i)); [|reflexivity].
  destruct (frame_get_geom i f); reflexivity.
Qed.

(** Updates of columns leave the geometries alone. *)
Lemma frame_get_geom_cols (h : Row -> Row) j (f : Frame) :
  (forall r, label (h r) = label r) -> (forall r, geometry (h r) = geometry r) ->
  frame_get_geom j (map_rows h f) = frame_get_geom j f.
Proof.
  intros Hl Hg. unfold frame_get_geom. rewrite find_row_map_rows by exact Hl.
  destruct (find_row j f); simpl; [rewrite Hg|]; reflexivity.
Qed.

Lemma frame_get_geom_set_col c i v j (f : Frame) :
  frame_get_geom j (frame_set_col c i v f) = frame_get_geom j f.
Proof.
  apply frame_get_geom_cols; intros r; destruct (Nat.eqb (label r) i); reflexivity.
Qed.

Lemma frame_get_geom_set_col_all c v j (f : Frame) :
  frame_get_geom j (frame_set_col_all c v f) = frame_get_geom j f.
Proof. apply frame_get_geom_cols; reflexivity. Qed.

Lemma frame_get_geom_del_col c j (f : Frame) :
  frame_get_geom j (frame_del_col c f) = frame_get_geom j f.
Proof. apply frame_get_geom_cols; reflexivity. Qed.

Lemma frame_get_geom_In j (f : Frame) g :
  frame_get_geom j f = Some g ->
  exists r, In r (rows f) /\ label r = j /\ geometry r = g.
Proof.
  unfold frame_get_geom. destruct (find_row j f) as [r|] eqn:E; [|discriminate].
  intros [= <-]. apply find_row_Some in E as [H1 H2]. eauto.
Qed.

Lemma In_frame_get_geom (f : Frame) r :
  NoDup (frame_index f) -> In r (rows f) ->
  frame_get_geom (label r) f = Some (geometry r).
Proof.
  unfold frame_get_geom, find_row, frame_index.
  induction (rows f) as [|x l IH]; simpl; [tauto|].
  intros Hnd [->|Hin].
  - rewrite Nat.eqb_refl. reflexivity.
  - apply NoDup_cons in Hnd as [Hx Hnd]. destruct (Nat.eqb_spec (label x) (label r)) as [E|E].
    + exfalso. apply Hx. rewrite E. apply list_elem_of_In, in_map, Hin.
    + apply IH; assumption.
Qed.

Lemma frame_get_geom_filter p j (f : Frame) g :
  frame_get_geom j (frame_filter p f) = Some g ->
  exists r, In r (rows f) /\ p r = true /\ label r = j /\ geometry r = g.
Proof.
  intros H. apply frame_get_geom_In in H as (r & Hin & Hl & Hg).
  apply filter_In in Hin as [Hin Hp]. eauto.
Qed.

Lemma NoDup_index_filter p (f : Frame) :
  NoDup (frame_index f) -> NoDup (frame_index (frame_filter p f)).
Proof.
  unfold frame_index, frame_filter. simpl.
  induction (rows f) as [|r l IH]; simpl; intros Hnd; [constructor|].
  apply NoDup_cons in Hnd as [Hr Hnd]. destruct (p r); simpl; [|auto].
  apply NoDup_cons. split; [|auto]. intros Hin. apply Hr.
  apply list_elem_of_In in Hin. apply in_map_iff in Hin as (x & Hx & Hin).
  apply filter_In in Hin as [Hin _]. rewrite <- Hx.
  apply list_elem_of_In, in_map, Hin.
Qed.

Lemma frame_get_geom_filter_eq p a (f : Frame) g :
  NoDup (frame_index f) ->
  frame_get_geom a (frame_filter p f) = Some g -> frame_get_geom a f = Some g.
Proof.
  intros Hnd H. apply frame_get_geom_filter in H as (r & Hin & _ & <- & <-).
  apply In_frame_get_geom; assumption.
Qed.

Lemma gc_filter_sub p a (f : Frame) :
  NoDup (frame_index f) -> gc (frame_filter p f) a ⊆ gc f a.
Proof.
  intros Hnd. unfold gc at 1.
  destruct (frame_get_geom a (frame_filter p f)) as [g|] eqn:E; [|set_solver].
  apply frame_get_geom_filter_eq in E; [|exact Hnd]. unfold gc. rewrite E. done.
Qed.

Lemma py_list_spec (s : gset nat) :
  NoDup (py_list s) /\ forall o, o ∈ py_list s <-> o ∈ s.
Proof.
  unfold py_list. split.
  - rewrite merge_sort_Permutation. apply NoDup_elements.
  - intros o. rewrite merge_sort_Permutation. apply elem_of_elements.
Qed.

Lemma py_inter_spec (a b : list nat) :
  NoDup (py_inter a b) /\ forall o, o ∈ py_inter a b -> o ∈ b.
Proof.
  unfold py_inter. split.
  - apply NoDup_ListNoDup, List.NoDup_filter, NoDup_ListNoDup, py_list_spec.
  - intros o Ho. apply list_elem_of_In, filter_In in Ho as [_ Ho].
    unfold mem in Ho. apply bool_decide_eq_true in Ho. exact Ho.
Qed.

End Frames.

(** * The Reconstructor keeps the polygons apart *)

Section Reconstruct.

Context `{G : shp.Shapely} `{!Ideal G}.

(** The frame of the polygons under reconstruction, the copies of the
    frames of the tower and their contents. *)
Variables (gdf : nat) (tw : list nat) (T : list Frame).

Definition piece (k o : nat) (p : shp.geom G) : Prop :=
  exists f, T !! k = Some f /\ frame_get_geom o f = Some p.

Definition in_pool (x : atom) : Prop :=
  exists k o p, piece k o p /\ x ∈ cells p.

(** The pieces that are still to be assigned while level [i] is worked on
    with [u] as its unused indices. *)
Definition avail (i : nat) (u : list nat) (k o : nat) : Prop :=
  (k = i /\ o ∈ u) \/ i < k.

Definition tower_at (s : St) : Prop :=
  forall k r, tw !! k = Some r ->
    exists f, T !! k = Some f /\ heap s !! r = Some f.

(** The atoms of polygon [a] in the main frame ([false]) or in the frame
    of the disconnected polygons ([true]). *)
Definition gcc (fg fd : Frame) (t : bool) (a : nat) : gset atom :=
  if t then gc fd a else gc fg a.

Record Disj (fg fd : Frame) (i : nat) (u : list nat) : Prop := {
  disj_polys : forall t t' a b, a <> b -> gcc fg fd t a ## gcc fg fd t' b;
  disj_avail : forall t a k o p,
    avail i u k o -> piece k o p -> gcc fg fd t a ## cells p;
  disj_pool : forall t a x, x ∈ gcc fg fd t a -> in_pool x;
}.

(** No two pieces of the tower overlap, and the frames of the tower have
    no index twice. *)
Definition pieces_apart : Prop :=
  forall k o p k' o' p',
    piece k o p -> piece k' o' p' -> (k, o) <> (k', o') -> cells p ## cells p'.

Hypothesis PD : pieces_apart.

Lemma Disj_mono fg fd i u fg' fd' i' u' :
  Disj fg fd i u ->
  (forall t a, gcc fg' fd' t a ⊆ gcc fg fd t a) ->
  (forall k o, avail i' u' k o -> avail i u k o) ->
  Disj fg' fd' i' u'.
Proof.
  intros [H1 H2 H3] Hs Ha. split.
  - intros t t' a b Hab. pose proof (H1 t t' a b Hab).
    pose proof (Hs t a). pose proof (Hs t' b). set_solver.
  - intros t a k o p Hav Hp. pose proof (H2 t a k o p (Ha _ _ Hav) Hp).
    pose proof (Hs t a). set_solver.
  - intros t a x Hx. apply (H3 t a). apply Hs, Hx.
Qed.

(** Giving an available piece to one polygon of one of the two frames. *)
Lemma Disj_add fg fd i u fg' fd' i' u' t a k o p :
  Disj fg fd i u -> avail i u k o -> piece k o p ->
  (forall k' o', avail i' u' k' o' -> avail i u k' o' /\ (k', o') <> (k, o)) ->
  (forall t' a', gcc fg' fd' t' a' ⊆
     gcc fg fd t' a' ∪ (if decide ((t', a') = (t, a)) then cells p else ∅)) ->
  Disj fg' fd' i' u'.
Proof.
  intros [H1 H2 H3] Hav Hp Ha Hs. split.
  - intros t1 t2 a1 a2 Hne.
    pose proof (H1 t1 t2 a1 a2 Hne) as D.
    pose proof (Hs t1 a1) as S1. pose proof (Hs t2 a2) as S2.
    pose proof (H2 t1 a1 k o p Hav Hp) as D1.
    pose proof (H2 t2 a2 k o p Hav Hp) as D2.
    destruct (decide ((t1, a1) = (t, a))) as [E1|E1],
             (decide ((t2, a2) = (t, a))) as [E2|E2]; try congruence; set_solver.
  - intros t1 a1 k' o' p' Hav' Hp'. destruct (Ha _ _ Hav') as [Hav0 Hne].
    pose proof (H2 t1 a1 k' o' p' Hav0 Hp') as D.
    pose proof (Hs t1 a1) as S1.
    pose proof (PD k o p k' o' p' Hp Hp' (not_eq_sym Hne)) as D'.
    destruct (decide ((t1, a1) = (t, a))); set_solver.
  - intros t1 a1 x Hx. apply Hs in Hx. apply elem_of_union in Hx as [Hx|Hx].
    + eapply H3, Hx.
    + destruct (decide ((t1, a1) = (t, a))); [|set_solver].
      exists k, o, p. auto.
Qed.

(** Copying a polygon of the second frame over the same polygon of the
    first. *)
Lemma Disj_writeback fg fd i u fg' g :
  Disj fg fd i u ->
  (forall a, gc fg' a ⊆ if decide (a = g) then gc fd g else gc fg a) ->
  Disj fg' fd i u.
Proof.
  intros [H1 H2 H3] Hs. split.
  - intros t1 t2 a1 a2 Hne.
    pose proof (H1 t1 t2 a1 a2 Hne). pose proof (H1 true t2 a1 a2 Hne).
    pose proof (H1 t1 true a1 a2 Hne). pose proof (H1 true true a1 a2 Hne).
    pose proof (Hs a1). pose proof (Hs a2).
    destruct t1, t2; simpl in *; repeat case_decide; simplify_eq; set_solver.
  - intros t1 a1 k o p Hav Hp.
    pose proof (H2 t1 a1 k o p Hav Hp). pose proof (H2 true a1 k o p Hav Hp).
    pose proof (Hs a1). destruct t1; simpl in *; repeat case_decide; simplify_eq; set_solver.
  - intros t1 a1 x Hx. destruct t1; simpl in *; [eapply (H3 true), Hx|].
    apply Hs in Hx. case_decide; simplify_eq.
    + eapply (H3 true), Hx.
    + eapply (H3 false), Hx.
Qed.

Lemma list_remove_spec x (l l' : list nat) :
  list_remove x l = Some l' -> NoDup l ->
  NoDup l' /\ forall o, o ∈ l' <-> o ∈ l /\ o <> x.
Proof.
  revert l'. induction l as [|y l IH]; simpl; intros l' H Hnd; [discriminate|].
  apply NoDup_cons in Hnd as [Hy Hnd].
  destruct (Nat.eqb_spec y x) as [->|Hne].
  - injection H as <-. split; [exact Hnd|]. intros o. rewrite elem_of_cons.
    split; [intros Ho; split; [auto|intros ->; auto]|intros [[->|Ho] Hn]; [congruence|auto]].
  - destruct (list_remove x l) as [l0|] eqn:E; [|discriminate]. injection H as <-.
    destruct (IH l0 eq_refl Hnd) as [Hnd0 Hs]. split.
    + apply NoDup_cons. split; [|exact Hnd0]. intros Hin. apply Hs in Hin as [Hin _]. auto.
    + intros o. rewrite !elem_of_cons, Hs. split.
      * intros [->|[Ho Hn]]; auto.
      * intros [[->|Ho] Hn]; auto.
Qed.

Lemma tower_at_upd s s' r (f : Frame) :
  tower_at s -> heap s' = <[r := f]> (heap s) -> r ∉ tw -> tower_at s'.
Proof.
  intros Ht Hh Hr k x Hk. destruct (Ht k x Hk) as (fx & HT & Hx).
  exists fx. split; [exact HT|]. rewrite Hh, list_lookup_insert_ne; [exact Hx|].
  intros ->. apply Hr. eapply list_elem_of_lookup_2, Hk.
Qed.

Lemma tower_at_snoc s s' (f : Frame) :
  tower_at s -> heap s' = heap s ++ [f] -> tower_at s'.
Proof.
  intros Ht Hh k x Hk. destruct (Ht k x Hk) as (fx & HT & Hx).
  exists fx. split; [exact HT|]. rewrite Hh. apply lookup_snoc_old, Hx.
Qed.

Lemma tower_at_out s s' : tower_at s -> heap s' = heap s -> tower_at s'.
Proof. intros Ht Hh k x Hk. rewrite Hh. apply Ht, Hk. Qed.

Lemma tower_at_fresh s : tower_at s -> List.length (heap s) ∉ tw.
Proof.
  intros Ht Hin. apply list_elem_of_lookup in Hin as [k Hk].
  destruct (Ht _ _ Hk) as (f & _ & Hf).
  apply lookup_lt_Some in Hf. lia.
Qed.

(** The index and the attribute columns of a frame, the two working
    columns of the Reconstructor left out. *)
Definition skel_mod (f : Frame) : list (nat * gmap string value) :=
  map (fun r => (label r,
                 delete "num components refined"
                        (delete "num components orig" (cols r))))
      (rows f).

Variable K : list (nat * gmap string value).

(** Every atom of the pool is in a polygon of the main frame, in the
    polygon that is grabbing pieces, or in a piece still to be assigned. *)
Definition Cov (fg fd : Frame) (i : nat) (u : list nat) (xg : option nat) : Prop :=
  forall x, in_pool x ->
    (exists a, x ∈ gc fg a)
    \/ (exists g, xg = Some g /\ x ∈ gc fd g)
    \/ (exists k o p, avail i u k o /\ piece k o p /\ x ∈ cells p).

Definition Sub (fg fd : Frame) : Prop :=
  forall a, is_Some (frame_get_geom a fd) -> gc fg a ⊆ gc fd a.

(** The state of the Reconstructor between two steps: [cs] and [cc] tell
    whether the inclusion of the main frame in the second frame and the
    covering of the pool are tracked as well. *)
Definition no_frame : Frame := {| rows := []; crs := None |}.

(** The second frame: the frame at [disc], or none yet. *)
Definition second_at (od : option nat) (fd : Frame) (s : St) : Prop :=
  match od with
  | Some disc => heap s !! disc = Some fd /\ gdf <> disc /\ disc ∉ tw
  | None => fd = no_frame
  end.

Definition RI (cs cc : bool) (i : nat) (u : list nat) (xg : option nat)
    (od : option nat) (s : St) : Prop :=
  exists fg fd,
    heap s !! gdf = Some fg /\ second_at od fd s /\ gdf ∉ tw /\ tower_at s /\
    Disj fg fd i u /\ skel_mod fg = K /\
    (forall a, is_Some (frame_get_geom a fd) -> is_Some (frame_get_geom a fg)) /\
    NoDup (frame_index fd) /\
    (cs = true -> Sub fg fd) /\
    (cc = true -> Cov fg fd i u xg).

Lemma skel_mod_set_geom a g (f : Frame) :
  skel_mod (frame_set_geom a g f) = skel_mod f.
Proof.
  unfold skel_mod, frame_set_geom, map_rows. simpl. rewrite map_map.
  apply map_ext. intros r. destruct (Nat.eqb (label r) a); reflexivity.
Qed.

Lemma gcc_set_true fg fd g x t a :
  gcc fg (frame_set_geom g x fd) t a ⊆
  gcc fg fd t a ∪ (if decide ((t, a) = (true, g)) then cells x else ∅).
Proof.
  destruct t; simpl; [|set_solver]. rewrite gc_set.
  destruct (decide (a = g)) as [->|Hne].
  - rewrite decide_True by reflexivity. destruct (frame_get_geom g fd); set_solver.
  - set_solver.
Qed.

Lemma gcc_set_false fg fd g x t a :
  gcc (frame_set_geom g x fg) fd t a ⊆
  gcc fg fd t a ∪ (if decide ((t, a) = (false, g)) then cells x else ∅).
Proof.
  destruct t; simpl; [set_solver|]. rewrite gc_set.
  destruct (decide (a = g)) as [->|Hne].
  - rewrite decide_True by reflexivity. destruct (frame_get_geom g fg); set_solver.
  - set_solver.
Qed.

Lemma piece_fun k o p p' : piece k o p -> piece k o p' -> p = p'.
Proof. intros (f & Hf & Hp) (f' & Hf' & Hp'). congruence. Qed.

Lemma wp_grab_step cs cc i u disc g_ind ovr fo fin o_ind s :
  tw !! i = Some ovr -> T !! i = Some fo -> NoDup u -> o_ind ∈ u ->
  RI cs cc i u (Some g_ind) (Some disc) s ->
  wpx True (grab_step gdf disc ovr g_ind (u, fin) o_ind)
      (fun st' s' =>
         RI cs cc i st'.1 (Some g_ind) (Some disc) s' /\ NoDup st'.1 /\
         (st'.1 = u \/ forall o, o ∈ st'.1 <-> o ∈ u /\ o <> o_ind)) s.
Proof.
  intros Hov HT Hnd Hin HRI.
  assert (Hsame : forall b, wpx True (ret (u, b))
            (fun (st' : list nat * bool) s' =>
               RI cs cc i st'.1 (Some g_ind) (Some disc) s' /\ NoDup st'.1 /\
               (st'.1 = u \/ forall o, o ∈ st'.1 <-> o ∈ u /\ o <> o_ind)) s).
  { intros b. apply wpx_ret. simpl. auto. }
  destruct HRI as (fg & fd & Hg & (Hd & Hgd & Hdt) & Hgt & Htw & HD & HK & HL & HN
                   & HS & HC).
  unfold grab_step. simpl. destruct fin; [apply Hsame|].
  destruct (Htw i ovr Hov) as (fo' & HT' & Hfo).
  rewrite HT in HT'. injection HT' as <-.
  apply wpx_bind. eapply wpx_get_col; [exact Hfo|].
  destruct (frame_get_col _ _ _) as [v|]; [|exact I].
  apply wpx_bind. apply wpx_as_set. destruct v as [| |owners| |]; try exact I.
  destruct (bool_decide (g_ind ∈ owners)); simpl; [|apply Hsame].
  apply wpx_bind. eapply wpx_get_geom; [exact Hd|].
  destruct (frame_get_geom g_ind fd) as [g|] eqn:Eg; [|exact I].
  apply wpx_bind. eapply wpx_get_geom; [exact Hfo|].
  destruct (frame_get_geom o_ind fo) as [o|] eqn:Eo; [|exact I].
  destruct (shp.is_empty G _); [apply Hsame|].
  destruct (Qltb 0 _); [|apply Hsame].
  apply wpx_bind. eapply wpx_set_geom; [exact Hd|]. intros s1 Hs1 Ho1.
  apply wpx_bind. apply wpx_of_option.
  destruct (list_remove o_ind u) as [u'|] eqn:Eu; [|exact I].
  destruct (list_remove_spec _ _ _ Eu Hnd) as [Hnd' Hu'].
  assert (Hg1 : heap s1 !! gdf = Some fg).
  { rewrite Hs1. apply lookup_upd_ne; [congruence|exact Hg]. }
  apply wpx_bind. eapply wpx_get_col; [exact Hg1|].
  destruct (frame_get_col _ _ _) as [v|]; [|exact I].
  apply wpx_ret. simpl. split; [|split; [exact Hnd'|right; exact Hu']].
  assert (Hpo : piece i o_ind o) by (exists fo; auto).
  exists fg, (frame_set_geom g_ind (shp.unary_union G [g; o]) fd).
  repeat apply conj.
  - exact Hg1.
  - rewrite Hs1. eapply lookup_upd_eq, Hd.
  - exact Hgd.
  - exact Hdt.
  - exact Hgt.
  - eapply tower_at_upd; eauto.
  - eapply (Disj_add _ _ i u _ _ i u' true g_ind i o_ind o HD); auto.
    + left. auto.
    + intros k' o' [[-> Ho']|Hlt].
      * apply Hu' in Ho' as [Ho' Hne]. split; [left; auto|congruence].
      * split; [right; exact Hlt|]. intros [= -> ->]. lia.
    + intros t' a'. etrans; [apply gcc_set_true|].
      rewrite cells_union. pose proof (disj_pool _ _ _ _ HD).
      destruct (decide ((t', a') = (true, g_ind))) as [[= -> ->]|]; [|set_solver].
      simpl. unfold gc. rewrite Eg. set_solver.
  - exact HK.
  - intros a Ha. apply HL. rewrite frame_get_geom_set in Ha.
    destruct (decide (a = g_ind)) as [->|]; [rewrite Eg; eauto|exact Ha].
  - rewrite frame_index_set_geom. exact HN.
  - intros Hc a Ha. rewrite gc_set.
    rewrite frame_get_geom_set in Ha.
    destruct (decide (a = g_ind)) as [->|].
    + rewrite Eg, cells_union.
      pose proof (HS Hc g_ind ltac:(rewrite Eg; eauto)) as HS'.
      unfold gc at 2 in HS'. rewrite Eg in HS'. set_solver.
    + apply HS; assumption.
  - intros Hc x Hx.
    destruct (HC Hc x Hx)
      as [Hx1|[(g' & [= <-] & Hx2)|(k & o' & p & Hav & Hp & Hx3)]].
    + left. exact Hx1.
    + right. left. exists g_ind. split; [reflexivity|]. rewrite gc_set.
      rewrite decide_True by reflexivity. rewrite Eg, cells_union.
      unfold gc in Hx2. rewrite Eg in Hx2. set_solver.
    + destruct (decide ((k, o') = (i, o_ind))) as [[= -> ->]|Hne].
      * right. left. exists g_ind. split; [reflexivity|]. rewrite gc_set.
        rewrite decide_True by reflexivity. rewrite Eg, cells_union.
        rewrite (piece_fun _ _ _ _ Hp Hpo) in Hx3. set_solver.
      * right. right. exists k, o', p. split; [|auto].
        destruct Hav as [[-> Ho']|Hlt]; [left|right; exact Hlt].
        split; [reflexivity|]. apply Hu'. split; [exact Ho'|congruence].
Qed.

Lemma wp_first_dibs cs cc i u disc g_ind ovr fo s :
  tw !! i = Some ovr -> T !! i = Some fo -> NoDup u ->
  (cc = true -> cs = true) ->
  RI cs cc i u None (Some disc) s ->
  wpx True (first_dibs gdf ovr fo (disc, u) g_ind)
      (fun st' s' =>
         RI cs cc i st'.2 None (Some st'.1) s' /\ NoDup st'.2 /\
         forall o, o ∈ st'.2 -> o ∈ u) s.
Proof.
  intros Hov HT Hnd Hcs HRI. unfold first_dibs. simpl.
  assert (Hd : exists fd, heap s !! disc = Some fd).
  { destruct HRI as (fg & fd & ? & (? & _) & _). eauto. }
  destruct Hd as (fd0 & Hd0).
  apply wpx_bind. eapply wpx_get_geom; [exact Hd0|].
  destruct (frame_get_geom g_ind fd0) as [g0|] eqn:Eg0; [|exact I].
  set (possible := py_inter (query_labels fo g0) u).
  destruct (py_inter_spec (query_labels fo g0) u) as [Hpn Hpu]. fold possible in Hpn, Hpu.
  apply wpx_bind. eapply wpx_mono; cycle 1.
  { apply (wpx_foldM True _
             (fun rest (st : list nat * bool) s' =>
                RI cs cc i st.1 (Some g_ind) (Some disc) s' /\ NoDup st.1 /\
                (forall o, o ∈ rest -> o ∈ st.1) /\ NoDup rest /\
                (forall o, o ∈ st.1 -> o ∈ u))).
    - intros x rest [u1 fin] s1 (HR1 & Hn1 & Hr1 & Hnr & Hsub). simpl in *.
      apply NoDup_cons in Hnr as [Hx Hnr].
      eapply wpx_mono; [|eapply wp_grab_step; eauto].
      + intros [u2 fin2] s2 (HR2 & Hn2 & Hu2). simpl in *.
        repeat apply conj; auto.
        * intros o Ho. destruct Hu2 as [->|Hu2].
          -- apply Hr1. right. exact Ho.
          -- apply Hu2. split; [apply Hr1; right; exact Ho|]. intros ->. auto.
        * intros o Ho. apply Hsub. destruct Hu2 as [->|Hu2]; [exact Ho|].
          apply Hu2 in Ho. tauto.
      + apply Hr1. left.
    - simpl. repeat apply conj; auto.
      destruct HRI as (fg & fd & Hg & (Hd & Hgd & Hdt) & Hgt & Htw & HD & HK & HL
                       & HN & HS & HC).
      exists fg, fd. repeat apply conj; auto.
      intros Hc x Hx. destruct (HC Hc x Hx) as [?|[(g' & [=] & _)|?]]; auto. }
  simpl. intros [u1 fin] s1 (HR1 & Hn1 & _ & _ & Hsub). simpl in *.
  destruct HR1 as (fg & fd & Hg & (Hd & Hgd & Hdt) & Hgt & Htw & HD & HK & HL & HN
                   & HS & HC).
  apply wpx_bind. eapply wpx_get_geom; [exact Hd|].
  destruct (frame_get_geom g_ind fd) as [g1|] eqn:Eg1; [|exact I].
  destruct (HL g_ind ltac:(rewrite Eg1; eauto)) as [gg Egg].
  apply wpx_bind. eapply wpx_set_geom; [exact Hg|]. intros s2 Hs2 Ho2.
  assert (HR2 : RI cs cc i u1 None (Some disc) s2).
  { exists (frame_set_geom g_ind g1 fg), fd. repeat apply conj; auto.
    - rewrite Hs2. eapply lookup_upd_eq, Hg.
    - rewrite Hs2. apply lookup_upd_ne; [congruence|exact Hd].
    - eapply tower_at_upd; eauto.
    - eapply (Disj_writeback _ _ _ _ _ g_ind); [exact HD|]. intros a. rewrite gc_set.
      destruct (decide (a = g_ind)); [|reflexivity]. rewrite Egg. unfold gc.
      rewrite Eg1. reflexivity.
    - rewrite skel_mod_set_geom. exact HK.
    - intros a Ha. rewrite frame_get_geom_set.
      destruct (decide (a = g_ind)); [rewrite Egg; eauto|auto].
    - intros Hc a Ha. rewrite gc_set. destruct (decide (a = g_ind)) as [->|].
      + rewrite Egg. unfold gc. rewrite Eg1. done.
      + apply HS; assumption.
    - intros Hc x Hx.
      assert (Hgg : gc (frame_set_geom g_ind g1 fg) g_ind = gc fd g_ind).
      { rewrite gc_set, decide_True by reflexivity. rewrite Egg. unfold gc.
        rewrite Eg1. reflexivity. }
      destruct (HC Hc x Hx) as [[a Hxa]|[(g' & [= <-] & Hx2)|Hx3]].
      + left. destruct (decide (a = g_ind)) as [->|Hne].
        * exists g_ind. rewrite Hgg.
          apply (HS (Hcs Hc) g_ind ltac:(rewrite Eg1; eauto)), Hxa.
        * exists a. rewrite gc_set, decide_False by exact Hne. exact Hxa.
      + left. exists g_ind. rewrite Hgg. exact Hx2.
      + right. right. exact Hx3. }
  destruct fin.
  - apply wpx_bind. eapply wpx_drop.
    { rewrite Hs2. apply lookup_upd_ne; [congruence|exact Hd]. }
    destruct (find_row g_ind fd); [|exact I]. intros s3 Hs3 Ho3.
    apply wpx_ret. simpl. split; [|auto].
    destruct HR2 as (fg2 & fd2 & Hg2 & (Hd2 & _ & _) & _ & Htw2 & HD2 & HK2 & HL2
                     & HN2 & HS2 & HC2).
    assert (fd2 = fd) as ->.
    { rewrite Hs2 in Hd2. rewrite list_lookup_insert_ne in Hd2 by exact Hgd. congruence. }
    set (fd' := frame_filter (fun x => negb (Nat.eqb (label x) g_ind)) fd).
    exists fg2, fd'. repeat apply conj; auto.
    + rewrite Hs3. apply lookup_snoc_old, Hg2.
    + rewrite Hs3. apply lookup_snoc_new.
    + apply lookup_lt_Some in Hg2. lia.
    + apply tower_at_fresh, Htw2.
    + eapply tower_at_snoc; eauto.
    + eapply Disj_mono; [exact HD2| |auto]. intros [] a; simpl; [|done].
      apply gc_filter_sub, HN.
    + intros a Ha. apply HL2. destruct Ha as [ga Ha].
      apply frame_get_geom_filter_eq in Ha; [eauto|exact HN].
    + apply NoDup_index_filter, HN.
    + intros Hc a [ga Ha]. pose proof Ha as Ha'.
      apply frame_get_geom_filter_eq in Ha'; [|exact HN].
      pose proof (HS2 Hc a ltac:(rewrite Ha'; eauto)) as Hsub2.
      unfold gc at 2. fold fd'. rewrite Ha. unfold gc at 2 in Hsub2.
      rewrite Ha' in Hsub2. exact Hsub2.
    + intros Hc x Hx. destruct (HC2 Hc x Hx) as [?|[(g' & [=] & _)|?]]; auto.
  - apply wpx_ret. simpl. auto.
Qed.

Lemma second_at_upd od fd s s' (f : Frame) :
  second_at od fd s -> heap s' = <[gdf := f]> (heap s) -> second_at od fd s'.
Proof.
  destruct od as [disc|]; simpl; [|auto]. intros (Hd & Hgd & Hdt) Hh.
  repeat apply conj; auto. rewrite Hh. apply lookup_upd_ne; auto.
Qed.

(** An available piece of the level at work is united with a polygon of
    the main frame. *)
Lemma RI_add cs cc i u rest od s s' fg o p poly g :
  RI cs cc i u None od s -> heap s !! gdf = Some fg ->
  piece i o p -> o ∈ u -> (forall o', o' ∈ rest <-> o' ∈ u /\ o' <> o) ->
  frame_get_geom poly fg = Some g ->
  heap s' = <[gdf := frame_set_geom poly (shp.unary_union G [g; p]) fg]> (heap s) ->
  RI false cc i rest None od s'.
Proof.
  intros (fg' & fd & Hg & Hd & Hgt & Htw & HD & HK & HL & HN & HS & HC)
         Hg' Hp Ho Hrest Hpoly Hs'.
  assert (fg' = fg) as -> by congruence.
  exists (frame_set_geom poly (shp.unary_union G [g; p]) fg), fd.
  repeat apply conj; auto.
  - rewrite Hs'. eapply lookup_upd_eq, Hg.
  - eapply second_at_upd; eauto.
  - eapply tower_at_upd; eauto.
  - eapply (Disj_add _ _ i u _ _ i rest false poly i o p HD); auto.
    + left. auto.
    + intros k' o' [[-> Ho']|Hlt].
      * apply Hrest in Ho' as [Ho' Hne]. split; [left; auto|congruence].
      * split; [right; exact Hlt|]. intros [= -> ->]. lia.
    + intros t' a'. etrans; [apply gcc_set_false|].
      rewrite cells_union.
      destruct (decide ((t', a') = (false, poly))) as [[= -> ->]|]; [|set_solver].
      simpl. unfold gc. rewrite Hpoly. set_solver.
  - rewrite skel_mod_set_geom. exact HK.
  - intros a Ha. rewrite frame_get_geom_set.
    destruct (decide (a = poly)) as [->|]; [rewrite Hpoly; eauto|auto].
  - discriminate.
  - intros Hc x Hx.
    assert (Hmono : forall a, gc fg a ⊆
                      gc (frame_set_geom poly (shp.unary_union G [g; p]) fg) a).
    { intros a. rewrite gc_set. destruct (decide (a = poly)) as [->|]; [|done].
      rewrite Hpoly, cells_union. unfold gc. rewrite Hpoly. set_solver. }
    destruct (HC Hc x Hx) as [[a Hxa]|[(g' & [=] & _)|(k & o' & p' & Hav & Hp' & Hx3)]].
    + left. exists a. apply Hmono, Hxa.
    + destruct (decide ((k, o') = (i, o))) as [[= -> ->]|Hne].
      * left. exists poly. rewrite gc_set, decide_True by reflexivity.
        rewrite Hpoly, cells_union. rewrite (piece_fun _ _ _ _ Hp' Hp) in Hx3.
        set_solver.
      * right. right. exists k, o', p'. split; [|auto].
        destruct Hav as [[-> Ho']|Hlt]; [left|right; exact Hlt].
        split; [reflexivity|]. apply Hrest. split; [exact Ho'|congruence].
Qed.

Lemma NoDup_cons_rest (o : nat) rest :
  NoDup (o :: rest) -> forall o', o' ∈ rest <-> o' ∈ o :: rest /\ o' <> o.
Proof.
  intros Hnd%NoDup_cons o'. destruct Hnd as [Ho _]. rewrite elem_of_cons.
  split; [intros H; split; [auto|intros ->; auto]|intros [[->|H] Hne]; [congruence|auto]].
Qed.

Lemma wp_assign_by_perimeter cs cc i o_ind rest od ovr fo fsnap s :
  tw !! i = Some ovr -> T !! i = Some fo -> NoDup (o_ind :: rest) ->
  RI cs cc i (o_ind :: rest) None od s ->
  wpx True (assign_by_perimeter gdf ovr fsnap o_ind)
      (fun _ s' => RI false cc i rest None od s') s.
Proof.
  intros Hov HT Hnd HRI. pose proof HRI as HRI'.
  destruct HRI' as (fg & fd & Hg & Hd & Hgt & Htw & _).
  destruct (Htw i ovr Hov) as (fo' & HT' & Hfo).
  rewrite HT in HT'. injection HT' as <-.
  unfold assign_by_perimeter.
  apply wpx_bind. eapply wpx_get_geom; [exact Hfo|].
  destruct (frame_get_geom o_ind fo) as [p|] eqn:Ep; [|exact I].
  apply wpx_bind. eapply wpx_get_col; [exact Hfo|].
  destruct (frame_get_col _ _ _) as [v|]; [|exact I].
  apply wpx_bind. apply wpx_as_set. destruct v as [| |owners| |]; try exact I.
  apply wpx_bind. eapply wpx_read; [exact Hg|].
  destruct (max_shared_perim _) as [[poly q]|]; [|exact I].
  apply wpx_bind. eapply wpx_get_geom; [exact Hg|].
  destruct (frame_get_geom poly fg) as [g|] eqn:Eg; [|exact I].
  eapply wpx_set_geom; [exact Hg|]. intros s1 Hs1 _.
  eapply (RI_add _ _ _ _ _ _ _ _ _ o_ind p poly g HRI Hg); eauto.
  - exists fo. auto.
  - left.
  - apply NoDup_cons_rest, Hnd.
Qed.

Lemma wp_assign_order1 cs cc ind rest od t0 f0 s :
  tw !! 0 = Some t0 -> T !! 0 = Some f0 -> NoDup (ind :: rest) ->
  RI cs cc 0 (ind :: rest) None od s ->
  wpx True (assign_order1 gdf t0 ind)
      (fun _ s' => RI false cc 0 rest None od s') s.
Proof.
  intros Hov HT Hnd HRI. pose proof HRI as HRI'.
  destruct HRI' as (fg & fd & Hg & Hd & Hgt & Htw & _).
  destruct (Htw 0 t0 Hov) as (fo' & HT' & Hfo).
  rewrite HT in HT'. injection HT' as <-.
  unfold assign_order1.
  apply wpx_bind. eapply wpx_get_col; [exact Hfo|].
  destruct (frame_get_col _ _ _) as [v|]; [|exact I].
  apply wpx_bind. apply wpx_as_set. destruct v as [| |owners| |]; try exact I.
  apply wpx_bind. apply wpx_of_option.
  destruct (head (py_list owners)) as [poly|]; [|exact I].
  apply wpx_bind. eapply wpx_get_geom; [exact Hfo|].
  destruct (frame_get_geom ind f0) as [p|] eqn:Ep; [|exact I].
  apply wpx_bind. eapply wpx_get_geom; [exact Hg|].
  destruct (frame_get_geom poly fg) as [g|] eqn:Eg; [|exact I].
  eapply wpx_set_geom; [exact Hg|]. intros s1 Hs1 _.
  eapply (RI_add _ _ _ _ _ _ _ _ _ ind p poly g HRI Hg); eauto.
  - exists f0. auto.
  - left.
  - apply NoDup_cons_rest, Hnd.
Qed.

Lemma RI_heap cs cc i u xg od s s' :
  heap s' = heap s -> RI cs cc i u xg od s -> RI cs cc i u xg od s'.
Proof.
  intros Hh (fg & fd & Hg & Hd & Hgt & Htw & H). exists fg, fd.
  repeat apply conj; try tauto.
  - rewrite Hh. exact Hg.
  - destruct od; simpl in *; [rewrite Hh|]; exact Hd.
  - eapply tower_at_out; eauto.
Qed.

Lemma RI_weaken cs cc i u xg od s :
  RI cs cc i u xg od s -> RI false cc i u xg od s.
Proof.
  intros (fg & fd & Hg & Hd & Hgt & Htw & HD & HK & HL & HN & HS & HC).
  exists fg, fd. repeat apply conj; auto. discriminate.
Qed.

Lemma frame_get_geom_index o (f : Frame) p :
  frame_get_geom o f = Some p -> o ∈ frame_index f.
Proof.
  intros H. apply frame_get_geom_In in H as (r & Hin & <- & _).
  apply list_elem_of_In, in_map, Hin.
Qed.

Lemma RI_next cs cc j od fo s :
  T !! S j = Some fo ->
  RI cs cc j [] None od s -> RI cs cc (S j) (frame_index fo) None od s.
Proof.
  intros HT (fg & fd & Hg & Hd & Hgt & Htw & HD & HK & HL & HN & HS & HC).
  exists fg, fd. repeat apply conj; auto.
  - eapply Disj_mono; [exact HD|auto|]. intros k o [[-> _]|Hlt]; right; lia.
  - intros Hc x Hx. destruct (HC Hc x Hx) as [?|[?|(k & o & p & Hav & Hp & Hxp)]]; auto.
    right. right. exists k, o, p. split; [|auto].
    destruct Hav as [[_ Ho]|Hlt]; [inversion Ho|].
    destruct (decide (k = S j)) as [->|]; [left|right; lia].
    split; [reflexivity|]. destruct Hp as (f & Hf & Hp).
    assert (f = fo) as -> by congruence. eapply frame_get_geom_index, Hp.
Qed.

Hypothesis ND : forall k f, T !! k = Some f -> NoDup (frame_index f).

Lemma wp_assign_level cs cc j disc s :
  (cc = true -> cs = true) ->
  RI cs cc j [] None (Some disc) s ->
  wpx True (assign_level gdf tw disc (S j))
      (fun disc' s' => RI false cc (S j) [] None (Some disc') s') s.
Proof.
  intros Hcs HRI. unfold assign_level.
  apply wpx_bind. apply wpx_of_option.
  destruct (tw !! S j) as [ovr|] eqn:Hov; [|exact I].
  pose proof HRI as HRI'.
  destruct HRI' as (fg & fd & Hg & (Hd & Hgd & Hdt) & Hgt & Htw & _).
  destruct (Htw (S j) ovr Hov) as (fo & HT & Hfo).
  apply wpx_bind. eapply wpx_index; [exact Hfo|].
  apply wpx_bind. eapply wpx_read; [exact Hfo|].
  apply wpx_bind. eapply wpx_index; [exact Hd|].
  apply RI_next with (fo := fo) in HRI; [|exact HT].
  apply wpx_bind. eapply wpx_mono; cycle 1.
  { apply (wpx_foldM True _
             (fun _ (st : nat * list nat) s' =>
                RI cs cc (S j) st.2 None (Some st.1) s' /\ NoDup st.2)).
    - intros x rest [d1 u1] s1 [HR1 Hn1]. simpl in *.
      eapply wpx_mono; [|eapply wp_first_dibs; eauto].
      intros [d2 u2] s2 (HR2 & Hn2 & _). simpl in *. auto.
    - simpl. split; [exact HRI|]. eapply ND, HT. }
  simpl. intros [d1 u1] s1 [HR1 Hn1]. simpl in *.
  assert (Hg1 : exists fg1, heap s1 !! gdf = Some fg1).
  { destruct HR1 as (fg1 & _ & Hg1 & _). eauto. }
  destruct Hg1 as [fg1 Hg1].
  apply wpx_bind. eapply wpx_read; [exact Hg1|].
  apply wpx_bind. apply wpx_emit'. intros s2 Hs2 _.
  apply wpx_bind. unfold forM_. eapply wpx_mono; cycle 1.
  { apply (wpx_foldM True _
             (fun rest (_ : unit) s' =>
                RI false cc (S j) rest None (Some d1) s' /\ NoDup rest)).
    - intros x rest [] s3 [HR3 Hn3].
      eapply wpx_mono; [|eapply wp_assign_by_perimeter; eauto].
      intros [] s4 HR4. split; [exact HR4|]. apply NoDup_cons in Hn3. tauto.
    - split; [|exact Hn1]. eapply RI_heap; [exact Hs2|]. eapply RI_weaken, HR1. }
  simpl. intros [] s3 [HR3 _]. apply wpx_ret. exact HR3.
Qed.

Lemma gc_map_rows (h : Row -> Row) (f : Frame) a :
  (forall r, label (h r) = label r) -> (forall r, geometry (h r) = geometry r) ->
  gc (map_rows h f) a = gc f a.
Proof. intros Hl Hg. unfold gc. rewrite frame_get_geom_cols; auto. Qed.

(** A change of the working columns of the main frame. *)
Lemma RI_cols (h : Row -> Row) cs cc i u xg od s s' fg :
  (forall r, label (h r) = label r) -> (forall r, geometry (h r) = geometry r) ->
  skel_mod (map_rows h fg) = skel_mod fg ->
  heap s !! gdf = Some fg ->
  heap s' = <[gdf := map_rows h fg]> (heap s) ->
  RI cs cc i u xg od s -> RI cs cc i u xg od s'.
Proof.
  intros Hl Hgm Hsk Hfg Hs' (fg0 & fd & Hg & Hd & Hgt & Htw & HD & HK & HL & HN & HS & HC).
  assert (fg0 = fg) as -> by congruence.
  assert (Hgc : forall a, gc (map_rows h fg) a = gc fg a)
    by (intros a; apply gc_map_rows; auto).
  exists (map_rows h fg), fd. repeat apply conj; auto.
  - rewrite Hs'. eapply lookup_upd_eq, Hfg.
  - eapply second_at_upd; eauto.
  - eapply tower_at_upd; eauto.
  - eapply Disj_mono; [exact HD| |auto].
    intros [] a; simpl; [|rewrite Hgc]; reflexivity.
  - congruence.
  - intros a Ha. rewrite frame_get_geom_cols by auto. auto.
  - intros Hc a Ha. rewrite Hgc. apply HS; auto.
  - intros Hc x Hx. destruct (HC Hc x Hx) as [[a Ha]|[?|?]]; auto.
    left. exists a. rewrite Hgc. exact Ha.
Qed.

End Reconstruct.

Arguments Disj {G _} T fg fd i u.
Arguments Cov {G _} T fg fd i u xg.
Arguments Sub {G _} fg fd.
Arguments RI {G _} gdf tw T K cs cc i u xg od s.
Arguments pieces_apart {G _} T.

Section ReconstructTop.

Context `{G : shp.Shapely} `{!Ideal G}.

(** The index and the attribute columns of a frame. *)
Definition skel (f : Frame) : list (nat * gmap string value) :=
  map (fun r => (label r, cols r)) (rows f).

Lemma wp_copies (l : list nat) (T : list Frame) Q s :
  Forall2 (fun r f => heap s !! r = Some f) l T ->
  (forall s', heap s' = heap s ++ T -> out s' = out s ->
     Q (seq (List.length (heap s)) (List.length T)) s') ->
  wpx True (mapM df_copy l) Q s.
Proof.
  revert T Q s. induction l as [|r l IH]; intros T Q s HF HQ;
    inversion HF as [|? f ? T' Hr HF']; subst; simpl.
  - apply wpx_ret, HQ; [rewrite app_nil_r|]; reflexivity.
  - clear HF. rename HF' into HF. apply wpx_bind. eapply wpx_copy; [exact Hr|]. intros s1 Hs1 Ho1.
    apply wpx_bind. eapply IH.
    + eapply Forall2_impl; [exact HF|]. intros x y Hx. rewrite Hs1.
      apply lookup_snoc_old, Hx.
    + intros s2 Hs2 Ho2. apply wpx_ret.
      replace (List.length (heap s1)) with (S (List.length (heap s))) in *
        by (rewrite Hs1, length_app; simpl; lia).
      apply HQ; [|congruence]. rewrite Hs2, Hs1, <- app_assoc. reflexivity.
Qed.

Lemma skel_mod_index (f : Frame) : map fst (skel_mod f) = frame_index f.
Proof. unfold skel_mod, frame_index. rewrite map_map. reflexivity. Qed.

Lemma skel_mod_map_rows (h : Row -> Row) (f : Frame) :
  (forall r, label (h r) = label r) ->
  (forall r, delete "num components refined" (delete "num components orig" (cols (h r)))
             = delete "num components refined" (delete "num components orig" (cols r))) ->
  skel_mod (map_rows h f) = skel_mod f.
Proof.
  intros Hl Hc. unfold skel_mod, map_rows. simpl. rewrite map_map.
  apply map_ext. intros r. rewrite Hl, Hc. reflexivity.
Qed.

Lemma strip_insert_orig (v : value) (c : gmap string value) :
  delete "num components refined" (delete "num components orig"
    (<["num components orig" := v]> c))
  = delete "num components refined" (delete "num components orig" c).
Proof. rewrite delete_insert_eq. reflexivity. Qed.

Lemma strip_insert_refined (v : value) (c : gmap string value) :
  delete "num components refined" (delete "num components orig"
    (<["num components refined" := v]> c))
  = delete "num components refined" (delete "num components orig" c).
Proof.
  rewrite delete_insert_ne by discriminate. rewrite delete_insert_eq. reflexivity.
Qed.

Lemma Disj_dup (T : list Frame) fg fe fd i u :
  Disj T fg fe i u -> (forall a, gc fd a ⊆ gc fg a) -> Disj T fg fd i u.
Proof.
  intros [H1 H2 H3] Hs. split.
  - intros t t' a b Hab. pose proof (H1 false false a b Hab).
    pose proof (Hs a). pose proof (Hs b). destruct t, t'; simpl in *; set_solver.
  - intros t a k o p Hav Hp. pose proof (H2 false a k o p Hav Hp).
    pose proof (Hs a). destruct t; simpl in *; set_solver.
  - intros t a x Hx. apply (H3 false a). destruct t; simpl in *; [apply Hs, Hx|exact Hx].
Qed.

Lemma gc_no_frame a : gc no_frame a = ∅.
Proof. reflexivity. Qed.

Lemma gc_set_geom_all_empty (f : Frame) a :
  gc (frame_set_geom_all (shp.empty_polygon G) f) a = ∅.
Proof.
  unfold gc, frame_get_geom, frame_set_geom_all.
  rewrite find_row_map_rows by reflexivity.
  destruct (find_row a f); simpl; [apply cells_empty|reflexivity].
Qed.

Lemma tower_at_copies (T : list Frame) (s : St) h :
  heap s = h ++ T -> tower_at (seq (List.length h) (List.length T)) T s.
Proof.
  intros Hs k r Hk. apply lookup_seq in Hk as [-> Hlt].
  destruct (lookup_lt_is_Some_2 T k Hlt) as [f Hf]. exists f. split; [exact Hf|].
  rewrite Hs, lookup_app_r by lia. rewrite <- Hf. f_equal. lia.
Qed.

(** The state in which the Reconstructor starts: every polygon is empty
    and every piece is still to be assigned. *)
Lemma RI_init gdf tw (T : list Frame) cc (s : St) (f0 ft0 : Frame) :
  heap s !! gdf = Some (frame_set_geom_all (shp.empty_polygon G) f0) ->
  gdf ∉ tw -> tower_at tw T s -> T !! 0 = Some ft0 ->
  RI gdf tw T (skel_mod f0) false cc 0 (frame_index ft0) None None s.
Proof.
  intros Hg Hgt Htw HT0.
  exists (frame_set_geom_all (shp.empty_polygon G) f0), no_frame.
  repeat apply conj; auto.
  - reflexivity.
  - split.
    + intros t t' a b _. destruct t, t'; simpl;
        rewrite ?gc_no_frame, ?gc_set_geom_all_empty; set_solver.
    + intros t a k o p _ _. destruct t; simpl;
        rewrite ?gc_no_frame, ?gc_set_geom_all_empty; set_solver.
    + intros t a x. destruct t; simpl;
        rewrite ?gc_no_frame, ?gc_set_geom_all_empty; set_solver.
  - apply skel_mod_map_rows; reflexivity.
  - intros a [g Hg']. discriminate.
  - constructor.
  - discriminate.
  - intros _ x (k & o & p & Hp & Hx). right. right. exists k, o, p.
    split; [|auto]. destruct k as [|k]; [left|right; lia].
    split; [reflexivity|]. destruct Hp as (f & Hf & Hp).
    assert (f = ft0) as -> by congruence. eapply frame_get_geom_index, Hp.
Qed.

Lemma frame_index_skel_mod (f f' : Frame) :
  skel_mod f = skel_mod f' -> frame_index f = frame_index f'.
Proof. intros H. rewrite <- !skel_mod_index, H. reflexivity. Qed.

(** The frame of the disconnected polygons is made. *)
Lemma RI_disc gdf tw (T : list Frame) K cc (s s' : St) (fg : Frame) p :
  heap s !! gdf = Some fg -> NoDup (frame_index fg) ->
  heap s' = heap s ++ [frame_filter p fg] ->
  RI gdf tw T K false cc 0 [] None None s ->
  RI gdf tw T K true cc 0 [] None (Some (List.length (heap s))) s'.
Proof.
  intros Hfg Hnd Hs' (fg0 & fd & Hg & Hd & Hgt & Htw & HD & HK & HL & HN & HS & HC).
  assert (fg0 = fg) as -> by congruence.
  exists fg, (frame_filter p fg). repeat apply conj; auto.
  - rewrite Hs'. apply lookup_snoc_old, Hfg.
  - rewrite Hs'. apply lookup_snoc_new.
  - eapply lookup_fresh_ne, Hfg.
  - eapply tower_at_fresh, Htw.
  - eapply tower_at_snoc; eauto.
  - eapply Disj_dup; [exact HD|]. intros a. apply gc_filter_sub, Hnd.
  - intros a [g Ha]. exists g. eapply frame_get_geom_filter_eq; eauto.
  - apply NoDup_index_filter, Hnd.
  - intros _ a [g Ha]. unfold gc. rewrite Ha.
    rewrite (frame_get_geom_filter_eq _ _ _ _ Hnd Ha). reflexivity.
  - intros Hc x Hx. destruct (HC Hc x Hx) as [?|[(g & Hg' & _)|?]]; auto.
    discriminate.
Qed.

Lemma skel_del_cols (f : Frame) :
  skel (frame_del_col "num components refined"
          (frame_del_col "num components orig" f)) = skel_mod f.
Proof.
  unfold skel, skel_mod, frame_del_col, map_rows. simpl. rewrite !map_map.
  reflexivity.
Qed.

(** What the Reconstructor has made when the last level is done. *)
Lemma RI_final gdf tw (T : list Frame) K cs cc j od (s : St) :
  List.length T <= S j ->
  RI gdf tw T K cs cc j [] None od s ->
  exists fg, heap s !! gdf = Some fg /\ skel_mod fg = K /\
    (forall a b, a <> b -> gc fg a ## gc fg b) /\
    (forall a x, x ∈ gc fg a -> in_pool T x) /\
    (cc = true -> forall x, in_pool T x -> exists a, x ∈ gc fg a).
Proof.
  intros HL (fg & fd & Hg & Hd & Hgt & Htw & [H1 H2 H3] & HK & _ & _ & _ & HC).
  exists fg. repeat apply conj; auto.
  - intros a b Hab. apply (H1 false false a b Hab).
  - intros a x. apply (H3 false a x).
  - intros Hc x Hx. destruct (HC Hc x Hx) as [?|[(g & Hg' & _)|(k & o & p & Hav & Hp & _)]];
      [auto|discriminate|].
    destruct Hp as (f & Hf & _). apply lookup_lt_Some in Hf.
    destruct Hav as [[_ Ho]|Hlt]; [inversion Ho|lia].
Qed.

Lemma wpx_get_geom_any r i (Q : shp.geom G -> St -> Prop) s :
  (forall f g, heap s !! r = Some f -> frame_get_geom i f = Some g -> Q g s) ->
  wpx True (df_get_geom r i) Q s.
Proof.
  intros H. unfold wpx, df_get_geom, bind, df_read, of_option.
  destruct (heap s !! r) as [f|] eqn:Hf; [|exact I].
  destruct (frame_get_geom i f) as [g|] eqn:Hg; simpl; [|exact I].
  eapply H; eauto.
Qed.

Lemma skel_mod_set_col_orig i v (f : Frame) :
  skel_mod (frame_set_col "num components orig" i v f) = skel_mod f.
Proof.
  apply skel_mod_map_rows; intros r; destruct (Nat.eqb (label r) i); try reflexivity.
  apply strip_insert_orig.
Qed.

Lemma skel_mod_set_col_refined i v (f : Frame) :
  skel_mod (frame_set_col "num components refined" i v f) = skel_mod f.
Proof.
  apply skel_mod_map_rows; intros r; destruct (Nat.eqb (label r) i); try reflexivity.
  apply strip_insert_refined.
Qed.

Lemma RI_set_col gdf tw (T : list Frame) K c i v cs cc j u xg od (s s' : St) fg :
  pieces_apart T ->
  skel_mod (frame_set_col c i v fg) = skel_mod fg ->
  heap s !! gdf = Some fg ->
  heap s' = <[gdf := frame_set_col c i v fg]> (heap s) ->
  RI gdf tw T K cs cc j u xg od s -> RI gdf tw T K cs cc j u xg od s'.
Proof.
  intros PD Hsk Hfg Hs' HR.
  eapply RI_cols with
    (h := fun r => if Nat.eqb (label r) i then set_cols (<[c := v]> (cols r)) r else r);
    first [exact Hsk | exact Hfg | exact Hs' | exact HR | exact PD
          | intros r; destruct (Nat.eqb (label r) i); reflexivity].
Qed.

Lemma RI_set_col_all gdf tw (T : list Frame) K c v cs cc j u xg od (s s' : St) fg :
  pieces_apart T ->
  skel_mod (frame_set_col_all c v fg) = skel_mod fg ->
  heap s !! gdf = Some fg ->
  heap s' = <[gdf := frame_set_col_all c v fg]> (heap s) ->
  RI gdf tw T K cs cc j u xg od s -> RI gdf tw T K cs cc j u xg od s'.
Proof.
  intros PD Hsk Hfg Hs' HR.
  eapply RI_cols with (h := fun r => set_cols (<[c := v]> (cols r)) r);
    first [exact Hsk | exact Hfg | exact Hs' | exact HR | exact PD | reflexivity].
Qed.

Lemma RI_main gdf tw (T : list Frame) K cs cc j u xg od (s : St) :
  RI gdf tw T K cs cc j u xg od s ->
  exists fg, heap s !! gdf = Some fg /\ skel_mod fg = K.
Proof. intros (fg & fd & Hg & _ & _ & _ & _ & HK & _). eauto. Qed.

(** What the Reconstructor returns: a frame with the index and the columns
    of its argument, whose polygons are made of pieces of the tower and
    share none. *)
Definition rebuilt (T : list Frame) (K : list (nat * gmap string value))
    (cc : bool) (f' : Frame) : Prop :=
  skel f' = K /\
  (forall a b, a <> b -> gc f' a ## gc f' b) /\
  (forall a x, x ∈ gc f' a -> in_pool T x) /\
  (cc = true -> forall x, in_pool T x -> exists a, x ∈ gc f' a).

Lemma wp_reconstruct cc (s : St) r0 tw0 (f0 : Frame) (T : list Frame) :
  heap s !! r0 = Some f0 ->
  Forall2 (fun r f => heap s !! r = Some f) tw0 T ->
  NoDup (frame_index f0) -> pieces_apart T ->
  (forall k f, T !! k = Some f -> NoDup (frame_index f)) ->
  (cc = true -> List.length T <= 2) ->
  wpx True (reconstruct_from_overlap_tower_jc r0 tw0)
    (fun r' s' => exists f', heap s' !! r' = Some f' /\
                             rebuilt T (skel_mod f0) cc f') s.
Proof.
  intros Hr0 HF Hnd0 PD ND Hcc. unfold reconstruct_from_overlap_tower_jc.
  apply wpx_bind. eapply wpx_copy; [exact Hr0|]. intros s1 Hs1 _.
  set (gdf := List.length (heap s)).
  assert (Hg1 : heap s1 !! gdf = Some f0) by (rewrite Hs1; apply lookup_snoc_new).
  apply wpx_bind. eapply (wp_copies tw0 T).
  { eapply Forall2_impl; [exact HF|]. intros x y Hx. rewrite Hs1.
    apply lookup_snoc_old, Hx. }
  intros s2 Hs2 _.
  set (tw := seq (List.length (heap s1)) (List.length T)).
  assert (Hgt : gdf ∉ tw).
  { unfold tw. rewrite elem_of_seq, Hs1, length_app. simpl. unfold gdf. lia. }
  assert (Hg2 : heap s2 !! gdf = Some f0).
  { rewrite Hs2. apply lookup_app_l_Some, Hg1. }
  apply wpx_bind. eapply wpx_update; [exact Hg2|]. intros s3 Hs3 _.
  apply wpx_bind. apply wpx_of_option.
  destruct (tw !! 0) as [t0|] eqn:Ht0; [|exact I].
  assert (Htw3 : tower_at tw T s3).
  { eapply tower_at_upd; [apply (tower_at_copies T s2 _ Hs2)|exact Hs3|exact Hgt]. }
  destruct (Htw3 0 t0 Ht0) as (ft0 & HT0 & Hft0).
  apply wpx_bind. eapply wpx_index; [exact Hft0|].
  assert (HR3 : RI gdf tw T (skel_mod f0) false cc 0 (frame_index ft0) None None s3).
  { apply RI_init; auto. rewrite Hs3. eapply lookup_upd_eq, Hg2. }
  apply wpx_bind. unfold forM_. eapply wpx_mono; cycle 1.
  { apply (wpx_foldM True _
             (fun rest (_ : unit) s' =>
                RI gdf tw T (skel_mod f0) false cc 0 rest None None s' /\ NoDup rest)).
    - intros x rest [] s4 [HR4 Hn4].
      eapply wpx_mono; [|eapply wp_assign_order1; eauto].
      intros [] s5 HR5. split; [exact HR5|]. apply NoDup_cons in Hn4. tauto.
    - split; [exact HR3|]. eapply ND, HT0. }
  simpl. intros [] s4 [HR4 _].
  destruct (RI_main _ _ _ _ _ _ _ _ _ _ _ HR4) as (fg4 & Hg4 & HK4).
  apply wpx_bind. eapply wpx_update; [exact Hg4|]. intros s5 Hs5 _.
  assert (HR5 : RI gdf tw T (skel_mod f0) false cc 0 [] None None s5).
  { eapply RI_set_col_all; [exact PD| |exact Hg4|exact Hs5|exact HR4].
    apply skel_mod_map_rows; [reflexivity|]. intros r. apply strip_insert_orig. }
  destruct (RI_main _ _ _ _ _ _ _ _ _ _ _ HR5) as (fg5 & Hg5 & HK5).
  apply wpx_bind. eapply wpx_update; [exact Hg5|]. intros s6 Hs6 _.
  assert (HR6 : RI gdf tw T (skel_mod f0) false cc 0 [] None None s6).
  { eapply RI_set_col_all; [exact PD| |exact Hg5|exact Hs6|exact HR5].
    apply skel_mod_map_rows; [reflexivity|]. intros r. apply strip_insert_refined. }
  destruct (RI_main _ _ _ _ _ _ _ _ _ _ _ HR6) as (fg6 & Hg6 & HK6).
  apply wpx_bind. eapply wpx_index; [exact Hg6|].
  apply wpx_bind. unfold forM_. eapply wpx_mono; cycle 1.
  { apply (wpx_foldM True _
             (fun (_ : list nat) (_ : unit) s' =>
                RI gdf tw T (skel_mod f0) false cc 0 [] None None s')).
    - intros x rest [] s7 HR7.
      apply wpx_bind. apply wpx_get_geom_any. intros fa g0 _ _.
      destruct (RI_main _ _ _ _ _ _ _ _ _ _ _ HR7) as (fg7 & Hg7 & HK7).
      apply wpx_bind. eapply wpx_set_col; [exact Hg7|]. intros s8 Hs8 _.
      assert (HR8 : RI gdf tw T (skel_mod f0) false cc 0 [] None None s8).
      { eapply RI_set_col; [exact PD| |exact Hg7|exact Hs8|exact HR7].
        apply skel_mod_set_col_orig. }
      apply wpx_bind. apply wpx_get_geom_any. intros fb g _ _.
      destruct (RI_main _ _ _ _ _ _ _ _ _ _ _ HR8) as (fg8 & Hg8 & HK8).
      eapply wpx_set_col; [exact Hg8|]. intros s9 Hs9 _.
      eapply RI_set_col; [exact PD| |exact Hg8|exact Hs9|exact HR8].
      apply skel_mod_set_col_refined.
    - exact HR6. }
  simpl. intros [] s7 HR7.
  destruct (RI_main _ _ _ _ _ _ _ _ _ _ _ HR7) as (fg7 & Hg7 & HK7).
  assert (Hnd7 : NoDup (frame_index fg7)).
  { rewrite (frame_index_skel_mod _ _ HK7). exact Hnd0. }
  apply wpx_bind. eapply wpx_derive; [exact Hg7|]. intros s8 Hs8 _.
  assert (HR8 := RI_disc _ _ _ _ _ _ _ _ _ Hg7 Hnd7 Hs8 HR7).
  apply wpx_bind. eapply wpx_mono; cycle 1.
  { apply (wpx_foldM True _
             (fun rest disc s' =>
                exists j, rest = seq (S j) (List.length T - 1 - j) /\
                  RI gdf tw T (skel_mod f0) (Nat.eqb j 0) cc j [] None (Some disc) s')).
    - intros x rest disc s9 (j & Hrest & HR9).
      destruct (List.length T - 1 - j) as [|n] eqn:En; [discriminate|].
      simpl in Hrest. injection Hrest as -> ->.
      eapply wpx_mono; [|eapply wp_assign_level; [exact PD|exact ND| |exact HR9]].
      + intros disc' s10 HR10. exists (S j). split; [f_equal; lia|exact HR10].
      + intros Hc. apply Hcc in Hc. destruct j; [reflexivity|lia].
    - exists 0. split; [|exact HR8].
      unfold tw. rewrite length_seq, Nat.sub_0_r. reflexivity. }
  simpl. intros disc s9 (j & Hrest & HR9).
  assert (HL : List.length T <= S j).
  { destruct (List.length T - 1 - j) eqn:En; [lia|discriminate]. }
  destruct (RI_final _ _ _ _ _ _ _ _ _ HL HR9) as (fg9 & Hg9 & HK9 & HD9 & HP9 & HC9).
  apply wpx_bind. eapply wpx_copy; [exact Hg9|]. intros s10 Hs10 _.
  assert (Hn10 : heap s10 !! List.length (heap s9) = Some fg9)
    by (rewrite Hs10; apply lookup_snoc_new).
  apply wpx_bind. eapply wpx_update; [exact Hn10|]. intros s11 Hs11 _.
  assert (Hn11 := lookup_upd_eq _ (frame_del_col "num components orig" fg9) _ _ Hn10).
  rewrite <- Hs11 in Hn11.
  apply wpx_bind. eapply wpx_update; [exact Hn11|]. intros s12 Hs12 _.
  apply wpx_ret. eexists. split.
  { rewrite Hs12. eapply lookup_upd_eq, Hn11. }
  assert (Hgc : forall a, gc (frame_del_col "num components refined"
                                (frame_del_col "num components orig" fg9)) a = gc fg9 a).
  { intros a. unfold gc. rewrite !frame_get_geom_del_col. reflexivity. }
  split; [rewrite skel_del_cols; exact HK9|].
  split; [intros a b Hab; rewrite !Hgc; auto|].
  split; [intros a x; rewrite Hgc; apply HP9|].
  intros Hc x Hx. destruct (HC9 Hc x Hx) as [a Ha]. exists a. rewrite Hgc. exact Ha.
Qed.

End ReconstructTop.

(** * The arrangement and its levels *)

Section Blocks.

Context `{G : shp.Shapely} `{!Ideal G}.

(** The cells of the arrangement of the boundaries of a frame. *)
Definition arrangement (f : Frame) : list (shp.geom G) :=
  shp.polygonize G
    (shp.unary_union G
       (map (fun r => shp.exterior_line G (geometry r))
            (rows (frame_reset_index (frame_explode f))))).

(** The number of polygons of [f] that own a cell. *)
Definition degree (f : Frame) (p : shp.geom G) : nat := size (owners_of f p).

Definition level_pieces (f : Frame) (d : nat) : list (shp.geom G) :=
  List.filter (fun p => Nat.eqb (degree f p) d) (arrangement f).

(** A frame that holds the geometries [l] under the labels [0, 1, ...]. *)
Definition holds (l : list (shp.geom G)) (f : Frame) : Prop :=
  Forall2 (fun r p => geometry r = p) (rows f) l /\
  forall k r, rows f !! k = Some r -> label r = k.

Lemma find_row_pos_aux (l : list Row) n i :
  (forall k r, l !! k = Some r -> label r = n + k) ->
  List.find (fun r => Nat.eqb (label r) (n + i)) l = l !! i.
Proof.
  revert n i. induction l as [|r l IH]; intros n i Hl; [reflexivity|].
  simpl. pose proof (Hl 0 r eq_refl) as H0. rewrite Nat.add_0_r in H0.
  destruct i as [|i].
  - rewrite Nat.add_0_r, H0, Nat.eqb_refl. reflexivity.
  - destruct (Nat.eqb_spec (label r) (n + S i)) as [E|_]; [lia|].
    simpl. replace (n + S i) with (S n + i) by lia. apply IH.
    intros k r' Hk. rewrite (Hl (S k) r' Hk). lia.
Qed.

Lemma find_row_pos (f : Frame) i :
  (forall k r, rows f !! k = Some r -> label r = k) ->
  find_row i f = rows f !! i.
Proof. intros H. apply (find_row_pos_aux (rows f) 0 i). exact H. Qed.

Lemma frame_index_pos (f : Frame) :
  (forall k r, rows f !! k = Some r -> label r = k) ->
  frame_index f = seq 0 (List.length (rows f)).
Proof.
  intros H. unfold frame_index. apply list_eq. intros k.
  rewrite list_lookup_fmap.
  destruct (rows f !! k) as [r|] eqn:E; simpl.
  - rewrite (H k r E). symmetry. apply lookup_seq. split; [reflexivity|].
    eapply lookup_lt_Some, E.
  - symmetry. apply lookup_seq_ge. apply lookup_ge_None in E. simpl. lia.
Qed.

Lemma holds_get_geom l (f : Frame) o p :
  holds l f -> (frame_get_geom o f = Some p <-> l !! o = Some p).
Proof.
  intros [HF Hl]. unfold frame_get_geom. rewrite (find_row_pos f o Hl).
  split.
  - intros H. destruct (rows f !! o) as [r|] eqn:E; [|discriminate].
    simpl in H. injection H as <-.
    destruct (Forall2_lookup_l _ _ _ _ _ HF E) as (p & Hp & ->). exact Hp.
  - intros H. destruct (Forall2_lookup_r _ _ _ _ _ HF H) as (r & Hr & <-).
    rewrite Hr. reflexivity.
Qed.

Lemma holds_NoDup l (f : Frame) : holds l f -> NoDup (frame_index f).
Proof. intros [_ Hl]. rewrite (frame_index_pos f Hl). apply NoDup_seq. Qed.

Lemma relabel_lookup n (l : list Row) k :
  relabel n l !! k = set_label (n + k) <$> l !! k.
Proof.
  revert n k. induction l as [|r l IH]; intros n k; [reflexivity|].
  destruct k as [|k]; simpl; [rewrite Nat.add_0_r; reflexivity|].
  rewrite IH. replace (S n + k) with (n + S k) by lia. reflexivity.
Qed.

Lemma holds_reset_index l (f : Frame) :
  Forall2 (fun r p => geometry r = p) (rows f) l -> holds l (frame_reset_index f).
Proof.
  intros HF. split.
  - simpl. apply Forall2_same_length_lookup_2; [|intros k r p Hr Hp].
    + rewrite <- (Forall2_length _ _ _ HF). clear. generalize 0.
      induction (rows f); intros n; simpl; auto.
    + rewrite relabel_lookup in Hr.
      destruct (rows f !! k) as [r0|] eqn:E; [|discriminate].
      injection Hr as <-. simpl.
      destruct (Forall2_lookup_l _ _ _ _ _ HF E) as (p' & Hp' & <-). congruence.
  - simpl. intros k r Hr. rewrite relabel_lookup in Hr.
    destruct (rows f !! k); [|discriminate]. injection Hr as <-. reflexivity.
Qed.

Lemma wpx_mapM_aux {X Y} E (h : X -> M Y) (I : list X -> list Y -> St -> Prop)
    l acc s :
  (forall x rest ys s, I (x :: rest) ys s ->
     wpx E (h x) (fun y s' => I rest (ys ++ [y]) s') s) ->
  I l acc s ->
  wpx E (mapM h l) (fun ys s' => I [] (acc ++ ys) s') s.
Proof.
  intros Hstep. revert acc s. induction l as [|x l IH]; intros acc s HI; simpl.
  - apply wpx_ret. rewrite app_nil_r. exact HI.
  - apply wpx_bind. eapply wpx_mono; [|apply Hstep, HI].
    intros y s1 H1. apply wpx_bind. eapply wpx_mono; [|apply IH, H1].
    intros ys s2 H2. apply wpx_ret. simpl in H2. rewrite <- app_assoc in H2. exact H2.
Qed.

Lemma wpx_mapM {X Y} E (h : X -> M Y) (I : list X -> list Y -> St -> Prop) l s :
  (forall x rest ys s, I (x :: rest) ys s ->
     wpx E (h x) (fun y s' => I rest (ys ++ [y]) s') s) ->
  I l [] s ->
  wpx E (mapM h l) (fun ys s' => I [] ys s') s.
Proof. intros Hstep HI. apply (wpx_mapM_aux E h I l [] s Hstep HI). Qed.

(** The rows of the frame of the pieces: row [k] holds the cell [k] of
    the arrangement, and the rows in [done] their owners. *)
Definition tagged (fg : Frame) (ps : list (shp.geom G)) (done : nat -> Prop)
    (f : Frame) : Prop :=
  Forall2 (fun r p => geometry r = p) (rows f) ps /\
  forall k r, rows f !! k = Some r ->
    label r = k /\
    (done k -> cols r !! "polygon indices" = Some (VSet (owners_of fg (geometry r)))).

Lemma rows_set_col c i v (f : Frame) k :
  rows (frame_set_col c i v f) !! k =
  (fun r => if Nat.eqb (label r) i then set_cols (<[c := v]> (cols r)) r else r)
    <$> rows f !! k.
Proof. unfold frame_set_col, map_rows. simpl. apply list_lookup_fmap. Qed.

Lemma Forall2_geometry_map (h : Row -> Row) (l : list Row) (ps : list (shp.geom G)) :
  (forall r, geometry (h r) = geometry r) ->
  Forall2 (fun r p => geometry r = p) l ps ->
  Forall2 (fun r p => geometry r = p) (map h l) ps.
Proof.
  intros Hh HF. apply Forall2_fmap_l. eapply Forall2_impl; [exact HF|].
  simpl. intros r p <-. apply Hh.
Qed.

Lemma tagged_set_col fg ps done done' i v (f : Frame) :
  tagged fg ps done f ->
  (forall k r, rows f !! k = Some r -> done' k ->
     (k <> i /\ done k) \/ (k = i /\ v = VSet (owners_of fg (geometry r)))) ->
  tagged fg ps done' (frame_set_col "polygon indices" i v f).
Proof.
  intros [HF Hl] Hd. split.
  - apply Forall2_geometry_map; [|exact HF].
    intros r. destruct (Nat.eqb (label r) i); reflexivity.
  - intros k r Hr. rewrite rows_set_col in Hr.
    destruct (rows f !! k) as [r0|] eqn:E; [|discriminate].
    injection Hr as <-. destruct (Hl k r0 E) as [Hk Hc].
    destruct (Nat.eqb_spec (label r0) i) as [Ei|Ni]; simpl; split; auto.
    + intros Hdk. destruct (Hd k r0 E Hdk) as [[Hne _]|[_ ->]]; [lia|].
      apply lookup_insert_eq.
    + intros Hdk. destruct (Hd k r0 E Hdk) as [[_ Hk']|[He _]]; [auto|lia].
Qed.

(** The rows of the frame of the pieces with their overlap degrees. *)
Definition graded (fg : Frame) (ps : list (shp.geom G)) (f : Frame) : Prop :=
  Forall2 (fun r p => geometry r = p /\ overlap_degree r = Some (degree fg p))
          (rows f) ps.

Lemma tagged_graded fg ps done (f : Frame) :
  (forall k, done k) ->
  tagged fg ps done f -> graded fg ps (map_rows set_overlap_degree f).
Proof.
  intros Hall [HF Hl]. unfold graded, map_rows. simpl.
  apply Forall2_same_length_lookup_2.
  - rewrite length_map. eapply Forall2_length, HF.
  - intros k r p Hr Hp. rewrite list_lookup_fmap in Hr.
    destruct (rows f !! k) as [r0|] eqn:E; [|discriminate].
    injection Hr as <-. destruct (Hl k r0 E) as [_ Hc]. specialize (Hc (Hall k)).
    destruct (Forall2_lookup_l _ _ _ _ _ HF E) as (p' & Hp' & Hg).
    assert (p' = p) as -> by congruence.
    unfold set_overlap_degree. rewrite Hc. simpl. split; [exact Hg|].
    unfold overlap_degree. simpl. rewrite lookup_insert_eq, Hg. reflexivity.
Qed.

Lemma graded_filter fg ps (f : Frame) d :
  graded fg ps f ->
  Forall2 (fun r p => geometry r = p)
          (List.filter (has_degree d) (rows f))
          (List.filter (fun p => Nat.eqb (degree fg p) d) ps).
Proof.
  unfold graded. induction 1 as [|r p l ps' [Hg Hd] HF IH]; simpl; [constructor|].
  unfold has_degree at 1. rewrite Hd.
  destruct (Nat.eqb_spec (degree fg p) d) as [->|Hne].
  - rewrite bool_decide_eq_true_2 by reflexivity. constructor; auto.
  - rewrite bool_decide_eq_false_2 by congruence. exact IH.
Qed.

Lemma graded_degrees fg ps (f : Frame) :
  graded fg ps f -> omap overlap_degree (rows f) = map (degree fg) ps.
Proof.
  unfold graded. induction 1 as [|r p l ps' [Hg Hd] HF IH]; simpl; [reflexivity|].
  rewrite Hd. simpl. f_equal. exact IH.
Qed.

(** The frame of level [d] that [building_blocks_jc] makes from the frame
    of the pieces. *)
Lemma level_frame_holds fg (f : Frame) d :
  graded fg (arrangement fg) f ->
  holds (level_pieces fg d)
        (frame_reset_index
           (frame_del_col "overlap degree" (frame_filter (has_degree d) f))).
Proof.
  intros Hg. apply holds_reset_index. simpl.
  apply Forall2_geometry_map; [reflexivity|]. apply graded_filter, Hg.
Qed.

Lemma hole_frame_holds fg (f : Frame) :
  graded fg (arrangement fg) f ->
  holds (level_pieces fg 0) (frame_reset_index (frame_filter (has_degree 0) f)).
Proof. intros Hg. apply holds_reset_index. simpl. apply graded_filter, Hg. Qed.

Lemma tagged_new fg (ps : list (shp.geom G)) c :
  tagged fg ps (fun _ => False) (new_frame (map (fun p => (p, [])) ps) c).
Proof.
  split.
  - simpl. apply Forall2_same_length_lookup_2.
    + rewrite length_imap, length_map. reflexivity.
    + intros k r p Hr Hp. rewrite list_lookup_imap, list_lookup_fmap, Hp in Hr.
      injection Hr as <-. reflexivity.
  - simpl. intros k r Hr. rewrite list_lookup_imap, list_lookup_fmap in Hr.
    destruct (ps !! k); [|discriminate]. injection Hr as <-. split; [reflexivity|].
    contradiction.
Qed.

Lemma tagged_index fg ps done (f : Frame) :
  tagged fg ps done f -> frame_index f = seq 0 (List.length ps).
Proof.
  intros [HF Hl]. rewrite <- (Forall2_length _ _ _ HF). apply frame_index_pos.
  intros k r Hr. apply (Hl k r Hr).
Qed.

Lemma tagged_get_geom fg ps done (f : Frame) x p :
  tagged fg ps done f -> frame_get_geom x f = Some p ->
  exists r, rows f !! x = Some r /\ geometry r = p.
Proof.
  intros [HF Hl] Hp. unfold frame_get_geom in Hp.
  rewrite find_row_pos in Hp by (intros k r Hr; apply (Hl k r Hr)).
  destruct (rows f !! x) as [r|]; [|discriminate]. injection Hp as <-. eauto.
Qed.

Definition blocks (fg : Frame) (tower : list nat) (holes : nat) (s' : St) : Prop :=
  exists T fh,
    Forall2 (fun r f => heap s' !! r = Some f) tower T /\
    heap s' !! holes = Some fh /\
    holds (level_pieces fg 0) fh /\
    List.length T = max_list (map (degree fg) (arrangement fg)) /\
    forall k f, T !! k = Some f -> holds (level_pieces fg (S k)) f.

(** The frame of the pieces when the owners are known. *)
Lemma wp_pieces {A} (E : Prop) (s : St) pieces fg (f : Frame) (k : M A)
    (Q : A -> St -> Prop) :
  heap s !! pieces = Some f ->
  tagged fg (arrangement fg) (fun _ => False) f ->
  (forall s' f', heap s' !! pieces = Some f' ->
     (forall x, x <> pieces -> heap s' !! x = heap s !! x) ->
     List.length (heap s') = List.length (heap s) ->
     graded fg (arrangement fg) f' -> wpx E k Q s') ->
  wpx E
    (forM_ (frame_index f)
       (fun i => df_set_col pieces "polygon indices" i (VSet ∅)) ;;;
     emit (Print "Identifying overlaps...") ;;;
     forM_ (frame_index f) (fun i =>
       p <- df_get_geom pieces i ;;
       df_set_col pieces "polygon indices" i (VSet (owners_of fg p))) ;;;
     df_update (map_rows set_overlap_degree) pieces ;;; k) Q s.
Proof.
  intros Hp Ht HQ.
  set (J := fun (done : nat -> Prop) (s' : St) =>
    exists f', heap s' !! pieces = Some f' /\
      tagged fg (arrangement fg) done f' /\
      (forall x, x <> pieces -> heap s' !! x = heap s !! x) /\
      List.length (heap s') = List.length (heap s)).
  assert (Hupd : forall done s1 s2 f1 f2,
    heap s1 !! pieces = Some f1 -> heap s2 = <[pieces := f2]> (heap s1) ->
    J done s1 -> forall done', tagged fg (arrangement fg) done' f2 -> J done' s2).
  { intros done s1 s2 f1 f2 H1 H2 (f' & Hf' & _ & Hfr & Hlen) done' Ht2.
    exists f2. splits; auto.
    - rewrite H2. eapply lookup_upd_eq, H1.
    - intros x Hx. rewrite H2, list_lookup_insert_ne by auto. auto.
    - rewrite H2, length_insert. exact Hlen. }
  assert (Hout : forall done s1 s2, heap s2 = heap s1 -> J done s1 -> J done s2).
  { intros done s1 s2 H (f' & H1 & H2 & H3 & H4). exists f'. rewrite H. auto. }
  apply wpx_bind. unfold forM_. eapply wpx_mono; cycle 1.
  { apply (wpx_foldM E _ (fun (_ : list nat) (_ : unit) s' => J (fun _ => False) s')).
    - intros x rest [] s1 HJ. pose proof HJ as (f1 & Hf1 & Ht1 & _).
      eapply wpx_set_col; [exact Hf1|]. intros s2 Hs2 _.
      eapply Hupd; [exact Hf1|exact Hs2|exact HJ|].
      eapply tagged_set_col; [exact Ht1|]. intros k0 r _ [].
    - exists f. auto. }
  simpl. intros [] s1 HJ1.
  apply wpx_bind. apply wpx_emit'. intros s2 Hs2 _.
  apply (Hout _ _ _ Hs2) in HJ1.
  apply wpx_bind. eapply wpx_mono; cycle 1.
  { apply (wpx_foldM E _
      (fun rest (_ : unit) s' =>
         (forall y, y ∈ rest -> y < List.length (arrangement fg)) /\
         J (fun k => k ∉ rest) s')).
    - intros x rest [] s3 [Hin HJ]. pose proof HJ as (f3 & Hf3 & Ht3 & _).
      apply wpx_bind. eapply wpx_get_geom; [exact Hf3|].
      destruct (frame_get_geom x f3) as [p|] eqn:Ep; cycle 1.
      { exfalso. destruct Ht3 as [HF3 Hl3]. unfold frame_get_geom in Ep.
        rewrite find_row_pos in Ep by (intros k0 r0 Hr0; apply (Hl3 k0 r0 Hr0)).
        destruct (lookup_lt_is_Some_2 (rows f3) x) as [r0 Hr0].
        - rewrite (Forall2_length _ _ _ HF3). apply Hin. left.
        - rewrite Hr0 in Ep. discriminate. }
      destruct (tagged_get_geom _ _ _ _ _ _ Ht3 Ep) as (r & Hr & Hg).
      eapply wpx_set_col; [exact Hf3|]. intros s4 Hs4 _.
      split; [intros y Hy; apply Hin; right; exact Hy|].
      eapply Hupd; [exact Hf3|exact Hs4|exact HJ|].
      eapply tagged_set_col; [exact Ht3|]. intros k0 r' Hr' Hk.
      destruct (decide (k0 = x)) as [->|Hne].
      + right. split; [reflexivity|]. congruence.
      + left. split; [exact Hne|]. set_solver.
    - split.
      { intros y Hy. rewrite (tagged_index _ _ _ _ Ht) in Hy.
        apply elem_of_seq in Hy. lia. }
      destruct HJ1 as (f1 & Hf1 & Ht1 & Hfr & Hlen). exists f1.
      splits; auto. destruct Ht1 as [HF Hl]. split; [exact HF|].
      intros k0 r Hr. split; [apply (Hl k0 r Hr)|]. intros Hk. exfalso. apply Hk.
      rewrite (tagged_index _ _ _ _ Ht). apply elem_of_seq.
      apply lookup_lt_Some in Hr. rewrite (Forall2_length _ _ _ HF) in Hr. lia. }
  simpl. intros [] s3 [_ HJ3]. pose proof HJ3 as (f3 & Hf3 & Ht3 & _).
  apply wpx_bind. eapply wpx_update; [exact Hf3|]. intros s4 Hs4 _.
  assert (Hg : graded fg (arrangement fg) (map_rows set_overlap_degree f3)).
  { eapply tagged_graded; [|exact Ht3]. intros k0. simpl. set_solver. }
  destruct HJ3 as (_ & _ & _ & Hfr & Hlen).
  eapply HQ; [| | |exact Hg].
  - rewrite Hs4. eapply lookup_upd_eq, Hf3.
  - intros x Hx. rewrite Hs4, list_lookup_insert_ne by auto. auto.
  - rewrite Hs4, length_insert. exact Hlen.
Qed.

Lemma seq_cons_inv (x : nat) rest a m :
  x :: rest = seq a m -> exists m', m = S m' /\ x = a /\ rest = seq (S a) m'.
Proof.
  destruct m as [|m']; simpl; [discriminate|]. intros H. injection H as -> ->. eauto.
Qed.

(** The first loop over the levels: the rows of each degree. *)
Lemma wp_levels (E : Prop) (s : St) pieces (fp : Frame) n :
  heap s !! pieces = Some fp ->
  wpx E
    (mapM (fun i => df_derive (frame_filter (has_degree (i + 1))) pieces) (range n))
    (fun ys s' =>
       ys = seq (List.length (heap s)) n /\
       heap s' = heap s ++
         map (fun i => frame_filter (has_degree (i + 1)) fp) (seq 0 n)) s.
Proof.
  intros Hp. eapply wpx_mono; cycle 1.
  { apply (wpx_mapM E _
      (fun rest ys s' => exists j,
         rest = seq j (n - j) /\ j <= n /\ ys = seq (List.length (heap s)) j /\
         heap s' = heap s ++
           map (fun i => frame_filter (has_degree (i + 1)) fp) (seq 0 j))).
    - intros x rest ys s1 (j & Hrest & Hj & -> & Hs1).
      apply seq_cons_inv in Hrest as (m' & Hm & -> & ->).
      eapply wpx_derive.
      { rewrite Hs1. apply lookup_app_l_Some, Hp. }
      intros s2 Hs2 _. exists (S j). splits.
      + f_equal. lia.
      + lia.
      + rewrite seq_S. f_equal. f_equal. rewrite Hs1, length_app, length_map, length_seq.
        reflexivity.
      + rewrite Hs2, Hs1, seq_S, map_app, <- app_assoc. reflexivity.
    - exists 0. splits; [rewrite Nat.sub_0_r; reflexivity|lia|reflexivity|].
      simpl. rewrite app_nil_r. reflexivity. }
  simpl. intros ys s' (j & Hrest & Hj & -> & Hs').
  assert (j = n) as ->; [|auto].
  destruct (n - j) eqn:Enj; [lia|discriminate].
Qed.

(** The second loop over the levels: the working column is deleted and the
    rows are numbered again. *)
Lemma wp_reindex (E : Prop) (s : St) h0 n (F : nat -> Frame) :
  h0 + n <= List.length (heap s) ->
  (forall k, k < n -> heap s !! (h0 + k) = Some (F k)) ->
  wpx E
    (mapM (fun t => df_update (frame_del_col "overlap degree") t ;;;
                    df_derive frame_reset_index t)
          (seq h0 n))
    (fun ys s' =>
       (forall x, x < h0 -> heap s' !! x = heap s !! x) /\
       List.length ys = n /\
       forall k r, ys !! k = Some r ->
         heap s' !! r =
         Some (frame_reset_index (frame_del_col "overlap degree" (F k)))) s.
Proof.
  intros Hlen HF. eapply wpx_mono; cycle 1.
  { apply (wpx_mapM E _
      (fun rest ys s' =>
         (forall x, x < h0 -> heap s' !! x = heap s !! x) /\
         h0 + n <= List.length (heap s') /\
         exists j, rest = seq (h0 + j) (n - j) /\ j <= n /\ List.length ys = j /\
           (forall k, j <= k < n -> heap s' !! (h0 + k) = Some (F k)) /\
           (forall k r, ys !! k = Some r ->
              h0 + n <= r /\
              heap s' !! r =
              Some (frame_reset_index (frame_del_col "overlap degree" (F k)))))).
    - intros x rest ys s1 (Hold & Hl1 & j & Hrest & Hj & Hys & Hun & Hdone).
      apply seq_cons_inv in Hrest as (m' & Hm & -> & ->).
      assert (Hx : heap s1 !! (h0 + j) = Some (F j)) by (apply Hun; lia).
      apply wpx_bind. eapply wpx_update; [exact Hx|]. intros s2 Hs2 _.
      eapply wpx_derive.
      { rewrite Hs2. eapply lookup_upd_eq, Hx. }
      intros s3 Hs3 _.
      assert (Hl2 : List.length (heap s2) = List.length (heap s1))
        by (rewrite Hs2; apply length_insert).
      assert (Hother : forall y, y <> h0 + j -> y < List.length (heap s1) ->
                heap s3 !! y = heap s1 !! y).
      { intros y Hy Hlt. rewrite Hs3, lookup_app_l by lia.
        rewrite Hs2. apply list_lookup_insert_ne. auto. }
      splits.
      + intros y Hy. rewrite Hother by lia. auto.
      + rewrite Hs3, length_app. simpl. lia.
      + exists (S j). splits.
        * f_equal; lia.
        * lia.
        * rewrite length_app. simpl. lia.
        * intros k Hk. rewrite Hother by lia. apply Hun. lia.
        * intros k r Hr. apply lookup_app_Some in Hr as [Hr|[Hge Hr]].
          -- destruct (Hdone k r Hr) as [Hr1 Hr2]. split; [exact Hr1|].
             rewrite Hother; [exact Hr2|lia|]. eapply lookup_lt_Some, Hr2.
          -- destruct (k - List.length ys) as [|?] eqn:Ek; [|discriminate].
             injection Hr as <-. assert (k = j) as -> by lia.
             split; [lia|]. rewrite Hs3. apply lookup_snoc_new.
    - splits; auto. exists 0. splits.
      + rewrite Nat.add_0_r, Nat.sub_0_r. reflexivity.
      + lia.
      + reflexivity.
      + intros k Hk. apply HF. lia.
      + intros k r Hr. inversion Hr. }
  simpl. intros ys s' (Hold & _ & j & Hrest & Hj & Hys & _ & Hdone).
  assert (j = n) as -> by (destruct (n - j) eqn:Enj; [lia|discriminate]).
  splits; auto. intros k r Hr. apply (Hdone k r Hr).
Qed.

(** The only exception of [building_blocks_jc] is the one of an
    arrangement without a cell. *)
Lemma wp_building_blocks_in (E : Prop) (s : St) r (fg : Frame) :
  heap s !! r = Some fg -> (arrangement fg = [] -> E) ->
  wpx E (building_blocks_jc r) (fun bb s' => blocks fg bb.1 bb.2 s') s.
Proof.
  intros Hr HE. unfold building_blocks_jc.
  apply wpx_bind. eapply wpx_copy; [exact Hr|]. intros s1 Hs1 _.
  assert (Hg1 : heap s1 !! List.length (heap s) = Some fg)
    by (rewrite Hs1; apply lookup_snoc_new).
  apply wpx_bind. eapply wpx_derive; [exact Hg1|]. intros s2 Hs2 _.
  apply wpx_bind. eapply wpx_read; [rewrite Hs2; apply lookup_snoc_new|].
  apply wpx_bind. eapply wpx_read; [rewrite Hs2; apply lookup_snoc_old, Hg1|].
  apply wpx_bind. apply wpx_alloc'. intros s3 Hs3 _.
  fold (arrangement fg) in *.
  set (pieces := List.length (heap s2)) in *.
  assert (Hp3 : heap s3 !! pieces =
                Some (new_frame (map (fun p => (p, [])) (arrangement fg)) (crs fg)))
    by (rewrite Hs3; apply lookup_snoc_new).
  apply wpx_bind. eapply wpx_index; [exact Hp3|].
  eapply wp_pieces; [exact Hp3|apply tagged_new|].
  intros s4 fp Hp4 Hfr4 Hl4 Hgr.
  apply wpx_bind. eapply wpx_derive; [exact Hp4|]. intros s5 Hs5 _.
  set (holes := List.length (heap s4)) in *.
  assert (Hp5 : heap s5 !! pieces = Some fp) by (rewrite Hs5; apply lookup_snoc_old, Hp4).
  assert (Hh5 : heap s5 !! holes =
                Some (frame_reset_index (frame_filter (has_degree 0) fp)))
    by (rewrite Hs5; apply lookup_snoc_new).
  apply wpx_bind. eapply wpx_read; [exact Hp5|].
  rewrite (graded_degrees _ _ _ Hgr).
  destruct (map (degree fg) (arrangement fg)) as [|d ds] eqn:Ed.
  { apply wpx_raise, HE. destruct (arrangement fg); [reflexivity|discriminate]. }
  set (n := max_list (d :: ds)).
  apply wpx_bind. eapply wpx_mono; [|eapply wp_levels; exact Hp5].
  simpl. intros tower0 s6 [-> Hs6].
  set (h0 := List.length (heap s5)) in *.
  set (F := fun i => frame_filter (has_degree (i + 1)) fp) in *.
  apply wpx_bind. eapply wpx_mono; [|eapply (wp_reindex E s6 h0 n F)].
  - simpl. intros tower s7 (Hold & Hlt & Hdone). apply wpx_ret. simpl.
    exists (map (fun k => frame_reset_index (frame_del_col "overlap degree" (F k)))
                (seq 0 n)),
           (frame_reset_index (frame_filter (has_degree 0) fp)).
    splits.
    + apply Forall2_same_length_lookup_2.
      * rewrite length_map, length_seq. exact Hlt.
      * intros k x f Hx Hf. rewrite (Hdone k x Hx).
        rewrite list_lookup_fmap in Hf.
        destruct (seq 0 n !! k) as [k'|] eqn:Ek; [|discriminate].
        apply lookup_seq in Ek as [-> _]. simpl in Hf. exact Hf.
    + rewrite Hold; [rewrite Hs6; apply lookup_app_l_Some, Hh5|].
      unfold h0. rewrite Hs5, length_app. simpl. unfold holes. lia.
    + eapply hole_frame_holds, Hgr.
    + rewrite length_map, length_seq, Ed. reflexivity.
    + intros k f Hf. rewrite list_lookup_fmap in Hf.
      destruct (seq 0 n !! k) as [k'|] eqn:Ek; [|discriminate].
      apply lookup_seq in Ek as [-> _]. simpl in Hf. injection Hf as <-.
      unfold F. rewrite Nat.add_1_r. eapply level_frame_holds, Hgr.
  - rewrite Hs6, length_app, length_map, length_seq. unfold h0. lia.
  - intros k Hk. rewrite Hs6. rewrite lookup_app_r by (unfold h0; lia).
    replace (h0 + k - List.length (heap s5)) with k by (unfold h0; lia).
    rewrite list_lookup_fmap, lookup_seq_lt by lia. reflexivity.
Qed.

Lemma wp_building_blocks (s : St) r (fg : Frame) :
  heap s !! r = Some fg ->
  wpx True (building_blocks_jc r) (fun bb s' => blocks fg bb.1 bb.2 s') s.
Proof. intros Hr. apply wp_building_blocks_in; auto. Qed.

Lemma filter_lookup_In {A} (q : A -> bool) (l : list A) o p :
  List.filter q l !! o = Some p -> exists i, l !! i = Some p /\ q p = true.
Proof.
  intros H. apply list_elem_of_lookup_2, list_elem_of_In, filter_In in H as [Hin Hq].
  apply list_elem_of_In, list_elem_of_lookup_1 in Hin as [i Hi]. eauto.
Qed.

(** Two places of a filtered list come from two places of the list. *)
Lemma filter_lookup_inj {A} (q : A -> bool) (l : list A) o o' p p' :
  o <> o' ->
  List.filter q l !! o = Some p -> List.filter q l !! o' = Some p' ->
  exists i i', i <> i' /\ l !! i = Some p /\ l !! i' = Some p'.
Proof.
  revert o o'. induction l as [|x l IH]; intros o o' Hne Ho Ho'; [discriminate|].
  simpl in Ho, Ho'. destruct (q x) eqn:Eq.
  - destruct o as [|o], o' as [|o']; simpl in *.
    + lia.
    + injection Ho as <-. apply filter_lookup_In in Ho' as (i' & Hi' & _).
      exists 0, (S i'). auto.
    + injection Ho' as <-. apply filter_lookup_In in Ho as (i & Hi & _).
      exists (S i), 0. auto.
    + destruct (IH o o') as (i & i' & Hii & Hi & Hi'); auto.
      exists (S i), (S i'). auto.
  - destruct (IH o o' Hne Ho Ho') as (i & i' & Hii & Hi & Hi').
    exists (S i), (S i'). auto.
Qed.

Lemma level_pieces_apart fg d d' o o' p p' :
  (d, o) <> (d', o') ->
  level_pieces fg d !! o = Some p -> level_pieces fg d' !! o' = Some p' ->
  cells p ## cells p'.
Proof.
  intros Hne Hp Hp'. unfold level_pieces in *.
  destruct (decide (d = d')) as [<-|Hd].
  - assert (o <> o') as Ho by congruence.
    destruct (filter_lookup_inj _ _ _ _ _ _ Ho Hp Hp') as (i & i' & Hii & Hi & Hi').
    eapply polygonize_disjoint; eauto.
  - apply filter_lookup_In in Hp as (i & Hi & Hq).
    apply filter_lookup_In in Hp' as (i' & Hi' & Hq').
    apply Nat.eqb_eq in Hq, Hq'.
    destruct (decide (i = i')) as [<-|Hii]; [congruence|].
    eapply polygonize_disjoint; eauto.
Qed.

(** The frames that [building_blocks_jc] returns: the holes, then the
    levels of the tower. *)
Definition levels_of (fg fh : Frame) (T : list Frame) : Prop :=
  forall k f, (fh :: T) !! k = Some f -> holds (level_pieces fg k) f.

Lemma levels_apart fg fh T : levels_of fg fh T -> pieces_apart (fh :: T).
Proof.
  intros HL k o p k' o' p' (f & Hf & Hp) (f' & Hf' & Hp') Hne.
  apply (holds_get_geom _ _ _ _ (HL k f Hf)) in Hp.
  apply (holds_get_geom _ _ _ _ (HL k' f' Hf')) in Hp'.
  eapply level_pieces_apart; eauto.
Qed.

Lemma levels_NoDup fg fh T k f :
  levels_of fg fh T -> (fh :: T) !! k = Some f -> NoDup (frame_index f).
Proof. intros HL Hf. eapply holds_NoDup, HL, Hf. Qed.

Lemma pieces_apart_tail fh T : pieces_apart (fh :: T) -> pieces_apart T.
Proof.
  intros H k o p k' o' p' (f & Hf & Hp) (f' & Hf' & Hp') Hne.
  apply (H (S k) o p (S k') o' p'); [exists f|exists f'|congruence]; auto.
Qed.

Lemma blocks_levels fg tower holes s' :
  blocks fg tower holes s' ->
  exists T fh,
    Forall2 (fun r f => heap s' !! r = Some f) tower T /\
    heap s' !! holes = Some fh /\ levels_of fg fh T /\
    List.length T = max_list (map (degree fg) (arrangement fg)).
Proof.
  intros (T & fh & HF & Hh & Hfh & Hlen & HT). exists T, fh. splits; auto.
  intros [|k] f Hf; simpl in Hf; [injection Hf as <-; exact Hfh|apply HT, Hf].
Qed.

End Blocks.

(** * Disconnection repair keeps the polygons apart *)

Section Repair.

Context `{G : shp.Shapely} `{!Ideal G}.

(** A computation that writes to its own frames only leaves the others
    as they are. *)
Lemma wpx_eff {A} W P (m : M A) Φ (Q : A -> St -> Prop) (s : St) :
  eff W P m Φ ->
  (forall x, List.length (heap s) <= x -> W x) ->
  (forall a s', Φ a -> (forall x, ~ W x -> heap s' !! x = heap s !! x) ->
     List.length (heap s) <= List.length (heap s') -> Q a s') ->
  wpx True m Q s.
Proof.
  intros He HW HQ. destruct (He s HW) as (Hfr & Hlen & _ & HΦ).
  unfold wpx. destruct (m s) as [[a| |] s'] eqn:E; simpl in *; auto.
Qed.

Definition fresh_in (s : St) (x : nat) : Prop := List.length (heap s) <= x.

Lemma not_fresh (s : St) r (f : Frame) : heap s !! r = Some f -> ~ fresh_in s r.
Proof. intros H. apply lookup_lt_Some in H. unfold fresh_in. lia. Qed.

Lemma eff_got_worse W P r0 rdf l : eff W P (got_worse r0 rdf l) (fun _ => True).
Proof.
  unfold got_worse. apply (eff_foldM _ _ _ (fun _ => True)); auto.
  intros acc x _.
  eapply eff_bind; [apply eff_get_geom|]. intros g _.
  eapply eff_bind; [apply eff_get_geom|]. intros g0 _.
  eapply eff_bind with (Φ := fun _ => True).
  - unfold nc_gt. destruct (num_components_jc g), (num_components_jc g0);
      first [eapply eff_true; apply eff_ret | eapply eff_true; apply eff_raise_none].
  - intros b _. eapply eff_true. apply eff_ret.
Qed.

(** The polygons of a frame share no atom. *)
Definition apart (f : Frame) : Prop := forall a b, a <> b -> gc f a ## gc f b.

(** The atoms that the polygons of a frame cover. *)
Definition total (f : Frame) (x : atom) : Prop := exists a, x ∈ gc f a.

Lemma insert_by_In {A} (key : A -> Q) (z : A) acc x :
  In x (insert_by key z acc) -> x = z \/ In x acc.
Proof.
  induction acc as [|w acc IH]; simpl.
  - intros [->|[]]; auto.
  - destruct (Qltb (key z) (key w)); simpl; intros [->|H]; auto.
    destruct (IH H); auto.
Qed.

Lemma sorted_In {A} (key : A -> Q) (l : list A) x : In x (sorted key l) -> In x l.
Proof.
  unfold sorted. assert (Hgen : forall acc,
    In x (foldl (fun acc y => insert_by key y acc) acc l) -> In x acc \/ In x l).
  { induction l as [|y l IH]; simpl; intros acc H; [auto|].
    apply IH in H as [H|H]; [|auto]. apply insert_by_In in H as [->|H]; auto. }
  intros H. apply Hgen in H as [[]|H]. exact H.
Qed.

Lemma max_shared_perim_In {A} (l : list (A * Q)) m :
  max_shared_perim l = Some m -> In m l.
Proof.
  unfold max_shared_perim. intros H. apply last_Some in H as [l' H].
  apply (sorted_In snd). rewrite H. apply in_or_app. right. left. reflexivity.
Qed.

Lemma fragment_target fr fsnap g_ind frag m :
  In m (fragment_shared_perimeters fr fsnap g_ind frag) -> m.1 <> g_ind.
Proof.
  unfold fragment_shared_perimeters. rewrite in_flat_map. intros (j & _ & Hm).
  destruct (frame_get_geom j fr); [|contradiction].
  destruct (Nat.eqb_spec j g_ind) as [->|Hne]; simpl in Hm; [contradiction|].
  destruct (negb _); [|contradiction]. destruct Hm as [<-|[]]. exact Hne.
Qed.

Lemma list_remove_In x (l l' : list nat) : list_remove x l = Some l' -> x ∈ l.
Proof.
  revert l'. induction l as [|y l IH]; simpl; intros l' H; [discriminate|].
  destruct (Nat.eqb_spec y x) as [->|Hne]; [left|].
  destruct (list_remove x l) as [l0|]; [|discriminate]. right. eapply IH. reflexivity.
Qed.

Lemma list_remove_length x (l l' : list nat) :
  list_remove x l = Some l' -> List.length l = S (List.length l').
Proof.
  revert l'. induction l as [|y l IH]; simpl; intros l' H; [discriminate|].
  destruct (Nat.eqb_spec y x) as [->|Hne]; [injection H as <-; reflexivity|].
  destruct (list_remove x l) as [l0|]; [|discriminate]. injection H as <-.
  simpl. f_equal. apply IH. reflexivity.
Qed.

Lemma skel_set_geom a g (f : Frame) : skel (frame_set_geom a g f) = skel f.
Proof.
  unfold skel, frame_set_geom, map_rows. simpl. rewrite map_map.
  apply map_ext. intros r. destruct (Nat.eqb (label r) a); reflexivity.
Qed.

Section Peel.

Variables (r0 rdf : nat) (f0 : Frame).
Variable tot : atom -> Prop.
Variable K : list (nat * gmap string value).
Variables (g_ind : nat) (g : shp.geom G).
Hypothesis Hmulti : is_multi (shp.geom_type G g) = true.

(** The atoms of the components that polygon [g_ind] keeps. *)
Definition kept (cnl : list nat) (x : atom) : Prop :=
  exists c p, c ∈ cnl /\ shp.parts G g !! c = Some p /\ x ∈ cells p.

Lemma kept_all x :
  kept (range (List.length (shp.parts G g))) x <-> x ∈ cells g.
Proof.
  rewrite (cells_parts g x Hmulti). split.
  - intros (c & p & _ & Hp & Hx). exists p. split; [|exact Hx].
    eapply list_elem_of_lookup_2, Hp.
  - intros (p & Hp & Hx). apply list_elem_of_lookup_1 in Hp as [c Hc].
    exists c, p. splits; auto. apply elem_of_seq. apply lookup_lt_Some in Hc. lia.
Qed.

(** The state while the small components of polygon [g_ind] are given
    away: its geometry in the frame is still the whole of [g]. *)
Definition PI (cnl : list nat) (s : St) : Prop :=
  exists f,
    heap s !! rdf = Some f /\ heap s !! r0 = Some f0 /\ skel f = K /\
    frame_get_geom g_ind f = Some g /\ NoDup cnl /\
    (forall a b, a <> b -> a <> g_ind -> b <> g_ind -> gc f a ## gc f b) /\
    (forall a x, a <> g_ind -> x ∈ gc f a -> ~ kept cnl x) /\
    (forall x, tot x <-> (exists a, a <> g_ind /\ x ∈ gc f a) \/ kept cnl x).

Hypothesis Hr0 : r0 <> rdf.

Lemma wp_peel fsnap cas big cnl i (s : St) :
  PI cnl s ->
  wpx True (peel_fragment rdf fsnap g_ind g cas big cnl i)
    (fun cnl' s' => PI cnl' s' /\ List.length cnl <= S (List.length cnl')) s.
Proof.
  intros HPI. pose proof HPI as (f & Hf & Hf0 & HK & Hg & Hnd & Hd & Hk & Ht).
  unfold peel_fragment.
  apply wpx_bind. apply wpx_of_option. destruct (cas !! i) as [ca|]; [|exact I].
  apply wpx_bind. apply wpx_of_option.
  destruct (shp.parts G g !! ca.1) as [frag|] eqn:Efrag; [|exact I].
  destruct (Qltb ca.2 _); [|apply wpx_ret; split; [exact HPI|lia]].
  apply wpx_bind. apply wpx_of_option.
  destruct (list_remove ca.1 cnl) as [l|] eqn:El; [|exact I].
  destruct (list_remove_spec _ _ _ El Hnd) as [Hndl Hl].
  pose proof (list_remove_In _ _ _ El) as Hin.
  apply wpx_bind. eapply wpx_read; [exact Hf|].
  apply wpx_bind. apply wpx_of_option.
  destruct (max_shared_perim _) as [m|] eqn:Em; [|exact I].
  apply max_shared_perim_In, fragment_target in Em.
  apply wpx_bind. eapply wpx_get_geom; [exact Hf|].
  destruct (frame_get_geom m.1 f) as [g2|] eqn:Eg2; [|exact I].
  apply wpx_bind. eapply wpx_set_geom; [exact Hf|]. intros s1 Hs1 _.
  apply wpx_ret. split; [|rewrite (list_remove_length _ _ _ El); lia].
  assert (Hgc : forall a, gc (frame_set_geom m.1 (shp.unary_union G [g2; frag]) f) a =
                          if decide (a = m.1) then gc f a ∪ cells frag else gc f a).
  { intros a. rewrite gc_set, Eg2. destruct (decide (a = m.1)) as [->|]; [|reflexivity].
    rewrite cells_union. unfold gc. rewrite Eg2. reflexivity. }
  assert (Hfrag : forall x, x ∈ cells frag -> kept cnl x).
  { intros x Hx. exists ca.1, frag. auto. }
  assert (Hfl : forall x, x ∈ cells frag -> ~ kept l x).
  { intros x Hx (c & p & Hc & Hp & Hxp). apply Hl in Hc as [_ Hc].
    pose proof (parts_disjoint g c ca.1 p frag Hmulti Hc Hp Efrag). set_solver. }
  assert (Hkl : forall x, kept l x -> kept cnl x).
  { intros x (c & p & Hc & Hp & Hxp). exists c, p. apply Hl in Hc as [Hc _]. auto. }
  assert (Hkc : forall x, kept cnl x -> kept l x \/ x ∈ cells frag).
  { intros x (c & p & Hc & Hp & Hxp). destruct (decide (c = ca.1)) as [->|Hne].
    - right. congruence.
    - left. exists c, p. splits; auto. apply Hl. auto. }
  eexists. splits.
  - rewrite Hs1. eapply lookup_upd_eq, Hf.
  - rewrite Hs1. eapply lookup_upd_ne; [|exact Hf0]. auto.
  - rewrite skel_set_geom. exact HK.
  - rewrite frame_get_geom_set. destruct (decide (g_ind = m.1)); [congruence|exact Hg].
  - exact Hndl.
  - intros a b Hab Ha Hb. rewrite !Hgc. pose proof (Hd a b Hab Ha Hb).
    pose proof (Hk a). pose proof (Hk b).
    destruct (decide (a = m.1)), (decide (b = m.1)); try congruence;
      intros x Hxa Hxb; set_solver.
  - intros a x Ha. rewrite Hgc. destruct (decide (a = m.1)) as [->|_].
    + rewrite elem_of_union. intros [Hx|Hx]; [|auto]. intros Hkx. eapply Hk; eauto.
    + intros Hx Hkx. eapply Hk; eauto.
  - intros x. rewrite Ht. split.
    + intros [(a & Ha & Hx)|Hkx].
      * left. exists a. split; [auto|]. rewrite Hgc. destruct (decide (a = m.1)); set_solver.
      * destruct (Hkc x Hkx) as [?|Hx]; [auto|]. left. exists m.1. split; [auto|].
        rewrite Hgc, decide_True by reflexivity. set_solver.
    + intros [(a & Ha & Hx)|Hkx]; [|auto]. rewrite Hgc in Hx.
      destruct (decide (a = m.1)) as [->|_]; [|left; eauto].
      apply elem_of_union in Hx as [Hx|Hx]; [left; eauto|auto].
Qed.

(** The state between two polygons of the repair. *)
Definition DI (s : St) : Prop :=
  exists f,
    heap s !! rdf = Some f /\ heap s !! r0 = Some f0 /\ skel f = K /\
    apart f /\ (forall x, tot x <-> total f x).


Lemma DI_PI (s : St) (f : Frame) :
  heap s !! rdf = Some f -> frame_get_geom g_ind f = Some g ->
  DI s -> PI (range (List.length (shp.parts G g))) s.
Proof.
  intros Hf Hg (f' & Hf' & Hf0 & HK & Hap & Ht).
  assert (f' = f) as -> by congruence.
  assert (Hgi : gc f g_ind = cells g) by (unfold gc; rewrite Hg; reflexivity).
  exists f. splits; auto.
  - apply NoDup_seq.
  - intros a x Ha Hx Hk. apply kept_all in Hk. rewrite <- Hgi in Hk.
    apply (Hap a g_ind Ha x Hx Hk).
  - intros x. rewrite Ht, kept_all, <- Hgi. unfold total. split.
    + intros [a Ha]. destruct (decide (a = g_ind)) as [->|]; eauto.
    + intros [(a & _ & Ha)|Ha]; eauto.
Qed.

(** Polygon [g_ind] is given the components that it keeps. *)
Lemma PI_DI cnl (s s' : St) (f f' : Frame) g' :
  PI cnl s -> heap s !! rdf = Some f ->
  heap s' !! rdf = Some f' -> heap s' !! r0 = Some f0 ->
  skel f' = skel f ->
  (forall a, gc f' a = if decide (a = g_ind) then cells g' else gc f a) ->
  (forall x, x ∈ cells g' <-> kept cnl x) ->
  DI s'.
Proof.
  intros (f1 & Hf1 & _ & HK & Hg & Hnd & Hd & Hk & Ht) Hf Hf' Hf0 Hsk Hgc Hg'.
  assert (f1 = f) as -> by congruence.
  exists f'. splits; auto; [congruence| |].
  - intros a b Hab. rewrite !Hgc.
    destruct (decide (a = g_ind)) as [->|Ha], (decide (b = g_ind)) as [->|Hb].
    + congruence.
    + intros x Hx Hxb. apply Hg' in Hx. eapply Hk; eauto.
    + intros x Hxa Hx. apply Hg' in Hx. eapply Hk; eauto.
    + apply Hd; auto.
  - intros x. rewrite Ht. unfold total. split.
    + intros [(a & Ha & Hx)|Hx].
      * exists a. rewrite Hgc, decide_False by auto. exact Hx.
      * exists g_ind. rewrite Hgc, decide_True by auto. apply Hg', Hx.
    + intros [a Ha]. rewrite Hgc in Ha. destruct (decide (a = g_ind)) as [->|Hne].
      * right. apply Hg', Ha.
      * left. eauto.
Qed.

End Peel.

Lemma wpx_mapM_option {X Y} (h : X -> option Y) e l (Q : list Y -> St -> Prop) s :
  (forall ys, Forall2 (fun x y => h x = Some y) l ys -> Q ys s) ->
  wpx True (mapM (fun x => of_option e (h x)) l) Q s.
Proof.
  revert Q. induction l as [|x l IH]; intros Q HQ; simpl.
  - apply wpx_ret, HQ. constructor.
  - apply wpx_bind, wpx_of_option. destruct (h x) as [y|] eqn:Ey; [|exact I].
    apply wpx_bind, IH. intros ys Hys. apply wpx_ret, HQ. constructor; auto.
Qed.

Lemma num_components_multi (g : shp.geom G) n :
  is_multi (shp.geom_type G g) = true -> num_components_jc g = Some n ->
  n <= List.length (shp.parts G g).
Proof.
  unfold num_components_jc. intros Hm H.
  destruct (shp.is_empty G g); [injection H as <-; lia|].
  destruct (shp.geom_type G g); try discriminate; injection H as <-; lia.
Qed.

Section RepairLoop.

Variables (r0 rdf : nat) (f0 : Frame).
Variable tot : atom -> Prop.
Variable K : list (nat * gmap string value).
Hypothesis Hr0 : r0 <> rdf.
Hypothesis Hn0 : forall ind g0, frame_get_geom ind f0 = Some g0 ->
  exists n0, num_components_jc g0 = Some n0 /\ 1 <= n0.

Lemma DI_heap (s s' : St) :
  heap s' = heap s -> DI r0 rdf f0 tot K s -> DI r0 rdf f0 tot K s'.
Proof. intros Hh (f & H). exists f. rewrite Hh. exact H. Qed.

Lemma wp_repair_disconnected fsnap g_ind (s : St) :
  DI r0 rdf f0 tot K s ->
  wpx True (repair_disconnected r0 rdf fsnap g_ind)
      (fun _ s' => DI r0 rdf f0 tot K s') s.
Proof.
  intros HDI. pose proof HDI as (f & Hf & Hf0 & HK & Hap & Ht).
  unfold repair_disconnected.
  apply wpx_bind. eapply wpx_get_geom; [exact Hf|].
  destruct (frame_get_geom g_ind f) as [g|] eqn:Eg; [|exact I].
  apply wpx_bind. eapply wpx_get_geom; [exact Hf0|].
  destruct (frame_get_geom g_ind f0) as [g0|] eqn:Eg0; [|exact I].
  destruct (Hn0 g_ind g0 Eg0) as (n0 & Hn & Hpos).
  apply wpx_bind. apply wpx_of_option.
  destruct (num_components_jc g) as [n|] eqn:En; [|exact I].
  apply wpx_bind. apply wpx_of_option. rewrite Hn.
  apply wpx_bind. unfold py_len.
  destruct (is_multi (shp.geom_type G g)) eqn:Hm; [|apply wpx_raise; exact I].
  apply wpx_ret.
  pose proof (num_components_multi g n Hm En) as Hle.
  set (len := List.length (shp.parts G g)) in *.
  apply wpx_bind. eapply wpx_mono; cycle 1.
  { apply (wpx_foldM True _
      (fun rest cnl s' =>
         PI r0 rdf f0 tot K g_ind g cnl s' /\ List.length rest <= n - n0 /\
         len <= List.length cnl + (n - n0 - List.length rest))).
    - intros x rest cnl s1 (HPI & Hr & Hc). simpl in Hr, Hc.
      eapply wpx_mono; [|eapply wp_peel; eauto].
      simpl. intros cnl' s2 [HPI' Hl]. splits; [exact HPI'|lia|lia].
    - splits.
      + eapply DI_PI; eauto.
      + unfold range. rewrite length_seq. lia.
      + unfold range. rewrite !length_seq. lia. }
  simpl. intros cnl s1 (HPI & _ & Hc).
  pose proof HPI as (f1 & Hf1 & Hf01 & HK1 & Hg1 & _).
  assert (Hgc1 : forall g' a, gc (frame_set_geom g_ind g' f1) a =
                              if decide (a = g_ind) then cells g' else gc f1 a).
  { intros g' a. rewrite gc_set, Hg1. reflexivity. }
  destruct cnl as [|c [|c' cnl]].
  - apply wpx_emit'. intros s2 Hs2 _.
    assert (Hlen0 : len = 0) by (simpl in Hc; lia).
    eapply PI_DI with (g' := g) (f := f1) (f' := f1); [exact HPI|exact Hf1| | |reflexivity| |].
    + rewrite Hs2. exact Hf1.
    + rewrite Hs2. exact Hf01.
    + intros a. destruct (decide (a = g_ind)) as [->|]; [|reflexivity].
      unfold gc. rewrite Hg1. reflexivity.
    + intros x. rewrite <- (kept_all g Hm). unfold len in Hlen0. rewrite Hlen0.
      reflexivity.
  - apply wpx_bind. apply wpx_of_option.
    destruct (shp.parts G g !! c) as [p|] eqn:Ep; [|exact I].
    eapply wpx_set_geom; [exact Hf1|]. intros s2 Hs2 _.
    eapply PI_DI with (g' := p) (f := f1); [exact HPI|exact Hf1| | | |apply Hgc1|].
    + rewrite Hs2. eapply lookup_upd_eq, Hf1.
    + rewrite Hs2. eapply lookup_upd_ne; [|exact Hf01]. auto.
    + apply skel_set_geom.
    + intros x. split.
      * intros Hx. exists c, p. splits; auto. set_solver.
      * intros (c0 & p0 & Hc0 & Hp0 & Hx). apply list_elem_of_singleton in Hc0 as ->.
        congruence.
  - apply wpx_bind. apply wpx_mapM_option. intros ps Hps.
    eapply wpx_set_geom; [exact Hf1|]. intros s2 Hs2 _.
    eapply PI_DI with (g' := shp.mk_multipolygon G ps) (f := f1);
      [exact HPI|exact Hf1| | | |apply Hgc1|].
    + rewrite Hs2. eapply lookup_upd_eq, Hf1.
    + rewrite Hs2. eapply lookup_upd_ne; [|exact Hf01]. auto.
    + apply skel_set_geom.
    + intros x. rewrite cells_multipolygon. split.
      * intros (p & Hp & Hx). apply list_elem_of_lookup_1 in Hp as [k Hk].
        destruct (Forall2_lookup_r _ _ _ _ _ Hps Hk) as (c0 & Hc0 & Hp0).
        exists c0, p. splits; auto. eapply list_elem_of_lookup_2, Hc0.
      * intros (c0 & p & Hc0 & Hp & Hx). apply list_elem_of_lookup_1 in Hc0 as [k Hk].
        destruct (Forall2_lookup_l _ _ _ _ _ Hps Hk) as (p' & Hp' & Hcp).
        exists p'. split; [eapply list_elem_of_lookup_2, Hp'|]. congruence.
Qed.

End RepairLoop.

End Repair.

Section RepairTop.

Context `{G : shp.Shapely} `{!Ideal G}.

Variables (r0 rdf : nat) (f0 : Frame).
Variable tot : atom -> Prop.
Variable K : list (nat * gmap string value).

Lemma DI_same (s s' : St) :
  heap s' !! rdf = heap s !! rdf -> heap s' !! r0 = heap s !! r0 ->
  DI r0 rdf f0 tot K s -> DI r0 rdf f0 tot K s'.
Proof. intros H1 H2 (f & H). exists f. rewrite H1, H2. exact H. Qed.

Lemma DI_lookups (s : St) :
  DI r0 rdf f0 tot K s -> ~ fresh_in s rdf /\ ~ fresh_in s r0.
Proof. intros (f & Hf & Hf0 & _). split; eapply not_fresh; eauto. Qed.

Hypothesis Hr0 : r0 <> rdf.
Hypothesis Hn0 : forall ind g0, frame_get_geom ind f0 = Some g0 ->
  exists n0, num_components_jc g0 = Some n0 /\ 1 <= n0.

Lemma wp_disconnection_repair (s : St) :
  DI r0 rdf f0 tot K s ->
  wpx True (disconnection_repair r0 rdf) (fun _ s' => DI r0 rdf f0 tot K s') s.
Proof.
  intros HDI. pose proof HDI as (f & Hf & Hf0 & _).
  unfold disconnection_repair.
  apply wpx_bind. eapply wpx_derive; [exact Hf|]. intros s1 Hs1 _.
  assert (HDI1 : DI r0 rdf f0 tot K s1).
  { eapply DI_same; [| |exact HDI]; rewrite Hs1; erewrite lookup_snoc_old; eauto. }
  apply wpx_bind. eapply wpx_index; [rewrite Hs1; apply lookup_snoc_new|].
  destruct (Nat.ltb 0 _); [|apply wpx_ret, HDI1].
  apply wpx_bind.
  eapply (wpx_eff (fresh_in s1) (fun _ => True)); [apply eff_got_worse|auto|].
  intros dpi s2 _ Hfr _.
  assert (HDI2 : DI r0 rdf f0 tot K s2).
  { destruct (DI_lookups _ HDI1). eapply DI_same; [| |exact HDI1]; apply Hfr; auto. }
  destruct (Nat.ltb 0 _); [|apply wpx_ret, HDI2].
  pose proof HDI2 as (f2 & Hf2 & _).
  apply wpx_bind. eapply wpx_read; [exact Hf2|].
  unfold forM_. eapply wpx_mono; cycle 1.
  { apply (wpx_foldM True _ (fun _ (_ : unit) s' => DI r0 rdf f0 tot K s')).
    - intros x rest [] s3 HDI3. eapply wp_repair_disconnected; eauto.
    - exact HDI2. }
  simpl. auto.
Qed.

Lemma wp_residual_check (s : St) :
  DI r0 rdf f0 tot K s ->
  wpx True (residual_check r0 rdf) (fun _ s' => DI r0 rdf f0 tot K s') s.
Proof.
  intros HDI.
  eapply (wpx_eff (fresh_in s) (fun _ => True)); [apply eff_residual_check; auto|auto|].
  intros [] s' _ Hfr _. destruct (DI_lookups _ HDI).
  eapply DI_same; [| |exact HDI]; apply Hfr; auto.
Qed.

End RepairTop.

Section Pipeline.

Context `{G : shp.Shapely} `{!Ideal G}.

(** What a computation establishes, together with the frames it leaves
    alone. *)
Lemma wpx_frame {A} W P (m : M A) Φ (Q : A -> St -> Prop) (s : St) :
  eff W P m Φ ->
  (forall x, fresh_in s x -> W x) ->
  wpx True m Q s ->
  wpx True m (fun a s' => Q a s' /\ Φ a /\
                (forall x, ~ W x -> heap s' !! x = heap s !! x) /\
                List.length (heap s) <= List.length (heap s')) s.
Proof.
  intros He HW HQ. destruct (He s HW) as (Hfr & Hlen & _ & HΦ).
  unfold wpx in *. destruct (m s) as [[a| |] s'] eqn:E; simpl in *; auto.
Qed.

Lemma skel_index (f : Frame) : map fst (skel f) = frame_index f.
Proof. unfold skel, frame_index. rewrite map_map. reflexivity. Qed.

Lemma skel_mod_skel (f : Frame) :
  skel_mod f =
  map (fun x => (x.1, delete "num components refined"
                        (delete "num components orig" x.2))) (skel f).
Proof. unfold skel_mod, skel. rewrite map_map. reflexivity. Qed.

(** Building the arrangement and rebuilding the polygons from it. *)
Definition rebuilt_from (s : St) (fg : Frame) (cc : bool) (r' : nat) (s' : St)
  : Prop :=
  exists f' T fh,
    heap s' !! r' = Some f' /\ fresh_in s r' /\
    levels_of fg fh T /\
    List.length T = max_list (map (degree fg) (arrangement fg)) /\
    rebuilt T (skel_mod fg) cc f' /\
    (forall x, ~ fresh_in s x -> heap s' !! x = heap s !! x).

Lemma wp_rebuild {A} cc (s : St) r (fg : Frame)
    (k : list nat * nat -> nat -> M A) (Q : A -> St -> Prop) :
  heap s !! r = Some fg -> NoDup (frame_index fg) ->
  (cc = true -> max_list (map (degree fg) (arrangement fg)) <= 2) ->
  (forall bb r' s', rebuilt_from s fg cc r' s' -> wpx True (k bb r') Q s') ->
  wpx True
    (bb <- building_blocks_jc r ;;
     emit (Print "Resolving overlaps...") ;;;
     r' <- reconstruct_from_overlap_tower_jc r bb.1 ;;
     k bb r') Q s.
Proof.
  intros Hr Hnd Hcc Hk.
  apply wpx_bind. eapply wpx_mono; cycle 1.
  { eapply (wpx_frame (fresh_in s) (fun _ => True));
      [apply eff_building_blocks; exact I|auto|eapply wp_building_blocks, Hr]. }
  simpl. intros [tower holes] s1 (Hb & _ & Hfr1 & Hl1). simpl in *.
  apply blocks_levels in Hb as (T & fh & HF & Hh & HL & Hlen).
  apply wpx_bind. apply wpx_emit'. intros s2 Hs2 _.
  assert (Hr2 : heap s2 !! r = Some fg).
  { rewrite Hs2, Hfr1; [exact Hr|]. eapply not_fresh, Hr. }
  apply wpx_bind. eapply wpx_mono; cycle 1.
  { eapply (wpx_frame (fresh_in s) (fun _ => True)).
    - apply eff_reconstruct. auto.
    - intros x Hx. unfold fresh_in in *. rewrite Hs2 in Hx. lia.
    - eapply (wp_reconstruct cc s2 r tower fg T); auto.
      + rewrite Hs2. exact HF.
      + eapply pieces_apart_tail, levels_apart, HL.
      + intros k0 f Hf. eapply (levels_NoDup fg fh T (S k0)); eauto.
      + intros Hc. rewrite Hlen. auto. }
  simpl. intros r' s3 ((f' & Hf' & Hreb) & Hfresh & Hfr3 & _).
  apply Hk. exists f', T, fh. splits; auto.
  intros x Hx. rewrite Hfr3, Hs2 by auto. auto.
Qed.

(** The frame with every geometry flattened to two dimensions. *)
Definition flat_row (r : Row) : Row := set_geometry (shp.to_2d G (geometry r)) r.

Definition flat2d (f : Frame) : Frame := map_rows flat_row f.

Definition flat_but (rest : list nat) (r : Row) : Row :=
  if bool_decide (label r ∈ rest) then r else flat_row r.

Lemma flat_step (f0 : Frame) i rest g :
  NoDup (frame_index f0) -> NoDup (i :: rest) ->
  frame_get_geom i (map_rows (flat_but (i :: rest)) f0) = Some g ->
  frame_set_geom i (shp.to_2d G g) (map_rows (flat_but (i :: rest)) f0)
  = map_rows (flat_but rest) f0.
Proof.
  intros Hnd Hir Hg. apply NoDup_cons in Hir as [Hi _].
  unfold frame_set_geom, map_rows. simpl. f_equal. rewrite map_map.
  apply map_ext_in. intros r Hr.
  assert (Hlab : forall l r, label (flat_but l r) = label r).
  { intros l r1. unfold flat_but. destruct (bool_decide _); reflexivity. }
  rewrite Hlab. destruct (Nat.eqb_spec (label r) i) as [Hl|Hl].
  - assert (Hg' : frame_get_geom (label (flat_but (i :: rest) r))
                    (map_rows (flat_but (i :: rest)) f0)
                  = Some (geometry (flat_but (i :: rest) r))).
    { apply In_frame_get_geom.
      - rewrite frame_index_map_rows by apply Hlab. exact Hnd.
      - simpl. apply in_map, Hr. }
    rewrite Hlab, Hl, Hg in Hg'. injection Hg' as ->.
    unfold flat_but. rewrite bool_decide_eq_true_2 by (rewrite Hl; left).
    rewrite bool_decide_eq_false_2 by (rewrite Hl; exact Hi). reflexivity.
  - unfold flat_but. destruct (decide (label r ∈ rest)) as [Hin|Hin].
    + rewrite (bool_decide_eq_true_2 (label r ∈ rest)) by exact Hin.
      rewrite (bool_decide_eq_true_2 (label r ∈ i :: rest)) by (right; exact Hin).
      reflexivity.
    + assert (Hin' : label r ∉ i :: rest).
      { intros Hc. apply elem_of_cons in Hc as [Hc|Hc]; auto. }
      rewrite (bool_decide_eq_false_2 (label r ∈ rest)) by exact Hin.
      rewrite (bool_decide_eq_false_2 (label r ∈ i :: rest)) by exact Hin'.
      reflexivity.
Qed.

Lemma flat_none (f0 : Frame) : map_rows (flat_but []) f0 = flat2d f0.
Proof. reflexivity. Qed.

Lemma flat_all (f0 : Frame) : map_rows (flat_but (frame_index f0)) f0 = f0.
Proof.
  destruct f0 as [rs c]. unfold map_rows. simpl. f_equal.
  transitivity (map (fun r : Row => r) rs); [|apply map_id].
  apply map_ext_in. intros r Hr. unfold flat_but.
  rewrite bool_decide_eq_true_2; [reflexivity|].
  apply list_elem_of_In. unfold frame_index. simpl. apply in_map, Hr.
Qed.

Lemma skel_flat2d (f : Frame) : skel (flat2d f) = skel f.
Proof. unfold skel, flat2d, map_rows. simpl. rewrite map_map. reflexivity. Qed.

(** The loop of [repair_gdf_jc] that flattens the copy of the input. *)
Lemma wp_flatten {A} (s : St) gdf (f0 : Frame) (k : M A) (Q : A -> St -> Prop) :
  heap s !! gdf = Some f0 -> NoDup (frame_index f0) ->
  (forall s', heap s' = <[gdf := flat2d f0]> (heap s) -> out s' = out s ->
     wpx True k Q s') ->
  wpx True
    (forM_ (frame_index f0) (fun i =>
       g <- df_get_geom gdf i ;;
       df_set_geom gdf i (shp.to_2d G g)) ;;; k) Q s.
Proof.
  intros Hf Hnd Hk. apply wpx_bind. unfold forM_. eapply wpx_mono; cycle 1.
  { apply (wpx_foldM True _
      (fun rest (_ : unit) s' =>
         NoDup rest /\ out s' = out s /\
         heap s' = <[gdf := map_rows (flat_but rest) f0]> (heap s))).
    - intros i rest [] s1 (Hn1 & Ho1 & Hs1).
      assert (Hg1 : heap s1 !! gdf = Some (map_rows (flat_but (i :: rest)) f0)).
      { rewrite Hs1. eapply lookup_upd_eq, Hf. }
      apply wpx_bind. eapply wpx_get_geom; [exact Hg1|].
      destruct (frame_get_geom i _) as [g|] eqn:Eg; [|exact I].
      eapply wpx_set_geom; [exact Hg1|]. intros s2 Hs2 Ho2.
      splits; [apply NoDup_cons in Hn1; tauto|congruence|].
      rewrite Hs2, Hs1, list_insert_insert_eq. f_equal.
      apply flat_step; auto.
    - splits; [exact Hnd|reflexivity|]. rewrite flat_all.
      symmetry. apply list_insert_id, Hf. }
  simpl. intros [] s1 (_ & Ho1 & Hs1). apply Hk; [|exact Ho1].
  rewrite Hs1, flat_none. reflexivity.
Qed.

(** The atoms of the cells of the arrangement that lie in some polygon. *)
Definition owned (fg : Frame) (x : atom) : Prop :=
  exists p, p ∈ arrangement fg /\ 1 <= degree fg p /\ x ∈ cells p.

Lemma pool_owned fg fh (T : list Frame) x :
  levels_of fg fh T ->
  List.length T = max_list (map (degree fg) (arrangement fg)) ->
  in_pool T x <-> owned fg x.
Proof.
  intros HL Hlen. split.
  - intros (k & o & p & (f & Hf & Hp) & Hx).
    apply (holds_get_geom _ _ _ _ (HL (S k) f Hf)) in Hp.
    apply filter_lookup_In in Hp as (i & Hi & Hd). apply Nat.eqb_eq in Hd.
    exists p. splits; [eapply list_elem_of_lookup_2, Hi|lia|exact Hx].
  - intros (p & Hp & Hd & Hx).
    assert (Hle : degree fg p <= List.length T).
    { rewrite Hlen. apply max_list_elem_of_le. apply list_elem_of_fmap. eauto. }
    destruct (lookup_lt_is_Some_2 T (degree fg p - 1)) as [f Hf]; [lia|].
    assert (Hf' : (fh :: T) !! S (degree fg p - 1) = Some f) by exact Hf.
    pose proof (HL _ f Hf') as Hh.
    replace (S (degree fg p - 1)) with (degree fg p) in Hh by lia.
    assert (Hin : p ∈ level_pieces fg (degree fg p)).
    { apply list_elem_of_In, filter_In. split; [apply list_elem_of_In, Hp|].
      apply Nat.eqb_refl. }
    apply list_elem_of_lookup_1 in Hin as [o Ho].
    exists (degree fg p - 1), o, p. split; [|exact Hx].
    exists f. split; [exact Hf|]. apply (holds_get_geom _ _ _ _ Hh), Ho.
Qed.

Lemma skel_mod_flat2d (f : Frame) : skel_mod (flat2d f) = skel_mod f.
Proof. rewrite !skel_mod_skel, skel_flat2d. reflexivity. Qed.

Lemma frame_index_flat2d (f : Frame) : frame_index (flat2d f) = frame_index f.
Proof. rewrite <- !skel_index, skel_flat2d. reflexivity. Qed.

(** What [repair_gdf_jc] returns when gaps are left open and no
    adjacency is converted. *)
Definition repaired (f0 : Frame) (f' : Frame) : Prop :=
  skel f' = skel_mod f0 /\ apart f' /\
  (forall x, total f' x -> owned (flat2d f0) x) /\
  (max_list (map (degree (flat2d f0)) (arrangement (flat2d f0))) <= 2 ->
   forall x, owned (flat2d f0) x -> total f' x).

Lemma wp_repair_plain fuel (s : St) r0 (f0 : Frame) :
  heap s !! r0 = Some f0 -> NoDup (frame_index f0) ->
  (forall ind g0, frame_get_geom ind f0 = Some g0 ->
     exists n0, num_components_jc g0 = Some n0 /\ 1 <= n0) ->
  wpx True (repair_gdf_jc fuel r0 false None)
    (fun r' s' => exists f', heap s' !! r' = Some f' /\ repaired f0 f') s.
Proof.
  intros Hr0 Hnd Hn0. unfold repair_gdf_jc.
  apply wpx_bind. eapply wpx_copy; [exact Hr0|]. intros s1 Hs1 _.
  set (gdf := List.length (heap s)) in *.
  assert (Hg1 : heap s1 !! gdf = Some f0) by (rewrite Hs1; apply lookup_snoc_new).
  assert (Hne : r0 <> gdf) by (eapply lookup_fresh_ne, Hr0).
  apply wpx_bind. eapply wpx_index; [exact Hg1|].
  eapply wp_flatten; [exact Hg1|exact Hnd|]. intros s2 Hs2 _.
  assert (Hg2 : heap s2 !! gdf = Some (flat2d f0)).
  { rewrite Hs2. eapply lookup_upd_eq, Hg1. }
  assert (Hr2 : heap s2 !! r0 = Some f0).
  { rewrite Hs2. eapply lookup_upd_ne; [|rewrite Hs1; apply lookup_snoc_old, Hr0]. auto. }
  apply wpx_bind. eapply wpx_read; [exact Hg2|].
  apply wpx_bind.
  eapply (wpx_mono _ _ (fun _ s' => heap s' = heap s2)).
  2:{ simpl. destruct (crs f0) as [c|]; [destruct (is_geographic c)|];
        first [apply wpx_ret; reflexivity | apply wpx_emit'; auto]. }
  intros _ s3 Hs3.
  assert (Hg3 : heap s3 !! gdf = Some (flat2d f0)) by (rewrite Hs3; exact Hg2).
  set (cc := bool_decide
     (max_list (map (degree (flat2d f0)) (arrangement (flat2d f0))) <= 2)).
  eapply (wp_rebuild cc s3 gdf (flat2d f0)); [exact Hg3| | |].
  { rewrite frame_index_flat2d. exact Hnd. }
  { unfold cc. intros Hc. apply bool_decide_eq_true_1 in Hc. exact Hc. }
  intros bb r1 s4 (f1 & T & fh & Hf1 & Hfresh & HL & Hlen & Hreb & Hfr4).
  destruct Hreb as (Hsk & Hap & Hsub & Hcov).
  assert (Hr4 : heap s4 !! r0 = Some f0).
  { rewrite Hfr4, Hs3; [exact Hr2|]. rewrite <- Hs3 in Hr2. eapply not_fresh, Hr2. }
  assert (Hne1 : r0 <> r1).
  { intros Heq. rewrite <- Hs3 in Hr2. apply (not_fresh s3 r0 f0 Hr2).
    rewrite Heq. exact Hfresh. }
  assert (HDI : DI r0 r1 f0 (total f1) (skel f1) s4).
  { exists f1. splits; auto. }
  apply wpx_bind. apply wpx_ret.
  apply wpx_bind. eapply wpx_mono; [|eapply wp_disconnection_repair; eauto].
  simpl. intros [] s5 HDI5.
  apply wpx_bind. eapply wpx_mono; [|eapply wp_residual_check; eauto].
  simpl. intros [] s6 (f6 & Hf6 & _ & Hsk6 & Hap6 & Ht6).
  apply wpx_ret. exists f6. split; [exact Hf6|]. split.
  { rewrite Hsk6, Hsk. apply skel_mod_flat2d. }
  split; [exact Hap6|]. split.
  - intros x Hx. apply Ht6 in Hx as [a Ha].
    apply (pool_owned _ _ _ _ HL Hlen). eapply Hsub, Ha.
  - intros Hd x Hx. apply Ht6. apply (pool_owned _ _ _ _ HL Hlen) in Hx.
    apply Hcov; [|exact Hx]. unfold cc. apply bool_decide_eq_true_2, Hd.
Qed.

End Pipeline.

(** * The grid kernel is exact *)

Section Components.

Context {A : Type} (adj : A -> A -> bool).

Lemma filter_split (p : A -> bool) (l : list A) :
  List.filter p l ++ List.filter (fun x => negb (p x)) l ≡ₚ l.
Proof.
  induction l as [|x l IH]; simpl; [reflexivity|].
  destruct (p x); simpl.
  - constructor. exact IH.
  - rewrite <- Permutation_middle. constructor. exact IH.
Qed.

Lemma grow_spec fuel (comp rest : list A) :
  (grid.grow adj fuel comp rest).1 ++ (grid.grow adj fuel comp rest).2
    ≡ₚ comp ++ rest /\
  exists extra, (grid.grow adj fuel comp rest).1 = comp ++ extra.
Proof.
  revert comp rest. induction fuel as [|fuel IH]; intros comp rest; simpl.
  - split; [reflexivity|]. exists []. rewrite app_nil_r. reflexivity.
  - destruct (List.filter (fun x => existsb (adj x) comp) rest) as [|y near] eqn:En.
    + split; [reflexivity|]. exists []. rewrite app_nil_r. reflexivity.
    + destruct (IH (comp ++ y :: near)
                   (List.filter (fun x => negb (existsb (adj x) comp)) rest))
        as [Hp [extra He]].
      split.
      * rewrite Hp, <- app_assoc. apply Permutation_app_head.
        rewrite <- En. apply filter_split.
      * exists ((y :: near) ++ extra). rewrite He, <- app_assoc. reflexivity.
Qed.

Lemma components_perm fuel (l : list A) :
  List.length l <= fuel -> concat (grid.components adj fuel l) ≡ₚ l.
Proof.
  revert l. induction fuel as [|fuel IH]; intros l Hl.
  - destruct l; [reflexivity|simpl in Hl; lia].
  - destruct l as [|x r]; [reflexivity|]. simpl in *.
    destruct (grow_spec (List.length r) [x] r) as [Hp [extra He]].
    rewrite IH.
    + exact Hp.
    + apply Permutation_length in Hp. rewrite He in Hp.
      rewrite !length_app in Hp. simpl in Hp. lia.
Qed.

Lemma elem_of_concat (L : list (list A)) x :
  x ∈ concat L <-> exists c, c ∈ L /\ x ∈ c.
Proof.
  induction L as [|d L IH]; simpl.
  - split; [intros H; inversion H|intros (c & H & _); inversion H].
  - rewrite elem_of_app, IH. split.
    + intros [H|(c & Hc & Hx)]; [exists d; split; [left|exact H]|].
      exists c. split; [right; exact Hc|exact Hx].
    + intros (c & Hc & Hx). apply elem_of_cons in Hc as [->|Hc]; [left; exact Hx|].
      right. eauto.
Qed.

Lemma NoDup_concat_lookup (L : list (list A)) i j a b x :
  NoDup (concat L) -> i <> j -> L !! i = Some a -> L !! j = Some b ->
  x ∈ a -> x ∈ b -> False.
Proof.
  revert i j. induction L as [|c L IH]; intros i j Hnd Hij Hi Hj Ha Hb;
    [discriminate|].
  simpl in Hnd. apply NoDup_app in Hnd as (Hc & Hcl & HL).
  assert (Hin : forall k d, L !! k = Some d -> x ∈ d -> x ∈ concat L).
  { intros k d Hk Hd. apply elem_of_concat. exists d. split; [|exact Hd].
    eapply list_elem_of_lookup_2, Hk. }
  destruct i as [|i], j as [|j]; simpl in *.
  - lia.
  - injection Hi as <-. eapply Hcl; eauto.
  - injection Hj as <-. eapply Hcl; eauto.
  - eapply (IH i j); eauto.
Qed.

Lemma components_cover fuel (l : list A) x :
  List.length l <= fuel ->
  x ∈ l <-> exists c, c ∈ grid.components adj fuel l /\ x ∈ c.
Proof.
  intros Hl. rewrite <- (components_perm fuel l Hl) at 1.
  apply elem_of_concat.
Qed.

Lemma components_apart fuel (l : list A) i j a b x :
  List.length l <= fuel -> NoDup l -> i <> j ->
  grid.components adj fuel l !! i = Some a ->
  grid.components adj fuel l !! j = Some b ->
  x ∈ a -> x ∈ b -> False.
Proof.
  intros Hl Hnd. apply NoDup_concat_lookup.
  rewrite (components_perm fuel l Hl). exact Hnd.
Qed.

End Components.

Section GridLaws.

Lemma NoDup_box w h : NoDup (grid.box w h).
Proof.
  unfold grid.box. generalize (seq 0 (S w)) (NoDup_seq 0 (S w)). intros xs Hxs.
  generalize (seq 0 (S h)) (NoDup_seq 0 (S h)). intros ys Hys.
  induction Hys as [|y ys Hy Hys IH]; simpl; [constructor|].
  apply NoDup_app. split; [|split; [|exact IH]].
  - apply NoDup_fmap_2; [|exact Hxs]. intros a b Hab. congruence.
  - intros p Hp Hp'. apply list_elem_of_fmap in Hp as (x & -> & _).
    apply list_elem_of_In, in_flat_map in Hp' as (y' & Hy' & Hp').
    apply in_map_iff in Hp' as (x' & Heq & _). injection Heq as _ <-.
    apply Hy, list_elem_of_In, Hy'.
Qed.

Lemma sort_faces_perm l : grid.sort_faces l ≡ₚ l.
Proof. unfold grid.sort_faces. apply merge_sort_Permutation. Qed.

Lemma face_components_cover (fs : gset grid.face) x :
  x ∈ fs <-> exists c, c ∈ grid.face_components fs /\ x ∈ c.
Proof.
  unfold grid.face_components. rewrite <- elem_of_elements.
  rewrite <- (sort_faces_perm (elements fs)).
  rewrite (components_cover grid.face_adj _ _ x (Nat.le_refl _)). split.
  - intros (c & Hc & Hx). exists (list_to_set c). split.
    + apply list_elem_of_fmap. eauto.
    + apply elem_of_list_to_set, Hx.
  - intros (c & Hc & Hx). apply list_elem_of_fmap in Hc as (c' & -> & Hc').
    exists c'. split; [exact Hc'|]. apply elem_of_list_to_set in Hx. exact Hx.
Qed.

Lemma face_components_apart (fs : gset grid.face) i j a b :
  i <> j ->
  grid.face_components fs !! i = Some a -> grid.face_components fs !! j = Some b ->
  a ## b.
Proof.
  unfold grid.face_components. intros Hij Ha Hb.
  rewrite list_lookup_fmap in Ha, Hb.
  destruct (grid.components _ _ _ !! i) as [a'|] eqn:Ea; [|discriminate].
  destruct (grid.components _ _ _ !! j) as [b'|] eqn:Eb; [|discriminate].
  injection Ha as <-. injection Hb as <-.
  intros x Hx Hx'. apply elem_of_list_to_set in Hx, Hx'.
  eapply (components_apart grid.face_adj _ _ i j a' b' x); eauto.
  rewrite sort_faces_perm. apply NoDup_elements.
Qed.

Lemma parts_faces (g p : grid.shape) :
  p ∈ grid.parts g ->
  (grid.faces g = ∅ /\ grid.faces p = ∅) \/
  (exists c, c ∈ grid.face_components (grid.faces g) /\ grid.faces p = c).
Proof.
  unfold grid.parts. destruct (decide (grid.faces g = ∅)) as [He|Hne].
  - rewrite (bool_decide_eq_true_2 _ He). simpl. intros Hp. left. split; [exact He|].
    destruct (negb _).
    + apply list_elem_of_fmap in Hp as (c & -> & _). reflexivity.
    + apply elem_of_app in Hp as [Hp|Hp];
        apply list_elem_of_fmap in Hp as (c & -> & _); reflexivity.
  - rewrite (bool_decide_eq_false_2 _ Hne). simpl. intros Hp. right.
    apply list_elem_of_fmap in Hp as (c & -> & Hc). exists c. auto.
Qed.

Lemma grid_cells_parts (g : grid.shape) x :
  x ∈ grid.faces g <-> exists p, p ∈ grid.parts g /\ x ∈ grid.faces p.
Proof.
  split.
  - intros Hx. pose proof Hx as Hx'.
    apply face_components_cover in Hx' as (c & Hc & Hxc).
    exists (grid.region c). split; [|exact Hxc].
    unfold grid.parts. rewrite bool_decide_eq_false_2 by set_solver. simpl.
    apply list_elem_of_fmap. eauto.
  - intros (p & Hp & Hx). apply parts_faces in Hp as [[_ Hp]|(c & Hc & Hp)].
    + rewrite Hp in Hx. set_solver.
    + rewrite Hp in Hx. apply face_components_cover. eauto.
Qed.

Lemma grid_parts_disjoint (g : grid.shape) i j p q :
  i <> j -> grid.parts g !! i = Some p -> grid.parts g !! j = Some q ->
  grid.faces p ## grid.faces q.
Proof.
  intros Hij Hp Hq. destruct (decide (grid.faces g = ∅)) as [He|Hne].
  - intros x Hx _. apply list_elem_of_lookup_2 in Hp.
    assert (Hg : x ∈ grid.faces g) by (apply grid_cells_parts; eauto).
    rewrite He in Hg. set_solver.
  - unfold grid.parts in Hp, Hq. rewrite (bool_decide_eq_false_2 _ Hne) in Hp, Hq.
    simpl in Hp, Hq. rewrite list_lookup_fmap in Hp, Hq.
    destruct (grid.face_components _ !! i) as [a|] eqn:Ea; [|discriminate].
    destruct (grid.face_components _ !! j) as [b|] eqn:Eb; [|discriminate].
    injection Hp as <-. injection Hq as <-. simpl.
    eapply face_components_apart; eauto.
Qed.

Lemma grid_cells_multi (l : list grid.shape) x :
  x ∈ grid.faces (foldr grid.union2 grid.empty l) <->
  exists p, p ∈ l /\ x ∈ grid.faces p.
Proof.
  induction l as [|g l IH]; simpl.
  - split; [set_solver|intros (p & Hp & _); inversion Hp].
  - rewrite elem_of_union, IH. split.
    + intros [H|(p & Hp & Hx)]; [exists g; split; [left|exact H]|].
      exists p. split; [right; exact Hp|exact Hx].
    + intros (p & Hp & Hx). apply elem_of_cons in Hp as [->|Hp]; [left; exact Hx|].
      right. eauto.
Qed.

Lemma grid_polygonize_disjoint (lines : grid.shape) i j p q :
  i <> j ->
  grid.polygonize lines !! i = Some p -> grid.polygonize lines !! j = Some q ->
  grid.faces p ## grid.faces q.
Proof.
  unfold grid.polygonize. intros Hij Hp Hq. rewrite list_lookup_fmap in Hp, Hq.
  destruct (List.filter _ _ !! i) as [a|] eqn:Ea; [|discriminate].
  destruct (List.filter _ _ !! j) as [b|] eqn:Eb; [|discriminate].
  injection Hp as <-. injection Hq as <-. simpl.
  destruct (filter_lookup_inj _ _ _ _ _ _ Hij Ea Eb) as (i' & j' & Hij' & Hi' & Hj').
  intros x Hx Hx'. apply elem_of_list_to_set in Hx, Hx'.
  eapply (components_apart _ _ _ i' j' a b x); eauto. apply NoDup_box.
Qed.

End GridLaws.

#[export] Instance grid_ideal : Ideal grid.kernel := {|
  atom := grid.face;
  cells := grid.faces : shp.geom grid.kernel -> gset grid.face;
  cells_empty := eq_refl;
  cells_union := fun a b => ltac:(simpl; set_solver);
  cells_parts := fun g x _ => grid_cells_parts g x;
  parts_disjoint := fun g i j p q _ => grid_parts_disjoint g i j p q;
  cells_multipolygon := grid_cells_multi;
  polygonize_disjoint := grid_polygonize_disjoint;
|}.

(** * The choice of the greatest shared perimeter *)

Section Sorting.

Context {A : Type} (key : A -> Q).

Definition key_le (a b : A) : Prop := (key a <= key b)%Q.

Lemma Qltb_lt (a b : Q) : Qltb a b = true <-> (a < b)%Q.
Proof.
  unfold Qltb. rewrite negb_true_iff, <- not_true_iff_false, Qle_bool_iff.
  split; [apply Qnot_le_lt|apply Qlt_not_le].
Qed.

Lemma In_insert_by (z : A) acc x :
  x = z \/ In x acc -> In x (insert_by key z acc).
Proof.
  induction acc as [|w acc IH]; simpl.
  - intros [->|[]]. left. reflexivity.
  - destruct (Qltb (key z) (key w)); simpl.
    + intros [->|[->|H]]; auto.
    + intros [->|[->|H]]; auto.
Qed.

Lemma In_sorted (l : list A) x : In x l -> In x (sorted key l).
Proof.
  unfold sorted. assert (Hgen : forall acc,
    In x acc \/ In x l -> In x (foldl (fun acc y => insert_by key y acc) acc l)).
  { induction l as [|y l IH]; simpl; intros acc H; [destruct H as [H|[]]; exact H|].
    apply IH. destruct H as [H|[->|H]]; [left|left|right; exact H];
      apply In_insert_by; auto. }
  intros H. apply Hgen. right. exact H.
Qed.

Lemma insert_by_sorted (z : A) (l : list A) :
  StronglySorted key_le l -> StronglySorted key_le (insert_by key z l).
Proof.
  induction 1 as [|w l Hl IH Hw]; simpl.
  - repeat constructor.
  - destruct (Qltb (key z) (key w)) eqn:E.
    + apply Qltb_lt in E. constructor; [constructor; assumption|].
      constructor; [apply Qlt_le_weak, E|].
      eapply Forall_impl; [exact Hw|]. unfold key_le. intros e He.
      eapply Qle_trans; [apply Qlt_le_weak, E|exact He].
    + assert (Hzw : (key w <= key z)%Q).
      { apply Qnot_lt_le. intros Hlt. apply Qltb_lt in Hlt. congruence. }
      constructor; [exact IH|]. apply Forall_forall. intros e He.
      apply list_elem_of_In, insert_by_In in He as [->|He]; [exact Hzw|].
      rewrite Forall_forall in Hw. apply Hw, list_elem_of_In, He.
Qed.

Lemma sorted_sorted (l : list A) : StronglySorted key_le (sorted key l).
Proof.
  unfold sorted. assert (Hgen : forall acc, StronglySorted key_le acc ->
    StronglySorted key_le (foldl (fun acc y => insert_by key y acc) acc l)).
  { induction l as [|y l IH]; simpl; intros acc H; [exact H|].
    apply IH, insert_by_sorted, H. }
  apply Hgen. constructor.
Qed.

Lemma sorted_last_max (l : list A) m :
  StronglySorted key_le l -> last l = Some m -> Forall (fun e => key_le e m) l.
Proof.
  intros Hs Hm. apply last_Some in Hm as [l' ->].
  induction l' as [|a l' IH]; simpl in *.
  - constructor; [apply Qle_refl|constructor].
  - apply StronglySorted_inv in Hs as [Hs Ha]. constructor; [|apply IH, Hs].
    rewrite Forall_forall in Ha. apply Ha. apply elem_of_app. right. left.
Qed.

End Sorting.

Lemma max_shared_perim_none {A} (l : list (A * Q)) :
  max_shared_perim l = None <-> l = [].
Proof.
  unfold max_shared_perim. rewrite last_None. split; [|intros ->; reflexivity].
  intros H. destruct l as [|x l]; [reflexivity|].
  assert (Hin : In x (sorted snd (x :: l))) by (apply In_sorted; left; reflexivity).
  rewrite H in Hin. destruct Hin.
Qed.

Lemma max_shared_perim_le {A} (l : list (A * Q)) (m : A * Q) :
  max_shared_perim l = Some m -> forall e, In e l -> (e.2 <= m.2)%Q.
Proof.
  intros H e He. unfold max_shared_perim in H.
  pose proof (sorted_last_max snd _ m (sorted_sorted snd l) H) as Hmax.
  rewrite Forall_forall in Hmax. apply Hmax, list_elem_of_In, In_sorted, He.
Qed.

(** X1. [sorted(l, key=...)[-1]] is an entry of the greatest key. *)
Theorem max_shared_perim_greatest {A} (l : list (A * Q)) (m : A * Q) :
  max_shared_perim l = Some m ->
  In m l /\ forall e, In e l -> (e.2 <= m.2)%Q.
Proof.
  intros H. split; [apply max_shared_perim_In, H|].
  intros e He. eapply max_shared_perim_le; [exact H|exact He].
Qed.

Section Perimeter.

Context `{G : shp.Shapely}.

Lemma shared_perimeters_owner (fg fsnap : Frame) owners (p : shp.geom G) a len :
  In (a, len) (shared_perimeters fg fsnap owners p) ->
  a ∈ owners /\
  exists g, frame_get_geom a fg = Some g /\
    shp.is_empty G (shp.intersection G (shp.boundary G p) (shp.boundary G g)) = false /\
    len = shp.length G (shp.intersection G (shp.boundary G p) (shp.boundary G g)).
Proof.
  unfold shared_perimeters. rewrite in_flat_map. intros (j & _ & Hin).
  destruct (bool_decide (j ∈ owners)) eqn:Ej; [|destruct Hin].
  apply bool_decide_eq_true_1 in Ej.
  destruct (frame_get_geom j fg) as [g|] eqn:Eg; [|destruct Hin].
  destruct (shp.is_empty G _) eqn:Ee; simpl in Hin; [destruct Hin|].
  destruct Hin as [Heq|[]]. injection Heq as <- <-. eauto.
Qed.

(** X2. a contested piece goes to one of its owners, the one whose boundary
    shares the greatest length with the boundary of the piece. *)
Theorem assign_by_perimeter_greatest (s s' : St) gdf ov (fsnap fo fg : Frame)
    o (p : shp.geom G) owners :
  heap s !! ov = Some fo -> heap s !! gdf = Some fg ->
  frame_get_geom o fo = Some p ->
  frame_get_col "polygon indices" o fo = Some (VSet owners) ->
  assign_by_perimeter gdf ov fsnap o s = (Ok tt, s') ->
  exists a len g,
    a ∈ owners /\ frame_get_geom a fg = Some g /\
    len = shp.length G (shp.intersection G (shp.boundary G p) (shp.boundary G g)) /\
    (forall e, In e (shared_perimeters fg fsnap owners p) -> (e.2 <= len)%Q) /\
    heap s' = <[gdf := frame_set_geom a (shp.unary_union G [g; p]) fg]> (heap s) /\
    out s' = out s.
Proof.
  intros Hov Hg Hp Hc Hrun.
  refine (wpx_use True _ (fun _ s' => _) s tt s' _ Hrun).
  unfold assign_by_perimeter.
  apply wpx_bind. eapply wpx_get_geom; [exact Hov|]. rewrite Hp.
  apply wpx_bind. eapply wpx_get_col; [exact Hov|]. rewrite Hc.
  apply wpx_bind. apply wpx_as_set.
  apply wpx_bind. eapply wpx_read; [exact Hg|].
  destruct (max_shared_perim _) as [[a len]|] eqn:Em; [|apply wpx_raise; exact I].
  pose proof (max_shared_perim_le _ _ Em) as Hmax.
  apply max_shared_perim_In in Em as Hin.
  apply shared_perimeters_owner in Hin as (Ha & g & Hga & _ & Hlen).
  apply wpx_bind. eapply wpx_get_geom; [exact Hg|]. rewrite Hga.
  eapply wpx_set_geom; [exact Hg|]. intros s1 Hs1 Ho1.
  exists a, len, g. splits; auto.
Qed.

End Perimeter.

(** * Intersections and adjacencies *)

Section Tables.

Context `{G : shp.Shapely}.

Lemma new_frame_rows (l : list (shp.geom G * list (string * value))) c (row : Row) :
  In row (rows (new_frame l c)) <->
  exists k x, l !! k = Some x /\ row = mk_row k x.1 x.2.
Proof.
  unfold new_frame. simpl. rewrite <- list_elem_of_In, list_elem_of_lookup. split.
  - intros [k Hk]. rewrite list_lookup_imap in Hk.
    destruct (l !! k) as [x|] eqn:E; [|discriminate]. injection Hk as <-. eauto.
  - intros (k & x & Hx & ->). exists k. rewrite list_lookup_imap, Hx. reflexivity.
Qed.

Lemma new_frame_index (l : list (shp.geom G * list (string * value))) c :
  frame_index (new_frame l c) = seq 0 (List.length l).
Proof.
  unfold frame_index, new_frame. simpl. apply list_eq. intros k.
  rewrite list_lookup_fmap, list_lookup_imap.
  destruct (l !! k) as [x|] eqn:E; simpl.
  - symmetry. apply lookup_seq. split; [reflexivity|]. eapply lookup_lt_Some, E.
  - symmetry. apply lookup_seq_ge. apply lookup_ge_None in E. simpl. lia.
Qed.

(** A row of [intersections_jc]: a row of the sources and a label of the
    targets that the index proposes, with their common part. *)
Definition is_intersection (fs ft : Frame) (row : Row) : Prop :=
  exists ri j gj,
    In ri (rows fs) /\ In j (query_labels ft (geometry ri)) /\
    frame_get_geom j ft = Some gj /\
    col_int "source" row = Some (label ri) /\ col_int "target" row = Some j /\
    geometry row = shp.intersection G (geometry ri) gj /\
    shp.is_empty G (geometry row) = false.

Lemma intersection_rows_spec (fs ft : Frame) x :
  In x (intersection_rows fs ft) <->
  exists ri j gj,
    In ri (rows fs) /\ In j (query_labels ft (geometry ri)) /\
    frame_get_geom j ft = Some gj /\
    shp.is_empty G (shp.intersection G (geometry ri) gj) = false /\
    x = (shp.intersection G (geometry ri) gj,
         [("source", VInt (label ri)); ("target", VInt j)]).
Proof.
  unfold intersection_rows. rewrite in_flat_map. split.
  - intros (ri & Hri & Hx). apply in_flat_map in Hx as (j & Hj & Hx).
    apply list_elem_of_In in Hj. rewrite merge_sort_Permutation in Hj.
    apply list_elem_of_In in Hj.
    destruct (frame_get_geom j ft) as [gj|] eqn:Eg; [|destruct Hx].
    destruct (shp.is_empty G _) eqn:Ee; simpl in Hx; [destruct Hx|].
    destruct Hx as [<-|[]]. exists ri, j, gj. auto.
  - intros (ri & j & gj & Hri & Hj & Hg & He & ->). exists ri. split; [exact Hri|].
    apply in_flat_map. exists j. split.
    + apply list_elem_of_In. rewrite merge_sort_Permutation.
      apply list_elem_of_In, Hj.
    + rewrite Hg, He. left. reflexivity.
Qed.

(** X3. [intersections_jc] refuses two frames with different coordinate
    systems, and makes no frame. *)
Theorem intersections_crs_mismatch (s : St) a b (fs ft : Frame) :
  heap s !! a = Some fs -> heap s !! b = Some ft -> crs fs <> crs ft ->
  intersections_jc a b s = (Raise TypeError, s).
Proof.
  intros Ha Hb Hc. unfold intersections_jc, bind, df_read. rewrite Ha, Hb.
  rewrite bool_decide_eq_false_2 by exact Hc. reflexivity.
Qed.

(** X4. [intersections_jc] returns a new frame with the index [0, 1, ...]
    whose rows are the non-empty common parts of a source and a target,
    one row for each pair that the spatial index proposes. *)
Theorem intersections_rows (s s' : St) a b (fs ft : Frame) r :
  heap s !! a = Some fs -> heap s !! b = Some ft ->
  intersections_jc a b s = (Ok r, s') ->
  exists f,
    r = List.length (heap s) /\ heap s' = heap s ++ [f] /\ out s' = out s /\
    crs f = crs fs /\
    frame_index f = seq 0 (List.length (rows f)) /\
    (forall row, In row (rows f) -> is_intersection fs ft row) /\
    (forall ri j gj,
       In ri (rows fs) -> In j (query_labels ft (geometry ri)) ->
       frame_get_geom j ft = Some gj ->
       shp.is_empty G (shp.intersection G (geometry ri) gj) = false ->
       exists row, In row (rows f) /\
         col_int "source" row = Some (label ri) /\ col_int "target" row = Some j /\
         geometry row = shp.intersection G (geometry ri) gj).
Proof.
  intros Ha Hb. unfold intersections_jc, bind, df_read, df_alloc. rewrite Ha, Hb.
  destruct (bool_decide (crs fs = crs ft)); [|discriminate].
  intros Hrun. injection Hrun as <- <-. simpl.
  exists (new_frame (intersection_rows fs ft) (crs fs)). splits; auto.
  - rewrite new_frame_index. simpl. rewrite length_imap. reflexivity.
  - intros row Hrow. apply new_frame_rows in Hrow as (k & x & Hx & ->).
    apply list_elem_of_lookup_2, list_elem_of_In, intersection_rows_spec in Hx
      as (ri & j & gj & Hri & Hj & Hg & He & ->).
    exists ri, j, gj. splits; auto.
  - intros ri j gj Hri Hj Hg He.
    assert (Hin : In (shp.intersection G (geometry ri) gj,
                      [("source", VInt (label ri)); ("target", VInt j)])
                     (intersection_rows fs ft)).
    { apply intersection_rows_spec. exists ri, j, gj. auto. }
    apply list_elem_of_In, list_elem_of_lookup_1 in Hin as [k Hk].
    eexists. split; [apply new_frame_rows; eauto|]. simpl. auto.
Qed.

Lemma adjacency_rows_spec rook (f : Frame) x :
  In x (adjacency_rows rook f) <->
  exists ri j gj,
    In ri (rows f) /\ In j (query_labels f (geometry ri)) /\ label ri < j /\
    frame_get_geom j f = Some gj /\
    shp.is_empty G (shp.intersection G gj (geometry ri)) = false /\
    (rook = true -> (0 < shp.length G (shp.intersection G gj (geometry ri)))%Q) /\
    x = (shp.intersection G gj (geometry ri),
         [("parent indices", VSet {[label ri; j]})]).
Proof.
  unfold adjacency_rows. rewrite in_flat_map. split.
  - intros (ri & Hri & Hx). apply in_flat_map in Hx as (j & Hj & Hx).
    apply filter_In in Hj as [Hj Hlt]. apply Nat.ltb_lt in Hlt.
    destruct (frame_get_geom j f) as [gj|] eqn:Eg; [|destruct Hx].
    destruct (shp.is_empty G _) eqn:Ee; simpl in Hx; [destruct Hx|].
    destruct (negb rook || Qltb 0 _) eqn:Er; [|destruct Hx].
    destruct Hx as [<-|[]]. exists ri, j, gj. splits; auto.
    intros ->. simpl in Er. apply Qltb_lt, Er.
  - intros (ri & j & gj & Hri & Hj & Hlt & Hg & He & Hr & ->).
    exists ri. split; [exact Hri|]. apply in_flat_map. exists j. split.
    + apply filter_In. split; [exact Hj|]. apply Nat.ltb_lt, Hlt.
    + rewrite Hg, He. simpl. destruct rook; simpl.
      * rewrite (proj2 (Qltb_lt _ _) (Hr eq_refl)). left. reflexivity.
      * left. reflexivity.
Qed.

(** X5. [adjacencies_jc] refuses an adjacency type that is neither
    ["rook"] nor ["queen"], and makes no frame. *)
Theorem adjacencies_bad_type (s : St) r (t : string) :
  t <> "rook" -> t <> "queen" ->
  adjacencies_jc r t s = (Raise ValueError, s).
Proof.
  intros H1 H2. unfold adjacencies_jc.
  destruct (String.eqb_spec t "rook") as [?|_]; [contradiction|].
  destruct (String.eqb_spec t "queen") as [?|_]; [contradiction|].
  reflexivity.
Qed.

(** X6. every row of [adjacencies_jc] is the non-empty common part of two
    rows [i < j] of the frame, recorded as the set [{i, j}]; a rook
    adjacency has positive length. *)
Theorem adjacencies_rows (s s' : St) r (t : string) (f : Frame) r' :
  heap s !! r = Some f ->
  adjacencies_jc r t s = (Ok r', s') ->
  exists fa,
    r' = List.length (heap s) /\ heap s' = heap s ++ [fa] /\ out s' = out s /\
    frame_index fa = seq 0 (List.length (rows fa)) /\
    forall row, In row (rows fa) ->
      exists ri j gj,
        In ri (rows f) /\ label ri < j /\ frame_get_geom j f = Some gj /\
        cols row !! "parent indices" = Some (VSet {[label ri; j]}) /\
        geometry row = shp.intersection G gj (geometry ri) /\
        shp.is_empty G (geometry row) = false /\
        (t = "rook" -> (0 < shp.length G (geometry row))%Q).
Proof.
  intros Hr. unfold adjacencies_jc.
  destruct (negb _); [discriminate|].
  unfold bind, df_read, df_alloc. rewrite Hr. intros Hrun. injection Hrun as <- <-.
  simpl. eexists. splits; try reflexivity.
  - rewrite new_frame_index. simpl. rewrite length_imap. reflexivity.
  - intros row Hrow. apply new_frame_rows in Hrow as (k & x & Hx & ->).
    apply list_elem_of_lookup_2, list_elem_of_In, adjacency_rows_spec in Hx
      as (ri & j & gj & Hri & Hj & Hlt & Hg & He & Hrk & ->).
    exists ri, j, gj. splits; auto.
    intros ->. apply Hrk. reflexivity.
Qed.

End Tables.

(** * Edge cases of the stages *)

Section Edges.

Context `{G : shp.Shapely}.

(** The outcome of a run, exceptions included. *)
Definition wpr {A} (m : M A) (Q : res A -> St -> Prop) (s : St) : Prop :=
  Q (m s).1 (m s).2.

Lemma wpr_bind {A B} (m : M A) (k : A -> M B) (Q : res B -> St -> Prop) s :
  wpx False m (fun a s1 => wpr (k a) Q s1) s -> wpr (bind m k) Q s.
Proof.
  unfold wpx, wpr, bind. destruct (m s) as [[a|e|] s1]; simpl; tauto.
Qed.

Lemma wpr_raise {A} e (Q : res A -> St -> Prop) s : Q (Raise e) s -> wpr (raise e) Q s.
Proof. auto. Qed.

Lemma wpr_bind_any {A B} (m : M A) (k : A -> M B) (Q : res B -> St -> Prop) s :
  wpr m (fun r s1 => match r with
                     | Ok a => wpr (k a) Q s1
                     | Raise e => Q (Raise e) s1
                     | Timeout => Q Timeout s1
                     end) s ->
  wpr (bind m k) Q s.
Proof. unfold wpr, bind. destruct (m s) as [[a|e|] s1]; simpl; tauto. Qed.

Lemma wpr_mono {A} (m : M A) (Q Q' : res A -> St -> Prop) s :
  (forall r s1, Q r s1 -> Q' r s1) -> wpr m Q s -> wpr m Q' s.
Proof. unfold wpr. auto. Qed.

Lemma building_blocks_stops (s : St) r (fg : Frame) :
  heap s !! r = Some fg -> arrangement fg = [] ->
  wpr (building_blocks_jc r) (fun x _ => x = Raise ValueError) s.
Proof.
  intros Hr Harr.
  unfold building_blocks_jc.
  apply wpr_bind. eapply wpx_copy; [exact Hr|]. intros s1 Hs1 _.
  assert (Hg1 : heap s1 !! List.length (heap s) = Some fg)
    by (rewrite Hs1; apply lookup_snoc_new).
  apply wpr_bind. eapply wpx_derive; [exact Hg1|]. intros s2 Hs2 _.
  apply wpr_bind. eapply wpx_read; [rewrite Hs2; apply lookup_snoc_new|].
  apply wpr_bind. eapply wpx_read; [rewrite Hs2; apply lookup_snoc_old, Hg1|].
  fold (arrangement fg). rewrite Harr. simpl.
  apply wpr_bind. apply wpx_alloc'. intros s3 Hs3 _.
  assert (Hp3 : heap s3 !! List.length (heap s2) = Some (new_frame [] (crs fg)))
    by (rewrite Hs3; apply lookup_snoc_new).
  apply wpr_bind. eapply wpx_index; [exact Hp3|]. simpl.
  apply wpr_bind. apply wpx_ret.
  apply wpr_bind. apply wpx_emit'. intros s4 Hs4 _.
  apply wpr_bind. apply wpx_ret.
  assert (Hp4 : heap s4 !! List.length (heap s2) = Some (new_frame [] (crs fg)))
    by (rewrite Hs4; exact Hp3).
  apply wpr_bind. eapply wpx_update; [exact Hp4|]. intros s5 Hs5 _.
  assert (Hp5 : heap s5 !! List.length (heap s2) =
                Some (map_rows set_overlap_degree (new_frame [] (crs fg))))
    by (rewrite Hs5; eapply lookup_upd_eq, Hp4).
  apply wpr_bind. eapply wpx_derive; [exact Hp5|]. intros s6 Hs6 _.
  apply wpr_bind. eapply wpx_read; [rewrite Hs6; apply lookup_snoc_old, Hp5|].
  simpl. reflexivity.
Qed.

(** The frames whose rows all have an exterior: after [explode] every
    geometry is a single polygon.  The program reads [.exterior], which
    other geometries do not have. *)
Definition polygons_only (f : Frame) : Prop :=
  Forall (fun r => shp.geom_type G (geometry r) = Polygon)
         (rows (frame_explode f)).

Definition polygons_onlyb (f : Frame) : bool :=
  forallb (fun r => bool_decide (shp.geom_type G (geometry r) = Polygon))
          (rows (frame_explode f)).

Lemma polygons_onlyb_spec (f : Frame) : polygons_onlyb f = true -> polygons_only f.
Proof.
  unfold polygons_onlyb, polygons_only. intros H. apply Forall_forall.
  intros r Hr. rewrite forallb_forall in H.
  apply list_elem_of_In, H in Hr. exact (bool_decide_eq_true_1 _ Hr).
Qed.

(** X7. on a frame of polygons, when the arrangement of the boundaries
    has no cell at all, [building_blocks_jc] stops with the [ValueError]
    of [max] of an empty sequence. *)
Theorem building_blocks_no_pieces (s : St) r (fg : Frame) :
  heap s !! r = Some fg -> polygons_only fg -> arrangement fg = [] ->
  (building_blocks_jc r s).1 = Raise ValueError.
Proof. intros Hr _ Harr. exact (building_blocks_stops s r fg Hr Harr). Qed.

(** X8. on a frame with no row, when the kernel finds no cell in the
    arrangement of no line, [repair_gdf_jc] stops with that
    [ValueError], whatever its options. *)
Theorem repair_empty_input fuel (s : St) r0 (f0 : Frame) cg mrl :
  heap s !! r0 = Some f0 -> rows f0 = [] ->
  shp.polygonize G (shp.unary_union G []) = [] ->
  (repair_gdf_jc fuel r0 cg mrl s).1 = Raise ValueError.
Proof.
  intros Hr Hrows Hpoly.
  change (wpr (repair_gdf_jc fuel r0 cg mrl) (fun x _ => x = Raise ValueError) s).
  unfold repair_gdf_jc.
  apply wpr_bind. eapply wpx_copy; [exact Hr|]. intros s1 Hs1 _.
  assert (Hg1 : heap s1 !! List.length (heap s) = Some f0)
    by (rewrite Hs1; apply lookup_snoc_new).
  apply wpr_bind. eapply wpx_index; [exact Hg1|].
  unfold frame_index. rewrite Hrows. simpl.
  apply wpr_bind. apply wpx_ret.
  apply wpr_bind. eapply wpx_read; [exact Hg1|].
  apply wpr_bind.
  eapply (wpx_mono _ _ (fun _ s' => heap s' = heap s1)).
  2:{ destruct (crs f0) as [c|]; [destruct (is_geographic c)|];
        first [apply wpx_ret; reflexivity | apply wpx_emit'; auto]. }
  intros _ s2 Hs2. apply wpr_bind_any.
  eapply wpr_mono; [|eapply (building_blocks_stops s2 _ f0)].
  - simpl. intros x _ ->. reflexivity.
  - rewrite Hs2. exact Hg1.
  - unfold arrangement, frame_explode. rewrite Hrows. simpl. exact Hpoly.
Qed.

(** X9. the Reconstructor stops with an [IndexError] when the tower has no
    level. *)
Theorem reconstruct_empty_tower (s : St) r (f : Frame) :
  heap s !! r = Some f ->
  (reconstruct_from_overlap_tower_jc r [] s).1 = Raise IndexError.
Proof.
  intros Hr.
  change (wpr (reconstruct_from_overlap_tower_jc r []) (fun x _ => x = Raise IndexError) s).
  unfold reconstruct_from_overlap_tower_jc.
  apply wpr_bind. eapply wpx_copy; [exact Hr|]. intros s1 Hs1 _.
  apply wpr_bind. simpl. apply wpx_ret.
  apply wpr_bind. eapply wpx_update; [rewrite Hs1; apply lookup_snoc_new|].
  intros s2 Hs2 _. simpl. reflexivity.
Qed.

End Edges.

(** * Filling a small hole *)

Section SmallHole.

Context `{G : shp.Shapely}.

Lemma In_find_row (f : Frame) r :
  NoDup (frame_index f) -> In r (rows f) -> find_row (label r) f = Some r.
Proof.
  unfold find_row, frame_index.
  induction (rows f) as [|x l IH]; simpl; [tauto|].
  intros Hnd [->|Hin].
  - rewrite Nat.eqb_refl. reflexivity.
  - apply NoDup_cons in Hnd as [Hx Hnd].
    destruct (Nat.eqb_spec (label x) (label r)) as [E|E].
    + exfalso. apply Hx. rewrite E. apply list_elem_of_In, in_map, Hin.
    + apply IH; assumption.
Qed.

Lemma NoDup_filter_index p (f : Frame) :
  NoDup (frame_index f) -> NoDup (frame_index (frame_filter p f)).
Proof.
  unfold frame_index, frame_filter. simpl.
  induction (rows f) as [|x l IH]; simpl; [auto|].
  intros Hnd. apply NoDup_cons in Hnd as [Hx Hnd].
  destruct (p x); simpl; [|auto]. apply NoDup_cons. split; [|auto].
  intros Hin. apply Hx. apply list_elem_of_In, in_map_iff in Hin as (y & Hy & Hin).
  apply filter_In in Hin as [Hin _]. rewrite <- Hy. apply list_elem_of_In, in_map, Hin.
Qed.

(** The length that a polygon shares with the boundary of a hole. *)
Definition shared_with (hole g : shp.geom G) : Q :=
  shp.length G (shp.intersection G (shp.boundary G hole) (shp.boundary G g)).

(** The entry of [shared_perimeters] for a row of the boundary frame. *)
Definition perimeter_entry (fg : Frame) (hole : shp.geom G) (rb : Row)
    (e : nat * Q) : Prop :=
  exists t g, col_int "target" rb = Some t /\ frame_get_geom t fg = Some g /\
              e = (label rb, shared_with hole g).

Lemma wp_hole_shared_perimeters (fg fb : Frame) (hole : shp.geom G)
    (Q : list (nat * Q) -> St -> Prop) (s : St) :
  (forall l, Forall2 (perimeter_entry fg hole) (rows fb) l -> Q l s) ->
  wpx True (hole_shared_perimeters fg fb hole) Q s.
Proof.
  unfold hole_shared_perimeters. revert Q.
  induction (rows fb) as [|rb l IH]; intros Q HQ; simpl.
  - apply wpx_ret, HQ. constructor.
  - apply wpx_bind. apply wpx_bind. apply wpx_of_option.
    destruct (col_int "target" rb) as [t|] eqn:Et; [|exact I].
    apply wpx_bind. apply wpx_of_option.
    destruct (frame_get_geom t fg) as [g|] eqn:Eg; [|exact I].
    apply wpx_ret. apply wpx_bind. apply IH. intros ys Hys.
    apply wpx_ret, HQ. constructor; [|exact Hys]. exists t, g. auto.
Qed.

(** X10. a hole that touches at most three polygons is merged whole into
    the polygon that shares the greatest length with its boundary, and
    leaves the frame of the holes; the round is marked as active. *)
Theorem fill_small_hole (s s' : St) gdf hb holes act (nh : list (shp.geom G))
    h_ind (fg fhb fh : Frame) (this_hole : shp.geom G) holes' act' nh' :
  heap s !! holes = Some fh -> heap s !! hb = Some fhb -> heap s !! gdf = Some fg ->
  holes <> gdf -> NoDup (frame_index fhb) ->
  frame_get_geom h_ind fh = Some this_hole ->
  size (list_to_set (C := gset nat)
          (omap (col_int "target")
             (rows (frame_filter
                (fun r => bool_decide (col_int "source" r = Some h_ind)) fhb)))) <= 3 ->
  fill_hole gdf hb (holes, act, nh) h_ind s = (Ok (holes', act', nh'), s') ->
  exists rb t g,
    In rb (rows fhb) /\ col_int "source" rb = Some h_ind /\
    col_int "target" rb = Some t /\ frame_get_geom t fg = Some g /\
    (forall rb2 t2 g2,
       In rb2 (rows fhb) -> col_int "source" rb2 = Some h_ind ->
       col_int "target" rb2 = Some t2 -> frame_get_geom t2 fg = Some g2 ->
       (shared_with this_hole g2 <= shared_with this_hole g)%Q) /\
    heap s' !! gdf =
      Some (frame_set_geom t (shp.unary_union G [g; this_hole]) fg) /\
    heap s' !! holes' =
      Some (frame_filter (fun x => negb (Nat.eqb (label x) h_ind)) fh) /\
    holes' <> holes /\ act' = true /\ nh' = nh.
Proof.
  intros Hh Hb Hg Hne Hnd Hhole Hsize Hrun.
  refine (wpx_use True _
            (fun (r : nat * bool * list (shp.geom G)) s' =>
               let '(holes', act', nh') := r in _) s _ s' _ Hrun).
  unfold fill_hole. simpl.
  apply wpx_bind. eapply wpx_get_geom; [exact Hh|]. rewrite Hhole.
  apply wpx_bind. eapply wpx_derive; [exact Hb|]. intros s1 Hs1 _.
  set (fb := frame_filter _ fhb) in *.
  apply wpx_bind. eapply wpx_read; [rewrite Hs1; apply lookup_snoc_new|].
  apply Nat.leb_le in Hsize. rewrite Hsize.
  assert (Hg1 : heap s1 !! gdf = Some fg) by (rewrite Hs1; apply lookup_snoc_old, Hg).
  apply wpx_bind. eapply wpx_read; [exact Hg1|].
  apply wpx_bind. apply wp_hole_shared_perimeters. intros shared Hshared.
  apply wpx_bind. apply wpx_of_option.
  destruct (max_shared_perim shared) as [m|] eqn:Em; [|exact I].
  pose proof (max_shared_perim_le _ _ Em) as Hmax.
  apply max_shared_perim_In in Em as Hin.
  apply list_elem_of_In, list_elem_of_lookup_1 in Hin as [k Hk].
  destruct (Forall2_lookup_r _ _ _ _ _ Hshared Hk) as (rb & Hrb & t & g & Ht & Hgt & ->).
  assert (Hrbin : In rb (rows fb)) by (eapply list_elem_of_In, list_elem_of_lookup_2, Hrb).
  assert (Hfind : find_row (label rb) fb = Some rb).
  { apply In_find_row; [apply NoDup_filter_index, Hnd|exact Hrbin]. }
  apply wpx_bind. apply wpx_of_option. unfold target_at. simpl. rewrite Hfind, Ht.
  apply wpx_bind. eapply wpx_get_geom; [exact Hg1|]. rewrite Hgt.
  apply wpx_bind. eapply wpx_set_geom; [exact Hg1|]. intros s2 Hs2 _.
  assert (Hh2 : heap s2 !! holes = Some fh).
  { rewrite Hs2. eapply lookup_upd_ne; [|rewrite Hs1; apply lookup_snoc_old, Hh]. auto. }
  apply wpx_bind. eapply wpx_drop; [exact Hh2|].
  unfold frame_get_geom in Hhole.
  destruct (find_row h_ind fh) as [hr|] eqn:Ehr; [|discriminate].
  intros s3 Hs3 _. apply wpx_ret.
  apply filter_In in Hrbin as [Hrbin Hsrc]. apply bool_decide_eq_true_1 in Hsrc.
  exists rb, t, g. splits; auto.
  - intros rb2 t2 g2 Hin2 Hsrc2 Ht2 Hg2.
    assert (Hin2' : In rb2 (rows fb)).
    { apply filter_In. split; [exact Hin2|]. apply bool_decide_eq_true_2, Hsrc2. }
    apply list_elem_of_In, list_elem_of_lookup_1 in Hin2' as [k2 Hk2].
    destruct (Forall2_lookup_l _ _ _ _ _ Hshared Hk2)
      as (e2 & He2 & t2' & g2' & Ht2' & Hg2' & ->).
    assert (t2' = t2) as -> by congruence. assert (g2' = g2) as -> by congruence.
    apply (Hmax (label rb2, shared_with this_hole g2)).
    eapply list_elem_of_In, list_elem_of_lookup_2, He2.
  - rewrite Hs3. apply lookup_snoc_old. rewrite Hs2. eapply lookup_upd_eq, Hg1.
  - rewrite Hs3. apply lookup_snoc_new.
  - apply not_eq_sym. eapply lookup_fresh_ne, Hh2.
Qed.

Lemma flat_map_nil {X Y} (h : X -> list Y) (l : list X) :
  (forall x, In x l -> h x = []) -> flat_map h l = [].
Proof.
  induction l as [|x l IH]; simpl; intros H; [reflexivity|].
  rewrite H by (left; reflexivity). apply IH. intros y Hy. apply H. right. exact Hy.
Qed.

(** X11. when the boundary components of a hole all touch one another,
    there is no pair to connect: [partial_fill_data_jc] gives the whole
    hole, with no hole left over, to the polygon behind the longest
    component. *)
Theorem partial_fill_fallback (s s' : St) hb (f : Frame) (hole : shp.geom G)
    t piece nh :
  heap s !! hb = Some f -> NoDup (frame_index f) ->
  (forall ri rj, In ri (rows f) -> In rj (rows f) -> label ri < label rj ->
     Qeqb (shp.distance G (geometry ri) (geometry rj)) 0 = true) ->
  partial_fill_data_jc hole hb s = (Ok (t, piece, nh), s') ->
  piece = hole /\ nh = [] /\
  exists rb, In rb (rows f) /\ col_int "target" rb = Some t /\
    forall rb2, In rb2 (rows f) ->
      (shp.length G (geometry rb2) <= shp.length G (geometry rb))%Q.
Proof.
  intros Hf Hnd Hd Hrun.
  refine (wpx_use True _
            (fun (r : nat * shp.geom G * list (shp.geom G)) s' =>
               let '(t, piece, nh) := r in _) s _ s' _ Hrun).
  unfold partial_fill_data_jc.
  apply wpx_bind. eapply wpx_copy; [exact Hf|]. intros s1 Hs1 _.
  apply wpx_bind. eapply wpx_read; [rewrite Hs1; apply lookup_snoc_new|].
  assert (Hpd : poly_distances f = []).
  { unfold poly_distances. apply flat_map_nil. intros ri Hri.
    apply flat_map_nil. intros rj Hrj.
    destruct (Nat.ltb_spec (label ri) (label rj)) as [Hlt|_]; [|reflexivity].
    rewrite (Hd ri rj Hri Hrj Hlt). reflexivity. }
  rewrite Hpd. simpl. apply wpx_bind. apply wpx_ret.
  apply wpx_bind. apply wpx_of_option.
  destruct (max_shared_perim _) as [m|] eqn:Em; [|exact I].
  pose proof (max_shared_perim_le _ _ Em) as Hmax.
  apply max_shared_perim_In in Em as Hin.
  apply in_map_iff in Hin as (rb & <- & Hrb). simpl in *.
  apply wpx_bind. apply wpx_of_option. unfold target_at.
  rewrite (In_find_row f rb Hnd Hrb).
  destruct (col_int "target" rb) as [t0|] eqn:Et; [|exact I].
  apply wpx_ret. splits; auto. exists rb. splits; auto.
  intros rb2 Hrb2.
  apply (Hmax (label rb2, shp.length G (geometry rb2))).
  apply in_map_iff. exists rb2. auto.
Qed.

End SmallHole.

(** * Nothing to do *)

Section Idle.

Context `{G : shp.Shapely}.

(** X12. with no hole in the frame of the holes, [close_gaps_jc] stops after
    one turn and returns a copy of the polygons as they are; the turn
    needs the two frames in the same coordinate system. *)
Theorem close_gaps_no_holes fuel (s : St) r h (fg fh : Frame) :
  heap s !! r = Some fg -> heap s !! h = Some fh ->
  rows fh = [] -> crs fh = crs fg ->
  exists s',
    close_gaps_jc (S fuel) r h s = (Ok (List.length (heap s)), s') /\
    heap s' !! List.length (heap s) = Some fg /\
    (forall x, x < List.length (heap s) -> heap s' !! x = heap s !! x) /\
    out s' = out s.
Proof.
  intros Hr Hh Hrows Hcrs.
  destruct (wpx_ok (close_gaps_jc (S fuel) r h)
              (fun r' s' => r' = List.length (heap s) /\
                 heap s' !! List.length (heap s) = Some fg /\
                 (forall x, x < List.length (heap s) -> heap s' !! x = heap s !! x) /\
                 out s' = out s) s) as (r' & s' & Hrun & -> & H); [|eauto].
  unfold close_gaps_jc.
  apply wpx_bind. eapply wpx_copy; [exact Hr|]. intros s1 Hs1 Ho1.
  apply wpx_bind. eapply wpx_copy; [rewrite Hs1; apply lookup_snoc_old, Hh|].
  intros s2 Hs2 Ho2.
  assert (Hg2 : heap s2 !! List.length (heap s) = Some fg).
  { rewrite Hs2. apply lookup_snoc_old. rewrite Hs1. apply lookup_snoc_new. }
  assert (Hh2 : heap s2 !! List.length (heap s1) = Some fh).
  { rewrite Hs2. apply lookup_snoc_new. }
  apply wpx_bind. simpl. apply wpx_bind.
  unfold close_gaps_round.
  apply wpx_bind. unfold intersections_jc.
  apply wpx_bind. eapply wpx_read; [exact Hh2|].
  apply wpx_bind. eapply wpx_read; [exact Hg2|].
  rewrite bool_decide_eq_true_2 by exact Hcrs.
  apply wpx_alloc'. intros s3 Hs3 Ho3.
  assert (He : intersection_rows fh fg = []) by (unfold intersection_rows; rewrite Hrows; reflexivity).
  rewrite He in Hs3.
  apply wpx_bind. eapply wpx_index; [rewrite Hs3; apply lookup_snoc_new|]. simpl.
  apply wpx_bind. apply wpx_ret.
  apply wpx_bind. eapply wpx_derive; [rewrite Hs3; apply lookup_snoc_new|].
  intros s4 Hs4 Ho4.
  apply wpx_bind. eapply wpx_index.
  { rewrite Hs4. apply lookup_snoc_old. rewrite Hs3. apply lookup_snoc_old, Hh2. }
  unfold frame_index. rewrite Hrows. simpl.
  apply wpx_bind. apply wpx_ret. simpl. apply wpx_ret. apply wpx_ret. apply wpx_ret.
  splits; auto.
  - rewrite Hs4. apply lookup_snoc_old. rewrite Hs3. apply lookup_snoc_old, Hg2.
  - intros x Hx. rewrite Hs4, Hs3, Hs2, Hs1.
    rewrite !lookup_app_l; [reflexivity|..]; rewrite ?length_app; simpl; lia.
  - congruence.
Qed.

(** X13. on a frame with no label twice, when no two polygons share a
    line, the rook-to-queen converter returns a copy of the frame as it
    is. *)
Theorem rook_to_queen_no_adjacency (s : St) r (f0 : Frame) (m : Q) :
  heap s !! r = Some f0 -> NoDup (frame_index f0) ->
  adjacency_rows true f0 = [] ->
  exists s',
    small_rook_to_queen_jc r m s = (Ok (List.length (heap s)), s') /\
    heap s' !! List.length (heap s) = Some f0 /\
    (forall x, x < List.length (heap s) -> heap s' !! x = heap s !! x) /\
    out s' = out s.
Proof.
  intros Hr _ Hadj.
  destruct (wpx_ok (small_rook_to_queen_jc r m)
              (fun r' s' => r' = List.length (heap s) /\
                 heap s' !! List.length (heap s) = Some f0 /\
                 (forall x, x < List.length (heap s) -> heap s' !! x = heap s !! x) /\
                 out s' = out s) s) as (r' & s' & Hrun & -> & H); [|eauto].
  unfold small_rook_to_queen_jc.
  apply wpx_bind. eapply wpx_copy; [exact Hr|]. intros s1 Hs1 Ho1.
  assert (Hg1 : heap s1 !! List.length (heap s) = Some f0)
    by (rewrite Hs1; apply lookup_snoc_new).
  apply wpx_bind. unfold adjacencies_jc. simpl.
  apply wpx_bind. eapply wpx_read; [exact Hg1|]. rewrite Hadj.
  apply wpx_alloc'. intros s2 Hs2 Ho2.
  apply wpx_bind. eapply wpx_index; [rewrite Hs2; apply lookup_snoc_new|]. simpl.
  apply wpx_bind. apply wpx_ret.
  apply wpx_bind. eapply wpx_derive; [rewrite Hs2; apply lookup_snoc_new|].
  intros s3 Hs3 Ho3.
  apply wpx_bind. eapply wpx_index; [rewrite Hs3; apply lookup_snoc_new|]. simpl.
  apply wpx_bind. apply wpx_ret.
  apply wpx_bind. eapply wpx_update; [rewrite Hs3; apply lookup_snoc_new|].
  intros s4 Hs4 Ho4.
  apply wpx_bind. eapply wpx_derive.
  { rewrite Hs4. eapply lookup_upd_eq. rewrite Hs3. apply lookup_snoc_new. }
  intros s5 Hs5 Ho5.
  apply wpx_bind. eapply wpx_index; [rewrite Hs5; apply lookup_snoc_new|]. simpl.
  apply wpx_bind. apply wpx_ret. apply wpx_ret.
  assert (Hl2 : List.length (heap s2) = S (S (List.length (heap s))))
    by (rewrite Hs2, Hs1, !length_app; simpl; lia).
  assert (Hold : forall x, x < S (List.length (heap s)) -> heap s5 !! x = heap s1 !! x).
  { intros x Hx. rewrite Hs5, lookup_app_l by (rewrite Hs4, length_insert, Hs3, length_app; lia).
    rewrite Hs4, list_lookup_insert_ne by lia.
    rewrite Hs3, lookup_app_l by lia. rewrite Hs2, lookup_app_l; [reflexivity|].
    rewrite Hs1, length_app. simpl. lia. }
  splits; auto.
  - rewrite Hold by lia. exact Hg1.
  - intros x Hx. rewrite Hold by lia. rewrite Hs1, lookup_app_l by lia. reflexivity.
  - congruence.
Qed.

End Idle.

(** * The stages, from what they are given to what they return *)

Section Stages.

Context `{G : shp.Shapely}.

Lemma blocks_of_run (s s' : St) r (fg : Frame) tower holes :
  heap s !! r = Some fg ->
  building_blocks_jc r s = (Ok (tower, holes), s') ->
  blocks fg tower holes s'.
Proof.
  intros Hr Hrun.
  exact (wpx_use True _ (fun bb s' => blocks fg bb.1 bb.2 s') s _ s'
           (wp_building_blocks s r fg Hr) Hrun).
Qed.

(** X14. [building_blocks_jc] sorts the cells of the arrangement by the
    number of polygons that own them: the frame of the holes has the cells
    that no polygon owns, level [k] of the tower those with [k + 1] owners,
    each frame numbered [0, 1, ...] in the order of the arrangement, and
    the tower is as high as the greatest number of owners. *)
Theorem building_blocks_levels (s s' : St) r (fg : Frame) tower holes :
  heap s !! r = Some fg ->
  building_blocks_jc r s = (Ok (tower, holes), s') ->
  exists T fh,
    Forall2 (fun t f => heap s' !! t = Some f) tower T /\
    heap s' !! holes = Some fh /\
    List.length T = max_list (map (degree fg) (arrangement fg)) /\
    (forall o p, frame_get_geom o fh = Some p <-> level_pieces fg 0 !! o = Some p) /\
    (forall k f, T !! k = Some f ->
       frame_index f = seq 0 (List.length (level_pieces fg (S k))) /\
       forall o p, frame_get_geom o f = Some p <->
                   level_pieces fg (S k) !! o = Some p).
Proof.
  intros Hr Hrun.
  destruct (blocks_of_run s s' r fg tower holes Hr Hrun)
    as (T & fh & HF & Hh & Hfh & Hlen & HT).
  exists T, fh. splits; auto.
  - intros o p. apply holds_get_geom, Hfh.
  - intros k f Hf. pose proof (HT k f Hf) as Hk. split.
    + destruct Hk as [HF2 Hl]. rewrite (frame_index_pos f Hl).
      rewrite (Forall2_length _ _ _ HF2). reflexivity.
    + intros o p. apply holds_get_geom, Hk.
Qed.

End Stages.

Section Partition.

Context `{G : shp.Shapely} `{!Ideal G}.

(** X15. from the tower that [building_blocks_jc] makes of a frame with no
    label twice, the Reconstructor returns a frame with the index and the
    columns of that frame, less its two working columns, in which no two
    polygons share an atom of area and every polygon is made of owned
    cells of the arrangement; when no cell has more than two owners, the
    polygons cover all the owned cells. *)
Theorem reconstruct_partition (s s' : St) r (fg : Frame) tower holes r' :
  heap s !! r = Some fg -> NoDup (frame_index fg) ->
  blocks fg tower holes s ->
  reconstruct_from_overlap_tower_jc r tower s = (Ok r', s') ->
  exists f',
    heap s' !! r' = Some f' /\ skel f' = skel_mod fg /\ apart f' /\
    (forall x, total f' x -> owned fg x) /\
    (max_list (map (degree fg) (arrangement fg)) <= 2 ->
     forall x, owned fg x -> total f' x).
Proof.
  intros Hr Hnd Hb Hrun.
  apply blocks_levels in Hb as (T & fh & HF & Hh & HL & Hlen).
  set (cc := bool_decide (max_list (map (degree fg) (arrangement fg)) <= 2)).
  assert (Hwp : wpx True (reconstruct_from_overlap_tower_jc r tower)
                  (fun r' s' => exists f', heap s' !! r' = Some f' /\
                                           rebuilt T (skel_mod fg) cc f') s).
  { apply (wp_reconstruct cc s r tower fg T); auto.
    - eapply pieces_apart_tail, levels_apart, HL.
    - intros k f Hf. eapply (levels_NoDup fg fh T (S k)); eauto.
    - intros Hc. rewrite Hlen. apply bool_decide_eq_true_1 in Hc. exact Hc. }
  destruct (wpx_use True _ _ s r' s' Hwp Hrun) as (f' & Hf' & Hsk & Hap & Hsub & Hcov).
  exists f'. splits; auto.
  - intros x [a Ha]. apply (pool_owned _ _ _ _ HL Hlen). eapply Hsub, Ha.
  - intros Hd x Hx. apply (pool_owned _ _ _ _ HL Hlen) in Hx.
    apply Hcov; [|exact Hx]. apply bool_decide_eq_true_2, Hd.
Qed.

(** X16. the Disconnection Repair moves area from one polygon to another
    and loses none: when every polygon of the input has at least one
    component, the repaired frame has the index and the columns it had,
    its polygons still share no atom of area, and together they cover
    what they covered. *)
Theorem disconnection_repair_partition (s s' : St) r0 rdf (f0 f : Frame) :
  heap s !! r0 = Some f0 -> heap s !! rdf = Some f -> r0 <> rdf ->
  (forall ind g0, frame_get_geom ind f0 = Some g0 ->
     exists n0, num_components_jc g0 = Some n0 /\ 1 <= n0) ->
  apart f ->
  disconnection_repair r0 rdf s = (Ok tt, s') ->
  exists f',
    heap s' !! rdf = Some f' /\ skel f' = skel f /\ apart f' /\
    (forall x, total f' x <-> total f x).
Proof.
  intros Hr0 Hf Hne Hn0 Hap Hrun.
  assert (HDI : DI r0 rdf f0 (total f) (skel f) s).
  { exists f. splits; auto. }
  destruct (wpx_use True _ _ s tt s'
              (wp_disconnection_repair r0 rdf f0 _ _ Hne Hn0 s HDI) Hrun)
    as (f' & Hf' & _ & Hsk & Hap' & Ht).
  exists f'. splits; auto. intros x. symmetry. apply Ht.
Qed.

(** X17. with the gaps left open and no adjacency to convert,
    [repair_gdf_jc] returns a frame with the index and the columns of the
    input, less the two working columns of the Reconstructor, in which no
    two polygons share an atom of area; the polygons are made of owned
    cells of the arrangement of the flattened input, and cover them all
    when no cell has more than two owners.  The input has no label twice
    and no polygon without a component. *)
Theorem repair_plain_partition fuel (s s' : St) r0 (f0 : Frame) r' :
  heap s !! r0 = Some f0 -> NoDup (frame_index f0) ->
  (forall ind g0, frame_get_geom ind f0 = Some g0 ->
     exists n0, num_components_jc g0 = Some n0 /\ 1 <= n0) ->
  repair_gdf_jc fuel r0 false None s = (Ok r', s') ->
  exists f',
    heap s' !! r' = Some f' /\ skel f' = skel_mod f0 /\ apart f' /\
    (forall x, total f' x -> owned (flat2d f0) x) /\
    (max_list (map (degree (flat2d f0)) (arrangement (flat2d f0))) <= 2 ->
     forall x, owned (flat2d f0) x -> total f' x).
Proof.
  intros Hr0 Hnd Hn0 Hrun.
  destruct (wpx_use True _ _ s r' s' (wp_repair_plain fuel s r0 f0 Hr0 Hnd Hn0) Hrun)
    as (f' & Hf' & Hsk & Hap & Hsub & Hcov).
  exists f'. splits; auto.
Qed.

End Partition.

Section Fresh.

Context `{G : shp.Shapely}.

(** X18. the frame that [repair_gdf_jc] returns is one that it made
    itself: its reference was not in the store before the call, so the
    result is never the frame of the caller nor any other frame that the
    caller holds. *)
Theorem repair_returns_new_frame fuel (s s' : St) r0 cg mrl r' :
  repair_gdf_jc fuel r0 cg mrl s = (Ok r', s') -> heap s !! r' = None.
Proof.
  intros Hrun.
  destruct (eff_repair (fun x => List.length (heap s) <= x) fuel r0 cg mrl s)
    as (_ & _ & _ & Hres); [auto|].
  rewrite Hrun in Hres. simpl in Hres. apply lookup_ge_None, Hres. reflexivity.
Qed.

Lemma building_blocks_keeps (s : St) r x (f : Frame) :
  heap s !! x = Some f -> heap (building_blocks_jc r s).2 !! x = Some f.
Proof.
  intros Hx.
  destruct (eff_building_blocks (fun y => List.length (heap s) <= y)
              (fun _ => True) r I s) as (Hfr & _); [auto|].
  rewrite Hfr; [exact Hx|]. apply lookup_lt_Some in Hx. lia.
Qed.

End Fresh.

(** * The theorems on the grid *)

Section GridRuns.

Import runs.

Notation gframe := (Frame (G := grid.kernel)).
Notation gstate := (St (G := grid.kernel)).

Lemma max_shared_perim_greatest_witness :
  In (1, 3%Q) [(0, 1%Q); (1, 3%Q); (2, 2%Q)] /\
  forall e, In e [(0, 1%Q); (1, 3%Q); (2, 2%Q)] -> (e.2 <= 3)%Q.
Proof.
  apply (max_shared_perim_greatest [(0, 1%Q); (1, 3%Q); (2, 2%Q)] (1, 3%Q)).
  reflexivity.
Defined.

Definition geographic : CRS := {| crs_name := "EPSG:4326"; is_geographic := true |}.

Definition with_crs (c : option CRS) (f : gframe) : gframe :=
  {| rows := rows f; crs := c |}.

Lemma intersections_crs_mismatch_witness :
  intersections_jc 0 1 (start2 cross (with_crs (Some geographic) two_bars)) =
  (Raise TypeError, start2 cross (with_crs (Some geographic) two_bars)).
Proof.
  apply (intersections_crs_mismatch _ 0 1 cross (with_crs (Some geographic) two_bars));
    [reflexivity|reflexivity|discriminate].
Defined.

Lemma adjacencies_bad_type_witness :
  adjacencies_jc 0 "bishop" (start cross) = (Raise ValueError, start cross).
Proof. apply adjacencies_bad_type; discriminate. Defined.

Lemma repair_returns_new_frame_witness : heap (start cross) !! 16 = None.
Proof. exact (repair_returns_new_frame 10 _ _ 0 true None 16 cross_run). Defined.

Lemma NoDup_index2 c (a b : grid.shape) : NoDup (frame_index (dataset c [a; b])).
Proof. exact (NoDup_seq 0 2). Qed.

Lemma intersections_rows_witness :
  exists f : gframe,
    heap (intersections_jc 0 1 (start2 cross two_bars)).2
      = heap (start2 cross two_bars) ++ [f] /\
    frame_index f = seq 0 (List.length (rows f)) /\
    forall row, In row (rows f) -> is_intersection cross two_bars row.
Proof.
  destruct (intersections_rows (start2 cross two_bars)
              (intersections_jc 0 1 (start2 cross two_bars)).2 0 1 cross two_bars 2
              eq_refl eq_refl)
    as (f & _ & Hh & _ & _ & Hi & Hrows & _).
  - apply run_result. vm_compute. reflexivity.
  - exists f. auto.
Defined.

Lemma adjacencies_rows_witness :
  exists fa : gframe,
    heap (adjacencies_jc 0 "rook" (start cross)).2 = heap (start cross) ++ [fa] /\
    frame_index fa = seq 0 (List.length (rows fa)).
Proof.
  destruct (adjacencies_rows (start cross)
              (adjacencies_jc 0 "rook" (start cross)).2 0 "rook" cross 1 eq_refl)
    as (fa & _ & Hh & _ & Hi & _).
  - apply run_result. vm_compute. reflexivity.
  - exists fa. auto.
Defined.

Lemma two_bars_blocks :
  building_blocks_jc 0 (start two_bars) =
  (Ok ([7; 8], 4), (building_blocks_jc 0 (start two_bars)).2).
Proof. apply run_result. vm_compute. reflexivity. Qed.

Lemma building_blocks_levels_witness :
  exists T : list gframe,
    Forall2 (fun t f => heap (building_blocks_jc 0 (start two_bars)).2 !! t = Some f)
            [7; 8] T /\
    List.length T = max_list (map (degree two_bars) (arrangement two_bars)).
Proof.
  destruct (building_blocks_levels (start two_bars)
              (building_blocks_jc 0 (start two_bars)).2 0 two_bars [7; 8] 4
              eq_refl two_bars_blocks)
    as (T & fh & HF & _ & Hlen & _).
  exists T. auto.
Defined.

(** One polygon, and that one empty. *)
Definition one_empty : gframe := dataset "NAME" [squares []].

Lemma building_blocks_no_pieces_witness :
  (building_blocks_jc 0 (start one_empty)).1 = Raise ValueError.
Proof.
  apply (building_blocks_no_pieces _ 0 one_empty); [reflexivity| |].
  - apply polygons_onlyb_spec. vm_compute. reflexivity.
  - vm_compute. reflexivity.
Defined.

Lemma repair_empty_input_witness :
  (repair_gdf_jc 10 0 true None (start (dataset "NAME" []))).1 = Raise ValueError.
Proof.
  apply (repair_empty_input 10 _ 0 (dataset "NAME" [])); [reflexivity|reflexivity|].
  vm_compute. reflexivity.
Defined.

Lemma reconstruct_empty_tower_witness :
  (reconstruct_from_overlap_tower_jc 0 [] (start cross)).1 = Raise IndexError.
Proof. apply (reconstruct_empty_tower _ 0 cross). reflexivity. Defined.

Lemma reconstruct_partition_witness :
  exists f' : gframe,
    heap (reconstruct_from_overlap_tower_jc 0 [7; 8]
            (building_blocks_jc 0 (start two_bars)).2).2 !! 13 = Some f' /\
    skel f' = skel_mod two_bars /\ apart f'.
Proof.
  destruct (reconstruct_partition (building_blocks_jc 0 (start two_bars)).2
              (reconstruct_from_overlap_tower_jc 0 [7; 8]
                 (building_blocks_jc 0 (start two_bars)).2).2 0
              two_bars [7; 8] 4 13)
    as (f' & Hf' & Hsk & Hap & _).
  - apply building_blocks_keeps. reflexivity.
  - apply NoDup_index2.
  - apply (blocks_of_run (start two_bars) _ 0 two_bars [7; 8] 4 eq_refl two_bars_blocks).
  - apply run_result. vm_compute. reflexivity.
  - exists f'. auto.
Defined.

Lemma apart_pair c (a b : grid.shape) :
  grid.faces a ## grid.faces b -> apart (dataset c [a; b]).
Proof.
  intros Hab x y Hxy. unfold gc.
  destruct x as [|[|x]], y as [|[|y]]; cbn; try set_solver.
Qed.

Lemma repair_plain_partition_witness :
  exists f' : gframe,
    heap (repair_gdf_jc 10 0 false None (start two_bars)).2 !! 14 = Some f' /\
    skel f' = skel_mod two_bars /\ apart f' /\
    (forall x, total f' x -> owned (flat2d two_bars) x) /\
    (max_list (map (degree (flat2d two_bars)) (arrangement (flat2d two_bars))) <= 2 ->
     forall x, owned (flat2d two_bars) x -> total f' x).
Proof.
  apply (repair_plain_partition 10 (start two_bars) _ 0 two_bars 14).
  - reflexivity.
  - apply NoDup_index2.
  - apply dataset_nonempty; vm_compute; reflexivity.
  - apply run_result. vm_compute. reflexivity.
Defined.

(** Two squares with a free square between them, and that square as a
    piece that both own. *)
Definition apart_squares : gframe :=
  dataset "NAME" [squares [(1, 1)]; squares [(3, 1)]].

Definition contested : gframe :=
  new_frame (G := grid.kernel)
    [(squares [(2, 1)], [("polygon indices", VSet {[0; 1]})])] None.

Definition contest : gstate := {| heap := [apart_squares; contested]; out := [] |}.

Lemma assign_by_perimeter_greatest_witness :
  exists a len g,
    a ∈ ({[0; 1]} : gset nat) /\ frame_get_geom a apart_squares = Some g /\
    len = shared_with (G := grid.kernel) (squares [(2, 1)]) g /\
    heap (assign_by_perimeter 0 1 apart_squares 0 contest).2
    = <[0 := frame_set_geom a (shp.unary_union grid.kernel [g; squares [(2, 1)]])
               apart_squares]> (heap contest).
Proof.
  destruct (assign_by_perimeter_greatest contest
              (assign_by_perimeter 0 1 apart_squares 0 contest).2
              0 1 apart_squares contested apart_squares 0 (squares [(2, 1)])
              {[0; 1]} eq_refl eq_refl eq_refl eq_refl)
    as (a & len & g & Ha & Hg & Hlen & _ & Hh & _).
  - apply run_result. vm_compute. reflexivity.
  - exists a, len, g. auto.
Defined.

(** The gap of [c_and_bar] as the only hole, and the lines along which it
    touches the two polygons. *)
Definition gap : grid.shape := squares [(2, 2)].

Definition gap_frame : gframe :=
  new_frame (G := grid.kernel) [(gap, [("polygon indices", VSet ∅)])] None.

Definition gap_bounds : gframe :=
  frame_reset_index
    (frame_explode
       (new_frame (G := grid.kernel) (intersection_rows gap_frame c_and_bar) None)).

Definition gap_state : gstate :=
  {| heap := [c_and_bar; gap_frame; gap_bounds]; out := [] |}.

Lemma NoDup_reset_index (f : gframe) : NoDup (frame_index (frame_reset_index f)).
Proof.
  rewrite frame_index_pos; [apply NoDup_seq|].
  simpl. intros k r Hr. rewrite relabel_lookup in Hr.
  destruct (rows f !! k); [|discriminate]. injection Hr as <-. reflexivity.
Qed.

Lemma fill_small_hole_witness :
  exists t g,
    heap (fill_hole 0 2 (1, false, []) 0 gap_state).2 !! 0 =
      Some (frame_set_geom t (shp.unary_union grid.kernel [g; gap]) c_and_bar) /\
    heap (fill_hole 0 2 (1, false, []) 0 gap_state).2 !! 4 =
      Some (frame_filter (fun x => negb (Nat.eqb (label x) 0)) gap_frame).
Proof.
  destruct (fill_small_hole gap_state (fill_hole 0 2 (1, false, []) 0 gap_state).2
              0 2 1 false [] 0 c_and_bar gap_bounds gap_frame gap 4 true []
              eq_refl eq_refl eq_refl)
    as (rb & t & g & _ & _ & _ & _ & _ & Hg & Hh & _).
  - discriminate.
  - apply NoDup_reset_index.
  - reflexivity.
  - apply Nat.leb_le. vm_compute. reflexivity.
  - apply run_result. vm_compute. reflexivity.
  - exists t, g. auto.
Defined.

(** The components of a boundary that all touch one another, as a test. *)
Definition all_touch (f : gframe) : bool :=
  forallb (fun ri =>
    forallb (fun rj =>
      if Nat.ltb (label ri) (label rj)
      then Qeqb (shp.distance grid.kernel (geometry ri) (geometry rj)) 0
      else true) (rows f)) (rows f).

Lemma all_touch_spec (f : gframe) :
  all_touch f = true ->
  forall ri rj, In ri (rows f) -> In rj (rows f) -> label ri < label rj ->
    Qeqb (shp.distance grid.kernel (geometry ri) (geometry rj)) 0 = true.
Proof.
  unfold all_touch. intros H ri rj Hi Hj Hlt.
  rewrite forallb_forall in H. specialize (H ri Hi).
  rewrite forallb_forall in H. specialize (H rj Hj).
  apply Nat.ltb_lt in Hlt. rewrite Hlt in H. exact H.
Qed.

(** The two lines along which the gap of [c_and_bar] touches its two
    polygons meet at their ends: there is a pair, and nothing to connect. *)
Lemma partial_fill_fallback_witness :
  exists t,
    partial_fill_data_jc (G := grid.kernel) gap 0 {| heap := [gap_bounds]; out := [] |}
    = (Ok (t, gap, []),
       (partial_fill_data_jc (G := grid.kernel) gap 0
          {| heap := [gap_bounds]; out := [] |}).2) /\
    List.length (rows gap_bounds) = 2 /\
    exists rb, In rb (rows gap_bounds) /\ col_int "target" rb = Some t /\
      forall rb2, In rb2 (rows gap_bounds) ->
        (shp.length grid.kernel (geometry rb2) <= shp.length grid.kernel (geometry rb))%Q.
Proof.
  exists 0. split; [apply run_result; vm_compute; reflexivity|].
  split; [vm_compute; reflexivity|].
  destruct (partial_fill_fallback (G := grid.kernel)
              {| heap := [gap_bounds]; out := [] |}
              (partial_fill_data_jc (G := grid.kernel) gap 0
                 {| heap := [gap_bounds]; out := [] |}).2
              0 gap_bounds gap 0 gap [] eq_refl)
    as (_ & _ & H).
  - apply NoDup_reset_index.
  - apply all_touch_spec. vm_compute. reflexivity.
  - apply run_result. vm_compute. reflexivity.
  - exact H.
Defined.

Definition no_holes : gframe := new_frame (G := grid.kernel) [] None.

Lemma close_gaps_no_holes_witness :
  exists s' : gstate,
    close_gaps_jc 1 0 1 (start2 cross no_holes) = (Ok 2, s') /\
    heap s' !! 2 = Some cross.
Proof.
  destruct (close_gaps_no_holes 0 (start2 cross no_holes) 0 1 cross no_holes
              eq_refl eq_refl eq_refl eq_refl) as (s' & Hrun & Hg & _).
  exists s'. auto.
Defined.

(** Two squares that meet in a corner: a queen adjacency and no rook
    adjacency. *)
Definition corner_squares : gframe :=
  dataset "NAME" [squares [(1, 1)]; squares [(2, 2)]].

Lemma rook_to_queen_no_adjacency_witness :
  List.length (adjacency_rows false corner_squares) = 1 /\
  exists s' : gstate,
    small_rook_to_queen_jc 0 (1 # 2) (start corner_squares) = (Ok 1, s') /\
    heap s' !! 1 = Some corner_squares.
Proof.
  split; [vm_compute; reflexivity|].
  destruct (rook_to_queen_no_adjacency (start corner_squares) 0 corner_squares (1 # 2)
              eq_refl) as (s' & Hrun & Hg & _).
  - apply NoDup_index2.
  - vm_compute. reflexivity.
  - exists s'. auto.
Defined.

End GridRuns.

(** * What a stage keeps of the frame it works on *)

Section Keeps.

Context `{G : shp.Shapely}.

(** The frame that is worked on, and what is kept of it. *)
Variable gdf : nat.
Variable J : Frame -> Prop.

(** [m] writes to the frames in [W] and to [gdf] only, and leaves [gdf]
    a frame that satisfies [J]. *)
Definition keeps {A} (W : nat -> Prop) (m : M A) (Φ : A -> Prop) : Prop :=
  forall s, (forall x, List.length (heap s) <= x -> W x) -> ~ W gdf ->
    (exists f, heap s !! gdf = Some f /\ J f) ->
    (exists f', heap (m s).2 !! gdf = Some f' /\ J f') /\
    List.length (heap s) <= List.length (heap (m s).2) /\
    (forall a, (m s).1 = Ok a -> Φ a).

Lemma keeps_of_eff {A} W (m : M A) Φ :
  eff W (fun _ => True) m Φ -> keeps W m Φ.
Proof.
  intros He s HW Hg (f & Hf & HJ). destruct (He s HW) as (Hfr & Hlen & _ & HΦ).
  splits; auto. exists f. rewrite Hfr by exact Hg. auto.
Qed.

Lemma keeps_mono {A} W (m : M A) (Φ Ψ : A -> Prop) :
  keeps W m Φ -> (forall a, Φ a -> Ψ a) -> keeps W m Ψ.
Proof.
  intros Hk HΦ s HW Hg Hf. destruct (Hk s HW Hg Hf) as (H1 & H2 & H3). splits; auto.
Qed.

Lemma keeps_bind {A B} W (m : M A) (k : A -> M B) Φ Ψ :
  keeps W m Φ -> (forall a, Φ a -> keeps W (k a) Ψ) -> keeps W (bind m k) Ψ.
Proof.
  intros Hm Hk s HW Hg Hf. destruct (Hm s HW Hg Hf) as (H1 & H2 & H3).
  unfold bind. destruct (m s) as [[a|e|] s1] eqn:E; simpl in *.
  - assert (HW1 : forall x, List.length (heap s1) <= x -> W x)
      by (intros x Hx; apply HW; lia).
    destruct (Hk a (H3 a eq_refl) s1 HW1 Hg H1) as (K1 & K2 & K3).
    splits; auto. lia.
  - splits; auto. discriminate.
  - splits; auto. discriminate.
Qed.

(** A write to the frame itself that keeps [J]. *)
Lemma keeps_update (h : Frame -> Frame) W :
  (forall f, J f -> J (h f)) -> keeps W (df_update h gdf) (fun _ => True).
Proof.
  intros Hh s HW Hg (f & Hf & HJ). unfold df_update, bind, df_read, df_write.
  rewrite Hf. simpl. splits; auto.
  - exists (h f). split; [eapply lookup_upd_eq, Hf|auto].
  - rewrite length_insert. lia.
Qed.

Lemma run_get_geom r i (s : St) (f : Frame) :
  heap s !! r = Some f ->
  df_get_geom r i s =
  match frame_get_geom i f with
  | Some g => (Ok g, s)
  | None => (Raise KeyError, s)
  end.
Proof.
  intros Hf. unfold df_get_geom, bind, df_read. rewrite Hf.
  destruct (frame_get_geom i f); reflexivity.
Qed.

Lemma run_set_geom r i g (s : St) (f : Frame) :
  heap s !! r = Some f ->
  df_set_geom r i g s = (Ok tt, upd r (frame_set_geom i g f) s).
Proof.
  intros Hf. unfold df_set_geom, df_update, bind, df_read. rewrite Hf. reflexivity.
Qed.

Lemma run_modify {B} r i (F : shp.geom G -> shp.geom G) (k : M B) (s : St) (f : Frame) :
  heap s !! r = Some f ->
  (g <- df_get_geom r i ;; df_set_geom r i (F g) ;;; k) s =
  match frame_get_geom i f with
  | Some g => k (upd r (frame_set_geom i (F g) f) s)
  | None => (Raise KeyError, s)
  end.
Proof.
  intros Hf. unfold bind. rewrite (run_get_geom _ _ _ _ Hf).
  destruct (frame_get_geom i f); [|reflexivity].
  rewrite (run_set_geom _ _ _ _ _ Hf). reflexivity.
Qed.

(** Reading a geometry of the frame and writing one made from it. *)
Lemma keeps_modify {B} W i (F : shp.geom G -> shp.geom G) (k : M B) Φ :
  (forall f g, J f -> frame_get_geom i f = Some g -> J (frame_set_geom i (F g) f)) ->
  keeps W k Φ ->
  keeps W (g <- df_get_geom gdf i ;; df_set_geom gdf i (F g) ;;; k) Φ.
Proof.
  intros HF Hk s HW Hg (f & Hf & HJ).
  rewrite (run_modify _ _ _ _ _ _ Hf).
  destruct (frame_get_geom i f) as [g|] eqn:Eg; simpl.
  - set (s1 := upd gdf (frame_set_geom i (F g) f) s).
    assert (Hl : List.length (heap s1) = List.length (heap s))
      by (simpl; apply length_insert).
    destruct (Hk s1) as (K1 & K2 & K3).
    + intros x Hx. apply HW. lia.
    + exact Hg.
    + exists (frame_set_geom i (F g) f). split; [eapply lookup_upd_eq, Hf|eauto].
    + splits; auto. lia.
  - splits; [eauto|lia|discriminate].
Qed.

Lemma keeps_modify_last W i (F : shp.geom G -> shp.geom G) :
  (forall f g, J f -> frame_get_geom i f = Some g -> J (frame_set_geom i (F g) f)) ->
  keeps W (g <- df_get_geom gdf i ;; df_set_geom gdf i (F g)) (fun _ => True).
Proof.
  intros HF.
  assert (Hk : keeps W (g <- df_get_geom gdf i ;; df_set_geom gdf i (F g) ;;; ret tt)
                     (fun _ => True)).
  { apply keeps_modify; [exact HF|]. eapply keeps_mono; [apply keeps_of_eff, eff_ret|].
    auto. }
  intros s HW Hg Hf. specialize (Hk s HW Hg Hf).
  assert (E : forall s, (g <- df_get_geom gdf i ;; df_set_geom gdf i (F g) ;;; ret tt) s
              = (g <- df_get_geom gdf i ;; df_set_geom gdf i (F g)) s).
  { intros s0. unfold bind. destruct (df_get_geom gdf i s0) as [[g| |] s1]; auto.
    destruct (df_set_geom gdf i (F g) s1) as [[[]| |] s2]; auto. }
  rewrite <- E. destruct Hk as (K1 & K2 & K3). splits; auto.
Qed.

Lemma keeps_set_geom W i g :
  (forall f, J f -> J (frame_set_geom i g f)) ->
  keeps W (df_set_geom gdf i g) (fun _ => True).
Proof. intros Hg. apply keeps_update, Hg. Qed.

Lemma keeps_foldM {A X} W (body : A -> X -> M A) (Φ : A -> Prop) l a :
  (forall a x, Φ a -> keeps W (body a x) Φ) -> Φ a -> keeps W (foldM body a l) Φ.
Proof.
  intros Hb. revert a. induction l as [|x l IH]; intros a Ha; simpl.
  - eapply keeps_mono; [apply keeps_of_eff, eff_ret|]. intros ? ->. exact Ha.
  - eapply keeps_bind; [apply Hb, Ha|]. intros a' Ha'. apply IH, Ha'.
Qed.

Lemma keeps_forM {X} W (body : X -> M unit) l :
  (forall x, keeps W (body x) (fun _ => True)) ->
  keeps W (forM_ l body) (fun _ => True).
Proof. intros Hb. unfold forM_. apply keeps_foldM; auto. Qed.

End Keeps.

#[local] Hint Resolve eff_ret eff_raise_none eff_timeout_none eff_alloc eff_read
  eff_write eff_of_option eff_copy eff_derive eff_update eff_index eff_get_geom
  eff_get_col eff_set_geom eff_set_col eff_drop eff_as_set eff_as_int
  eff_emit eff_owners_at eff_adjacencies eff_intersections eff_partial_fill
  eff_hole_shared_perimeters eff_got_worse : effdb.

Ltac pure_leaf := solve [eauto 3 with effdb lia].

Ltac pure_close :=
  first [ pure_leaf
        | eapply eff_mono; [pure_leaf | simpl; intros; simplify_eq/=;
                                        intuition (eauto; try lia)] ].

Ltac pure_step :=
  lazymatch goal with
  | |- eff _ _ (bind (if ?b then _ else _) _) _ => destruct b eqn:?
  | |- eff _ _ (bind (match ?o with _ => _ end) _) _ => destruct o eqn:?
  | |- eff _ _ (bind _ _) _ =>
      eapply eff_bind; [pure_leaf | simpl; intros ? ?; try contradiction]
  | |- eff _ _ (if ?b then _ else _) _ => destruct b eqn:?
  | |- eff _ _ (match ?o with _ => _ end) _ => destruct o eqn:?
  | |- eff _ _ _ _ => pure_close
  end.

Ltac pure_auto := repeat pure_step.

(** One step of a proof of [keeps]: a read of the frame followed by a
    write to it is one action, any other action leaves it alone. *)
Ltac keeps_step :=
  lazymatch goal with
  | |- keeps ?r _ _ (bind (df_get_geom ?r ?i) (fun g => bind (df_set_geom ?r ?i _) _)) _ =>
      eapply keeps_modify; [solve [eauto] | ]
  | |- keeps ?r _ _ (bind (df_get_geom ?r ?i) (fun g => df_set_geom ?r ?i _)) _ =>
      eapply keeps_mono; [eapply keeps_modify_last; solve [eauto] | auto]
  | |- keeps ?r _ _ (bind (df_set_geom ?r _ _) _) _ =>
      eapply keeps_bind; [apply keeps_set_geom; solve [eauto] | simpl; intros ? ?]
  | |- keeps ?r _ _ (df_set_geom ?r _ _) _ => apply keeps_set_geom; solve [eauto]
  | |- keeps _ _ _ (bind (if ?b then _ else _) _) _ => destruct b eqn:?
  | |- keeps _ _ _ (bind (match ?o with _ => _ end) _) _ => destruct o eqn:?
  | |- keeps _ _ _ (bind _ _) _ =>
      eapply keeps_bind;
      [apply keeps_of_eff; pure_leaf | simpl; intros ? ?; try contradiction]
  | |- keeps _ _ _ (if ?b then _ else _) _ => destruct b eqn:?
  | |- keeps _ _ _ (match ?o with _ => _ end) _ => destruct o eqn:?
  | |- keeps _ _ _ _ _ => apply keeps_of_eff; pure_close
  end.

Ltac keeps_auto := repeat keeps_step.

Section Stages.

Context `{G : shp.Shapely}.

Variable J : Frame -> Prop.

(** A stage that works on a copy of its input. *)
Lemma wpx_copy_keeps {A} r (k : nat -> M A) (Φ : nat -> A -> Prop) (f : Frame)
    (Q : A -> St -> Prop) (s : St) :
  heap s !! r = Some f -> J f ->
  (forall g W, keeps g J W (k g) (Φ g)) ->
  (forall a s', Φ (List.length (heap s)) a ->
     (exists f', heap s' !! List.length (heap s) = Some f' /\ J f') ->
     List.length (heap s) < List.length (heap s') -> Q a s') ->
  wpx True (bind (df_copy r) k) Q s.
Proof.
  intros Hr HJ Hk HQ. apply wpx_bind. eapply wpx_copy; [exact Hr|].
  intros s1 Hs1 _. set (g := List.length (heap s)) in *.
  destruct (Hk g (fun x => List.length (heap s1) <= x) s1) as (K1 & K2 & K3).
  - auto.
  - rewrite Hs1, length_app. simpl. unfold g. lia.
  - exists f. split; [rewrite Hs1; apply lookup_snoc_new|exact HJ].
  - unfold wpx. destruct (k g s1) as [[a| |] s2] eqn:E; simpl in *; auto.
    apply HQ; auto. rewrite Hs1, length_app in K2. simpl in K2. unfold g. lia.
Qed.

(** A stage that works on a frame of the store. *)
Lemma wpx_keeps {A} g (m : M A) (Φ : A -> Prop) (f : Frame)
    (Q : A -> St -> Prop) (s : St) :
  heap s !! g = Some f -> J f ->
  keeps g J (fun x => List.length (heap s) <= x) m Φ ->
  (forall a s', Φ a -> (exists f', heap s' !! g = Some f' /\ J f') ->
     List.length (heap s) <= List.length (heap s') -> Q a s') ->
  wpx True m Q s.
Proof.
  intros Hg HJ Hk HQ. destruct (Hk s) as (K1 & K2 & K3).
  - auto.
  - apply lookup_lt_Some in Hg. lia.
  - eauto.
  - unfold wpx. destruct (m s) as [[a| |] s2] eqn:E; simpl in *; auto.
Qed.

Section Gaps.

Variable gdf : nat.

(** What is kept when a polygon is enlarged. *)
Hypothesis J_union : forall f i g x,
  J f -> frame_get_geom i f = Some g ->
  J (frame_set_geom i (shp.unary_union G [g; x]) f).

Lemma keeps_fill_hole W hb st h_ind :
  keeps gdf J W (fill_hole gdf hb st h_ind) (fun st' => W st'.1.1).
Proof. unfold fill_hole. keeps_auto. Qed.

Lemma keeps_close_gaps_round W holes :
  W holes ->
  keeps gdf J W (close_gaps_round gdf holes) (fun o => forall h, o = Some h -> W h).
Proof.
  intros Hh. unfold close_gaps_round. do 2 keeps_step.
  eapply keeps_bind.
  { apply keeps_of_eff, eff_forM. intros. pure_auto. }
  intros _ _. do 2 keeps_step.
  eapply keeps_bind.
  { apply (keeps_foldM _ _ _ _ (fun st => W st.1.1)); auto.
    intros. apply keeps_fill_hole. }
  intros st Hst. destruct st.1.2; [|keeps_auto].
  eapply keeps_bind.
  { apply keeps_of_eff. apply (eff_foldM _ _ _ W); auto.
    intros. pure_auto. }
  intros h' Hh'. keeps_auto.
Qed.

Lemma keeps_close_gaps_loop W fuel holes :
  W holes -> keeps gdf J W (close_gaps_loop fuel gdf holes) (fun _ => True).
Proof.
  revert holes. induction fuel as [|fuel IH]; intros holes Hh; simpl.
  - keeps_auto.
  - eapply keeps_bind; [apply keeps_close_gaps_round, Hh|]. intros [h|] Ho.
    + apply IH. auto.
    + keeps_auto.
Qed.

End Gaps.

Lemma wpx_close_gaps fuel r holes (f : Frame) (Q : nat -> St -> Prop) (s : St) :
  (forall f i g x, J f -> frame_get_geom i f = Some g ->
     J (frame_set_geom i (shp.unary_union G [g; x]) f)) ->
  heap s !! r = Some f -> J f ->
  (forall s', (exists f', heap s' !! List.length (heap s) = Some f' /\ J f') ->
     List.length (heap s) < List.length (heap s') ->
     Q (List.length (heap s)) s') ->
  wpx True (close_gaps_jc fuel r holes) Q s.
Proof.
  intros HU Hr HJ HQ. unfold close_gaps_jc.
  eapply (wpx_copy_keeps _ _ (fun g a => a = g)); [exact Hr|exact HJ| |].
  - intros g W. keeps_step.
    eapply keeps_bind; [apply keeps_close_gaps_loop; auto|]. intros _ _.
    keeps_auto.
  - intros a s' -> Hf Hl. apply HQ; auto.
Qed.

Section Any.

Variable gdf : nat.

(** What is kept whatever geometry is written. *)
Hypothesis J_set : forall f i g, J f -> J (frame_set_geom i g f).

Lemma keeps_rook_to_queen_at W adj_geom :
  keeps gdf J W (rook_to_queen_at gdf adj_geom) (fun _ => True).
Proof.
  unfold rook_to_queen_at. do 3 keeps_step.
  eapply keeps_bind.
  { apply keeps_of_eff. apply (eff_mapM _ _ _ (fun _ => True)). intros. pure_auto. }
  intros bs _. do 2 keeps_step.
  eapply keeps_bind.
  { apply keeps_of_eff, eff_forM. intros. pure_auto. }
  intros _ _.
  eapply keeps_bind.
  { apply keeps_of_eff, eff_forM. intros. pure_auto. }
  intros _ _.
  eapply keeps_bind.
  { apply keeps_of_eff. apply (eff_foldM _ _ _ (fun st => W st.2)); auto.
    intros. pure_auto. }
  intros st Hst.
  eapply keeps_bind.
  { apply keeps_forM. intros. keeps_auto. }
  intros _ _. keeps_step.
  eapply keeps_bind.
  { apply keeps_forM. intros. keeps_auto. }
  intros _ _. do 6 keeps_step.
  eapply keeps_bind.
  { apply keeps_of_eff, eff_forM. intros. pure_auto. }
  intros _ _. do 2 keeps_step.
  apply keeps_forM. intros. keeps_auto.
Qed.

Lemma keeps_peel_fragment W fsnap g_ind g cas big l i :
  keeps gdf J W (peel_fragment gdf fsnap g_ind g cas big l i) (fun _ => True).
Proof. unfold peel_fragment. keeps_auto. Qed.

Lemma keeps_repair_disconnected W r0 fsnap g_ind :
  keeps gdf J W (repair_disconnected r0 gdf fsnap g_ind) (fun _ => True).
Proof.
  unfold repair_disconnected. do 4 keeps_step.
  eapply keeps_bind with (Φ := fun _ => True).
  { apply keeps_of_eff. unfold py_len. pure_auto. }
  intros len _.
  eapply keeps_bind.
  { apply (keeps_foldM _ _ _ _ (fun _ => True)); auto.
    intros. apply keeps_peel_fragment. }
  intros cl _. destruct cl as [|c [|c' cl]].
  - apply keeps_of_eff, eff_emit. exact I.
  - keeps_auto.
  - eapply keeps_bind.
    { apply keeps_of_eff. apply (eff_mapM _ _ _ (fun _ => True)). intros. pure_auto. }
    intros. keeps_auto.
Qed.

Lemma keeps_disconnection_repair W r0 :
  keeps gdf J W (disconnection_repair r0 gdf) (fun _ => True).
Proof.
  unfold disconnection_repair. do 2 keeps_step.
  destruct (Nat.ltb _ _); [|keeps_auto].
  keeps_step. destruct (Nat.ltb _ _); [|keeps_auto]. keeps_step.
  apply keeps_forM. intros. apply keeps_repair_disconnected.
Qed.

Lemma keeps_residual_check W r0 :
  keeps gdf J W (residual_check r0 gdf) (fun _ => True).
Proof.
  apply keeps_of_eff. unfold residual_check. do 2 pure_step.
  apply eff_forM. intros. do 2 pure_step. unfold nc_gt.
  destruct (num_components_jc a1), (num_components_jc a2); pure_auto.
Qed.

End Any.

Lemma wpx_small_rook r m (f : Frame) (Q : nat -> St -> Prop) (s : St) :
  (forall f i g, J f -> J (frame_set_geom i g f)) ->
  heap s !! r = Some f -> J f ->
  (forall s', (exists f', heap s' !! List.length (heap s) = Some f' /\ J f') ->
     List.length (heap s) < List.length (heap s') ->
     Q (List.length (heap s)) s') ->
  wpx True (small_rook_to_queen_jc r m) Q s.
Proof.
  intros HS Hr HJ HQ. unfold small_rook_to_queen_jc.
  eapply (wpx_copy_keeps _ _ (fun g a => a = g)); [exact Hr|exact HJ| |].
  - intros g W. do 2 keeps_step.
    eapply keeps_bind.
    { apply keeps_of_eff, eff_forM. intros x.
      eapply eff_bind; [pure_leaf|]. intros g0 _.
      eapply eff_bind with (Φ := fun _ => True); [pure_auto|].
      intros _ _. pure_auto. }
    intros _ _. do 2 keeps_step.
    eapply keeps_bind.
    { apply keeps_of_eff. apply (eff_foldM _ _ _ W); auto. intros. pure_auto. }
    intros adj Hadj. do 3 keeps_step.
    eapply keeps_bind.
    { apply keeps_forM. intros x. do 5 keeps_step.
      destruct (_ && _); [|keeps_auto].
      eapply keeps_bind; [apply keeps_of_eff; pure_leaf|]. intros.
      apply keeps_rook_to_queen_at, HS. }
    intros _ _. keeps_auto.
  - intros a s' -> Hf Hl. apply HQ; auto.
Qed.

End Stages.

Section KeepsTop.

Context `{G : shp.Shapely} `{!Ideal G}.

(** X19. [close_gaps_jc] works on a copy: when it returns, its result is a
    frame that was not in the store before, with the index, the columns
    and the CRS of the input, and each of its polygons contains every
    atom of area that the polygon of the input with that label has.
    Closing gaps only adds to polygons. *)
Theorem close_gaps_grows fuel (s s' : St) r holes (fg : Frame) r' :
  heap s !! r = Some fg ->
  close_gaps_jc fuel r holes s = (Ok r', s') ->
  heap s !! r' = None /\
  exists f', heap s' !! r' = Some f' /\
    skel f' = skel fg /\ crs f' = crs fg /\ forall a, gc fg a ⊆ gc f' a.
Proof.
  intros Hr Hrun.
  set (J := fun f : Frame =>
    skel f = skel fg /\ crs f = crs fg /\ forall a, gc fg a ⊆ gc f a).
  refine (wpx_use True _
    (fun r' s' => heap s !! r' = None /\ exists f', heap s' !! r' = Some f' /\ J f')
    s r' s' _ Hrun).
  eapply (wpx_close_gaps J); [|exact Hr| |].
  - intros f i g x (Hsk & Hcrs & Hgc) Hg. unfold J. splits.
    + rewrite skel_set_geom. exact Hsk.
    + exact Hcrs.
    + intros a. rewrite gc_set. destruct (decide (a = i)) as [->|]; [|apply Hgc].
      rewrite Hg, cells_union. specialize (Hgc i). unfold gc at 2 in Hgc.
      rewrite Hg in Hgc. set_solver.
  - unfold J. splits; auto.
  - intros s1 Hf Hl. split; [|exact Hf]. apply lookup_ge_None. lia.
Qed.

Lemma wp_repair_columns fuel (s : St) r0 (f0 : Frame) cg mrl :
  heap s !! r0 = Some f0 -> NoDup (frame_index f0) ->
  wpx True (repair_gdf_jc fuel r0 cg mrl)
    (fun r' s' => exists f', heap s' !! r' = Some f' /\ skel f' = skel_mod f0) s.
Proof.
  intros Hr0 Hnd. unfold repair_gdf_jc.
  set (J := fun f : Frame => skel f = skel_mod f0).
  assert (HS : forall f i g, J f -> J (frame_set_geom i g f)).
  { intros f i g Hf. unfold J. rewrite skel_set_geom. exact Hf. }
  apply wpx_bind. eapply wpx_copy; [exact Hr0|]. intros s1 Hs1 _.
  set (gdf := List.length (heap s)) in *.
  assert (Hg1 : heap s1 !! gdf = Some f0) by (rewrite Hs1; apply lookup_snoc_new).
  apply wpx_bind. eapply wpx_index; [exact Hg1|].
  eapply wp_flatten; [exact Hg1|exact Hnd|]. intros s2 Hs2 _.
  assert (Hg2 : heap s2 !! gdf = Some (flat2d f0)).
  { rewrite Hs2. eapply lookup_upd_eq, Hg1. }
  apply wpx_bind. eapply wpx_read; [exact Hg2|].
  apply wpx_bind.
  eapply (wpx_mono _ _ (fun _ s' => heap s' = heap s2)).
  2:{ simpl. destruct (crs f0) as [c|]; [destruct (is_geographic c)|];
        first [apply wpx_ret; reflexivity | apply wpx_emit'; auto]. }
  intros _ s3 Hs3.
  assert (Hg3 : heap s3 !! gdf = Some (flat2d f0)) by (rewrite Hs3; exact Hg2).
  eapply (wp_rebuild false s3 gdf (flat2d f0)); [exact Hg3| |discriminate|].
  { rewrite frame_index_flat2d. exact Hnd. }
  intros bb r1 s4 (f1 & T & fh & Hf1 & _ & _ & _ & (Hsk & _) & _).
  assert (HJ1 : J f1) by (unfold J; rewrite Hsk; apply skel_mod_flat2d).
  apply wpx_bind.
  eapply (wpx_mono _ _ (fun rdf s5 => exists f, heap s5 !! rdf = Some f /\ J f)).
  2:{ destruct cg.
      - apply wpx_bind. apply wpx_emit'. intros s5 Hs5 _.
        eapply (wpx_close_gaps J); [|rewrite Hs5; exact Hf1|exact HJ1|auto].
        intros f i g x Hf _. apply HS, Hf.
      - apply wpx_ret. eauto. }
  intros rdf s5 (f5 & Hf5 & HJ5).
  apply wpx_bind.
  eapply (wpx_keeps J rdf _ _ f5); [exact Hf5|exact HJ5| |].
  { apply keeps_disconnection_repair, HS. }
  intros [] s6 _ (f6 & Hf6 & HJ6) _.
  apply wpx_bind.
  eapply (wpx_keeps J rdf _ _ f6); [exact Hf6|exact HJ6| |].
  { apply keeps_residual_check. }
  intros [] s7 _ (f7 & Hf7 & HJ7) _.
  destruct mrl as [m|].
  - apply wpx_bind. apply wpx_emit'. intros s8 Hs8 _.
    eapply (wpx_small_rook J); [exact HS|rewrite Hs8; exact Hf7|exact HJ7|auto].
  - apply wpx_ret. eauto.
Qed.

(** X21. whatever its options, when [repair_gdf_jc] returns on an input
    that has no label twice, its result has the index and the columns of
    the input, less the two working columns of the Reconstructor: closing
    gaps, reattaching fragments and converting adjacencies change
    geometries only. *)
Theorem repair_keeps_columns fuel (s s' : St) r0 (f0 : Frame) cg mrl r' :
  heap s !! r0 = Some f0 -> NoDup (frame_index f0) ->
  repair_gdf_jc fuel r0 cg mrl s = (Ok r', s') ->
  exists f', heap s' !! r' = Some f' /\ skel f' = skel_mod f0.
Proof.
  intros Hr0 Hnd Hrun.
  exact (wpx_use True _ _ s r' s' (wp_repair_columns fuel s r0 f0 cg mrl Hr0 Hnd) Hrun).
Qed.

End KeepsTop.

Section GridKeeps.

Import runs.

Notation gstate := (St (G := grid.kernel)).
Notation gframe := (Frame (G := grid.kernel)).

(** [c_and_bar] and its gap as the only hole. *)
Definition gap_open : gstate := {| heap := [c_and_bar; gap_frame]; out := [] |}.

Lemma close_gaps_grows_witness :
  heap gap_open !! 2 = None /\
  exists f' : gframe,
    heap (close_gaps_jc 5 0 1 gap_open).2 !! 2 = Some f' /\
    skel f' = skel c_and_bar /\ crs f' = crs c_and_bar /\
    forall a, gc c_and_bar a ⊆ gc f' a.
Proof.
  apply (close_gaps_grows 5 gap_open (close_gaps_jc 5 0 1 gap_open).2 0 1 c_and_bar 2).
  - reflexivity.
  - apply run_result. vm_compute. reflexivity.
Defined.

Lemma repair_keeps_columns_witness :
  exists f' : gframe,
    heap (repair_gdf_jc 10 0 true (Some 2%Q) (start cross)).2 !! 22 = Some f' /\
    skel f' = skel_mod cross.
Proof.
  apply (repair_keeps_columns 10 (start cross)
           (repair_gdf_jc 10 0 true (Some 2%Q) (start cross)).2 0 cross true
           (Some 2%Q) 22).
  - reflexivity.
  - apply NoDup_index2.
  - apply run_result. vm_compute. reflexivity.
Defined.

End GridKeeps.

(** * The Arrangement Builder always returns on an arrangement with a cell *)

Section BlocksTotal.

Context `{G : shp.Shapely}.

(** X22. on a frame of polygons with no label twice, the [ValueError]
    of an arrangement without a cell is the only way [building_blocks_jc]
    fails: when the arrangement has a cell it returns, with a tower as high
    as the greatest number of owners of a cell, every level and the frame
    of the holes in the store.  (A geometry that is no polygon has no
    [.exterior], and a label that is there twice reads a column of
    geometries: the program stops on both.) *)
Theorem building_blocks_returns (s : St) r (fg : Frame) :
  heap s !! r = Some fg -> polygons_only fg -> NoDup (frame_index fg) ->
  arrangement fg <> [] ->
  exists tower holes s',
    building_blocks_jc r s = (Ok (tower, holes), s') /\
    List.length tower = max_list (map (degree fg) (arrangement fg)) /\
    Forall (fun t => is_Some (heap s' !! t)) tower /\
    is_Some (heap s' !! holes).
Proof.
  intros Hr _ _ Hne.
  destruct (wpx_ok _ _ s (wp_building_blocks_in False s r fg Hr Hne))
    as ([tower holes] & s' & Hrun & T & fh & HF & Hh & _ & Hlen & _).
  exists tower, holes, s'. simpl in *.
  splits; [exact Hrun| |clear -HF; induction HF; constructor; eauto|eauto].
  rewrite (Forall2_length _ _ _ HF). exact Hlen.
Qed.

End BlocksTotal.

(** * [migrate.py]: the election columns *)

Module migrate.

Definition partial_cols : list string :=
  ["SEN"; "PRES"; "GOV"; "TRE"; "AG"; "LTGOV"; "AUD"].

(** [x.startswith(y)] *)
Definition startswith (x y : string) : bool := String.prefix y x.

(** [any([x.startswith(y) for y in partial_cols])] *)
Definition is_election_col (x : string) : bool :=
  existsb (startswith x) partial_cols.

(** [l.index(x)]; [None] is the [ValueError] of a value that is not in the
    list. *)
Fixpoint index (x : string) (l : list string) : option nat :=
  match l with
  | [] => None
  | y :: l' => if String.eqb y x then Some 0 else S <$> index x l'
  end.

(** [None] is an exception. *)
Definition autodetect_election_cols (columns : list string)
  : option (list string) :=
  let election_cols := List.filter is_election_col columns in
  if bool_decide ("SEND" ∈ election_cols)
  then i ← index "SEND" election_cols; Some (delete i election_cols)
  else Some election_cols.

End migrate.

Section Migrate.

Import migrate.

Lemma index_delete x (l : list string) :
  x ∈ l ->
  exists i, index x l = Some i /\ delete i l `sublist_of` l /\
    (forall y, y <> x -> count_occ String.string_dec (delete i l) y = count_occ String.string_dec l y) /\
    S (count_occ String.string_dec (delete i l) x) = count_occ String.string_dec l x.
Proof.
  induction l as [|y l IH]; intros Hin; [inversion Hin|].
  simpl. destruct (String.eqb_spec y x) as [->|Hne].
  - exists 0. simpl. splits; auto.
    + apply sublist_cons, reflexivity.
    + intros y Hy. destruct (String.string_dec x y); congruence.
    + destruct (String.string_dec x x); congruence.
  - apply elem_of_cons in Hin as [->|Hin]; [congruence|].
    destruct (IH Hin) as (i & Hi & Hsub & Hoth & Hx). exists (S i).
    rewrite Hi. simpl. splits; auto.
    + apply sublist_skip, Hsub.
    + intros z Hz. destruct (String.string_dec y z); rewrite Hoth; auto.
    + destruct (String.string_dec y x); [congruence|exact Hx].
Qed.

Lemma sublist_filter (q : string -> bool) (l : list string) :
  List.filter q l `sublist_of` l.
Proof.
  induction l as [|x l IH]; simpl; [constructor|].
  destruct (q x); [apply sublist_skip, IH|apply sublist_cons, IH].
Qed.

Lemma count_filter (q : string -> bool) (l : list string) y :
  count_occ String.string_dec (List.filter q l) y =
  if q y then count_occ String.string_dec l y else 0.
Proof.
  induction l as [|x l IH]; simpl; [destruct (q y); reflexivity|].
  destruct (q x) eqn:Ex; simpl; destruct (String.string_dec x y) as [->|Hne].
  - rewrite IH, Ex. reflexivity.
  - exact IH.
  - rewrite IH, Ex. reflexivity.
  - exact IH.
Qed.

Lemma index_first x (l : list string) i :
  index x l = Some i ->
  exists a b, l = a ++ x :: b /\ x ∉ a /\ delete i l = a ++ b.
Proof.
  revert i. induction l as [|y l IH]; intros i; simpl; [discriminate|].
  destruct (String.eqb_spec y x) as [->|Hne].
  - intros [= <-]. exists [], l. splits; [reflexivity|apply not_elem_of_nil|reflexivity].
  - destruct (index x l) as [j|]; [|discriminate]. intros [= <-].
    destruct (IH j eq_refl) as (a & b & -> & Ha & Hd).
    exists (y :: a), b. splits.
    + reflexivity.
    + intros H. apply elem_of_cons in H as [->|H]; [congruence|auto].
    + simpl. rewrite Hd. reflexivity.
Qed.

Lemma filter_split_first (q : string -> bool) x (l a b : list string) :
  List.filter q l = a ++ x :: b -> x ∉ a ->
  exists a' b', l = a' ++ x :: b' /\ x ∉ a' /\
    List.filter q a' = a /\ List.filter q b' = b.
Proof.
  revert a. induction l as [|y l IH]; intros a Hl Ha; simpl in Hl.
  - destruct a; discriminate.
  - destruct (q y) eqn:Ey.
    + destruct a as [|z a]; simpl in Hl.
      * injection Hl as -> <-. exists [], l.
        splits; [reflexivity|apply not_elem_of_nil|reflexivity|reflexivity].
      * injection Hl as -> Hl.
        assert (Ha' : x ∉ a) by (intros H; apply Ha; right; exact H).
        destruct (IH a Hl Ha') as (a' & b' & -> & Hx & Hfa & Hfb).
        exists (z :: a'), b'. splits; auto.
        -- intros H. apply elem_of_cons in H as [->|H]; [|auto].
           apply Ha. left.
        -- simpl. rewrite Ey, Hfa. reflexivity.
    + destruct (IH a Hl Ha) as (a' & b' & -> & Hx & Hfa & Hfb).
      exists (y :: a'), b'. splits; auto.
      * intros H. apply elem_of_cons in H as [->|H]; [|auto].
        assert (Hq : q y = true).
        { assert (Hin : In y (List.filter q (a' ++ y :: b'))).
          { rewrite Hl. apply in_or_app. right. left. reflexivity. }
          apply filter_In in Hin as [_ Hq]. exact Hq. }
        congruence.
      * simpl. rewrite Ey. exact Hfa.
Qed.

(** X23. [autodetect_election_cols] never raises.  It returns, in the
    order of [columns], the names that start with one of the seven office
    prefixes, each as often as it is in [columns], but for ["SEND"], of which
    the first one is left out: [columns] is cut at its first ["SEND"], and
    the result is what is selected before it followed by what is selected
    after it, so that a second ["SEND"] column is returned. *)
Theorem autodetect_election_cols_spec (columns : list string) :
  exists l, autodetect_election_cols columns = Some l /\
    l `sublist_of` columns /\
    (forall x, count_occ String.string_dec l x =
       if is_election_col x
       then count_occ String.string_dec columns x - (if String.eqb x "SEND" then 1 else 0)
       else 0) /\
    (("SEND" ∉ columns /\ l = List.filter is_election_col columns) \/
     (exists a b, columns = a ++ "SEND" :: b /\ "SEND" ∉ a /\
        l = List.filter is_election_col a ++ List.filter is_election_col b)).
Proof.
  unfold autodetect_election_cols.
  set (ec := List.filter is_election_col columns).
  assert (Hsub : ec `sublist_of` columns) by apply sublist_filter.
  assert (Hcnt : forall y, count_occ String.string_dec ec y =
            if is_election_col y then count_occ String.string_dec columns y else 0)
    by (intros y; apply count_filter).
  destruct (bool_decide ("SEND" ∈ ec)) eqn:Hin.
  - apply bool_decide_eq_true_1 in Hin.
    destruct (index_delete "SEND" ec Hin) as (i & Hi & Hs & Hoth & Hx).
    exists (delete i ec). rewrite Hi. simpl. splits; auto.
    + etransitivity; eauto.
    + intros x. destruct (String.eqb_spec x "SEND") as [->|Hne].
      * specialize (Hcnt "SEND"). change (is_election_col "SEND") with true in *.
        cbv iota. lia.
      * rewrite Hoth, Hcnt by exact Hne. destruct (is_election_col x); lia.
    + right. destruct (index_first _ _ _ Hi) as (a & b & Hec & Ha & Hd).
      destruct (filter_split_first _ _ _ _ _ Hec Ha) as (a' & b' & -> & Hna & <- & <-).
      exists a', b'. splits; auto.
  - apply bool_decide_eq_false_1 in Hin.
    exists ec. splits; auto.
    + intros x. rewrite Hcnt.
      destruct (String.eqb_spec x "SEND") as [->|Hne].
      * change (is_election_col "SEND") with true. cbv iota.
        assert (count_occ String.string_dec ec "SEND" = 0) as H0.
        { apply count_occ_not_In. intros H. apply Hin, list_elem_of_In, H. }
        rewrite Hcnt in H0. change (is_election_col "SEND") with true in H0.
        cbv iota in H0. lia.
      * destruct (is_election_col x); lia.
    + left. split; [|reflexivity]. intros H. apply Hin.
      apply list_elem_of_In, filter_In. split; [apply list_elem_of_In, H|reflexivity].
Qed.

End Migrate.

Section GridTotal.

Import runs.

Lemma building_blocks_returns_witness :
  exists tower holes s',
    building_blocks_jc 0 (start two_bars) = (Ok (tower, holes), s') /\
    List.length tower = max_list (map (degree two_bars) (arrangement two_bars)).
Proof.
  destruct (building_blocks_returns (start two_bars) 0 two_bars eq_refl)
    as (tower & holes & s' & Hrun & Hlen & _).
  - apply polygons_onlyb_spec. vm_compute. reflexivity.
  - exact (NoDup_seq 0 2).
  - vm_compute. discriminate.
  - exists tower, holes, s'. auto.
Defined.

End GridTotal.

(** * The polygon that a hole is given to *)

Section Targets.

Context `{G : shp.Shapely}.

Lemma target_at_In (f : Frame) b t :
  target_at f b = Some t ->
  exists rb, In rb (rows f) /\ label rb = b /\ col_int "target" rb = Some t.
Proof.
  unfold target_at. destruct (find_row b f) as [rb|] eqn:E; [|discriminate].
  intros Ht. apply find_row_Some in E as [Hin Hl]. eauto.
Qed.

(** The search for a pair to connect reads the frame it is given and
    nothing else. *)
Lemma wp_connect_pair (E : Prop) (f : Frame) hole ss l (s : St) :
  E -> wpx E (connect_pair f hole ss l) (fun _ s' => s' = s) s.
Proof.
  intros HE. revert ss. induction l as [|[[a b] d] l IH]; intros ss; simpl.
  - apply wpx_ret. reflexivity.
  - apply wpx_bind, wpx_of_option. destruct (frame_get_geom a f); [|exact HE].
    apply wpx_bind, wpx_of_option. destruct (frame_get_geom b f); [|exact HE].
    apply wpx_bind, wpx_of_option. destruct (candidate_segments _ _); [|exact HE].
    destruct (find_line_pair _) as [[l1 l2]|]; [|apply IH].
    destruct (first_cut _ _ _ _).1; [|apply wpx_raise, HE].
    destruct (second_cut _ _ _) as [[piece|] nh]; [apply wpx_ret; reflexivity|apply IH].
Qed.

(** X24. the polygon that [partial_fill_data_jc] names is always the
    ["target"] of a row of the boundary frame it was given, a polygon that
    this hole touches; the function works on a copy of that frame, changes
    no frame and prints nothing. *)
Theorem partial_fill_target (s s' : St) hb (f : Frame) (hole : shp.geom G)
    t piece nh :
  heap s !! hb = Some f ->
  partial_fill_data_jc hole hb s = (Ok (t, piece, nh), s') ->
  (exists rb, In rb (rows f) /\ col_int "target" rb = Some t) /\
  heap s' = heap s ++ [f] /\ out s' = out s.
Proof.
  intros Hf Hrun.
  refine (wpx_use True _
            (fun (r : nat * shp.geom G * list (shp.geom G)) s' =>
               (exists rb, In rb (rows f) /\ col_int "target" rb = Some r.1.1) /\
               heap s' = heap s ++ [f] /\ out s' = out s) s _ s' _ Hrun).
  unfold partial_fill_data_jc.
  apply wpx_bind. eapply wpx_copy; [exact Hf|]. intros s1 Hs1 Ho1.
  apply wpx_bind. eapply wpx_read; [rewrite Hs1; apply lookup_snoc_new|].
  apply wpx_bind. eapply wpx_mono; [|apply wp_connect_pair; exact I].
  simpl. intros found s2 ->.
  destruct found as [[[[a b] pc] nhs]|].
  - apply wpx_bind, wpx_of_option. destruct (frame_get_geom a f); [|exact I].
    apply wpx_bind, wpx_of_option. destruct (frame_get_geom b f); [|exact I].
    destruct (Qltb _ _).
    + apply wpx_bind, wpx_of_option. destruct (target_at f a) as [t0|] eqn:Et; [|exact I].
      apply wpx_ret. simpl. split; [|auto].
      apply target_at_In in Et as (rb & Hin & _ & Hc). eauto.
    + destruct (Qltb _ _); [|apply wpx_raise; exact I].
      apply wpx_bind, wpx_of_option. destruct (target_at f b) as [t0|] eqn:Et; [|exact I].
      apply wpx_ret. simpl. split; [|auto].
      apply target_at_In in Et as (rb & Hin & _ & Hc). eauto.
  - apply wpx_bind, wpx_of_option. destruct (max_shared_perim _) as [m|]; [|exact I].
    apply wpx_bind, wpx_of_option.
    destruct (target_at f m.1) as [t0|] eqn:Et; [|exact I].
    apply wpx_ret. simpl. split; [|auto].
    apply target_at_In in Et as (rb & Hin & _ & Hc). eauto.
Qed.

(** X25. a hole that no polygon touches stops the Gap Closer: when the
    boundary frame has no row for the hole, the body of the loop over the
    holes raises [IndexError], the last entry of an empty list of shared
    perimeters. *)
Theorem fill_hole_untouched (s : St) gdf hb holes act nhs h_ind
    (fg fhb fh : Frame) (this_hole : shp.geom G) :
  heap s !! holes = Some fh -> frame_get_geom h_ind fh = Some this_hole ->
  heap s !! hb = Some fhb -> heap s !! gdf = Some fg ->
  (forall rb, In rb (rows fhb) -> col_int "source" rb <> Some h_ind) ->
  (fill_hole gdf hb (holes, act, nhs) h_ind s).1 = Raise IndexError.
Proof.
  intros Hh Hg Hb Hfg Hnone.
  change (wpr (fill_hole gdf hb (holes, act, nhs) h_ind)
              (fun x _ => x = Raise IndexError) s).
  unfold fill_hole. simpl.
  apply wpr_bind. eapply wpx_get_geom; [exact Hh|]. rewrite Hg.
  apply wpr_bind. eapply wpx_derive; [exact Hb|]. intros s1 Hs1 _.
  assert (Hfil : frame_filter
            (fun r => bool_decide (col_int "source" r = Some h_ind)) fhb
          = {| rows := []; crs := crs fhb |}).
  { unfold frame_filter. f_equal.
    induction (rows fhb) as [|r l IH]; [reflexivity|]. simpl.
    rewrite bool_decide_eq_false_2 by (apply Hnone; left; reflexivity).
    apply IH. intros rb Hrb. apply Hnone. right. exact Hrb. }
  rewrite Hfil in Hs1.
  apply wpr_bind. eapply wpx_read; [rewrite Hs1; apply lookup_snoc_new|].
  simpl.
  apply wpr_bind. eapply wpx_read; [rewrite Hs1; apply lookup_snoc_old, Hfg|].
  apply wpr_bind. unfold hole_shared_perimeters. simpl. apply wpx_ret.
  simpl. reflexivity.
Qed.

End Targets.

Section GridTargets.

Import runs.

Notation gstate := (St (G := grid.kernel)).

(** A hole away from the polygons of [c_and_bar]. *)
Definition far_hole : Frame (G := grid.kernel) :=
  new_frame (G := grid.kernel)
    [(squares [(9, 9)], [("polygon indices", VSet ∅)])] None.

Definition no_bounds : Frame (G := grid.kernel) := new_frame (G := grid.kernel) [] None.

Lemma fill_hole_untouched_witness :
  (fill_hole 0 2 (1, false, []) 0
     ({| heap := [c_and_bar; far_hole; no_bounds]; out := [] |} : gstate)).1
  = Raise IndexError.
Proof.
  apply (fill_hole_untouched _ 0 2 1 false [] 0 c_and_bar no_bounds far_hole
           (squares [(9, 9)])); try reflexivity.
  intros rb [].
Defined.

End GridTargets.

(** * Nothing to reattach *)

Section Steady.

Context `{G : shp.Shapely}.

Variables (r0 rdf : nat) (f0 fr : Frame).

(** A row of the rebuilt frame that has no more components than the
    polygon of the input with its label. *)
Definition steady (r : Row) : Prop :=
  exists g0 n n0,
    frame_get_geom (label r) f0 = Some g0 /\
    num_components_jc (geometry r) = Some n /\
    num_components_jc g0 = Some n0 /\ n <= n0.

Hypothesis Hnd : NoDup (frame_index fr).

Lemma wp_compare (s : St) (x : nat) (Q : bool -> St -> Prop) :
  heap s !! r0 = Some f0 -> heap s !! rdf = Some fr ->
  (exists r, In r (rows fr) /\ label r = x /\ steady r) ->
  Q false s ->
  wpx False
    (g <- df_get_geom rdf x ;;
     g0 <- df_get_geom r0 x ;;
     nc_gt (num_components_jc g) (num_components_jc g0)) Q s.
Proof.
  intros H0 Hr (r & Hin & <- & g0 & n & n0 & Hg0 & Hn & Hn0 & Hle) HQ.
  apply wpx_bind. eapply wpx_get_geom; [exact Hr|].
  unfold frame_get_geom at 1. rewrite (In_find_row fr r Hnd Hin). simpl.
  apply wpx_bind. eapply wpx_get_geom; [exact H0|]. rewrite Hg0.
  rewrite Hn, Hn0. simpl. apply wpx_ret.
  replace (Nat.ltb n0 n) with false; [exact HQ|].
  symmetry. apply Nat.ltb_ge. exact Hle.
Qed.

Lemma wp_got_worse_none (s : St) l :
  heap s !! r0 = Some f0 -> heap s !! rdf = Some fr ->
  Forall (fun x => exists r, In r (rows fr) /\ label r = x /\ steady r) l ->
  wpx False (got_worse r0 rdf l) (fun acc s' => acc = [] /\ s' = s) s.
Proof.
  intros H0 Hr Hl. unfold got_worse. eapply wpx_mono; cycle 1.
  { apply (wpx_foldM False _
      (fun rest acc s' =>
         acc = [] /\ s' = s /\
         Forall (fun x => exists r, In r (rows fr) /\ label r = x /\ steady r) rest)).
    - intros x rest acc s1 (-> & -> & HF). apply Forall_cons in HF as [Hx HF].
      assert (Hc := wp_compare s x
                (fun b s' => b = false /\ s' = s) H0 Hr Hx (conj eq_refl eq_refl)).
      unfold wpx in *. unfold bind in *.
      destruct (df_get_geom rdf x s) as [[g| |] s2]; try contradiction.
      destruct (df_get_geom r0 x s2) as [[g0| |] s3]; try contradiction.
      destruct (nc_gt _ _ s3) as [[b| |] s4]; try contradiction.
      destruct Hc as [-> ->]. simpl. auto.
    - auto. }
  simpl. intros acc s' (-> & -> & _). auto.
Qed.

Lemma wp_residual_none (s : St) l :
  heap s !! r0 = Some f0 -> heap s !! rdf = Some fr ->
  Forall (fun x => exists r, In r (rows fr) /\ label r = x /\ steady r) l ->
  wpx False
    (forM_ l (fun ind =>
       g <- df_get_geom rdf ind ;;
       g0 <- df_get_geom r0 ind ;;
       b <- nc_gt (num_components_jc g) (num_components_jc g0) ;;
       if b then
         emit (PrintIndex "WARNING: A component of the geometry at index " ind
                 " may have been disconnected!")
       else ret tt))
    (fun _ s' => s' = s) s.
Proof.
  intros H0 Hr Hl. unfold forM_. eapply wpx_mono; cycle 1.
  { apply (wpx_foldM False _
      (fun rest (_ : unit) s' =>
         s' = s /\
         Forall (fun x => exists r, In r (rows fr) /\ label r = x /\ steady r) rest)).
    - intros x rest [] s1 (-> & HF). apply Forall_cons in HF as [Hx HF].
      assert (Hc := wp_compare s x
                (fun b s' => b = false /\ s' = s) H0 Hr Hx (conj eq_refl eq_refl)).
      unfold wpx in *. unfold bind in *.
      destruct (df_get_geom rdf x s) as [[g| |] s2]; try contradiction.
      destruct (df_get_geom r0 x s2) as [[g0| |] s3]; try contradiction.
      destruct (nc_gt _ _ s3) as [[b| |] s4]; try contradiction.
      destruct Hc as [-> ->]. simpl. auto.
    - auto. }
  simpl. intros [] s' (-> & _). reflexivity.
Qed.

Lemma steady_index :
  (forall r, In r (rows fr) -> not_polygon r = true -> steady r) ->
  Forall (fun x => exists r, In r (rows fr) /\ label r = x /\ steady r)
         (frame_index (frame_filter not_polygon fr)).
Proof.
  intros Hs. apply Forall_forall. intros x Hx.
  unfold frame_index, frame_filter in Hx. simpl in Hx.
  apply list_elem_of_In, in_map_iff in Hx as (r & <- & Hr).
  apply filter_In in Hr as [Hin Hnp]. exists r. auto.
Qed.

(** X26. when no polygon of the rebuilt frame that is not a single
    polygon has more components than the polygon of the input with its
    label, the reattachment of fragments and the check after it change no
    polygon and print no warning: they return, and leave in the store only
    their two selections of the rows that are not single polygons. *)
Theorem disconnection_repair_steady (s : St) :
  heap s !! r0 = Some f0 -> heap s !! rdf = Some fr ->
  (forall r, In r (rows fr) -> not_polygon r = true -> steady r) ->
  exists s',
    (disconnection_repair r0 rdf ;;; residual_check r0 rdf) s = (Ok tt, s') /\
    heap s' = heap s ++ [frame_filter not_polygon fr; frame_filter not_polygon fr] /\
    out s' = out s.
Proof.
  intros H0 Hr Hs. pose proof (steady_index Hs) as Hix.
  assert (Hw : wpx False (disconnection_repair r0 rdf ;;; residual_check r0 rdf)
            (fun _ s' =>
               heap s' = heap s ++ [frame_filter not_polygon fr;
                                    frame_filter not_polygon fr] /\
               out s' = out s) s).
  { apply wpx_bind. unfold disconnection_repair.
    apply wpx_bind. eapply wpx_derive; [exact Hr|]. intros s1 Hs1 Ho1.
    assert (H01 : heap s1 !! r0 = Some f0) by (rewrite Hs1; apply lookup_snoc_old, H0).
    assert (Hr1 : heap s1 !! rdf = Some fr) by (rewrite Hs1; apply lookup_snoc_old, Hr).
    apply wpx_bind. eapply wpx_index; [rewrite Hs1; apply lookup_snoc_new|].
    assert (Hres : wpx False (residual_check r0 rdf)
              (fun _ s' =>
                 heap s' = heap s ++ [frame_filter not_polygon fr;
                                      frame_filter not_polygon fr] /\
                 out s' = out s) s1).
    { unfold residual_check.
      apply wpx_bind. eapply wpx_derive; [exact Hr1|]. intros s2 Hs2 Ho2.
      apply wpx_bind. eapply wpx_index; [rewrite Hs2; apply lookup_snoc_new|].
      eapply wpx_mono; [|apply wp_residual_none; [| |exact Hix]].
      - simpl. intros _ s3 ->. rewrite Hs2, Hs1, <- app_assoc. split; [reflexivity|].
        congruence.
      - rewrite Hs2. apply lookup_snoc_old, H01.
      - rewrite Hs2. apply lookup_snoc_old, Hr1. }
    destruct (Nat.ltb 0 _); [|apply wpx_ret, Hres].
    apply wpx_bind. eapply wpx_mono; [|apply wp_got_worse_none; [exact H01|exact Hr1|exact Hix]].
    simpl. intros acc s2 (-> & ->). simpl. apply wpx_ret, Hres. }
  destruct (wpx_ok _ _ s Hw) as ([] & s' & Hrun & Hh & Ho). eauto.
Qed.

End Steady.

Section GridSteady.

Import runs.

(** One polygon of two squares that do not touch. *)
Definition two_islands : Frame (G := grid.kernel) :=
  dataset "NAME" [squares [(1, 1); (3, 1)]].

Lemma disconnection_repair_steady_witness :
  exists s',
    (disconnection_repair 0 1 ;;; residual_check 0 1) (start2 two_islands two_islands)
      = (Ok tt, s') /\
    heap s' = heap (start2 two_islands two_islands)
              ++ [frame_filter not_polygon two_islands;
                  frame_filter not_polygon two_islands] /\
    out s' = out (start2 two_islands two_islands).
Proof.
  apply (disconnection_repair_steady 0 1 two_islands two_islands).
  - exact (NoDup_seq 0 1).
  - reflexivity.
  - reflexivity.
  - intros r [<-|[]] _. eexists _, 2, 2. splits; [reflexivity|vm_compute; reflexivity..|lia].
Defined.

End GridSteady.

(** * Runs on a grid with thin columns

    The shapes of the grid kernel, on a grid whose columns from the eighth
    on are strips of width 1/100000: a square of such a column is a sliver
    next to the squares of the other columns.  Areas and lengths are those
    of the strips.  As in shapely, nothing contains the empty shape. *)
Module strips.

Definition width (x : nat) : Q := if Nat.ltb x 8 then 1%Q else (1 # 100000)%Q.

Definition area (g : grid.shape) : Q :=
  foldr Qplus 0%Q (map (fun f : grid.face => width f.1) (elements (grid.faces g))).

(** An edge along the x axis is as long as its column is wide. *)
Definition edge_length (e : grid.edge) : Q := if e.1 then width e.2.1 else 1%Q.

Definition length (g : grid.shape) : Q :=
  foldr Qplus 0%Q
    (map edge_length
       (elements (filter (fun e => grid.sides_in (grid.faces g) e <> 2)
                         (grid.edges g)))).

Definition contains (a b : grid.shape) : bool :=
  negb (grid.is_empty b) && grid.subshape b a.

Definition kernel : shp.Shapely := {|
  shp.geom := grid.shape;
  shp.is_empty := grid.is_empty;
  shp.geom_type := grid.geom_type;
  shp.parts := grid.parts;
  shp.area := area;
  shp.length := length;
  shp.distance := grid.distance;
  shp.boundary := grid.boundary;
  shp.intersection := grid.inter2;
  shp.unary_union := foldr grid.union2 grid.empty;
  shp.polygonize := grid.polygonize;
  shp.representative_point := grid.representative_point;
  shp.exterior_line := grid.boundary;
  shp.empty_polygon := grid.empty;
  shp.mk_multipolygon := foldr grid.union2 grid.empty;
  shp.mk_multilinestring := foldr grid.union2 grid.empty;
  shp.mk_multipoint := shp.mk_multipoint grid.kernel;
  shp.mk_point := shp.mk_point grid.kernel;
  shp.mk_linestring := shp.mk_linestring grid.kernel;
  shp.mk_polygon := shp.mk_polygon grid.kernel;
  shp.coords := shp.coords grid.kernel;
  shp.linemerge := shp.linemerge grid.kernel;
  shp.centroid := shp.centroid grid.kernel;
  shp.buffer := shp.buffer grid.kernel;
  shp.nearest_points := shp.nearest_points grid.kernel;
  shp.split := shp.split grid.kernel;
  shp.contains := contains;
  shp.disjoint := shp.disjoint grid.kernel;
  shp.intersects := grid.meet;
  shp.to_2d := shp.to_2d grid.kernel;
  shp.strtree_query := shp.strtree_query grid.kernel;
|}.

End strips.

#[export] Instance strips_ideal : Ideal strips.kernel := {|
  atom := grid.face;
  cells := grid.faces : shp.geom strips.kernel -> gset grid.face;
  cells_empty := eq_refl;
  cells_union := fun a b => ltac:(simpl; set_solver);
  cells_parts := fun g x _ => grid_cells_parts g x;
  parts_disjoint := fun g i j p q _ => grid_parts_disjoint g i j p q;
  cells_multipolygon := grid_cells_multi;
  polygonize_disjoint := grid_polygonize_disjoint;
|}.

Section StripRuns.

Import runs.

Notation sframe := (Frame (G := strips.kernel)).
Notation sstate := (St (G := strips.kernel)).

Definition strip_set (c : string) (l : list grid.shape) : sframe :=
  {| rows := imap (fun k (g : grid.shape) =>
                     Build_Row (G := strips.kernel) k g {[ c := VStr "precinct" ]}) l;
     crs := None |}.

(** A square and, far from it, another square. *)
Definition two_wide : sframe :=
  strip_set "NAME" [squares [(1, 1)]; squares [(7, 1)]].

(** The first polygon with a sliver of its own on the far side of the
    second one. *)
Definition with_sliver : sframe :=
  strip_set "NAME" [squares [(1, 1); (8, 1)]; squares [(7, 1)]].

Definition sliver_state : sstate := {| heap := [two_wide; with_sliver]; out := [] |}.

(** A hole of one square between four polygons. *)
Definition ring4 : sframe :=
  strip_set "NAME" [squares [(1, 2)]; squares [(2, 1)]; squares [(3, 2)];
                    squares [(2, 3)]].

Definition hole4 : grid.shape := squares [(2, 2)].

Definition hole4_frame : sframe :=
  new_frame (G := strips.kernel) [(hole4, [("polygon indices", VSet ∅)])] None.

Definition hole4_bounds : sframe :=
  frame_reset_index
    (frame_explode
       (new_frame (G := strips.kernel) (intersection_rows hole4_frame ring4) None)).

Lemma run_pair {A B} (p : A * B) (a : A) : p.1 = a -> p = (a, p.2).
Proof. intros <-. destruct p. reflexivity. Qed.

Lemma apart_strips c (a b : grid.shape) :
  grid.faces a ## grid.faces b -> apart (strip_set c [a; b]).
Proof.
  intros Hab x y Hxy. unfold gc.
  destruct x as [|[|x]], y as [|[|y]]; cbn; try set_solver.
Qed.

(** The run of the reattachment on the sliver: it leaves the first polygon
    and joins the second one, the only polygon that it touches. *)
Lemma disconnection_repair_partition_witness :
  (fun f : sframe => map (fun r : Row (G := strips.kernel) =>
                            elements (grid.faces (geometry r : grid.shape))) (rows f))
    <$> heap (disconnection_repair 0 1 sliver_state).2 !! 1
  = Some [[(1, 1)]; [(8, 1); (7, 1)]] /\
  exists f' : sframe,
    heap (disconnection_repair 0 1 sliver_state).2 !! 1 = Some f' /\
    skel f' = skel with_sliver /\ apart f' /\
    forall x, total f' x <-> total with_sliver x.
Proof.
  split; [vm_compute; reflexivity|].
  apply (disconnection_repair_partition sliver_state _ 0 1 two_wide with_sliver).
  - reflexivity.
  - reflexivity.
  - discriminate.
  - intros [|[|ind]] g0 H; cbn in H.
    + injection H as <-. exists 1. split; [vm_compute; reflexivity|lia].
    + injection H as <-. exists 1. split; [vm_compute; reflexivity|lia].
    + discriminate.
  - apply apart_strips.
    apply (bool_decide_unpack
             (grid.faces (squares [(1, 1); (8, 1)]) ## grid.faces (squares [(7, 1)]))).
    vm_compute. exact I.
  - apply run_pair. vm_compute. reflexivity.
Defined.

(** The hole between the four polygons has four lines on its boundary,
    one for each polygon, and two pairs of them do not touch: a pair to
    connect is looked for, none is found, and the hole goes to the polygon
    behind the last of its longest lines. *)
Lemma partial_fill_target_witness :
  size (list_to_set (omap (col_int "target") (rows hole4_bounds)) : gset nat) = 4 /\
  List.length (poly_distances hole4_bounds) = 2 /\
  exists rb, In rb (rows hole4_bounds) /\ col_int "target" rb = Some 3.
Proof.
  split; [vm_compute; reflexivity|]. split; [vm_compute; reflexivity|].
  destruct (partial_fill_target (G := strips.kernel)
              {| heap := [hole4_bounds]; out := [] |}
              (partial_fill_data_jc (G := strips.kernel) hole4 0
                 {| heap := [hole4_bounds]; out := [] |}).2
              0 hole4_bounds hole4 3 hole4 [] eq_refl) as [H _].
  - apply run_pair. vm_compute. reflexivity.
  - exact H.
Defined.

End StripRuns.

